(** * MultiIndex: a shallow embedding of [ns_mi::T_MultiIndex] (MultiIndex.h)

    The container is a class template over the key type, the payload type,
    a relocation policy and a pack of index specifications.  The embedding
    fixes the external collaborators the way the test-suite instantiates
    them most often:

    - keys and projected sub-keys are integers ([Z]) under their usual order;
    - every index map is an ordered, node-stable map ([std::map] when unique,
      [std::multimap] otherwise): iteration follows the key order, an insert
      into a multimap lands at the upper bound of its key, nodes never move,
      so [OnRelocate] never fires and the owner back-pointer is never read;
    - the address of a primary node (what a [T_Handle] holds) is a natural
      number handed out by a bump allocator, the [heap] threaded through
      every operation that allocates;
    - [std::size_t] is a 64-bit unsigned integer.

    The payload type, its optional [operator==], the policy and the index
    pack stay parameters of the development. *)

From Stdlib Require Import List ZArith Lia Bool Permutation PeanoNat.
From Stdlib Require Import Sorting.Sorted.
Import ListNotations.

Set Implicit Arguments.

(** ** Policies (the four built-in templates and their trait bits) *)

Inductive Policy :=
| S_NoInv
| S_UpdatePointerPolicyFull (I_Tombs : bool)
| S_TranslationArrayPolicyFull (I_Tombs : bool)
| S_KeyLookupPolicy.

Definition c_invalidates (p : Policy) : bool :=
  match p with
  | S_NoInv => false
  | S_UpdatePointerPolicyFull _ => true
  | S_TranslationArrayPolicyFull _ => true
  | S_KeyLookupPolicy => false
  end.

Definition c_needs_translation_array (p : Policy) : bool :=
  match p with
  | S_TranslationArrayPolicyFull _ => true
  | _ => false
  end.

Definition c_stores_handle (p : Policy) : bool :=
  match p with
  | S_NoInv => true
  | S_UpdatePointerPolicyFull _ => true
  | _ => false
  end.

Definition c_uses_tombstones (p : Policy) : bool :=
  match p with
  | S_UpdatePointerPolicyFull t => t
  | S_TranslationArrayPolicyFull t => t
  | _ => false
  end.

(** ** [std::size_t] arithmetic of the live counter *)

Definition size_max : Z := 2 ^ 64.
Definition size_wrap (n : Z) : Z := n mod size_max.

(** ** Ordered node maps: [std::map] / [std::multimap] as key-sorted lists *)

Section OrderedMap.
Variable A : Type.
Variable key : A -> Z.

(** [multimap::insert]: the new element goes to the upper bound of its key. *)
Fixpoint map_insert (e : A) (m : list A) : list A :=
  match m with
  | [] => [e]
  | x :: m' => if (key x <=? key e)%Z then x :: map_insert e m' else e :: m
  end.

(** [map::find]: the first element whose key is [k]. *)
Definition map_find (k : Z) (m : list A) : option A :=
  find (fun x => (key x =? k)%Z) m.

Definition map_contains (k : Z) (m : list A) : bool :=
  existsb (fun x => (key x =? k)%Z) m.

(** The loop
    [for (it = f; it != l; ++it) if (match(it)) { m.erase(it); break; }]
    over [[f, l) = m.equal_range(k)]. *)
Fixpoint range_scan (k : Z) (p : A -> bool) (m : list A) : list A :=
  match m with
  | [] => []
  | x :: m' =>
      if (k <? key x)%Z then m
      else if p x then m'
      else x :: range_scan k p m'
  end.

Fixpoint erase_in_range (k : Z) (p : A -> bool) (m : list A) : list A :=
  match m with
  | [] => []
  | x :: m' =>
      if (key x <? k)%Z then x :: erase_in_range k p m'
      else range_scan k p m
  end.

Definition map_sorted (m : list A) : Prop :=
  StronglySorted (fun a b => (key a <= key b)%Z) m.
End OrderedMap.

(** ** How a call ends *)

(** A call into the maps returns a flag, or an exception escapes it (an
    allocation failure inside a map insert). *)
Inductive outcome :=
| Done (ok : bool)
| Threw.

(** A public operation returns a value or lets the exception through. *)
Inductive result (R : Type) :=
| Returned (r : R)
| Thrown.
Arguments Thrown {R}.

Section MultiIndex.

Variable Payload : Type.
(** [operator==] of the payload, when [O_EqualityComparable<P_Payload>]. *)
Variable operator_eq : option (Payload -> Payload -> bool).
Variable policy : Policy.

(** ** [T_Index]: one index specification *)
Record T_Index := mk_index {
  is_storage : bool;          (* I_Storage: this spec is the primary *)
  is_unique : bool;           (* is_unique_v of the map it instantiates *)
  I_Proj : Z -> Payload -> Z  (* the projection, in its binary form *)
}.

Definition Project (s : T_Index) (k : Z) (p : Payload) : Z :=
  if negb (is_storage s) then I_Proj s k p else k.

Variable specs : list T_Index.

Fixpoint stor_pos_from (l : list T_Index) (i : nat) : option nat :=
  match l with
  | [] => None
  | s :: l' => if is_storage s then Some i else stor_pos_from l' (S i)
  end.

Definition stor_pos_v : nat :=
  match stor_pos_from specs 0 with Some i => i | None => 0%nat end.

Definition c_prim_idx : nat := stor_pos_v.

Definition c_primary_is_unique : bool :=
  match nth_error specs c_prim_idx with
  | Some s => is_unique s
  | None => false
  end.

Definition c_tombstones : bool := c_uses_tombstones policy.
Definition c_needs_transl_array : bool := c_needs_translation_array policy.

(** ** Records, handles, iterators *)

(** A node of the primary map: the [std::pair<const key, t_wrap>] together
    with the address it lives at.  [dead] and [trans_idx] are the wrapper's
    optional members; a wrapper shape without them keeps the defaults. *)
Record t_pair := mk_pair {
  addr : nat;
  first : Z;
  m_value : Payload;
  dead : bool;
  trans_idx : nat
}.

Definition set_dead (b : bool) (r : t_pair) : t_pair :=
  mk_pair (addr r) (first r) (m_value r) b (trans_idx r).
Definition set_value (v : Payload) (r : t_pair) : t_pair :=
  mk_pair (addr r) (first r) v (dead r) (trans_idx r).
Definition set_trans (i : nat) (r : t_pair) : t_pair :=
  mk_pair (addr r) (first r) (m_value r) (dead r) i.

(** A raw primary iterator is the address of its node, [None] for [end()].
    A [T_Handle] is the same pointer, [None] for the null handle. *)
Definition t_iter := option nat.
Definition t_handle := option nat.

Definition iter_eqb (a b : t_iter) : bool :=
  match a, b with
  | None, None => true
  | Some x, Some y => (x =? y)%nat
  | _, _ => false
  end.

(** What a secondary map stores for a record, by policy. *)
Inductive t_sec_value :=
| SvHandle (a : nat)
| SvOrdinal (i : nat)
| SvKey (k : Z).

Definition t_sec_map := list (Z * t_sec_value).

Record T_MultiIndex := mk_mi {
  m_storage : list t_pair;       (* primary map, in iteration order *)
  m_second : list t_sec_map;     (* t_sec_tuple, one slot per spec *)
  transl : list nat;             (* translation array of the policy *)
  m_live : Z                     (* T_LiveCounterBase::m_live *)
}.

Definition empty_mi : T_MultiIndex :=
  mk_mi [] (map (fun _ => []) specs) [] 0.

Definition set_storage (m : list t_pair) (st : T_MultiIndex) :=
  mk_mi m (m_second st) (transl st) (m_live st).
Definition set_second (ms : list t_sec_map) (st : T_MultiIndex) :=
  mk_mi (m_storage st) ms (transl st) (m_live st).
Definition set_transl (t : list nat) (st : T_MultiIndex) :=
  mk_mi (m_storage st) (m_second st) t (m_live st).
Definition set_live (n : Z) (st : T_MultiIndex) :=
  mk_mi (m_storage st) (m_second st) (transl st) n.

(** *** Node access through a pointer *)

Definition deref (m : list t_pair) (a : nat) : option t_pair :=
  find (fun x => (addr x =? a)%nat) m.

(** Store [r] back into the node it was read from. *)
Definition write (r : t_pair) (m : list t_pair) : list t_pair :=
  map (fun x => if (addr x =? addr r)%nat then r else x) m.

(** [m_storage.erase(it)] *)
Fixpoint erase_node (a : nat) (m : list t_pair) : list t_pair :=
  match m with
  | [] => []
  | x :: m' => if (addr x =? a)%nat then m' else x :: erase_node a m'
  end.

(** *** Raw iteration *)

Definition iter_of (suffix : list t_pair) : t_iter :=
  match suffix with
  | [] => None
  | x :: _ => Some (addr x)
  end.

Fixpoint seek_addr (m : list t_pair) (a : nat) : list t_pair :=
  match m with
  | [] => []
  | x :: m' => if (addr x =? a)%nat then m else seek_addr m' a
  end.

(** The nodes from [it] to the end of the map. *)
Definition seek (m : list t_pair) (it : t_iter) : list t_pair :=
  match it with
  | None => []
  | Some a => seek_addr m a
  end.

Definition iter_next (m : list t_pair) (it : t_iter) : t_iter :=
  iter_of (tl (seek m it)).

Fixpoint drop_while (p : t_pair -> bool) (m : list t_pair) : list t_pair :=
  match m with
  | [] => []
  | x :: m' => if p x then drop_while p m' else m
  end.

Definition lower_bound (m : list t_pair) (k : Z) : t_iter :=
  iter_of (drop_while (fun x => (first x <? k)%Z) m).
Definition upper_bound (m : list t_pair) (k : Z) : t_iter :=
  iter_of (drop_while (fun x => (first x <=? k)%Z) m).

(** [m_storage.equal_range(key)] *)
Definition storage_equal_range (m : list t_pair) (k : Z) : t_iter * t_iter :=
  (lower_bound m k, upper_bound m k).

(** [SkipDead(it, end)]:
    [while (it != end && it->second.IsDead()) ++it; return it;] *)
Fixpoint SkipDead_from (suffix : list t_pair) (e : t_iter) : t_iter :=
  match suffix with
  | [] => None
  | x :: rest =>
      if iter_eqb (Some (addr x)) e then e
      else if dead x then SkipDead_from rest e
      else Some (addr x)
  end.

Definition SkipDead (m : list t_pair) (it e : t_iter) : t_iter :=
  SkipDead_from (seek m it) e.

(** [const_iterator] is [T_LiveIter] under tombstones and the raw iterator
    otherwise.  Every [T_LiveIter] the container builds has
    [m_end = m_storage.end()], and iterators compare by [m_it] alone, so a
    [const_iterator] is represented by its [m_it]. *)
Definition ToIterator (st : T_MultiIndex) (it : t_iter) : t_iter :=
  if c_tombstones then SkipDead (m_storage st) it None else it.

Definition end_ : t_iter := None.
Definition begin_ (st : T_MultiIndex) : t_iter :=
  ToIterator st (iter_of (m_storage st)).

(** [++it] on a [const_iterator] *)
Definition iter_incr (st : T_MultiIndex) (it : t_iter) : t_iter :=
  if c_tombstones
  then SkipDead (m_storage st) (iter_next (m_storage st) it) None
  else iter_next (m_storage st) it.

(** ** Live counter ([T_LiveCounterBase]) *)

Definition IncrementLive (st : T_MultiIndex) : T_MultiIndex :=
  if c_tombstones then set_live (size_wrap (m_live st + 1)) st else st.
Definition DecrementLive (st : T_MultiIndex) : T_MultiIndex :=
  if c_tombstones then set_live (size_wrap (m_live st - 1)) st else st.
Definition SetLive (n : Z) (st : T_MultiIndex) : T_MultiIndex :=
  if c_tombstones then set_live n st else st.
Definition GetLive (st : T_MultiIndex) : Z :=
  if c_tombstones then m_live st else 0%Z.

Definition size (st : T_MultiIndex) : Z :=
  if c_tombstones then GetLive st
  else Z.of_nat (length (m_storage st)).

(** ** Policy callbacks *)

Definition GetSecondaryValue (h : t_pair) : t_sec_value :=
  match policy with
  | S_NoInv => SvHandle (addr h)
  | S_UpdatePointerPolicyFull _ => SvHandle (addr h)
  | S_TranslationArrayPolicyFull _ => SvOrdinal (trans_idx h)
  | S_KeyLookupPolicy => SvKey (first h)
  end.

Definition MatchSecondary (st : T_MultiIndex) (v : t_sec_value) (h : t_pair)
  : bool :=
  match policy, v with
  | S_NoInv, SvHandle a => (a =? addr h)%nat
  | S_UpdatePointerPolicyFull _, SvHandle a => (a =? addr h)%nat
  | S_TranslationArrayPolicyFull _, SvOrdinal i =>
      match nth_error (transl st) i with
      | Some p => (p =? addr h)%nat
      | None => false
      end
  | S_KeyLookupPolicy, SvKey k => (k =? first h)%Z
  | _, _ => false
  end.

Definition ToHandle (st : T_MultiIndex) (v : t_sec_value) : t_handle :=
  match policy, v with
  | S_NoInv, SvHandle a => Some a
  | S_UpdatePointerPolicyFull _, SvHandle a => Some a
  | S_TranslationArrayPolicyFull _, SvOrdinal i => nth_error (transl st) i
  | S_KeyLookupPolicy, SvKey k =>
      option_map addr (map_find first k (m_storage st))
  | _, _ => None
  end.

(** [OnEmplaceSuccess(h, &*it)]: the translation policy pushes the node's
    address and records the slot in the node; the others do nothing.
    Returns the container and the node as it reads afterwards. *)
Definition OnEmplaceSuccess (st : T_MultiIndex) (h : t_pair)
  : T_MultiIndex * t_pair :=
  if c_needs_transl_array then
    let h' := set_trans (length (transl st)) h in
    (set_transl (transl st ++ [addr h])
                (set_storage (write h' (m_storage st)) st), h')
  else (st, h).

Definition OnEmplaceFail (st : T_MultiIndex) : T_MultiIndex :=
  if c_needs_transl_array
  then set_transl (removelast (transl st)) st
  else st.

Definition PolicyClear (st : T_MultiIndex) : T_MultiIndex :=
  if c_needs_transl_array then set_transl [] st else st.


(** ** The secondary tuple *)

(** [idx<I>()] *)
Definition idx (st : T_MultiIndex) (I_I : nat) : t_sec_map :=
  nth I_I (m_second st) [].

Fixpoint list_set (B : Type) (i : nat) (x : B) (l : list B) : list B :=
  match l, i with
  | [], _ => []
  | _ :: l', O => x :: l'
  | y :: l', S i' => y :: list_set i' x l'
  end.

Definition set_idx (I_I : nat) (m : t_sec_map) (st : T_MultiIndex) :=
  set_second (list_set I_I m (m_second st)) st.

(** [ForEachSecondary(f)]: the fold [(f<I_Is>() && ...)] over the index
    sequence of the spec pack, left to right, stopping at the first
    [false] (or at an exception). *)
Fixpoint ForEachSecondary
         (f : nat -> T_MultiIndex -> T_MultiIndex * outcome)
         (I_Is : list nat) (st : T_MultiIndex) : T_MultiIndex * outcome :=
  match I_Is with
  | [] => (st, Done true)
  | I_I :: rest =>
      match f I_I st with
      | (st', Done true) => ForEachSecondary f rest st'
      | r => r
      end
  end.

Definition index_sequence : list nat := seq 0 (length specs).

(** The body shared by [Rollback] and [DropSecs]: walk the equal range of
    the projected key and erase the entry the policy matches to [h]. *)
Definition drop_entry (st : T_MultiIndex) (s : T_Index) (h : t_pair)
           (m : t_sec_map) : t_sec_map :=
  erase_in_range (@fst Z t_sec_value)
                 (Project s (first h) (m_value h))
                 (fun e => MatchSecondary st (snd e) h) m.

Definition Rollback_step (I_I : nat) (h : t_pair) (I_J : nat)
           (st : T_MultiIndex) : T_MultiIndex * outcome :=
  match nth_error specs I_J with
  | Some s =>
      if (I_J <? I_I)%nat && negb (is_storage s)
      then (set_idx I_J (drop_entry st s h (idx st I_J)) st, Done true)
      else (st, Done true)
  | None => (st, Done true)
  end.

(** [Rollback<I_I>(h)] *)
Definition Rollback (I_I : nat) (st : T_MultiIndex) (h : t_pair)
  : T_MultiIndex :=
  fst (ForEachSecondary (Rollback_step I_I h) index_sequence st).

Definition ignored (I_Ignore : option nat) (I_I : nat) : bool :=
  match I_Ignore with
  | Some j => (I_I =? j)%nat
  | None => false
  end.

Definition DropSecs_step (I_Ignore : option nat) (h : t_pair) (I_I : nat)
           (st : T_MultiIndex) : T_MultiIndex * outcome :=
  match nth_error specs I_I with
  | Some s =>
      if negb (is_storage s) && negb (ignored I_Ignore I_I)
      then (set_idx I_I (drop_entry st s h (idx st I_I)) st, Done true)
      else (st, Done true)
  | None => (st, Done true)
  end.

(** [DropSecs<I_Ignore>(h)]; [None] is the default [size_t(-1)]. *)
Definition DropSecs (I_Ignore : option nat) (st : T_MultiIndex) (h : t_pair)
  : T_MultiIndex :=
  fst (ForEachSecondary (DropSecs_step I_Ignore h) index_sequence st).

(** [throws I] tells whether the insert into secondary [I] lets an
    exception escape. *)
Definition AddSecs_step (throws : nat -> bool) (h : t_pair) (I_I : nat)
           (st : T_MultiIndex) : T_MultiIndex * outcome :=
  match nth_error specs I_I with
  | Some s =>
      if negb (is_storage s) then
        let m := idx st I_I in
        let k := Project s (first h) (m_value h) in
        if throws I_I then (st, Threw)
        else if is_unique s then
          if map_contains (@fst Z t_sec_value) k m
          then (Rollback I_I st h, Done false)
          else (set_idx I_I (map_insert (@fst Z t_sec_value)
                                        (k, GetSecondaryValue h) m) st,
                Done true)
        else (set_idx I_I (map_insert (@fst Z t_sec_value)
                                      (k, GetSecondaryValue h) m) st,
              Done true)
      else (st, Done true)
  | None => (st, Done true)
  end.

(** [AddSecs(h)], with its [catch (...) { DropSecs(h); throw; }]. *)
Definition AddSecs (throws : nat -> bool) (st : T_MultiIndex) (h : t_pair)
  : T_MultiIndex * outcome :=
  match ForEachSecondary (AddSecs_step throws h) index_sequence st with
  | (st', Threw) => (DropSecs None st' h, Threw)
  | r => r
  end.

Definition no_throw : nat -> bool := fun _ => false.

(** ** Lookup *)

(** [equal_range(key)] *)
Definition equal_range (st : T_MultiIndex) (k : Z) : t_iter * t_iter :=
  let (f, l) := storage_equal_range (m_storage st) k in
  (ToIterator st f, ToIterator st l).

Definition IsDead (st : T_MultiIndex) (it : t_iter) : bool :=
  match seek (m_storage st) it with
  | x :: _ => dead x
  | [] => false
  end.

(** [find(key)] *)
Definition find_ (st : T_MultiIndex) (k : Z) : t_iter :=
  let (it, it_l) := storage_equal_range (m_storage st) k in
  if c_tombstones then
    if iter_eqb it it_l then end_
    else if IsDead st it then
      if negb c_primary_is_unique then
        let it' := SkipDead (m_storage st) it it_l in
        if iter_eqb it' it_l then end_
        else SkipDead (m_storage st) it' None
      else end_
    else SkipDead (m_storage st) it None
  else if iter_eqb it it_l then end_ else it.

Definition contains (st : T_MultiIndex) (k : Z) : bool :=
  negb (iter_eqb (find_ st k) end_).

(** ** Emplacement *)

Definition mark (b : bool) (h : t_pair) (st : T_MultiIndex) : T_MultiIndex :=
  set_storage (write (set_dead b h) (m_storage st)) st.

(** [emplace(k, args...)]; [heap] is the next free node address. *)
Definition emplace (throws : nat -> bool) (heap : nat) (st : T_MultiIndex)
           (k : Z) (v : Payload)
  : nat * T_MultiIndex * result (t_iter * bool) :=
  match (if c_primary_is_unique && c_tombstones
         then map_find first k (m_storage st) else None) with
  | Some it0 =>
      if dead it0 then
        (* revive a dead node *)
        let h := set_value v (set_dead false it0) in
        let st1 := set_storage (write h (m_storage st)) st in
        match AddSecs throws st1 h with
        | (st2, Done true) =>
            (heap, IncrementLive st2,
             Returned (ToIterator st2 (Some (addr it0)), true))
        | (st2, Done false) => (heap, mark true h st2, Returned (end_, false))
        | (st2, Threw) => (heap, mark true h st2, Thrown)
        end
      else (heap, st, Returned (ToIterator st (Some (addr it0)), false))
  | None =>
      if c_primary_is_unique && map_contains first k (m_storage st)
      then (heap, st,
            Returned (ToIterator st (option_map addr
                                       (map_find first k (m_storage st))),
                      false))
      else
        let w := mk_pair heap k v false 0 in
        let st1 := set_storage (map_insert first w (m_storage st)) st in
        let (st2, h) := OnEmplaceSuccess st1 w in
        match AddSecs throws st2 h with
        | (st3, Done true) =>
            (S heap, IncrementLive st3,
             Returned (ToIterator st3 (Some heap), true))
        | (st3, Done false) =>
            let st4 := OnEmplaceFail st3 in
            (S heap, set_storage (erase_node heap (m_storage st4)) st4,
             Returned (end_, false))
        | (st3, Threw) =>
            let st4 := OnEmplaceFail st3 in
            (S heap, set_storage (erase_node heap (m_storage st4)) st4,
             Thrown)
        end
  end.

(** ** Erasure *)

(** [erase(const_iterator it)] *)
Definition erase (st : T_MultiIndex) (it : t_iter) : T_MultiIndex * t_iter :=
  if iter_eqb it end_ then (st, end_)
  else
    match it with
    | None => (st, it)
    | Some a =>
        match deref (m_storage st) a with
        | None => (st, it) (* a dangling iterator: undefined in the source *)
        | Some h =>
            let st1 := DropSecs None st h in
            if c_tombstones then
              let st2 := DecrementLive (mark true h st1) in
              (st2, iter_incr st2 it)
            else
              let ret_it := iter_next (m_storage st1) it in
              (DecrementLive
                 (set_storage (erase_node a (m_storage st1)) st1), ret_it)
        end
    end.

(** The [for (;;)] of [erase(const key_type&)]; the loop is bounded by the
    number of nodes, [None] means the bound was too small. *)
Fixpoint erase_key_loop (fuel : nat) (st : T_MultiIndex) (it it_l : t_iter)
         (removed : Z) : option (T_MultiIndex * Z) :=
  match fuel with
  | O => None
  | S fuel' =>
      let (st', it') := erase st it in
      let removed' := size_wrap (removed + 1) in
      if negb c_primary_is_unique then
        if iter_eqb it' it_l then Some (st', removed')
        else erase_key_loop fuel' st' it' it_l removed'
      else Some (st', removed')
  end.

(** [erase(const key_type& key)] *)
Definition erase_key (st : T_MultiIndex) (k : Z) : option (T_MultiIndex * Z) :=
  let (it, it_l) := equal_range st k in
  if iter_eqb it it_l then Some (st, 0%Z)
  else erase_key_loop (S (length (m_storage st))) st it it_l 0%Z.

(** [EraseByHandle<I_Ignore>(h)] *)
Definition EraseByHandle (I_Ignore : option nat) (st : T_MultiIndex)
           (h : t_handle) : T_MultiIndex :=
  match h with
  | None => st
  | Some a =>
      match deref (m_storage st) a with
      | None => st (* a dangling handle: undefined in the source *)
      | Some r =>
          let st1 := DropSecs I_Ignore st r in
          if c_tombstones then DecrementLive (mark true r st1)
          else
            (* the walk over equal_range(h.Key()); the counter base has
               no member in this branch, DecrementLive does nothing *)
            DecrementLive
              (set_storage
                 (erase_in_range first (first r)
                                 (fun x => (addr x =? addr r)%nat)
                                 (m_storage st1)) st1)
      end
  end.


Fixpoint remove_nth (B : Type) (n : nat) (l : list B) : list B :=
  match l, n with
  | [], _ => []
  | _ :: l', O => l'
  | x :: l', S n' => x :: remove_nth n' l'
  end.

Fixpoint position (k : Z) (m : t_sec_map) : option nat :=
  match m with
  | [] => None
  | e :: m' => if (fst e =? k)%Z then Some O
               else option_map S (position k m')
  end.

(** The [for (;;)] of [erase<P_Tag>(skey)].  A secondary iterator is the
    position of its entry; [m.erase(view_it)] hands back the same
    position. *)
Fixpoint erase_tag_loop (fuel : nat) (I : nat) (uniq : bool) (skey : Z)
         (st : T_MultiIndex) (view_it : nat) (removed : Z)
  : option (T_MultiIndex * Z) :=
  match fuel with
  | O => None
  | S fuel' =>
      match nth_error (idx st I) view_it with
      | None => None (* reading through end(): undefined in the source *)
      | Some e =>
          let st1 := EraseByHandle (Some I) st (ToHandle st (snd e)) in
          let removed' := size_wrap (removed + 1) in
          let st2 := set_idx I (remove_nth view_it (idx st1 I)) st1 in
          if negb uniq then
            match nth_error (idx st2 I) view_it with
            | None => Some (st2, removed')
            | Some e' =>
                if negb (fst e' =? skey)%Z then Some (st2, removed')
                else erase_tag_loop fuel' I uniq skey st2 view_it removed'
            end
          else Some (st2, removed')
      end
  end.

(** [erase<P_Tag>(skey)] for the secondary at position [I]. *)
Definition erase_tag (I : nat) (st : T_MultiIndex) (skey : Z)
  : option (T_MultiIndex * Z) :=
  match nth_error specs I with
  | None => None
  | Some s =>
      if negb (I =? c_prim_idx)%nat then
        match position skey (idx st I) with
        | None => Some (st, 0%Z)
        | Some view_it =>
            erase_tag_loop (S (length (idx st I))) I (is_unique s) skey
                           st view_it 0%Z
        end
      else erase_key st skey
  end.

(** [ClearSecondaries()] *)
Definition ClearSecondaries_step (I_I : nat) (st : T_MultiIndex)
  : T_MultiIndex * outcome :=
  match nth_error specs I_I with
  | Some s => if negb (is_storage s) then (set_idx I_I [] st, Done true)
              else (st, Done true)
  | None => (st, Done true)
  end.

Definition ClearSecondaries (st : T_MultiIndex) : T_MultiIndex :=
  fst (ForEachSecondary ClearSecondaries_step index_sequence st).

(** [clear()] *)
Definition clear (st : T_MultiIndex) : T_MultiIndex :=
  SetLive 0 (PolicyClear (ClearSecondaries (set_storage [] st))).

(** ** Modify and replace *)

(** The [restore_old] lambda of [UpdateCore]. *)
Definition restore_old (throws : nat -> bool) (st : T_MultiIndex)
           (h : t_pair) (old : Payload) (old_flag : bool)
  : T_MultiIndex * outcome :=
  let h1 := set_value old h in
  if c_tombstones then
    let h2 := set_dead old_flag h1 in
    let st1 := set_storage (write h2 (m_storage st)) st in
    if negb old_flag then AddSecs throws st1 h2 else (st1, Done true)
  else
    AddSecs throws (set_storage (write h1 (m_storage st)) st) h1.

(** [UpdateCore(h, mut)].  The mutation itself is a total function; an
    exception can only come out of a secondary insert. *)
Definition UpdateCore (throws : nat -> bool) (st : T_MultiIndex)
           (h : t_handle) (mut : Payload -> Payload)
  : T_MultiIndex * result bool :=
  match h with
  | None => (st, Returned false)
  | Some a =>
      match deref (m_storage st) a with
      | None => (st, Returned false) (* dangling: undefined in the source *)
      | Some r =>
          let old := m_value r in
          let old_flag := if c_tombstones then dead r else false in
          let h1 := if c_tombstones then set_dead false r else r in
          let st1 := set_storage (write h1 (m_storage st)) st in
          let st2 :=
            if c_tombstones
            then (if negb old_flag then DropSecs None st1 h1 else st1)
            else DropSecs None st1 h1 in
          let h2 := set_value (mut (m_value h1)) h1 in
          let st3 := set_storage (write h2 (m_storage st2)) st2 in
          match AddSecs throws st3 h2 with
          | (st4, Threw) => (st4, Thrown)
          | (st4, Done false) =>
              match restore_old throws st4 h2 old old_flag with
              | (st5, Threw) => (st5, Thrown)
              | (st5, Done _) => (st5, Returned false)
              end
          | (st4, Done true) =>
              (if c_tombstones && old_flag then IncrementLive st4 else st4,
               Returned true)
          end
      end
  end.

Definition ToHandle_iter (it : t_iter) : t_handle :=
  if iter_eqb it end_ then None else it.

(** [Replace(h, v)] for an argument of type [P_V].  [is_same_v] is
    [std::is_same_v<std::remove_cvref_t<P_V>, P_Payload>]: the test for an
    unchanged payload is compiled in only when the payload type has
    [operator==] and the argument is a payload.  [v] is the payload the
    assignment [dst = nv] makes of the argument. *)
Definition Replace (is_same_v : bool) (throws : nat -> bool)
           (st : T_MultiIndex) (h : t_handle) (v : Payload)
  : T_MultiIndex * result bool :=
  match h with
  | None => (st, Returned false)
  | Some a =>
      match deref (m_storage st) a with
      | None => (st, Returned false) (* dangling: undefined in the source *)
      | Some r =>
          let unchanged :=
            match operator_eq with
            | Some eqb =>
                if is_same_v then
                  let is_live :=
                    if c_tombstones then negb (dead r) else true in
                  is_live && eqb (m_value r) v
                else false
            | None => false
            end in
          if unchanged then (st, Returned true)
          else UpdateCore throws st h (fun _ => v)
      end
  end.

(** [replace(it, v)] *)
Definition replace (is_same_v : bool) (throws : nat -> bool)
           (st : T_MultiIndex) (it : t_iter) (v : Payload)
  : T_MultiIndex * result bool :=
  if iter_eqb it end_ then (st, Returned false)
  else Replace is_same_v throws st (ToHandle_iter it) v.

(** [modify(it, fn)] *)
Definition modify (throws : nat -> bool) (st : T_MultiIndex) (it : t_iter)
           (fn : Payload -> Payload) : T_MultiIndex * result bool :=
  if iter_eqb it end_ then (st, Returned false)
  else UpdateCore throws st (ToHandle_iter it) fn.

(** ** Rebuilds: compact and copy *)

(** One turn of [for (const auto& pr : m_storage)] in [compact()], in the
    invalidating copy constructor and in [CopyAssignCore]. *)
Definition emplace_live (acc : nat * T_MultiIndex) (pr : t_pair)
  : nat * T_MultiIndex :=
  let (heap, tmp) := acc in
  if c_tombstones then
    if negb (dead pr)
    then fst (emplace no_throw heap tmp (first pr) (m_value pr))
    else acc
  else fst (emplace no_throw heap tmp (first pr) (m_value pr)).

(** [compact()]: fill [tmp], then [swap(tmp)]; the old contents go away
    with [tmp]. *)
Definition compact (heap : nat) (st : T_MultiIndex) : nat * T_MultiIndex :=
  fold_left emplace_live (m_storage st) (heap, empty_mi).

(** [T_MultiIndex(const T_MultiIndex& rhs) requires (c_invalidates)] *)
Definition copy_construct (heap : nat) (rhs : T_MultiIndex)
  : nat * T_MultiIndex :=
  fold_left emplace_live (m_storage rhs) (heap, empty_mi).

(** Copying the primary map gives every element a node of its own. *)
Fixpoint clone_nodes (heap : nat) (m : list t_pair) : nat * list t_pair :=
  match m with
  | [] => (heap, [])
  | x :: m' =>
      let (heap', c) := clone_nodes (S heap) m' in
      (heap', mk_pair heap (first x) (m_value x) (dead x) (trans_idx x) :: c)
  end.

(** [CopyAssignCore(rhs)] *)
Definition CopyAssignCore (heap : nat) (this rhs : T_MultiIndex)
  : nat * T_MultiIndex :=
  if c_invalidates policy then
    fold_left emplace_live (m_storage rhs) (heap, clear this)
  else
    let (heap', nodes) := clone_nodes heap (m_storage rhs) in
    let st1 := mk_mi nodes (m_second this) (transl rhs) (m_live rhs) in
    let st2 := ClearSecondaries st1 in
    (heap',
     fold_left (fun st pr => fst (AddSecs no_throw st pr)) nodes st2).


(** ** What the claims speak about *)

(** The records that are not tombstoned, in primary order. *)
Definition live (m : list t_pair) : list t_pair :=
  filter (fun r => negb (dead r)) m.

(** The entry secondary [s] holds for record [r]. *)
Definition sec_entry (s : T_Index) (r : t_pair) : Z * t_sec_value :=
  (Project s (first r) (m_value r), GetSecondaryValue r).

(** A secondary map is in order for the records [L]: it holds exactly
    their entries, sorted, and without a repeated sub-key when unique. *)
Definition sec_ok (s : T_Index) (L : list t_pair) (m : t_sec_map) : Prop :=
  Permutation m (map (sec_entry s) L)
  /\ map_sorted (@fst Z t_sec_value) m
  /\ (is_unique s = true -> NoDup (map (@fst Z t_sec_value) m)).

Definition secondaries_ok (st : T_MultiIndex) (L : list t_pair) : Prop :=
  length (m_second st) = length specs
  /\ forall I s, nth_error specs I = Some s -> is_storage s = false ->
                 sec_ok s L (idx st I).

Definition storage_ok (heap : nat) (st : T_MultiIndex) : Prop :=
  map_sorted first (m_storage st)
  /\ (c_primary_is_unique = true -> NoDup (map first (m_storage st)))
  /\ NoDup (map addr (m_storage st))
  /\ (forall r, In r (m_storage st) -> (addr r < heap)%nat)
  /\ (c_needs_transl_array = true ->
      forall r, In r (m_storage st) ->
                nth_error (transl st) (trans_idx r) = Some (addr r))
  /\ (c_tombstones = false ->
      forall r, In r (m_storage st) -> dead r = false).

Definition live_ok (st : T_MultiIndex) : Prop :=
  c_tombstones = true ->
  m_live st = size_wrap (Z.of_nat (length (live (m_storage st)))).

(** [primary_count<P_Specs...>] *)
Definition primary_count : nat :=
  fold_right (fun s n => ((if is_storage s then 1 else 0) + n)%nat) 0%nat specs.

(** The instantiations the header accepts: exactly one spec is the storage
    ([static_assert(prim_cnt == 1)]), and [S_KeyLookupPolicy] asserts a
    unique primary. *)
Definition config_ok : Prop :=
  primary_count = 1%nat
  /\ (policy = S_KeyLookupPolicy -> c_primary_is_unique = true).

(** The container invariant. *)
Definition wf (heap : nat) (st : T_MultiIndex) : Prop :=
  storage_ok heap st
  /\ secondaries_ok st (live (m_storage st))
  /\ live_ok st.

(** An iterator the container hands out: [end()] or a live node. *)
Definition live_iterator (st : T_MultiIndex) (it : t_iter) : Prop :=
  it = end_
  \/ exists a r, it = Some a /\ deref (m_storage st) a = Some r
                 /\ dead r = false.

(** One call of the public interface, from the state before to the state
    after.  [modify] and [replace] count when they return: [UpdateCore] has
    no handler around [AddSecs], and a call that lets the exception of an
    insert out leaves the record without entries, outside every invariant
    below. *)
Inductive step : nat * T_MultiIndex -> nat * T_MultiIndex -> Prop :=
| step_emplace : forall throws heap st k v heap' st' res,
    emplace throws heap st k v = (heap', st', res) ->
    step (heap, st) (heap', st')
| step_erase : forall heap st it st' it',
    live_iterator st it ->
    erase st it = (st', it') ->
    step (heap, st) (heap, st')
| step_erase_key : forall heap st k st' n,
    erase_key st k = Some (st', n) ->
    step (heap, st) (heap, st')
| step_erase_tag : forall heap st I skey st' n,
    erase_tag I st skey = Some (st', n) ->
    step (heap, st) (heap, st')
| step_modify : forall throws heap st it fn st' b,
    modify throws st it fn = (st', Returned b) ->
    step (heap, st) (heap, st')
| step_replace : forall is_same_v throws heap st it v st' b,
    replace is_same_v throws st it v = (st', Returned b) ->
    step (heap, st) (heap, st')
| step_clear : forall heap st,
    step (heap, st) (heap, clear st)
| step_compact : forall heap st,
    (c_tombstones || c_needs_transl_array) = true ->
    step (heap, st) (compact heap st).

Inductive reachable : nat * T_MultiIndex -> Prop :=
| reach_init : forall heap, reachable (heap, empty_mi)
| reach_step : forall s s', reachable s -> step s s' -> reachable s'.

(** The walk [for (it = begin(); it != end(); ++it)], as the addresses
    it visits. *)
Fixpoint traverse (fuel : nat) (st : T_MultiIndex) (it : t_iter) : list nat :=
  match fuel with
  | O => []
  | S fuel' =>
      match it with
      | None => []
      | Some a => a :: traverse fuel' st (iter_incr st it)
      end
  end.

Definition visible (st : T_MultiIndex) : list nat :=
  traverse (S (length (m_storage st))) st (begin_ st).

(** The first live record with key [k], in primary order. *)
Definition first_live (k : Z) (m : list t_pair) : option t_pair :=
  find (fun r => (first r =? k)%Z && negb (dead r)) m.

(** The records with key [k], in primary order. *)
Definition with_key (k : Z) (m : list t_pair) : list t_pair :=
  filter (fun r => (first r =? k)%Z) m.

(** What a user reads off a record: its key and its payload. *)
Definition key_payload (r : t_pair) : Z * Payload := (first r, m_value r).

(** The content a user sees: keys and payloads of the live records. *)
Definition content (m : list t_pair) : list (Z * Payload) :=
  map key_payload (live m).

(** [emplace] of the key and payload of [r], for its effect on the heap
    and the container. *)
Definition emplace_record (acc : nat * T_MultiIndex) (r : t_pair)
  : nat * T_MultiIndex :=
  fst (emplace no_throw (fst acc) (snd acc) (first r) (m_value r)).

(** What a lookup of [sk] in secondary [I] resolves to. *)
Definition resolve (st : T_MultiIndex) (v : t_sec_value) : option t_pair :=
  match ToHandle st v with
  | Some a => deref (m_storage st) a
  | None => None
  end.

Definition lookup_sec (st : T_MultiIndex) (I : nat) (sk : Z)
  : list (option (Z * Payload)) :=
  map (fun e => option_map key_payload (resolve st (snd e)))
      (filter (fun e => (fst e =? sk)%Z) (idx st I)).

(** Two states with the same primary, translation array and counter,
    and secondary tuples of one length. *)
Definition frame (st st' : T_MultiIndex) : Prop :=
  m_storage st' = m_storage st /\ transl st' = transl st
  /\ m_live st' = m_live st
  /\ length (m_second st') = length (m_second st).

(** ** The secondary tuple after the three walks over it *)

(** Slot [i] after [DropSecs<I_Ignore>(h)]. *)
Definition dropped (I_Ignore : option nat) (st : T_MultiIndex) (h : t_pair)
           (i : nat) (m : t_sec_map) : t_sec_map :=
  match nth_error specs i with
  | Some s => if negb (is_storage s) && negb (ignored I_Ignore i)
              then drop_entry st s h m else m
  | None => m
  end.

(** Slot [i] after [Rollback<I_I>(h)]. *)
Definition rolled (I_I : nat) (st : T_MultiIndex) (h : t_pair)
           (i : nat) (m : t_sec_map) : t_sec_map :=
  match nth_error specs i with
  | Some s => if (i <? I_I)%nat && negb (is_storage s)
              then drop_entry st s h m else m
  | None => m
  end.

(** Slot [i] once [AddSecs(h)] has written every secondary below [bound]. *)
Definition inserted (bound : nat) (h : t_pair) (i : nat) (m : t_sec_map)
  : t_sec_map :=
  match nth_error specs i with
  | Some s => if (i <? bound)%nat && negb (is_storage s)
              then map_insert (@fst Z t_sec_value) (sec_entry s h) m else m
  | None => m
  end.

(** Secondary [j] takes the entry of [h]: its insert does not throw and,
    when the map is unique, the sub-key is free. *)
Definition clean (throws : nat -> bool) (st : T_MultiIndex) (h : t_pair)
           (j : nat) : Prop :=
  forall s, nth_error specs j = Some s -> is_storage s = false ->
            throws j = false
            /\ (is_unique s = true ->
                map_contains (@fst Z t_sec_value)
                             (Project s (first h) (m_value h))
                             (idx st j) = false).

(** Unique secondary [j] already holds the sub-key of [h]. *)
Definition rejecting (throws : nat -> bool) (st : T_MultiIndex) (h : t_pair)
           (j : nat) : Prop :=
  exists s, nth_error specs j = Some s /\ is_storage s = false
            /\ throws j = false /\ is_unique s = true
            /\ map_contains (@fst Z t_sec_value)
                            (Project s (first h) (m_value h))
                            (idx st j) = true.

(** The insert into secondary [j] throws. *)
Definition throwing (throws : nat -> bool) (j : nat) : Prop :=
  exists s, nth_error specs j = Some s /\ is_storage s = false
            /\ throws j = true.

(** No entry of any secondary answers to [h]. *)
Definition fresh (st : T_MultiIndex) (h : t_pair) : Prop :=
  forall j s e, nth_error specs j = Some s -> is_storage s = false ->
                In e (idx st j) -> MatchSecondary st (snd e) h = false.

(** [erase(it)] at the node of record [r], for its effect on the container. *)
Definition erase_one (st : T_MultiIndex) (r : t_pair) : T_MultiIndex :=
  fst (erase st (Some (addr r))).

(** Entry [e] of the secondary under spec [sp] is the entry of record [r]:
    it sits under the sub-key [r] projects to, and its stored reference
    resolves to the node of [r]. *)
Definition refers (st : T_MultiIndex) (sp : T_Index) (r : t_pair)
           (e : Z * t_sec_value) : bool :=
  (fst e =? Project sp (first r) (m_value r))%Z
  && iter_eqb (ToHandle st (snd e)) (Some (addr r)).

(** Some unique secondary already holds the sub-key of [(k, v)]. *)
Definition rejects_entry (st : T_MultiIndex) (k : Z) (v : Payload) : Prop :=
  exists j s, nth_error specs j = Some s /\ is_storage s = false
              /\ is_unique s = true
              /\ map_contains (@fst Z t_sec_value) (Project s k v)
                              (idx st j) = true.

(** Under some unique secondary, a live record other than [r] has the
    sub-key [r] would project to with payload [v]. *)
Definition collides (st : T_MultiIndex) (r : t_pair) (v : Payload) : Prop :=
  exists j s r', nth_error specs j = Some s /\ is_storage s = false
                 /\ is_unique s = true
                 /\ In r' (m_storage st) /\ dead r' = false
                 /\ addr r' <> addr r
                 /\ Project s (first r') (m_value r')
                    = Project s (first r) v.


(** What a rejected update of the record [r] leaves behind, against the
    state [st] before the call: the primary map, the live counter and the
    translation array are the ones of [st]; when [r] was dead the
    secondaries are the ones of [st]; every secondary holds the entries it
    held in [st] and is sorted; a unique secondary is the list it was; and
    when [r] was live every secondary is the old one with the entry of [r]
    taken out and inserted again, at the upper bound of its sub-key: no
    other entry has moved. *)
Definition restored (r : t_pair) (st st' : T_MultiIndex) : Prop :=
  m_storage st' = m_storage st
  /\ m_live st' = m_live st
  /\ transl st' = transl st
  /\ (dead r = true -> m_second st' = m_second st)
  /\ forall j s, nth_error specs j = Some s -> is_storage s = false ->
       Permutation (idx st' j) (idx st j)
       /\ map_sorted (@fst Z t_sec_value) (idx st' j)
       /\ (is_unique s = true -> idx st' j = idx st j)
       /\ (dead r = false ->
           exists pre post,
             idx st j = pre ++ sec_entry s r :: post
             /\ idx st' j
                = map_insert (@fst Z t_sec_value) (sec_entry s r)
                             (pre ++ post)).

(** [operator==] of the payload, when there is one, holds only between
    equal payloads. *)
Definition sound_eq : Prop :=
  forall eqb x y, operator_eq = Some eqb -> eqb x y = true -> x = y.


(** ** The rest of the lookup and insertion interface *)

(** [empty()] *)
Definition empty (st : T_MultiIndex) : bool := (size st =? 0)%Z.

(** The loop of [count(k)] over a multi-key primary with tombstones:
    [for (auto it = f; it != l; ++it) if (!it->second.IsDead()) ++n;] *)
Fixpoint count_live (suffix : list t_pair) (l : t_iter) (n : Z) : Z :=
  match suffix with
  | [] => n
  | x :: rest =>
      if iter_eqb (Some (addr x)) l then n
      else count_live rest l (if dead x then n else size_wrap (n + 1))
  end.

(** [std::distance(f, l)] *)
Fixpoint distance (suffix : list t_pair) (l : t_iter) : nat :=
  match suffix with
  | [] => O
  | x :: rest => if iter_eqb (Some (addr x)) l then O else S (distance rest l)
  end.

(** [count(const key_type& k)] *)
Definition count (st : T_MultiIndex) (k : Z) : Z :=
  if negb c_primary_is_unique then
    let (f, l) := storage_equal_range (m_storage st) k in
    if c_tombstones then count_live (seek (m_storage st) f) l 0
    else size_wrap (Z.of_nat (distance (seek (m_storage st) f) l))
  else if iter_eqb (find_ st k) end_ then 0%Z else 1%Z.

(** [try_emplace(k, args...)] *)
Definition try_emplace (throws : nat -> bool) (heap : nat) (st : T_MultiIndex)
           (k : Z) (v : Payload)
  : nat * T_MultiIndex * result (t_iter * bool) :=
  if c_primary_is_unique && negb (iter_eqb (find_ st k) end_)
  then (heap, st, Returned (find_ st k, false))
  else emplace throws heap st k v.

(** [insert_or_assign(k, m)]; what [UpdateCore] returns is dropped. *)
Definition insert_or_assign (throws : nat -> bool) (heap : nat)
           (st : T_MultiIndex) (k : Z) (m : Payload)
  : nat * T_MultiIndex * result (t_iter * bool) :=
  let it := find_ st k in
  if negb (iter_eqb it end_) then
    match UpdateCore throws st (ToHandle_iter it) (fun _ => m) with
    | (st', Returned _) => (heap, st', Returned (it, false))
    | (st', Thrown) => (heap, st', Thrown)
    end
  else emplace throws heap st k m.

(** The walk [for (it = first; it != last; ++it)] over a range of
    [const_iterator]s, as the addresses it visits. *)
Fixpoint walk (fuel : nat) (st : T_MultiIndex) (it last : t_iter)
  : list nat :=
  match fuel with
  | O => []
  | S fuel' =>
      if iter_eqb it last then []
      else match it with
           | None => []
           | Some a => a :: walk fuel' st (iter_incr st it) last
           end
  end.

(** A live record with another key has, under some unique secondary, the
    sub-key the record [(k, v)] projects to. *)
Definition blocked (st : T_MultiIndex) (k : Z) (v : Payload) : Prop :=
  exists j s r', nth_error specs j = Some s /\ is_storage s = false
                 /\ is_unique s = true
                 /\ In r' (m_storage st) /\ dead r' = false
                 /\ first r' <> k
                 /\ Project s (first r') (m_value r') = Project s k v.


(** ** Views of a secondary index ([get<P_Tag>()], [T_IndexView])

    A raw iterator into a secondary map is the position of its entry,
    [None] for [end()].  A view iterator reads as the pair of the sub-key
    and the handle: the stored handle itself, or what the policy's
    [ToHandle] makes of the stored ordinal or key ([T_HandleIter]). *)

(** [view.find(key)]: [GetMap().find(key)] *)
Definition view_find (st : T_MultiIndex) (I : nat) (sk : Z) : option nat :=
  position sk (idx st I).

(** [*view_it] *)
Definition view_deref (st : T_MultiIndex) (I : nat) (p : nat)
  : option (Z * t_handle) :=
  option_map (fun e => (fst e, ToHandle st (snd e))) (nth_error (idx st I) p).

(** [view.contains(key)] *)
Definition view_contains (st : T_MultiIndex) (I : nat) (sk : Z) : bool :=
  match view_find st I sk with
  | Some _ => true
  | None => false
  end.

(** [view.size()]: [GetMap().size()] *)
Definition view_size (st : T_MultiIndex) (I : nat) : Z :=
  size_wrap (Z.of_nat (length (idx st I))).

(** [view.count(key)]: [GetMap().count(key)] *)
Definition view_count (st : T_MultiIndex) (I : nat) (sk : Z) : Z :=
  size_wrap (Z.of_nat (length (filter (fun e => (fst e =? sk)%Z)
                                      (idx st I)))).

(** [erase<P_Tag>(view_it)] for a secondary at position [I] (the branch
    [I != c_prim_idx]); returns the container and the iterator past the
    erased entry. *)
Definition erase_view (I : nat) (st : T_MultiIndex) (view_it : option nat)
  : T_MultiIndex * option nat :=
  match view_it with
  | None => (st, view_it)
  | Some p =>
      match nth_error (idx st I) p with
      | None => (st, view_it) (* not an iterator of this map *)
      | Some e =>
          let st1 := EraseByHandle (Some I) st (ToHandle st (snd e)) in
          let m' := remove_nth p (idx st1 I) in
          (set_idx I m' st1, if (p <? length m')%nat then Some p else None)
      end
  end.

(** [modify<P_Tag>(view_it, fn)] for a secondary at position [I] *)
Definition modify_view (throws : nat -> bool) (I : nat) (st : T_MultiIndex)
           (view_it : option nat) (fn : Payload -> Payload)
  : T_MultiIndex * result bool :=
  match view_it with
  | None => (st, Returned false)
  | Some p =>
      match nth_error (idx st I) p with
      | None => (st, Returned false) (* not an iterator of this map *)
      | Some e => UpdateCore throws st (ToHandle st (snd e)) fn
      end
  end.

(** The live records whose sub-key under [s] is [sk]. *)
Definition with_subkey (s : T_Index) (sk : Z) (m : list t_pair)
  : list t_pair :=
  filter (fun r => (Project s (first r) (m_value r) =? sk)%Z) (live m).


(** [T_MultiIndex(const T_MultiIndex& rhs) requires (!c_invalidates)]: the
    primary is copied node by node, the secondaries start empty and take
    the entry of every node; what [AddSecs] returns is dropped. *)
Definition copy_construct_stable (heap : nat) (rhs : T_MultiIndex)
  : nat * T_MultiIndex :=
  let (heap', nodes) := clone_nodes heap (m_storage rhs) in
  (heap',
   fold_left (fun st pr => fst (AddSecs no_throw st pr)) nodes
             (mk_mi nodes (map (fun _ => []) specs) (transl rhs)
                    (m_live rhs))).


(** ** The edit proxy of [operator[]] ([C_EditProxy]) *)

(** [C_EditProxy::Revive(h)] with [m_buf.second = buf] *)
Definition Revive (throws : nat -> bool) (st : T_MultiIndex) (h : t_pair)
           (buf : Payload) : T_MultiIndex * result bool :=
  let h1 := set_value buf (set_dead false h) in
  let st1 := set_storage (write h1 (m_storage st)) st in
  match AddSecs throws st1 h1 with
  | (st2, Done true) => (IncrementLive st2, Returned true)
  | (st2, Done false) => (mark true h1 st2, Returned false)
  | (st2, Threw) => (st2, Thrown)
  end.

(** The payload the proxy of [operator[](k)] buffers: the one of the node
    with key [k], live or dead, or a value-initialised payload for a new
    key. *)
Definition buffered (st : T_MultiIndex) (k : Z) (dflt : Payload) : Payload :=
  match map_find first k (m_storage st) with
  | Some r => m_value r
  | None => dflt
  end.

(** [operator[](k)], the user's edit of the buffered payload, and
    [commit()]; the value is what [commit()] returns and [EditOk()] is set
    to.  [commit()] hands [Replace] the buffered [P_Payload] itself, so
    there the test for an unchanged payload is compiled in. *)
Definition edit_commit (throws : nat -> bool) (heap : nat) (st : T_MultiIndex)
           (k : Z) (dflt : Payload) (edit : Payload -> Payload)
  : nat * T_MultiIndex * result bool :=
  let buf := edit (buffered st k dflt) in
  match map_find first k (m_storage st) with
  | None =>
      match emplace throws heap st k buf with
      | (heap', st', Returned (_, b)) => (heap', st', Returned b)
      | (heap', st', Thrown) => (heap', st', Thrown)
      end
  | Some r =>
      let (st', res) :=
        if c_tombstones then
          if negb (dead r) then Replace true throws st (Some (addr r)) buf
          else Revive throws st r buf
        else Replace true throws st (Some (addr r)) buf in
      (heap, st', res)
  end.


(** ** States reachable through the wider interface *)

(** One call of the interface at large: the calls of [step], and
    [try_emplace], [insert_or_assign], the edit proxy of [operator[]],
    [erase] and [modify] through the view of a secondary.  Calls that let
    an exception through [UpdateCore] or [Revive] do not count;
    [insert_or_assign] and [operator[]] are there for a unique primary
    only. *)
Inductive step_wide : nat * T_MultiIndex -> nat * T_MultiIndex -> Prop :=
| wide_step : forall s s', step s s' -> step_wide s s'
| wide_try_emplace : forall throws heap st k v heap' st' res,
    try_emplace throws heap st k v = (heap', st', res) ->
    step_wide (heap, st) (heap', st')
| wide_insert_or_assign : forall throws heap st k v heap' st' r,
    c_primary_is_unique = true ->
    insert_or_assign throws heap st k v = (heap', st', Returned r) ->
    step_wide (heap, st) (heap', st')
| wide_edit_commit : forall throws heap st k dflt edit heap' st' b,
    c_primary_is_unique = true ->
    edit_commit throws heap st k dflt edit = (heap', st', Returned b) ->
    step_wide (heap, st) (heap', st')
| wide_erase_view : forall heap st I s view_it,
    nth_error specs I = Some s -> is_storage s = false ->
    step_wide (heap, st) (heap, fst (erase_view I st view_it))
| wide_modify_view : forall throws heap st I s view_it fn st' b,
    nth_error specs I = Some s -> is_storage s = false ->
    modify_view throws I st view_it fn = (st', Returned b) ->
    step_wide (heap, st) (heap, st').

(** The containers one gets from the empty one by such calls and by
    copy construction. *)
Inductive reachable_wide : nat * T_MultiIndex -> Prop :=
| wide_init : forall heap, reachable_wide (heap, empty_mi)
| wide_next : forall s s', reachable_wide s -> step_wide s s' ->
                           reachable_wide s'
| wide_copy : forall heap rhs,
    c_invalidates policy = true ->
    reachable_wide (heap, rhs) -> reachable_wide (copy_construct heap rhs)
| wide_copy_stable : forall heap rhs,
    c_invalidates policy = false ->
    reachable_wide (heap, rhs) ->
    reachable_wide (copy_construct_stable heap rhs).

(** Walking the view of a secondary from its [begin()] to its [end()]:
    what the iterators read as, sub-key and handle, in the order of the
    map. *)
Definition view_walk (st : T_MultiIndex) (I : nat) : list (Z * t_handle) :=
  map (fun e => (fst e, ToHandle st (snd e))) (idx st I).

End MultiIndex.

(** ** An instantiation

    [T_MultiIndex<int, int, S_UpdatePointerPolicy, ...>] with tombstones: a
    unique primary on the key, a multimap secondary on the last digit of the
    payload and a unique secondary on the payload. *)

Definition demo_specs : list (T_Index Z) :=
  [mk_index true true (fun k _ => k);
   mk_index false false (fun _ p => (p mod 10)%Z);
   mk_index false true (fun _ p => p)].

Definition demo_policy : Policy := S_UpdatePointerPolicyFull true.

Definition demo_eq : option (Z -> Z -> bool) := Some Z.eqb.

(** [emplace(k, v)] and [erase(k)] for their effect on the container. *)
Definition demo_put (s : nat * T_MultiIndex Z) (k v : Z)
  : nat * T_MultiIndex Z :=
  fst (emplace demo_policy demo_specs no_throw (fst s) (snd s) k v).

Definition demo_del (s : nat * T_MultiIndex Z) (k : Z)
  : nat * T_MultiIndex Z :=
  match erase_key demo_policy demo_specs (snd s) k with
  | Some (st', _) => (fst s, st')
  | None => s
  end.

(** Three records: (0, 100), (1, 110), (2, 121). *)
Definition demo_s3 : nat * T_MultiIndex Z :=
  demo_put (demo_put (demo_put (0%nat, empty_mi demo_specs) 0%Z 100%Z)
                     1%Z 110%Z)
           2%Z 121%Z.

(** The same after [erase(1)]: the node of key 1 is a tombstone. *)
Definition demo_s3e : nat * T_MultiIndex Z := demo_del demo_s3 1%Z.

(** The node of key 0 in [demo_s3]. *)
Definition demo_r0 : t_pair Z := mk_pair 0 0%Z 100%Z false 0.

(** The node of key 1 in [demo_s3e]. *)
Definition demo_r1 : t_pair Z := mk_pair 1 1%Z 110%Z true 0.

(** The three records of [demo_s3] under another policy. *)
Definition demo_fill (p : Policy) : nat * T_MultiIndex Z :=
  let put s k v := fst (emplace p demo_specs no_throw (fst s) (snd s) k v) in
  put (put (put (0%nat, empty_mi demo_specs) 0%Z 100%Z) 1%Z 110%Z) 2%Z 121%Z.

(** Under [S_NoInv], and under the translation-array policy. *)
Definition demo_n3 : nat * T_MultiIndex Z := demo_fill S_NoInv.

Definition demo_t3 : nat * T_MultiIndex Z :=
  demo_fill (S_TranslationArrayPolicyFull true).

(** [demo_s3e] after [insert_or_assign(1, 77)]. *)
Definition demo_w : nat * T_MultiIndex Z :=
  fst (insert_or_assign demo_policy demo_specs no_throw
                        (fst demo_s3e) (snd demo_s3e) 1%Z 77%Z).

(** The second and the third secondary of [demo_specs]. *)
Definition demo_mod : T_Index Z :=
  mk_index false false (fun _ p => (p mod 10)%Z).

Definition demo_id : T_Index Z := mk_index false true (fun _ p => p).


(** * Facts about the ordered node maps *)

Unset Implicit Arguments.

Section OrderedMapFacts.
Variable A : Type.
Variable key : A -> Z.

Lemma map_insert_perm (e : A) (m : list A) :
  Permutation (map_insert key e m) (e :: m).
Proof.
  induction m as [|x m IH]; simpl.
  - apply Permutation_refl.
  - destruct (key x <=? key e)%Z.
    + eapply Permutation_trans; [apply perm_skip, IH | apply perm_swap].
    + apply Permutation_refl.
Qed.

Lemma map_insert_in (e x : A) (m : list A) :
  In x (map_insert key e m) <-> x = e \/ In x m.
Proof.
  split; intro H.
  - apply (Permutation_in _ (map_insert_perm e m)) in H.
    destruct H; auto.
  - apply (Permutation_in _ (Permutation_sym (map_insert_perm e m))).
    destruct H; [left; auto | right; auto].
Qed.

Lemma map_insert_sorted (e : A) (m : list A) :
  map_sorted key m -> map_sorted key (map_insert key e m).
Proof.
  unfold map_sorted.
  induction m as [|x m IH]; simpl; intro S.
  - constructor; [constructor | constructor].
  - inversion S as [|? ? Sm Fx]; subst.
    destruct (key x <=? key e)%Z eqn:E.
    + constructor; [auto|].
      apply Forall_forall. intros y Hy.
      apply map_insert_in in Hy. destruct Hy as [->|Hy].
      * apply Z.leb_le; exact E.
      * rewrite Forall_forall in Fx. auto.
    + apply Z.leb_gt in E.
      constructor; [exact S|].
      constructor; [lia|].
      rewrite Forall_forall in *. intros y Hy.
      specialize (Fx y Hy). lia.
Qed.

Lemma map_insert_last (e : A) (m : list A) :
  (forall x, In x m -> (key x <= key e)%Z) ->
  map_insert key e m = m ++ [e].
Proof.
  induction m as [|x m IH]; simpl; intro H; [reflexivity|].
  destruct (key x <=? key e)%Z eqn:E.
  - rewrite IH; auto.
  - apply Z.leb_gt in E. specialize (H x (or_introl eq_refl)). lia.
Qed.

Lemma map_contains_true (k : Z) (m : list A) :
  map_contains key k m = true <-> exists x, In x m /\ key x = k.
Proof.
  unfold map_contains. rewrite existsb_exists.
  split; intros [x [H1 H2]]; exists x; split; auto;
    apply Z.eqb_eq; auto.
Qed.

Lemma map_contains_false (k : Z) (m : list A) :
  map_contains key k m = false <-> ~ In k (map key m).
Proof.
  split.
  - intros H Hin. apply in_map_iff in Hin. destruct Hin as [x [Hk Hx]].
    assert (map_contains key k m = true)
      by (apply map_contains_true; exists x; auto).
    congruence.
  - intro H. destruct (map_contains key k m) eqn:E; [|reflexivity].
    apply map_contains_true in E. destruct E as [x [Hx Hk]].
    exfalso. apply H. apply in_map_iff. exists x; auto.
Qed.

Lemma map_find_none (k : Z) (m : list A) :
  map_find key k m = None <-> ~ In k (map key m).
Proof.
  unfold map_find. split.
  - intros H Hin. apply in_map_iff in Hin. destruct Hin as [x [Hk Hx]].
    apply (find_none _ _ H) in Hx. apply Z.eqb_neq in Hx. auto.
  - intro H. destruct (find _ m) as [x|] eqn:E; [|reflexivity].
    apply find_some in E. destruct E as [Hx Hk]. apply Z.eqb_eq in Hk.
    exfalso. apply H. apply in_map_iff. exists x; auto.
Qed.

(** Undoing an insert: the scan finds the entry just written when no
    older entry answers to the predicate. *)
Lemma range_scan_insert (p : A -> bool) (e : A) (m : list A) :
  (forall x, In x m -> p x = false) -> p e = true ->
  range_scan key (key e) p (map_insert key e m) = m.
Proof.
  intros Hm He. induction m as [|x m IH]; simpl.
  - rewrite Z.ltb_irrefl, He. reflexivity.
  - destruct (key x <=? key e)%Z eqn:E; simpl.
    + apply Z.leb_le in E.
      assert ((key e <? key x)%Z = false) as -> by (apply Z.ltb_ge; lia).
      rewrite (Hm x (or_introl eq_refl)).
      rewrite IH; [reflexivity|]. intros; apply Hm; right; auto.
    + rewrite Z.ltb_irrefl, He. reflexivity.
Qed.

Lemma erase_in_range_insert (p : A -> bool) (e : A) (m : list A) :
  (forall x, In x m -> p x = false) -> p e = true ->
  erase_in_range key (key e) p (map_insert key e m) = m.
Proof.
  intros Hm He. induction m as [|x m IH].
  - simpl. rewrite !Z.ltb_irrefl, He. reflexivity.
  - change (map_insert key e (x :: m))
      with (if (key x <=? key e)%Z then x :: map_insert key e m
            else e :: x :: m).
    destruct (key x <=? key e)%Z eqn:E.
    + cbn [erase_in_range].
      destruct (key x <? key e)%Z eqn:E2.
      * rewrite IH; [reflexivity|]. intros; apply Hm; right; auto.
      * pose proof (range_scan_insert p e (x :: m) Hm He) as R.
        simpl in R. rewrite E in R. exact R.
    + cbn [erase_in_range]. rewrite Z.ltb_irrefl.
      cbn [range_scan]. rewrite Z.ltb_irrefl, He. reflexivity.
Qed.

Lemma range_scan_nomatch (k : Z) (p : A -> bool) (m : list A) :
  (forall x, In x m -> p x = false) -> range_scan key k p m = m.
Proof.
  induction m as [|x m IH]; simpl; intro H; [reflexivity|].
  destruct (k <? key x)%Z; [reflexivity|].
  rewrite (H x (or_introl eq_refl)), IH; auto.
Qed.

Lemma erase_in_range_nomatch (k : Z) (p : A -> bool) (m : list A) :
  (forall x, In x m -> p x = false) -> erase_in_range key k p m = m.
Proof.
  induction m as [|x m IH]; intro H; [reflexivity|].
  cbn [erase_in_range].
  destruct (key x <? k)%Z.
  - rewrite IH; auto. intros; apply H; right; auto.
  - apply range_scan_nomatch; auto.
Qed.

(** The scan reaches a matching entry of a sorted map. *)
Lemma range_scan_found (k : Z) (p : A -> bool) (e : A) (m : list A) :
  map_sorted key m -> (forall x, In x m -> (k <= key x)%Z) ->
  In e m -> key e = k -> p e = true ->
  exists m1 x m2, m = m1 ++ x :: m2 /\ p x = true /\ key x = k
                  /\ range_scan key k p m = m1 ++ m2
                  /\ (forall y, In y m1 -> p y = false).
Proof.
  unfold map_sorted.
  induction m as [|x m IH]; intros S Hge Hin Hk Hp; [inversion Hin|].
  inversion S as [|? ? Sm Fx]; subst.
  rewrite Forall_forall in Fx.
  assert (Hx : (key e <= key x)%Z) by (apply Hge; left; auto).
  simpl.
  destruct (key e <? key x)%Z eqn:E.
  - apply Z.ltb_lt in E. destruct Hin as [->|Hin]; [lia|].
    specialize (Fx e Hin). lia.
  - apply Z.ltb_ge in E.
    destruct (p x) eqn:Px.
    + exists [], x, m. repeat split; auto; try lia. intros y [].
    + destruct Hin as [->|Hin]; [congruence|].
      destruct IH as [m1 [y [m2 [Hm [Py [Ky [Hr Hn]]]]]]]; auto.
      { intros z Hz. apply Hge; right; auto. }
      exists (x :: m1), y, m2. repeat split; auto.
      * simpl. rewrite Hm. reflexivity.
      * simpl. rewrite Hr. reflexivity.
      * intros z [<-|Hz]; auto.
Qed.

Lemma erase_in_range_found (k : Z) (p : A -> bool) (e : A) (m : list A) :
  map_sorted key m -> In e m -> key e = k -> p e = true ->
  exists m1 x m2, m = m1 ++ x :: m2 /\ p x = true /\ key x = k
                  /\ erase_in_range key k p m = m1 ++ m2.
Proof.
  unfold map_sorted.
  induction m as [|x m IH]; intros S Hin Hk Hp; [inversion Hin|].
  inversion S as [|? ? Sm Fx]; subst.
  cbn [erase_in_range].
  destruct (key x <? key e)%Z eqn:E.
  - apply Z.ltb_lt in E.
    destruct Hin as [->|Hin]; [lia|].
    destruct (IH Sm Hin eq_refl Hp) as [m1 [y [m2 [Hm [Py [Ky Hr]]]]]].
    exists (x :: m1), y, m2. repeat split; auto.
    + simpl. rewrite Hm. reflexivity.
    + simpl. rewrite Hr. reflexivity.
  - apply Z.ltb_ge in E.
    destruct (@range_scan_found (key e) p e (x :: m) S) as
        [m1 [y [m2 [Hm [Py [Ky [Hr _]]]]]]]; auto.
    { rewrite Forall_forall in Fx.
      intros z [<-|Hz]; [lia|]. specialize (Fx z Hz). lia. }
    exists m1, y, m2. auto.
Qed.

Lemma map_sorted_remove (m1 m2 : list A) (x : A) :
  map_sorted key (m1 ++ x :: m2) -> map_sorted key (m1 ++ m2).
Proof.
  unfold map_sorted.
  induction m1 as [|y m1 IH]; simpl; intro S.
  - inversion S; auto.
  - inversion S as [|? ? Sm Fx]; subst.
    constructor; auto.
    rewrite Forall_forall in *. intros z Hz. apply Fx.
    apply in_app_iff in Hz. apply in_app_iff.
    destruct Hz; [left; auto | right; right; auto].
Qed.

Lemma map_sorted_replace (m1 m2 : list A) (x y : A) :
  key y = key x ->
  map_sorted key (m1 ++ x :: m2) -> map_sorted key (m1 ++ y :: m2).
Proof.
  unfold map_sorted. intro K.
  induction m1 as [|z m1 IH]; simpl; intro S.
  - inversion S; subst. constructor; auto. rewrite K. auto.
  - inversion S as [|? ? Sm Fx]; subst.
    constructor; auto.
    rewrite Forall_forall in *. intros w Hw.
    apply in_app_iff in Hw. destruct Hw as [Hw|[<-|Hw]].
    + apply Fx. apply in_app_iff. auto.
    + rewrite K. apply Fx. apply in_app_iff. right; left; auto.
    + apply Fx. apply in_app_iff. right; right; auto.
Qed.

End OrderedMapFacts.

(** * Facts about the container *)

Section Facts.
Variable Payload : Type.
Variable operator_eq : option (Payload -> Payload -> bool).
Variable policy : Policy.
Variable specs : list (T_Index Payload).

Local Abbreviation T_MultiIndex := (T_MultiIndex Payload).
Local Abbreviation t_pair := (t_pair Payload).
Local Abbreviation t_sec_map := (list (Z * t_sec_value)).
Local Abbreviation skey := (@fst Z t_sec_value).
Local Abbreviation MatchSecondary := (@MatchSecondary Payload policy).
Local Abbreviation GetSecondaryValue := (@GetSecondaryValue Payload policy).
Local Abbreviation sec_entry := (@sec_entry Payload policy).
Local Abbreviation sec_ok := (@sec_ok Payload policy).
Local Abbreviation drop_entry := (@drop_entry Payload policy).
Local Abbreviation DropSecs := (@DropSecs Payload policy specs).
Local Abbreviation DropSecs_step := (@DropSecs_step Payload policy specs).
Local Abbreviation Rollback := (@Rollback Payload policy specs).
Local Abbreviation Rollback_step := (@Rollback_step Payload policy specs).
Local Abbreviation AddSecs := (@AddSecs Payload policy specs).
Local Abbreviation AddSecs_step := (@AddSecs_step Payload policy specs).
Local Abbreviation index_sequence := (@index_sequence Payload specs).
Local Abbreviation c_tombstones := (c_tombstones policy).
Local Abbreviation c_needs_transl_array := (c_needs_transl_array policy).
Local Abbreviation c_primary_is_unique := (c_primary_is_unique specs).
Local Abbreviation storage_ok := (@storage_ok Payload policy specs).
Local Abbreviation secondaries_ok := (@secondaries_ok Payload policy specs).
Local Abbreviation live_ok := (@live_ok Payload policy).
Local Abbreviation config_ok := (@config_ok Payload policy specs).
Local Abbreviation wf := (@wf Payload policy specs).
Local Abbreviation emplace := (@emplace Payload policy specs).
Local Abbreviation erase := (@erase Payload policy specs).
Local Abbreviation erase_key := (@erase_key Payload policy specs).
Local Abbreviation UpdateCore := (@UpdateCore Payload policy specs).
Local Abbreviation ToIterator := (@ToIterator Payload policy).
Local Abbreviation IncrementLive := (@IncrementLive Payload policy).
Local Abbreviation DecrementLive := (@DecrementLive Payload policy).
Local Abbreviation OnEmplaceSuccess := (@OnEmplaceSuccess Payload policy).
Local Abbreviation OnEmplaceFail := (@OnEmplaceFail Payload policy).

(** Two spellings of one list, up to the nesting of [++] and [::]. *)
Ltac list_eq :=
  repeat (rewrite <- app_assoc); cbn [app];
  repeat (rewrite <- app_assoc; cbn [app]); reflexivity.

(** ** Nodes and their addresses *)

Lemma NoDup_map_inj (B C : Type) (f : B -> C) (l : list B) (a b : B) :
  NoDup (map f l) -> In a l -> In b l -> f a = f b -> a = b.
Proof.
  induction l as [|x l IH]; simpl; intros N Ha Hb E; [contradiction|].
  inversion N as [|? ? Nx Nl]; subst.
  destruct Ha as [->|Ha], Hb as [->|Hb]; auto.
  - exfalso. apply Nx. rewrite E. apply in_map; auto.
  - exfalso. apply Nx. rewrite <- E. apply in_map; auto.
Qed.

Lemma deref_some (m : list t_pair) (a : nat) (r : t_pair) :
  deref m a = Some r -> In r m /\ addr r = a.
Proof.
  unfold deref. intro H. apply find_some in H. destruct H as [H1 H2].
  apply Nat.eqb_eq in H2. auto.
Qed.

Lemma deref_in (m : list t_pair) (r : t_pair) :
  NoDup (map (@addr Payload) m) -> In r m -> deref m (addr r) = Some r.
Proof.
  unfold deref. induction m as [|x m IH]; simpl; intros N H; [contradiction|].
  inversion N as [|? ? Nx Nm]; subst.
  destruct (addr x =? addr r)%nat eqn:E.
  - apply Nat.eqb_eq in E. destruct H as [->|H]; [reflexivity|].
    exfalso. apply Nx. rewrite E. apply in_map; auto.
  - destruct H as [->|H]; [rewrite Nat.eqb_refl in E; discriminate|].
    auto.
Qed.

Lemma deref_split (m : list t_pair) (a : nat) (r : t_pair) :
  NoDup (map (@addr Payload) m) -> deref m a = Some r ->
  exists m1 m2, m = m1 ++ r :: m2 /\ addr r = a
                /\ (forall x, In x (m1 ++ m2) -> addr x <> a).
Proof.
  intros N H. apply deref_some in H. destruct H as [Hin Ha].
  apply in_split in Hin. destruct Hin as [m1 [m2 ->]].
  exists m1, m2. repeat split; auto.
  intros x Hx E. rewrite map_app in N. simpl in N.
  apply NoDup_remove_2 in N. apply N.
  rewrite <- map_app. rewrite Ha, <- E. apply in_map; auto.
Qed.

Lemma write_split (m1 m2 : list t_pair) (r r' : t_pair) :
  (forall x, In x (m1 ++ m2) -> addr x <> addr r) ->
  addr r' = addr r ->
  write r' (m1 ++ r :: m2) = m1 ++ r' :: m2.
Proof.
  intros H E. unfold write. rewrite map_app. simpl.
  rewrite E, Nat.eqb_refl. f_equal; [|f_equal].
  - rewrite <- (map_id m1) at 2. apply map_ext_in. intros x Hx.
    destruct (addr x =? addr r)%nat eqn:X; [|reflexivity].
    apply Nat.eqb_eq in X. exfalso. apply (H x); auto.
    apply in_app_iff; auto.
  - rewrite <- (map_id m2) at 2. apply map_ext_in. intros x Hx.
    destruct (addr x =? addr r)%nat eqn:X; [|reflexivity].
    apply Nat.eqb_eq in X. exfalso. apply (H x); auto.
    apply in_app_iff; auto.
Qed.

Lemma write_absent (m : list t_pair) (r : t_pair) :
  (forall x, In x m -> addr x <> addr r) -> write r m = m.
Proof.
  intro H. unfold write. rewrite <- (map_id m) at 2.
  apply map_ext_in. intros x Hx.
  destruct (addr x =? addr r)%nat eqn:X; [|reflexivity].
  apply Nat.eqb_eq in X. exfalso. apply (H x); auto.
Qed.

Lemma erase_node_split (m1 m2 : list t_pair) (r : t_pair) :
  (forall x, In x m1 -> addr x <> addr r) ->
  erase_node (addr r) (m1 ++ r :: m2) = m1 ++ m2.
Proof.
  induction m1 as [|x m1 IH]; simpl; intro H.
  - rewrite Nat.eqb_refl. reflexivity.
  - destruct (addr x =? addr r)%nat eqn:X.
    + apply Nat.eqb_eq in X. exfalso. apply (H x); auto.
    + rewrite IH; auto.
Qed.

Lemma seek_split (m1 m2 : list t_pair) (r : t_pair) :
  (forall x, In x m1 -> addr x <> addr r) ->
  seek (m1 ++ r :: m2) (Some (addr r)) = r :: m2.
Proof.
  simpl. induction m1 as [|x m1 IH]; simpl; intro H.
  - rewrite Nat.eqb_refl. reflexivity.
  - destruct (addr x =? addr r)%nat eqn:X.
    + apply Nat.eqb_eq in X. exfalso. apply (H x); auto.
    + apply IH. auto.
Qed.

Lemma live_app (m1 m2 : list t_pair) :
  live (m1 ++ m2) = live m1 ++ live m2.
Proof. unfold live. apply filter_app. Qed.

Lemma live_in (m : list t_pair) (r : t_pair) :
  In r (live m) <-> In r m /\ dead r = false.
Proof.
  unfold live. rewrite filter_In. rewrite negb_true_iff. tauto.
Qed.

Lemma live_all (m : list t_pair) :
  (forall r, In r m -> dead r = false) -> live m = m.
Proof.
  unfold live. induction m as [|x m IH]; simpl; intro H; [reflexivity|].
  rewrite (H x (or_introl eq_refl)). simpl. rewrite IH; auto.
Qed.

(** ** The secondary tuple *)

Lemma list_set_length (B : Type) (i : nat) (x : B) (l : list B) :
  length (list_set i x l) = length l.
Proof.
  revert i. induction l as [|y l IH]; intros [|i]; simpl; auto.
Qed.

Lemma nth_list_set_same (B : Type) (i : nat) (x d : B) (l : list B) :
  (i < length l)%nat -> nth i (list_set i x l) d = x.
Proof.
  revert i. induction l as [|y l IH]; intros [|i]; simpl; intro H;
    try lia; auto. apply IH. lia.
Qed.

Lemma nth_list_set_other (B : Type) (i j : nat) (x d : B) (l : list B) :
  i <> j -> nth j (list_set i x l) d = nth j l d.
Proof.
  revert i j. induction l as [|y l IH]; intros [|i] [|j]; simpl; intro H;
    try lia; auto.
Qed.

Lemma idx_set_idx_same (st : T_MultiIndex) (i : nat) (m : t_sec_map) :
  (i < length (m_second st))%nat -> idx (set_idx i m st) i = m.
Proof. intro H. unfold idx, set_idx. simpl. apply nth_list_set_same; auto. Qed.

Lemma idx_set_idx_other (st : T_MultiIndex) (i j : nat) (m : t_sec_map) :
  i <> j -> idx (set_idx i m st) j = idx st j.
Proof. intro H. unfold idx, set_idx. simpl. apply nth_list_set_other; auto. Qed.

Lemma idx_set_idx (st : T_MultiIndex) (i j : nat) (m : t_sec_map) :
  (i < length (m_second st))%nat ->
  idx (set_idx i m st) j = if (j =? i)%nat then m else idx st j.
Proof.
  intro H. destruct (j =? i)%nat eqn:E.
  - apply Nat.eqb_eq in E. subst. apply idx_set_idx_same; auto.
  - apply Nat.eqb_neq in E. apply idx_set_idx_other; auto.
Qed.

Lemma frame_refl (st : T_MultiIndex) : frame st st.
Proof. unfold frame; auto. Qed.

Lemma frame_trans (a b c : T_MultiIndex) :
  frame a b -> frame b c -> frame a c.
Proof.
  unfold frame. intros [A1 [A2 [A3 A4]]] [B1 [B2 [B3 B4]]].
  repeat split; congruence.
Qed.

Lemma frame_set_idx (st : T_MultiIndex) (i : nat) (m : t_sec_map) :
  frame st (set_idx i m st).
Proof.
  unfold frame, set_idx. simpl. repeat split; auto.
  apply list_set_length.
Qed.

Lemma state_ext (st st' : T_MultiIndex) :
  frame st st' -> (forall j, idx st' j = idx st j) -> st' = st.
Proof.
  destruct st as [a b c d], st' as [a' b' c' d'].
  unfold frame, idx. simpl. intros [-> [-> [-> L]]] H.
  f_equal. apply (nth_ext _ _ [] []); auto.
Qed.

(** ** Walks over the secondary tuple *)

Lemma erase_in_range_ext (B : Type) (key : B -> Z) (k : Z) (p q : B -> bool)
      (m : list B) :
  (forall x, p x = q x) ->
  erase_in_range key k p m = erase_in_range key k q m.
Proof.
  intro H.
  assert (R : forall l, range_scan key k p l = range_scan key k q l).
  { induction l as [|x l IH]; simpl; [reflexivity|].
    rewrite H, IH. reflexivity. }
  induction m as [|x m IH]; [reflexivity|].
  cbn [erase_in_range]. rewrite IH, R. reflexivity.
Qed.

Lemma MatchSecondary_ext (st st' : T_MultiIndex) (v : t_sec_value)
      (h h' : t_pair) :
  transl st = transl st' -> addr h = addr h' -> first h = first h' ->
  MatchSecondary st v h = MatchSecondary st' v h'.
Proof.
  intros T A F. unfold MatchSecondary.
  rewrite T, A, F. reflexivity.
Qed.

Lemma drop_entry_ext (st st' : T_MultiIndex) (s : T_Index Payload)
      (h : t_pair) (m : t_sec_map) :
  transl st = transl st' -> drop_entry st s h m = drop_entry st' s h m.
Proof.
  intro T. unfold drop_entry. apply erase_in_range_ext.
  intro x. apply MatchSecondary_ext; auto.
Qed.

Lemma existsb_seq (i a n : nat) :
  existsb (Nat.eqb i) (seq a n) = ((a <=? i)%nat && (i <? a + n)%nat).
Proof.
  revert a. induction n as [|n IH]; intro a; simpl.
  - destruct (a <=? i)%nat eqn:E1; simpl; [|reflexivity].
    symmetry. apply Nat.ltb_ge. apply Nat.leb_le in E1. lia.
  - rewrite IH.
    destruct (i =? a)%nat eqn:E.
    + apply Nat.eqb_eq in E. subst. simpl.
      rewrite Nat.leb_refl. simpl. symmetry. apply Nat.ltb_lt. lia.
    + apply Nat.eqb_neq in E. cbn [orb].
      replace (S a + n)%nat with (a + S n)%nat by lia.
      f_equal.
      destruct (S a <=? i)%nat eqn:E1, (a <=? i)%nat eqn:E2; try reflexivity.
      * apply Nat.leb_le in E1. apply Nat.leb_gt in E2. lia.
      * apply Nat.leb_gt in E1. apply Nat.leb_le in E2. lia.
Qed.

(** A walk whose every step rewrites its own slot and nothing else. *)
Lemma ForEach_pointwise
      (f : nat -> T_MultiIndex -> T_MultiIndex * outcome)
      (g : nat -> t_sec_map -> t_sec_map) (tr : list nat) :
  (forall j st, transl st = tr -> (j < length (m_second st))%nat ->
     exists st', f j st = (st', Done true) /\ frame st st'
                 /\ idx st' j = g j (idx st j)
                 /\ forall i, i <> j -> idx st' i = idx st i) ->
  forall l st, NoDup l -> transl st = tr ->
    (forall j, In j l -> (j < length (m_second st))%nat) ->
    exists st', ForEachSecondary f l st = (st', Done true) /\ frame st st'
                /\ forall i, idx st' i =
                             if existsb (Nat.eqb i) l then g i (idx st i)
                             else idx st i.
Proof.
  intro Hf. induction l as [|j l IH]; intros st N T L.
  - exists st. simpl. repeat split; auto using frame_refl.
  - inversion N as [|? ? Nj Nl]; subst.
    destruct (Hf j st eq_refl (L j (or_introl eq_refl)))
      as [st1 [E1 [F1 [I1 O1]]]].
    destruct (IH st1 Nl) as [st2 [E2 [F2 I2]]].
    + destruct F1 as [_ [T1 _]]. exact T1.
    + intros i Hi. destruct F1 as [_ [_ [_ L1]]]. rewrite L1.
      apply L; right; auto.
    + exists st2. simpl. rewrite E1. split; [exact E2|].
      split; [eapply frame_trans; eauto|].
      intro i. rewrite I2. destruct (i =? j)%nat eqn:E.
      * apply Nat.eqb_eq in E. subst i. simpl.
        assert (existsb (Nat.eqb j) l = false) as ->.
        { destruct (existsb (Nat.eqb j) l) eqn:X; [|reflexivity].
          apply existsb_exists in X. destruct X as [x [Hx Hx']].
          apply Nat.eqb_eq in Hx'. subst x. contradiction. }
        exact I1.
      * simpl. apply Nat.eqb_neq in E. rewrite (O1 i E). reflexivity.
Qed.

Lemma index_sequence_lt (st : T_MultiIndex) (j : nat) :
  length (m_second st) = length specs ->
  In j index_sequence -> (j < length (m_second st))%nat.
Proof.
  intros L H. unfold index_sequence in H.
  apply in_seq in H. lia.
Qed.

Lemma pointwise_all (g : nat -> t_sec_map -> t_sec_map) (i : nat)
      (m : t_sec_map) :
  (nth_error specs i = None -> g i m = m) ->
  (if existsb (Nat.eqb i) index_sequence then g i m else m) = g i m.
Proof.
  intro H. unfold index_sequence. rewrite existsb_seq. simpl.
  destruct (i <? length specs)%nat eqn:E; [reflexivity|].
  symmetry. apply H. apply nth_error_None. apply Nat.ltb_ge in E. exact E.
Qed.

Lemma DropSecs_spec (I_Ignore : option nat) (st : T_MultiIndex) (h : t_pair) :
  length (m_second st) = length specs ->
  frame st (DropSecs I_Ignore st h)
  /\ forall i, idx (DropSecs I_Ignore st h) i
               = dropped policy specs I_Ignore st h i (idx st i).
Proof.
  intro L.
  destruct (@ForEach_pointwise (DropSecs_step I_Ignore h)
              (dropped policy specs I_Ignore st h) (transl st))
    with (l := index_sequence) (st := st) as [st' [E [F I]]]; auto.
  - intros j s T Lj. unfold DropSecs_step, dropped.
    destruct (nth_error specs j) as [sp|].
    + destruct (negb (is_storage sp) && negb (ignored I_Ignore j)).
      * eexists. split; [reflexivity|]. split; [apply frame_set_idx|].
        split.
        -- rewrite idx_set_idx_same; auto. apply drop_entry_ext; auto.
        -- intros i Hi. apply idx_set_idx_other; auto.
      * exists s. repeat split; auto using frame_refl.
    + exists s. repeat split; auto using frame_refl.
  - apply seq_NoDup.
  - intros j Hj. eapply index_sequence_lt; eauto.
  - unfold DropSecs. rewrite E. simpl. split; [exact F|].
    intro i. rewrite I. apply pointwise_all.
    intro N. unfold dropped. rewrite N. reflexivity.
Qed.

Lemma Rollback_spec (I_I : nat) (st : T_MultiIndex) (h : t_pair) :
  length (m_second st) = length specs ->
  frame st (Rollback I_I st h)
  /\ forall i, idx (Rollback I_I st h) i
               = rolled policy specs I_I st h i (idx st i).
Proof.
  intro L.
  destruct (@ForEach_pointwise (Rollback_step I_I h)
              (rolled policy specs I_I st h) (transl st))
    with (l := index_sequence) (st := st) as [st' [E [F I]]]; auto.
  - intros j s T Lj. unfold Rollback_step, rolled.
    destruct (nth_error specs j) as [sp|].
    + destruct ((j <? I_I)%nat && negb (is_storage sp)).
      * eexists. split; [reflexivity|]. split; [apply frame_set_idx|].
        split.
        -- rewrite idx_set_idx_same; auto. apply drop_entry_ext; auto.
        -- intros i Hi. apply idx_set_idx_other; auto.
      * exists s. repeat split; auto using frame_refl.
    + exists s. repeat split; auto using frame_refl.
  - apply seq_NoDup.
  - intros j Hj. eapply index_sequence_lt; eauto.
  - unfold Rollback. rewrite E. simpl. split; [exact F|].
    intro i. rewrite I. apply pointwise_all.
    intro N. unfold rolled. rewrite N. reflexivity.
Qed.

(** ** [AddSecs] *)

Lemma inserted_step_storage (i : nat) (h : t_pair) (s : T_Index Payload)
      (j : nat) (m : t_sec_map) :
  nth_error specs i = Some s -> is_storage s = true ->
  inserted policy specs (S i) h j m = inserted policy specs i h j m.
Proof.
  intros Hs St. unfold inserted.
  destruct (nth_error specs j) as [sj|] eqn:Ej; [|reflexivity].
  destruct (Nat.eq_dec j i) as [->|Ne].
  - rewrite Hs in Ej. inversion Ej; subst. rewrite St. simpl.
    rewrite !andb_false_r. reflexivity.
  - assert ((j <? S i)%nat = (j <? i)%nat) as ->; [|reflexivity].
    destruct (j <? i)%nat eqn:E.
    + apply Nat.ltb_lt in E. apply Nat.ltb_lt. lia.
    + apply Nat.ltb_ge in E. apply Nat.ltb_ge. lia.
Qed.

Lemma inserted_below (i : nat) (h : t_pair) (m : t_sec_map) :
  inserted policy specs i h i m = m.
Proof.
  unfold inserted. destruct (nth_error specs i); [|reflexivity].
  rewrite Nat.ltb_irrefl. reflexivity.
Qed.

Lemma AddSecs_loop (throws : nat -> bool) (h : t_pair) (st0 : T_MultiIndex) :
  length (m_second st0) = length specs ->
  forall n i st,
    (i + n = length specs)%nat ->
    frame st0 st ->
    (forall j, idx st j = inserted policy specs i h j (idx st0 j)) ->
    forall st' o,
      ForEachSecondary (AddSecs_step throws h) (seq i n) st = (st', o) ->
      match o with
      | Done true =>
          frame st0 st'
          /\ (forall j, idx st' j
                        = inserted policy specs (length specs) h j (idx st0 j))
          /\ (forall j, (i <= j)%nat -> clean specs throws st0 h j)
      | Done false =>
          exists j st_j,
            (i <= j)%nat /\ rejecting specs throws st0 h j
            /\ (forall j', (i <= j' < j)%nat -> clean specs throws st0 h j')
            /\ frame st0 st_j
            /\ (forall j', idx st_j j'
                           = inserted policy specs j h j' (idx st0 j'))
            /\ st' = Rollback j st_j h
      | Threw =>
          exists j,
            (i <= j)%nat /\ throwing specs throws j
            /\ (forall j', (i <= j' < j)%nat -> clean specs throws st0 h j')
            /\ frame st0 st'
            /\ (forall j', idx st' j'
                           = inserted policy specs j h j' (idx st0 j'))
      end.
Proof.
  intro L0. induction n as [|n IH]; intros i st Hn F I st' o E.
  - simpl in E. inversion E; subst. replace i with (length specs) in * by lia.
    split; [exact F|]. split; [exact I|].
    intros j Hj s Hs. exfalso.
    assert (nth_error specs j = None) by (apply nth_error_None; lia).
    congruence.
  - cbn [seq ForEachSecondary] in E.
    assert (Hi : (i < length specs)%nat) by lia.
    destruct (nth_error specs i) as [s|] eqn:Hs;
      [|apply nth_error_None in Hs; lia].
    assert (Li : (i < length (m_second st))%nat).
    { destruct F as [_ [_ [_ Fl]]]. rewrite Fl, L0. exact Hi. }
    unfold AddSecs_step in E at 1. rewrite Hs in E.
    destruct (is_storage s) eqn:St; cbn [negb] in E.
    + (* the primary's slot *)
      specialize (IH (S i) st).
      assert (G := IH ltac:(lia) F
                      ltac:(intro j; rewrite I; symmetry;
                            eapply inserted_step_storage; eauto) st' o E).
      destruct o as [[|]|].
      * destruct G as [G1 [G2 G3]]. split; [exact G1|]. split; [exact G2|].
        intros j Hj. destruct (Nat.eq_dec j i) as [->|Ne].
        -- intros s' Hs' St'. rewrite Hs in Hs'. inversion Hs'; subst.
           congruence.
        -- apply G3. lia.
      * destruct G as [j [st_j [G1 [G2 [G3 G4]]]]].
        exists j, st_j. split; [lia|]. split; [exact G2|].
        split; [|exact G4].
        intros j' Hj'. destruct (Nat.eq_dec j' i) as [->|Ne].
        -- intros s' Hs' St'. rewrite Hs in Hs'. inversion Hs'; subst.
           congruence.
        -- apply G3. lia.
      * destruct G as [j [G1 [G2 [G3 G4]]]].
        exists j. split; [lia|]. split; [exact G2|].
        split; [|exact G4].
        intros j' Hj'. destruct (Nat.eq_dec j' i) as [->|Ne].
        -- intros s' Hs' St'. rewrite Hs in Hs'. inversion Hs'; subst.
           congruence.
        -- apply G3. lia.
    + assert (Ii : idx st i = idx st0 i)
        by (rewrite I; apply inserted_below).
      destruct (throws i) eqn:Th.
      * (* the insert throws *)
        inversion E; subst. exists i. split; [lia|].
        split; [exists s; auto|]. split; [intros; lia|].
        split; [exact F|exact I].
      * assert (Step : forall st1,
                   st1 = set_idx i (map_insert skey
                                      (Project s (first h) (m_value h),
                                       GetSecondaryValue h) (idx st i)) st ->
                   (is_unique s = true ->
                    map_contains skey (Project s (first h) (m_value h))
                                 (idx st0 i) = false) ->
                   ForEachSecondary (AddSecs_step throws h) (seq (S i) n) st1
                   = (st', o) ->
                   match o with
                   | Done true =>
                       frame st0 st'
                       /\ (forall j, idx st' j
                                     = inserted policy specs (length specs) h j
                                                (idx st0 j))
                       /\ (forall j, (i <= j)%nat -> clean specs throws st0 h j)
                   | Done false =>
                       exists j st_j,
                       (i <= j)%nat /\ rejecting specs throws st0 h j
                       /\ (forall j', (i <= j' < j)%nat ->
                                      clean specs throws st0 h j')
                       /\ frame st0 st_j
                       /\ (forall j', idx st_j j'
                                      = inserted policy specs j h j'
                                                 (idx st0 j'))
                       /\ st' = Rollback j st_j h
                   | Threw =>
                       exists j,
                       (i <= j)%nat /\ throwing specs throws j
                       /\ (forall j', (i <= j' < j)%nat ->
                                      clean specs throws st0 h j')
                       /\ frame st0 st'
                       /\ (forall j', idx st' j'
                                      = inserted policy specs j h j'
                                                 (idx st0 j'))
                   end).
        { intros st1 -> Free E1.
          assert (Ci : clean specs throws st0 h i).
          { intros s' Hs' St'. rewrite Hs in Hs'. inversion Hs'; subst.
            split; auto. }
          assert (F1 : frame st0 (set_idx i
                         (map_insert skey
                            (Project s (first h) (m_value h),
                             GetSecondaryValue h) (idx st i)) st)).
          { eapply frame_trans; [exact F | apply frame_set_idx]. }
          assert (I1 : forall j,
                     idx (set_idx i
                            (map_insert skey
                               (Project s (first h) (m_value h),
                                GetSecondaryValue h) (idx st i)) st) j
                     = inserted policy specs (S i) h j (idx st0 j)).
          { intro j. rewrite idx_set_idx; auto.
            destruct (j =? i)%nat eqn:Ej.
            - apply Nat.eqb_eq in Ej. subst j. unfold inserted.
              rewrite Hs, St. simpl.
              assert ((i <? S i)%nat = true) as ->
                  by (apply Nat.ltb_lt; lia).
              simpl. rewrite Ii. reflexivity.
            - apply Nat.eqb_neq in Ej. rewrite I. unfold inserted.
              destruct (nth_error specs j); [|reflexivity].
              assert ((j <? S i)%nat = (j <? i)%nat) as ->; [|reflexivity].
              destruct (j <? i)%nat eqn:X.
              + apply Nat.ltb_lt in X. apply Nat.ltb_lt. lia.
              + apply Nat.ltb_ge in X. apply Nat.ltb_ge. lia. }
          assert (G := IH (S i) _ ltac:(lia) F1 I1 st' o E1).
          destruct o as [[|]|].
          - destruct G as [G1 [G2 G3]].
            split; [exact G1|]. split; [exact G2|].
            intros j Hj. destruct (Nat.eq_dec j i) as [->|Ne]; auto.
            apply G3. lia.
          - destruct G as [j [st_j [G1 [G2 [G3 G4]]]]].
            exists j, st_j. split; [lia|]. split; [exact G2|].
            split; [|exact G4].
            intros j' Hj'. destruct (Nat.eq_dec j' i) as [->|Ne]; auto.
            apply G3. lia.
          - destruct G as [j [G1 [G2 [G3 G4]]]].
            exists j. split; [lia|]. split; [exact G2|].
            split; [|exact G4].
            intros j' Hj'. destruct (Nat.eq_dec j' i) as [->|Ne]; auto.
            apply G3. lia. }
        destruct (is_unique s) eqn:U.
        -- destruct (map_contains skey (Project s (first h) (m_value h))
                                   (idx st i)) eqn:C.
           ++ (* a unique secondary rejects *)
              inversion E; subst. exists i, st.
              split; [lia|].
              split; [exists s; rewrite <- Ii; auto|].
              split; [intros; lia|].
              split; [exact F|]. split; [exact I|reflexivity].
           ++ eapply Step; eauto. intros _. rewrite <- Ii. exact C.
        -- eapply Step; eauto. intro X; discriminate.
Qed.

Lemma drop_inserted (st : T_MultiIndex) (s : T_Index Payload) (h : t_pair)
      (m : t_sec_map) :
  (forall e, In e m -> MatchSecondary st (snd e) h = false) ->
  MatchSecondary st (GetSecondaryValue h) h = true ->
  drop_entry st s h (map_insert skey (sec_entry s h) m) = m.
Proof.
  intros Hm Hh. unfold drop_entry.
  apply (erase_in_range_insert _ skey
           (fun e => MatchSecondary st (snd e) h) (sec_entry s h)); auto.
Qed.

Lemma drop_nomatch (st : T_MultiIndex) (s : T_Index Payload) (h : t_pair)
      (m : t_sec_map) :
  (forall e, In e m -> MatchSecondary st (snd e) h = false) ->
  drop_entry st s h m = m.
Proof.
  intro Hm. unfold drop_entry. apply erase_in_range_nomatch; auto.
Qed.

Lemma frame_sym (a b : T_MultiIndex) : frame a b -> frame b a.
Proof. unfold frame. intros [A1 [A2 [A3 A4]]]. repeat split; congruence. Qed.

(** What [AddSecs] does to a tuple none of whose entries answers to [h]:
    it writes every secondary, or it leaves the tuple as it found it. *)
Lemma AddSecs_spec (throws : nat -> bool) (h : t_pair) (st0 : T_MultiIndex) :
  length (m_second st0) = length specs ->
  fresh policy specs st0 h ->
  MatchSecondary st0 (GetSecondaryValue h) h = true ->
  forall st' o,
    AddSecs throws st0 h = (st', o) ->
    match o with
    | Done true =>
        frame st0 st'
        /\ (forall j, idx st' j
                      = inserted policy specs (length specs) h j (idx st0 j))
        /\ (forall j, clean specs throws st0 h j)
    | Done false =>
        st' = st0
        /\ exists j, rejecting specs throws st0 h j
                     /\ forall j', (j' < j)%nat -> clean specs throws st0 h j'
    | Threw =>
        st' = st0
        /\ exists j, throwing specs throws j
                     /\ forall j', (j' < j)%nat -> clean specs throws st0 h j'
    end.
Proof.
  intros L0 Fr Self st' o E. unfold AddSecs in E.
  destruct (ForEachSecondary (AddSecs_step throws h) index_sequence st0)
    as [st1 o1] eqn:E1.
  unfold index_sequence in E1.
  pose proof (AddSecs_loop throws h st0 L0 (length specs) 0%nat st0 eq_refl
                (frame_refl st0)
                ltac:(intro j; unfold inserted;
                      destruct (nth_error specs j); reflexivity)
                st1 o1 E1) as G.
  assert (Undo : forall j i st,
             frame st0 st ->
             rolled policy specs j st h i
                    (inserted policy specs j h i (idx st0 i)) = idx st0 i).
  { intros j i st F. unfold rolled, inserted.
    destruct (nth_error specs i) as [s|] eqn:Hs; [|reflexivity].
    destruct ((i <? j)%nat && negb (is_storage s)) eqn:C; [|reflexivity].
    apply andb_true_iff in C. destruct C as [_ C].
    apply negb_true_iff in C.
    destruct F as [_ [T _]].
    rewrite (drop_entry_ext st st0) by exact T.
    apply drop_inserted; auto.
    intros e He. eapply Fr; eauto. }
  destruct o1 as [[|]|].
  - inversion E; subst. destruct G as [G1 [G2 G3]].
    split; [exact G1|]. split; [exact G2|].
    intro j. apply G3. lia.
  - inversion E; subst.
    destruct G as [j [st_j [_ [Rj [Cj [Fj [Ij ->]]]]]]].
    split.
    + assert (Lj : length (m_second st_j) = length specs).
      { destruct Fj as [_ [_ [_ X]]]. congruence. }
      destruct (Rollback_spec j st_j h Lj) as [FR IR].
      apply state_ext.
      * eapply frame_trans; eauto.
      * intro i. rewrite IR, Ij. apply Undo. exact Fj.
    + exists j. split; [exact Rj|]. intros j' Hj'. apply Cj. lia.
  - inversion E; subst.
    destruct G as [j [_ [Tj [Cj [Fj Ij]]]]].
    split.
    + assert (Lj : length (m_second st1) = length specs).
      { destruct Fj as [_ [_ [_ X]]]. congruence. }
      destruct (DropSecs_spec None st1 h Lj) as [FR IR].
      apply state_ext.
      * eapply frame_trans; eauto.
      * intro i. rewrite IR, Ij. unfold dropped, inserted.
        destruct (nth_error specs i) as [s|] eqn:Hs; [|reflexivity].
        destruct (is_storage s) eqn:St; simpl.
        { rewrite andb_false_r. reflexivity. }
        rewrite andb_true_r.
        assert (T : transl st1 = transl st0) by (destruct Fj as [_ [T _]]; auto).
        rewrite (drop_entry_ext st1 st0) by exact T.
        destruct (i <? j)%nat.
        -- apply drop_inserted; auto. intros e He. eapply Fr; eauto.
        -- apply drop_nomatch. intros e He. eapply Fr; eauto.
    + exists j. split; [exact Tj|]. intros j' Hj'. apply Cj. lia.
Qed.

(** ** Secondary maps that are in order *)

Lemma sec_ok_perm (s : T_Index Payload) (L L' : list t_pair) (m : t_sec_map) :
  Permutation L L' -> sec_ok s L m -> sec_ok s L' m.
Proof.
  intros P [H1 [H2 H3]]. split; [|split]; auto.
  eapply Permutation_trans; [exact H1|]. apply Permutation_map. exact P.
Qed.

Lemma sec_ok_insert (s : T_Index Payload) (L : list t_pair) (m : t_sec_map)
      (h : t_pair) :
  sec_ok s L m ->
  (is_unique s = true ->
   map_contains skey (Project s (first h) (m_value h)) m = false) ->
  sec_ok s (h :: L) (map_insert skey (sec_entry s h) m).
Proof.
  intros [H1 [H2 H3]] Free. split; [|split].
  - eapply Permutation_trans; [apply map_insert_perm|].
    simpl. apply perm_skip. exact H1.
  - apply map_insert_sorted. exact H2.
  - intro U.
    apply (Permutation_NoDup
             (l := map skey (sec_entry s h :: m))).
    + apply Permutation_map. apply Permutation_sym. apply map_insert_perm.
    + simpl. constructor; [|auto].
      apply map_contains_false. apply Free. exact U.
Qed.

Lemma sec_ok_drop (st : T_MultiIndex) (s : T_Index Payload)
      (L1 L2 : list t_pair) (m : t_sec_map) (h : t_pair) :
  sec_ok s (L1 ++ h :: L2) m ->
  (forall r, In r (L1 ++ L2) -> MatchSecondary st (GetSecondaryValue r) h = false) ->
  MatchSecondary st (GetSecondaryValue h) h = true ->
  sec_ok s (L1 ++ L2) (drop_entry st s h m)
  /\ (is_unique s = true ->
      map_contains skey (Project s (first h) (m_value h))
                   (drop_entry st s h m) = false).
Proof.
  intros [H1 [H2 H3]] Other Self.
  assert (He : In (sec_entry s h) m).
  { apply (Permutation_in _ (Permutation_sym H1)).
    apply in_map. apply in_app_iff. right; left; reflexivity. }
  destruct (erase_in_range_found _ skey (Project s (first h) (m_value h))
              (fun e => MatchSecondary st (snd e) h) (sec_entry s h) m
              H2 He eq_refl Self) as [a [x [b [Hm [Px [Kx Hr]]]]]].
  assert (Hx : x = sec_entry s h).
  { assert (In x m) by (rewrite Hm; apply in_app_iff; right; left; auto).
    apply (Permutation_in _ H1) in H. apply in_map_iff in H.
    destruct H as [r [Er Hr']]. subst x.
    unfold sec_entry in Px. cbn [snd] in Px.
    apply in_app_iff in Hr'. destruct Hr' as [Hr'|[->|Hr']]; auto.
    - rewrite Other in Px; [discriminate|]. apply in_app_iff; auto.
    - rewrite Other in Px; [discriminate|]. apply in_app_iff; auto. }
  subst x. unfold drop_entry. rewrite Hr.
  assert (P : Permutation (a ++ b) (map (sec_entry s) (L1 ++ L2))).
  { rewrite Hm in H1. rewrite map_app in H1. simpl in H1.
    rewrite map_app.
    eapply Permutation_app_inv. exact H1. }
  split; [split; [exact P | split]|].
  - rewrite Hm in H2. eapply map_sorted_remove; eauto.
  - intro U. specialize (H3 U). rewrite Hm in H3.
    rewrite map_app in H3. simpl in H3. apply NoDup_remove_1 in H3.
    rewrite map_app. exact H3.
  - intro U. specialize (H3 U). rewrite Hm in H3.
    rewrite map_app in H3. simpl in H3. apply NoDup_remove_2 in H3.
    apply map_contains_false. rewrite map_app. exact H3.
Qed.

(** ** References and the records they resolve to *)

Lemma match_self (heap : nat) (st : T_MultiIndex) (r : t_pair) :
  storage_ok heap st -> In r (m_storage st) ->
  MatchSecondary st (GetSecondaryValue r) r = true.
Proof.
  intros [_ [_ [_ [_ [T _]]]]] Hr.
  unfold MatchSecondary, GetSecondaryValue.
  destruct policy; try apply Nat.eqb_refl; try apply Z.eqb_refl.
  rewrite (T eq_refl r Hr). apply Nat.eqb_refl.
Qed.

Lemma match_inj (heap : nat) (st : T_MultiIndex) (r r' : t_pair) :
  config_ok -> storage_ok heap st ->
  In r (m_storage st) -> In r' (m_storage st) ->
  MatchSecondary st (GetSecondaryValue r') r = true -> r' = r.
Proof.
  intros [_ C] [_ [U [N [_ [T _]]]]] Hr Hr' M.
  unfold MatchSecondary, GetSecondaryValue in M.
  destruct policy eqn:P.
  - apply Nat.eqb_eq in M. eapply NoDup_map_inj; eauto.
  - apply Nat.eqb_eq in M. eapply NoDup_map_inj; eauto.
  - rewrite (T eq_refl r' Hr') in M. apply Nat.eqb_eq in M.
    eapply NoDup_map_inj; eauto.
  - apply Z.eqb_eq in M. eapply (NoDup_map_inj _ _ (@first Payload)); eauto.
Qed.

Lemma match_other (heap : nat) (st : T_MultiIndex) (r r' : t_pair) :
  config_ok -> storage_ok heap st ->
  In r (m_storage st) -> In r' (m_storage st) -> r' <> r ->
  MatchSecondary st (GetSecondaryValue r') r = false.
Proof.
  intros C S Hr Hr' Ne.
  destruct (MatchSecondary st (GetSecondaryValue r') r) eqn:M; [|reflexivity].
  exfalso. apply Ne. eapply match_inj; eauto.
Qed.

Lemma fresh_from (heap : nat) (st : T_MultiIndex) (L : list t_pair)
      (h : t_pair) :
  config_ok -> storage_ok heap st -> In h (m_storage st) ->
  secondaries_ok st L ->
  (forall r, In r L -> In r (m_storage st) /\ r <> h) ->
  fresh policy specs st h.
Proof.
  intros C S Hh [_ Sec] HL j s e Hs St He.
  destruct (Sec j s Hs St) as [P _].
  apply (Permutation_in _ P) in He. apply in_map_iff in He.
  destruct He as [r [<- Hr]]. simpl.
  destruct (HL r Hr) as [Hin Ne].
  eapply match_other; eauto.
Qed.

(** ** The primary stays in order *)

Lemma storage_ok_replace (heap : nat) (st st' : T_MultiIndex)
      (m1 m2 : list t_pair) (r r' : t_pair) :
  storage_ok heap st ->
  m_storage st = m1 ++ r :: m2 -> m_storage st' = m1 ++ r' :: m2 ->
  transl st' = transl st ->
  addr r' = addr r -> first r' = first r -> trans_idx r' = trans_idx r ->
  (c_tombstones = false -> dead r' = false) ->
  storage_ok heap st'.
Proof.
  intros [S [U [N [H [T D]]]]] E E' Tr A F I Dd.
  unfold storage_ok. rewrite E', Tr. rewrite E in *.
  split; [|split; [|split; [|split; [|split]]]].
  - eapply map_sorted_replace; eauto.
  - intro X. specialize (U X). rewrite map_app in *. simpl in *.
    rewrite F. exact U.
  - rewrite map_app in *. simpl in *. rewrite A. exact N.
  - intros x Hx. apply in_app_iff in Hx. destruct Hx as [Hx|[<-|Hx]].
    + apply H. apply in_app_iff; auto.
    + rewrite A. apply H. apply in_app_iff; right; left; auto.
    + apply H. apply in_app_iff; right; right; auto.
  - intros X x Hx. apply in_app_iff in Hx. destruct Hx as [Hx|[<-|Hx]].
    + apply T; auto. apply in_app_iff; auto.
    + rewrite A, I. apply T; auto. apply in_app_iff; right; left; auto.
    + apply T; auto. apply in_app_iff; right; right; auto.
  - intros X x Hx. apply in_app_iff in Hx. destruct Hx as [Hx|[<-|Hx]].
    + apply D; auto. apply in_app_iff; auto.
    + auto.
    + apply D; auto. apply in_app_iff; right; right; auto.
Qed.

Lemma storage_ok_remove (heap : nat) (st st' : T_MultiIndex)
      (m1 m2 : list t_pair) (r : t_pair) :
  storage_ok heap st ->
  m_storage st = m1 ++ r :: m2 -> m_storage st' = m1 ++ m2 ->
  transl st' = transl st ->
  storage_ok heap st'.
Proof.
  intros [S [U [N [H [T D]]]]] E E' Tr.
  unfold storage_ok. rewrite E', Tr. rewrite E in *.
  assert (Sub : forall x, In x (m1 ++ m2) -> In x (m1 ++ r :: m2)).
  { intros x Hx. apply in_app_iff in Hx. apply in_app_iff.
    destruct Hx; [left|right; right]; auto. }
  split; [|split; [|split; [|split; [|split]]]].
  - eapply map_sorted_remove; eauto.
  - intro X. specialize (U X). rewrite map_app in *. simpl in U.
    apply NoDup_remove_1 in U. exact U.
  - rewrite map_app in *. simpl in N. apply NoDup_remove_1 in N. exact N.
  - intros x Hx. apply H. auto.
  - intros X x Hx. apply T; auto.
  - intros X x Hx. apply D; auto.
Qed.

Lemma storage_ok_heap (heap heap' : nat) (st : T_MultiIndex) :
  storage_ok heap st -> (heap <= heap')%nat -> storage_ok heap' st.
Proof.
  intros [S [U [N [H [T D]]]]] L.
  split; [|split; [|split; [|split; [|split]]]]; auto.
  intros r Hr. specialize (H r Hr). lia.
Qed.

Lemma storage_ok_insert (heap : nat) (st st' : T_MultiIndex) (h : t_pair) :
  storage_ok heap st ->
  (c_primary_is_unique = true ->
   ~ In (first h) (map (@first Payload) (m_storage st))) ->
  addr h = heap -> dead h = false ->
  m_storage st' = map_insert (@first Payload) h (m_storage st) ->
  (if c_needs_transl_array
   then transl st' = transl st ++ [heap] /\ trans_idx h = length (transl st)
   else transl st' = transl st) ->
  storage_ok (S heap) st'.
Proof.
  intros [S [U [N [H [T D]]]]] New A Dd E Tr.
  unfold storage_ok. rewrite E.
  split; [|split; [|split; [|split; [|split]]]].
  - apply map_insert_sorted. exact S.
  - intro X.
    apply (Permutation_NoDup (l := map (@first Payload) (h :: m_storage st))).
    + apply Permutation_map, Permutation_sym, map_insert_perm.
    + simpl. constructor; auto.
  - apply (Permutation_NoDup (l := map (@addr Payload) (h :: m_storage st))).
    + apply Permutation_map, Permutation_sym, map_insert_perm.
    + simpl. constructor; auto.
      intro X. apply in_map_iff in X. destruct X as [x [Ex Hx]].
      specialize (H x Hx). lia.
  - intros x Hx. apply map_insert_in in Hx. destruct Hx as [->|Hx].
    + lia.
    + specialize (H x Hx). lia.
  - intros X x Hx. rewrite X in Tr. destruct Tr as [Tr1 Tr2].
    rewrite Tr1. apply map_insert_in in Hx. destruct Hx as [->|Hx].
    + rewrite Tr2, A. rewrite nth_error_app2 by lia.
      rewrite Nat.sub_diag. reflexivity.
    + specialize (T X x Hx). rewrite nth_error_app1; auto.
      apply nth_error_Some. congruence.
  - intros X x Hx. apply map_insert_in in Hx. destruct Hx as [->|Hx]; auto.
Qed.

Lemma write_insert (m : list t_pair) (w h : t_pair) :
  (forall x, In x m -> addr x <> addr w) ->
  addr h = addr w -> first h = first w ->
  write h (map_insert (@first Payload) w m) = map_insert (@first Payload) h m.
Proof.
  intros H A F. unfold write. rewrite A.
  induction m as [|x m IH]; simpl.
  - rewrite Nat.eqb_refl. reflexivity.
  - rewrite F. destruct (first x <=? first w)%Z; simpl.
    + destruct (addr x =? addr w)%nat eqn:X.
      * apply Nat.eqb_eq in X. exfalso. apply (H x); auto. left; auto.
      * rewrite IH; auto. intros; apply H; right; auto.
    + rewrite Nat.eqb_refl. f_equal.
      destruct (addr x =? addr w)%nat eqn:X.
      * apply Nat.eqb_eq in X. exfalso. apply (H x); auto. left; auto.
      * f_equal. fold (write (mk_pair (addr w) (first h) (m_value h) (dead h)
                                      (trans_idx h)) m).
        rewrite <- (map_id m) at 2. apply map_ext_in. intros y Hy.
        destruct (addr y =? addr w)%nat eqn:Y; [|reflexivity].
        apply Nat.eqb_eq in Y. exfalso. apply (H y); auto. right; auto.
Qed.

Lemma erase_node_insert (m : list t_pair) (h : t_pair) :
  (forall x, In x m -> addr x <> addr h) ->
  erase_node (addr h) (map_insert (@first Payload) h m) = m.
Proof.
  intro H. induction m as [|x m IH]; simpl.
  - rewrite Nat.eqb_refl. reflexivity.
  - destruct (first x <=? first h)%Z; simpl.
    + destruct (addr x =? addr h)%nat eqn:X.
      * apply Nat.eqb_eq in X. exfalso. apply (H x); auto. left; auto.
      * rewrite IH; auto. intros; apply H; right; auto.
    + rewrite Nat.eqb_refl. reflexivity.
Qed.

Lemma live_insert_perm (m : list t_pair) (h : t_pair) :
  dead h = false ->
  Permutation (live (map_insert (@first Payload) h m)) (h :: live m).
Proof.
  intro D. unfold live. induction m as [|x m IH]; simpl.
  - rewrite D. simpl. apply Permutation_refl.
  - destruct (first x <=? first h)%Z; simpl.
    + destruct (dead x); simpl; auto.
      eapply Permutation_trans; [apply perm_skip, IH | apply perm_swap].
    + rewrite D. simpl. apply Permutation_refl.
Qed.

Lemma size_wrap_succ (n : Z) : size_wrap (size_wrap n + 1) = size_wrap (n + 1).
Proof. unfold size_wrap. apply Zplus_mod_idemp_l. Qed.

Lemma size_wrap_pred (n : Z) : size_wrap (size_wrap n - 1) = size_wrap (n - 1).
Proof. unfold size_wrap. apply Zminus_mod_idemp_l. Qed.

Lemma inserted_all (h : t_pair) (j : nat) (s : T_Index Payload)
      (m : t_sec_map) :
  nth_error specs j = Some s -> is_storage s = false ->
  inserted policy specs (length specs) h j m
  = map_insert skey (sec_entry s h) m.
Proof.
  intros Hs St. unfold inserted. rewrite Hs, St.
  assert ((j <? length specs)%nat = true) as ->; [|reflexivity].
  apply Nat.ltb_lt. apply nth_error_Some. congruence.
Qed.

(** [AddSecs] on a container that is in order except for the entries of
    [h], which are still to be written. *)
Lemma AddSecs_wf (throws : nat -> bool) (heap : nat) (st : T_MultiIndex)
      (L : list t_pair) (h : t_pair) :
  config_ok -> storage_ok heap st -> In h (m_storage st) ->
  secondaries_ok st L ->
  (forall r, In r L -> In r (m_storage st) /\ r <> h) ->
  forall st' o,
    AddSecs throws st h = (st', o) ->
    match o with
    | Done true =>
        frame st st' /\ secondaries_ok st' (h :: L)
        /\ (forall j, idx st' j
                      = inserted policy specs (length specs) h j (idx st j))
        /\ (forall j, clean specs throws st h j)
    | Done false =>
        st' = st
        /\ exists j, rejecting specs throws st h j
                     /\ forall j', (j' < j)%nat -> clean specs throws st h j'
    | Threw =>
        st' = st
        /\ exists j, throwing specs throws j
                     /\ forall j', (j' < j)%nat -> clean specs throws st h j'
    end.
Proof.
  intros C S Hh Sec HL st' o E.
  assert (Fr : fresh policy specs st h) by (eapply fresh_from; eauto).
  assert (Self : MatchSecondary st (GetSecondaryValue h) h = true)
    by (eapply match_self; eauto).
  destruct Sec as [Len Sec].
  pose proof (AddSecs_spec throws h st Len Fr Self st' o E) as G.
  destruct o as [[|]|]; auto.
  destruct G as [F [I Cl]].
  split; [exact F|]. split; [|split; [exact I|exact Cl]].
  split.
  - destruct F as [_ [_ [_ X]]]. congruence.
  - intros j s Hs St. rewrite I. rewrite (inserted_all h _ _ _ Hs St).
    apply sec_ok_insert; auto.
    intro U. destruct (Cl j s Hs St) as [_ X]. auto.
Qed.

Lemma ToIterator_live (st : T_MultiIndex) (r : t_pair) :
  NoDup (map (@addr Payload) (m_storage st)) ->
  In r (m_storage st) -> dead r = false ->
  ToIterator st (Some (addr r)) = Some (addr r).
Proof.
  intros N Hr D. unfold ToIterator.
  destruct c_tombstones; [|reflexivity].
  unfold SkipDead.
  destruct (in_split _ _ Hr) as [m1 [m2 E]]. rewrite E.
  rewrite seek_split.
  - simpl. rewrite D. reflexivity.
  - intros x Hx A. rewrite E in N. rewrite map_app in N. simpl in N.
    apply NoDup_remove_2 in N. apply N. apply in_app_iff. left.
    rewrite <- A. apply in_map. exact Hx.
Qed.

Lemma secondaries_ok_frame (st st' : T_MultiIndex) (L : list t_pair) :
  m_second st' = m_second st -> secondaries_ok st L -> secondaries_ok st' L.
Proof.
  intros E [Len Sec]. split; [congruence|].
  intros j s Hs St. unfold idx. rewrite E. apply (Sec j s Hs St).
Qed.

Lemma secondaries_ok_perm (st : T_MultiIndex) (L L' : list t_pair) :
  Permutation L L' -> secondaries_ok st L -> secondaries_ok st L'.
Proof.
  intros P [Len Sec]. split; [exact Len|].
  intros j s Hs St. eapply sec_ok_perm; eauto.
Qed.

Lemma clean_idx (throws : nat -> bool) (st st' : T_MultiIndex) (h : t_pair)
      (j : nat) :
  m_second st' = m_second st ->
  clean specs throws st h j -> clean specs throws st' h j.
Proof.
  intros E Cl s Hs St. unfold idx. rewrite E. apply (Cl s Hs St).
Qed.

Lemma rejecting_idx (throws : nat -> bool) (st st' : T_MultiIndex)
      (h : t_pair) (j : nat) :
  m_second st' = m_second st ->
  rejecting specs throws st h j -> rejecting specs throws st' h j.
Proof.
  intros E [s R]. exists s. unfold idx in *. rewrite E. exact R.
Qed.

(** ** The live counter *)

Lemma IncrementLive_fields (st : T_MultiIndex) :
  m_storage (IncrementLive st) = m_storage st
  /\ m_second (IncrementLive st) = m_second st
  /\ transl (IncrementLive st) = transl st
  /\ m_live (IncrementLive st)
     = if c_tombstones then size_wrap (m_live st + 1) else m_live st.
Proof. unfold IncrementLive. destruct c_tombstones; simpl; auto. Qed.

Lemma DecrementLive_fields (st : T_MultiIndex) :
  m_storage (DecrementLive st) = m_storage st
  /\ m_second (DecrementLive st) = m_second st
  /\ transl (DecrementLive st) = transl st
  /\ m_live (DecrementLive st)
     = if c_tombstones then size_wrap (m_live st - 1) else m_live st.
Proof. unfold DecrementLive. destruct c_tombstones; simpl; auto. Qed.

Lemma storage_ok_ext (heap : nat) (st st' : T_MultiIndex) :
  m_storage st' = m_storage st -> transl st' = transl st ->
  storage_ok heap st -> storage_ok heap st'.
Proof. unfold storage_ok. intros -> ->. auto. Qed.

Lemma live_ok_incr (st st' : T_MultiIndex) :
  live_ok st ->
  length (live (m_storage st')) = S (length (live (m_storage st))) ->
  m_live st' = (if c_tombstones then size_wrap (m_live st + 1) else m_live st) ->
  live_ok st'.
Proof.
  unfold live_ok. intros H L M T. rewrite M, T, (H T), L.
  rewrite size_wrap_succ. f_equal. lia.
Qed.

Lemma live_ok_decr (st st' : T_MultiIndex) :
  live_ok st ->
  S (length (live (m_storage st'))) = length (live (m_storage st)) ->
  m_live st' = (if c_tombstones then size_wrap (m_live st - 1) else m_live st) ->
  live_ok st'.
Proof.
  unfold live_ok. intros H L M T. rewrite M, T, (H T), <- L.
  rewrite size_wrap_pred. f_equal. lia.
Qed.

Lemma live_ok_same (st st' : T_MultiIndex) :
  live_ok st ->
  length (live (m_storage st')) = length (live (m_storage st)) ->
  m_live st' = m_live st ->
  live_ok st'.
Proof. unfold live_ok. intros H L M T. rewrite M, (H T), L. reflexivity. Qed.

(** ** [emplace] of a key the primary takes *)

Lemma emplace_new (throws : nat -> bool) (heap : nat) (st : T_MultiIndex)
      (k : Z) (v : Payload) :
  config_ok -> wf heap st ->
  (c_primary_is_unique = true ->
   ~ In k (map (@first Payload) (m_storage st))) ->
  forall heap' st' res,
    emplace throws heap st k v = (heap', st', res) ->
    heap' = S heap
    /\ let h := mk_pair heap k v false
                        (if c_needs_transl_array then length (transl st)
                         else 0%nat) in
       ((res = Returned (Some heap, true)
         /\ wf (S heap) st'
         /\ m_storage st' = map_insert (@first Payload) h (m_storage st)
         /\ (forall j, idx st' j
                       = inserted policy specs (length specs) h j (idx st j))
         /\ (forall j, clean specs throws st h j))
        \/ (res = Returned (end_, false) /\ st' = st
            /\ exists j, rejecting specs throws st h j
                         /\ forall j', (j' < j)%nat ->
                                       clean specs throws st h j')
        \/ (res = Thrown /\ st' = st
            /\ exists j, throwing specs throws j
                         /\ forall j', (j' < j)%nat ->
                                       clean specs throws st h j')).
Proof.
  intros C [S [Sec Lv]] New heap' st' res E.
  unfold emplace in E.
  assert (X1 : (if c_primary_is_unique && c_tombstones
                then map_find (@first Payload) k (m_storage st)
                else None) = None).
  { destruct c_primary_is_unique eqn:U; simpl; [|reflexivity].
    destruct c_tombstones; [|reflexivity].
    apply map_find_none. auto. }
  rewrite X1 in E.
  assert (X2 : c_primary_is_unique
               && map_contains (@first Payload) k (m_storage st) = false).
  { destruct c_primary_is_unique eqn:U; simpl; [|reflexivity].
    apply map_contains_false. auto. }
  rewrite X2 in E.
  set (h := mk_pair heap k v false
                    (if c_needs_transl_array then length (transl st)
                     else 0%nat)).
  set (st2 := mk_mi (map_insert (@first Payload) h (m_storage st))
                    (m_second st)
                    (if c_needs_transl_array then transl st ++ [heap]
                     else transl st) (m_live st)).
  assert (Fresh : forall x, In x (m_storage st) -> addr x <> heap).
  { intros x Hx. destruct S as [_ [_ [_ [H _]]]]. specialize (H x Hx). lia. }
  assert (E2 : OnEmplaceSuccess
                 (set_storage (map_insert (@first Payload)
                                          (mk_pair heap k v false 0)
                                          (m_storage st)) st)
                 (mk_pair heap k v false 0) = (st2, h)).
  { unfold OnEmplaceSuccess, st2, h.
    destruct c_needs_transl_array; [|reflexivity].
    cbn [m_storage set_storage transl]. rewrite write_insert; auto. }
  rewrite E2 in E.
  assert (S2 : storage_ok (Datatypes.S heap) st2).
  { apply (storage_ok_insert heap st st2 h); auto.
    unfold st2, h. simpl. destruct c_needs_transl_array; auto. }
  assert (Hh : In h (m_storage st2)).
  { unfold st2. simpl. apply map_insert_in. left; reflexivity. }
  assert (Sec2 : secondaries_ok st2 (live (m_storage st))).
  { eapply secondaries_ok_frame; [|exact Sec]. reflexivity. }
  assert (HL : forall r, In r (live (m_storage st)) ->
                         In r (m_storage st2) /\ r <> h).
  { intros r Hr. apply live_in in Hr. destruct Hr as [Hr _]. split.
    - unfold st2. simpl. apply map_insert_in. right; exact Hr.
    - intro X. subst r. apply (Fresh h Hr). reflexivity. }
  assert (Back : set_storage (erase_node heap (m_storage (OnEmplaceFail st2)))
                             (OnEmplaceFail st2) = st).
  { assert (R : erase_node heap (map_insert (@first Payload) h (m_storage st))
                = m_storage st) by (apply (erase_node_insert _ h); auto).
    destruct st as [a b c d]. unfold OnEmplaceFail, st2, set_storage.
    cbn [m_storage m_second transl m_live set_transl] in *.
    destruct c_needs_transl_array;
      cbn [m_storage m_second transl m_live set_transl];
      rewrite ?removelast_last, R; reflexivity. }
  destruct (AddSecs throws st2 h) as [st3 o] eqn:EA.
  pose proof (AddSecs_wf throws _ st2 _ h C S2 Hh Sec2 HL st3 o EA) as G.
  destruct o as [[|]|].
  - (* every secondary took the entry *)
    inversion E; subst heap' st' res. clear E.
    destruct G as [F [Sec3 [I Cl]]].
    destruct F as [F1 [F2 [F3 F4]]].
    destruct (IncrementLive_fields st3) as [I1 [I2 [I3 I4]]].
    split; [reflexivity|]. left.
    assert (Hh3 : In h (m_storage st3)) by (rewrite F1; exact Hh).
    split.
    { f_equal. f_equal.
      change heap with (addr h) at 1 2.
      apply ToIterator_live; auto.
      rewrite F1. destruct S2 as [_ [_ [N _]]]. exact N. }
    split; [|split; [|split]].
    + split; [|split].
      * eapply storage_ok_ext; [| |exact S2]; congruence.
      * eapply secondaries_ok_frame; [exact I2|].
        eapply secondaries_ok_perm; [|exact Sec3].
        rewrite I1, F1. unfold st2. simpl.
        apply Permutation_sym. apply live_insert_perm. reflexivity.
      * eapply live_ok_incr; [exact Lv| |].
        -- rewrite I1, F1. unfold st2. simpl.
           rewrite (Permutation_length
                      (live_insert_perm (m_storage st) h eq_refl)).
           reflexivity.
        -- rewrite I4, F3. reflexivity.
    + rewrite I1, F1. reflexivity.
    + intro j. unfold idx at 1. rewrite I2. apply I.
    + intro j. eapply clean_idx; [|apply Cl]. reflexivity.
  - (* a unique secondary rejected *)
    inversion E; subst heap' st' res. clear E.
    destruct G as [-> [j [Rj Cj]]].
    split; [reflexivity|]. right. left.
    split; [reflexivity|]. split.
    + apply Back.
    + exists j. split.
      * eapply rejecting_idx; [|exact Rj]. reflexivity.
      * intros j' Hj'. eapply clean_idx; [|apply Cj; exact Hj'].
        reflexivity.
  - (* an insert threw *)
    inversion E; subst heap' st' res. clear E.
    destruct G as [-> [j [Tj Cj]]].
    split; [reflexivity|]. right. right.
    split; [reflexivity|]. split.
    + apply Back.
    + exists j. split; [exact Tj|].
      intros j' Hj'. eapply clean_idx; [|apply Cj; exact Hj'].
      reflexivity.
Qed.

Lemma in_split_addr (m : list t_pair) (r : t_pair) :
  NoDup (map (@addr Payload) m) -> In r m ->
  exists m1 m2, m = m1 ++ r :: m2
                /\ forall x, In x (m1 ++ m2) -> addr x <> addr r.
Proof.
  intros N H.
  destruct (deref_split m (addr r) r N (deref_in m r N H))
    as [m1 [m2 [E [_ X]]]].
  exists m1, m2. auto.
Qed.

Lemma map_find_some (k : Z) (m : list t_pair) (r : t_pair) :
  map_find (@first Payload) k m = Some r -> In r m /\ first r = k.
Proof.
  unfold map_find. intro H. apply find_some in H. destruct H as [H1 H2].
  apply Z.eqb_eq in H2. auto.
Qed.

(** ** [emplace] of a key a unique primary already holds *)

Lemma emplace_present (throws : nat -> bool) (heap : nat) (st : T_MultiIndex)
      (k : Z) (v : Payload) (r0 : t_pair) :
  c_primary_is_unique = true ->
  map_find (@first Payload) k (m_storage st) = Some r0 ->
  (c_tombstones = true -> dead r0 = false) ->
  emplace throws heap st k v
  = (heap, st, Returned (ToIterator st (Some (addr r0)), false)).
Proof.
  intros U F D. unfold emplace. rewrite U. simpl.
  destruct c_tombstones eqn:T.
  - rewrite F. rewrite (D eq_refl). reflexivity.
  - assert (map_contains (@first Payload) k (m_storage st) = true) as ->.
    { apply map_contains_true. exists r0. apply map_find_some. exact F. }
    rewrite F. reflexivity.
Qed.

(** ** [emplace] over a tombstone: revival *)

Lemma emplace_revive (throws : nat -> bool) (heap : nat) (st : T_MultiIndex)
      (k : Z) (v : Payload) (r0 : t_pair) :
  config_ok -> wf heap st ->
  c_primary_is_unique = true -> c_tombstones = true ->
  map_find (@first Payload) k (m_storage st) = Some r0 ->
  dead r0 = true ->
  forall heap' st' res,
    emplace throws heap st k v = (heap', st', res) ->
    heap' = heap
    /\ wf heap st'
    /\ transl st' = transl st
    /\ let h := set_value v (set_dead false r0) in
       ((res = Returned (Some (addr r0), true)
         /\ m_storage st' = write h (m_storage st)
         /\ (forall j, idx st' j
                       = inserted policy specs (length specs) h j (idx st j))
         /\ m_live st' = size_wrap (m_live st + 1)
         /\ (forall j, clean specs throws st h j))
        \/ ((res = Returned (end_, false)
             /\ exists j, rejecting specs throws st h j
                          /\ forall j', (j' < j)%nat ->
                                        clean specs throws st h j')
            \/ (res = Thrown
                /\ exists j, throwing specs throws j
                             /\ forall j', (j' < j)%nat ->
                                           clean specs throws st h j'))
           /\ m_storage st' = write (set_dead true h) (m_storage st)
           /\ m_second st' = m_second st
           /\ m_live st' = m_live st).
Proof.
  intros C [S [Sec Lv]] U T F D heap' st' res E.
  unfold emplace in E. rewrite U, T in E. simpl in E. rewrite F, D in E.
  set (h := set_value v (set_dead false r0)) in *.
  destruct (map_find_some _ _ _ F) as [Hr0 Hk].
  assert (N : NoDup (map (@addr Payload) (m_storage st)))
    by (destruct S as [_ [_ [N _]]]; exact N).
  destruct (in_split_addr _ _ N Hr0) as [m1 [m2 [Em Oth]]].
  set (st1 := set_storage (write h (m_storage st)) st) in *.
  assert (W1 : m_storage st1 = m1 ++ h :: m2).
  { unfold st1. simpl. rewrite Em. apply write_split; auto. }
  assert (S1 : storage_ok heap st1).
  { eapply (storage_ok_replace heap st st1 m1 m2 r0 h); eauto. }
  assert (L0 : live (m_storage st) = live m1 ++ live m2).
  { rewrite Em. rewrite live_app. unfold live at 2. simpl.
    rewrite D. reflexivity. }
  assert (Sec1 : secondaries_ok st1 (live m1 ++ live m2)).
  { rewrite <- L0. eapply secondaries_ok_frame; [|exact Sec]. reflexivity. }
  assert (Hh : In h (m_storage st1)).
  { rewrite W1. apply in_app_iff. right; left; reflexivity. }
  assert (HL : forall r, In r (live m1 ++ live m2) ->
                         In r (m_storage st1) /\ r <> h).
  { intros r Hr.
    assert (Hr' : In r (m1 ++ m2)).
    { apply in_app_iff in Hr. apply in_app_iff.
      destruct Hr as [Hr|Hr]; apply live_in in Hr; tauto. }
    split.
    - rewrite W1. apply in_app_iff in Hr'. apply in_app_iff.
      destruct Hr'; [left|right; right]; auto.
    - intro X. subst r. apply (Oth h Hr'). reflexivity. }
  assert (W2 : write (set_dead true h) (write h (m_storage st))
               = write (set_dead true h) (m_storage st)).
  { change (write h (m_storage st)) with (m_storage st1).
    rewrite W1, Em. rewrite !write_split; auto. }
  assert (Wd : write (set_dead true h) (m_storage st)
               = m1 ++ set_dead true h :: m2).
  { rewrite Em. apply write_split; auto. }
  destruct (AddSecs throws st1 h) as [st2 o] eqn:EA.
  pose proof (AddSecs_wf throws _ st1 _ h C S1 Hh Sec1 HL st2 o EA) as G.
  assert (Fail : forall st2', st2' = st1 ->
             wf heap (mark true h st2')
             /\ transl (mark true h st2') = transl st
             /\ m_storage (mark true h st2')
                = write (set_dead true h) (m_storage st)
             /\ m_second (mark true h st2') = m_second st
             /\ m_live (mark true h st2') = m_live st).
  { intros st2' ->. unfold mark.
    split; [|split; [|split; [|split]]]; try reflexivity;
      [|simpl; exact W2].
    split; [|split].
    - eapply (storage_ok_replace heap st _ m1 m2 r0 (set_dead true h));
        eauto.
      + simpl. rewrite W2. exact Wd.
      + intro X. unfold c_tombstones in *. congruence.
    - simpl. rewrite W2, Wd. rewrite live_app. unfold live at 2. simpl.
      fold (live m2). rewrite <- L0.
      eapply secondaries_ok_frame; [|exact Sec]. reflexivity.
    - eapply live_ok_same; [exact Lv| |reflexivity].
      simpl. rewrite W2, Wd, L0. rewrite !live_app. unfold live at 2.
      simpl. reflexivity. }
  destruct o as [[|]|].
  - inversion E; subst heap' st' res. clear E.
    destruct G as [Fr [Sec2 [I Cl]]].
    destruct Fr as [F1 [F2 [F3 F4]]].
    destruct (IncrementLive_fields st2) as [I1 [I2 [I3 I4]]].
    assert (Lh : live (m_storage st1) = live m1 ++ h :: live m2).
    { rewrite W1, live_app. unfold live at 2. simpl. reflexivity. }
    split; [reflexivity|]. split; [|split].
    + split; [|split].
      * eapply storage_ok_ext; [| |exact S1]; congruence.
      * eapply secondaries_ok_frame; [exact I2|].
        eapply secondaries_ok_perm; [|exact Sec2].
        rewrite I1, F1, Lh. apply Permutation_middle.
      * eapply live_ok_incr; [exact Lv| |].
        -- rewrite I1, F1, Lh, L0. rewrite !length_app. simpl. lia.
        -- rewrite I4, F3. reflexivity.
    + rewrite I3, F2. reflexivity.
    + left. split.
      { f_equal. f_equal. change (addr r0) with (addr h).
        apply ToIterator_live; auto.
        - rewrite F1. destruct S1 as [_ [_ [N1 _]]]. exact N1.
        - rewrite F1. exact Hh. }
      split; [rewrite I1, F1; reflexivity|].
      split; [intro j; unfold idx at 1; rewrite I2; apply I|].
      split; [rewrite I4, F3, T; reflexivity|].
      intro j. eapply clean_idx; [|apply Cl]. reflexivity.
  - inversion E; subst heap' st' res. clear E.
    destruct G as [-> [j [Rj Cj]]].
    destruct (Fail st1 eq_refl) as [A1 [A2 [A3 [A4 A5]]]].
    split; [reflexivity|]. split; [exact A1|]. split; [exact A2|].
    right. split; [|split; [exact A3|split; [exact A4|exact A5]]].
    left. split; [reflexivity|]. exists j. split.
    + eapply rejecting_idx; [|exact Rj]. reflexivity.
    + intros j' Hj'. eapply clean_idx; [|apply Cj; exact Hj']. reflexivity.
  - inversion E; subst heap' st' res. clear E.
    destruct G as [-> [j [Tj Cj]]].
    destruct (Fail st1 eq_refl) as [A1 [A2 [A3 [A4 A5]]]].
    split; [reflexivity|]. split; [exact A1|]. split; [exact A2|].
    right. split; [|split; [exact A3|split; [exact A4|exact A5]]].
    right. split; [reflexivity|]. exists j. split; [exact Tj|].
    intros j' Hj'. eapply clean_idx; [|apply Cj; exact Hj']. reflexivity.
Qed.

(** [emplace] keeps the container in order, however it ends. *)
Lemma emplace_wf (throws : nat -> bool) (heap : nat) (st : T_MultiIndex)
      (k : Z) (v : Payload) :
  config_ok -> wf heap st ->
  forall heap' st' res,
    emplace throws heap st k v = (heap', st', res) ->
    wf heap' st'.
Proof.
  intros C W heap' st' res E.
  destruct c_primary_is_unique eqn:U.
  - destruct (map_find (@first Payload) k (m_storage st)) as [r0|] eqn:F.
    + destruct (c_tombstones && dead r0) eqn:TD.
      * apply andb_true_iff in TD. destruct TD as [T D].
        destruct (emplace_revive throws heap st k v r0 C W U T F D
                                 heap' st' res E) as [-> [W' _]].
        exact W'.
      * rewrite (emplace_present throws heap st k v r0 U F) in E.
        -- inversion E; subst. exact W.
        -- intro T. rewrite T in TD. simpl in TD. exact TD.
    + assert (New : c_primary_is_unique = true ->
                    ~ In k (map (@first Payload) (m_storage st)))
        by (intros _; apply map_find_none; exact F).
      destruct (emplace_new throws heap st k v C W New heap' st' res E)
        as [-> [[_ [W' _]]|[[_ [-> _]]|[_ [-> _]]]]].
      * exact W'.
      * destruct W as [S [Sec Lv]]. split; [|split]; auto.
        eapply storage_ok_heap; eauto.
      * destruct W as [S [Sec Lv]]. split; [|split]; auto.
        eapply storage_ok_heap; eauto.
  - assert (New : c_primary_is_unique = true ->
                  ~ In k (map (@first Payload) (m_storage st)))
      by (intro X; rewrite U in X; discriminate).
    destruct (emplace_new throws heap st k v C W New heap' st' res E)
      as [-> [[_ [W' _]]|[[_ [-> _]]|[_ [-> _]]]]].
    + exact W'.
    + destruct W as [S [Sec Lv]]. split; [|split]; auto.
      eapply storage_ok_heap; eauto.
    + destruct W as [S [Sec Lv]]. split; [|split]; auto.
      eapply storage_ok_heap; eauto.
Qed.

(** ** [DropSecs] and [erase(it)] *)

Lemma DropSecs_wf (I_Ignore : option nat) (heap : nat) (st : T_MultiIndex)
      (m1 m2 : list t_pair) (r : t_pair) :
  config_ok -> storage_ok heap st ->
  m_storage st = m1 ++ r :: m2 -> dead r = false ->
  secondaries_ok st (live (m_storage st)) ->
  frame st (DropSecs I_Ignore st r)
  /\ length (m_second (DropSecs I_Ignore st r)) = length specs
  /\ forall j s,
      nth_error specs j = Some s -> is_storage s = false ->
      if ignored I_Ignore j
      then idx (DropSecs I_Ignore st r) j = idx st j
      else sec_ok s (live m1 ++ live m2) (idx (DropSecs I_Ignore st r) j)
           /\ (is_unique s = true ->
               map_contains skey (Project s (first r) (m_value r))
                            (idx (DropSecs I_Ignore st r) j) = false).
Proof.
  intros C S E D [Len Sec].
  destruct (DropSecs_spec I_Ignore st r Len) as [F I].
  split; [exact F|]. split.
  { destruct F as [_ [_ [_ X]]]. congruence. }
  intros j s Hs St. rewrite I. unfold dropped. rewrite Hs, St. simpl.
  destruct (ignored I_Ignore j); simpl; [reflexivity|].
  assert (Hr : In r (m_storage st))
    by (rewrite E; apply in_app_iff; right; left; reflexivity).
  apply sec_ok_drop.
  - specialize (Sec j s Hs St). rewrite E in Sec.
    rewrite live_app in Sec. unfold live at 2 in Sec. simpl in Sec.
    rewrite D in Sec. exact Sec.
  - intros x Hx. eapply match_other; eauto.
    + rewrite E. apply in_app_iff in Hx. apply in_app_iff.
      destruct Hx as [Hx|Hx]; apply live_in in Hx; destruct Hx;
        [left|right; right]; auto.
    + intro X. subst x.
      destruct S as [_ [_ [N _]]]. rewrite E in N.
      rewrite map_app in N. simpl in N. apply NoDup_remove_2 in N.
      apply N. rewrite <- map_app. apply in_map.
      apply in_app_iff in Hx. apply in_app_iff.
      destruct Hx as [Hx|Hx]; apply live_in in Hx; destruct Hx; auto.
  - eapply match_self; eauto.
Qed.

Lemma ignored_none (j : nat) : ignored None j = false.
Proof. reflexivity. Qed.

Lemma erase_spec (heap : nat) (st : T_MultiIndex) (a : nat) (r : t_pair) :
  config_ok -> wf heap st ->
  deref (m_storage st) a = Some r -> dead r = false ->
  wf heap (fst (erase st (Some a)))
  /\ m_storage (fst (erase st (Some a)))
     = (if c_tombstones then write (set_dead true r) (m_storage st)
        else erase_node a (m_storage st))
  /\ transl (fst (erase st (Some a))) = transl st
  /\ snd (erase st (Some a))
     = (if c_tombstones then iter_incr policy (fst (erase st (Some a))) (Some a)
        else iter_next (m_storage st) (Some a)).
Proof.
  intros C [S [Sec Lv]] Dr D.
  assert (N : NoDup (map (@addr Payload) (m_storage st)))
    by (destruct S as [_ [_ [N _]]]; exact N).
  destruct (deref_split _ _ _ N Dr) as [m1 [m2 [E [A Oth]]]].
  destruct (DropSecs_wf None heap st m1 m2 r C S E D Sec) as [F [Len Sd]].
  destruct F as [F1 [F2 [F3 F4]]].
  assert (Oth' : forall x, In x (m1 ++ m2) -> addr x <> addr r)
    by (rewrite A; exact Oth).
  assert (Sec' : forall st', m_second st' = m_second (DropSecs None st r) ->
                             secondaries_ok st' (live m1 ++ live m2)).
  { intros st' E'. split; [congruence|].
    intros j s Hs St. unfold idx. rewrite E'.
    specialize (Sd j s Hs St). rewrite ignored_none in Sd. apply Sd. }
  unfold erase. cbn [iter_eqb end_]. rewrite Dr.
  destruct c_tombstones eqn:T.
  - cbn [fst snd].
    destruct (DecrementLive_fields (mark true r (DropSecs None st r)))
      as [D1 [D2 [D3 D4]]].
    unfold c_tombstones in *. rewrite T in D4.
    assert (W : m_storage (DecrementLive (mark true r (DropSecs None st r)))
                = m1 ++ set_dead true r :: m2).
    { rewrite D1. unfold mark. simpl. rewrite F1, E.
      apply write_split; auto. }
    split; [|split; [|split]].
    + split; [|split].
      * eapply (storage_ok_replace heap st _ m1 m2 r (set_dead true r));
          eauto; try (intro X; congruence).
        rewrite D3. unfold mark. simpl. exact F2.
      * rewrite W. rewrite live_app. unfold live at 2. simpl.
        fold (live m2). apply Sec'. rewrite D2. reflexivity.
      * eapply live_ok_decr; [exact Lv| |].
        -- rewrite W, E. rewrite !live_app. unfold live at 2 4. simpl.
           rewrite D. simpl. rewrite !length_app. simpl. lia.
        -- rewrite D4. unfold mark. simpl. rewrite F3.
           unfold c_tombstones. rewrite T. reflexivity.
    + rewrite W, E. symmetry. apply write_split; auto.
    + rewrite D3. unfold mark. simpl. exact F2.
    + reflexivity.
  - cbn [fst snd].
    set (st1 := DropSecs None st r) in *.
    destruct (DecrementLive_fields
                (set_storage (erase_node a (m_storage st1)) st1))
      as [D1 [D2 [D3 D4]]].
    unfold c_tombstones in *. rewrite T in D4.
    assert (W : m_storage (DecrementLive
                             (set_storage (erase_node a (m_storage st1)) st1))
                = m1 ++ m2).
    { rewrite D1. simpl. rewrite F1, E. rewrite <- A.
      apply erase_node_split. intros x Hx. apply Oth'.
      apply in_app_iff; auto. }
    split; [|split; [|split]].
    + split; [|split].
      * eapply (storage_ok_remove heap st _ m1 m2 r); eauto.
        rewrite D3. simpl. exact F2.
      * rewrite W. rewrite live_app. apply Sec'. rewrite D2. reflexivity.
      * intro X. unfold c_tombstones in X. congruence.
    + rewrite W, E. rewrite <- A. symmetry.
      apply erase_node_split. intros x Hx. apply Oth'.
      apply in_app_iff; auto.
    + rewrite D3. simpl. exact F2.
    + rewrite F1. reflexivity.
Qed.

(** ** [UpdateCore] *)

Lemma set_dead_same (r : t_pair) : set_dead (dead r) r = r.
Proof. destruct r; reflexivity. Qed.

Lemma restore_record (r : t_pair) (v : Payload) (b : bool) :
  set_dead (dead r) (set_value (m_value r) (set_value v (set_dead b r))) = r.
Proof. destruct r; reflexivity. Qed.

Lemma restore_record_live (r : t_pair) (v : Payload) :
  dead r = false ->
  set_value (m_value r) (set_value v (set_dead false r)) = r.
Proof. destruct r; simpl; intros ->; reflexivity. Qed.

Lemma clean_rejecting (throws : nat -> bool) (st : T_MultiIndex) (h : t_pair)
      (j : nat) :
  clean specs throws st h j -> rejecting specs throws st h j -> False.
Proof.
  intros Cl [s [Hs [St [_ [U M]]]]].
  destruct (Cl s Hs St) as [_ X]. rewrite (X U) in M. discriminate.
Qed.

Lemma clean_throwing (throws : nat -> bool) (st : T_MultiIndex) (h : t_pair)
      (j : nat) :
  clean specs throws st h j -> throwing specs throws j -> False.
Proof.
  intros Cl [s [Hs [St Th]]].
  destruct (Cl s Hs St) as [X _]. congruence.
Qed.

(** The part of [UpdateCore] after the old entries are gone: mutate,
    [AddSecs], and [restore_old] on rejection. *)
Lemma UpdateCore_tail (throws : nat -> bool) (heap : nat)
      (st0 st2 : T_MultiIndex) (m1 m2 : list t_pair) (r : t_pair)
      (mut : Payload -> Payload) :
  config_ok -> wf heap st0 ->
  m_storage st0 = m1 ++ r :: m2 ->
  (forall x, In x (m1 ++ m2) -> addr x <> addr r) ->
  (c_tombstones = false -> dead r = false) ->
  m_storage st2 = m1 ++ set_dead false r :: m2 ->
  transl st2 = transl st0 -> m_live st2 = m_live st0 ->
  secondaries_ok st2 (live m1 ++ live m2) ->
  (dead r = false ->
   forall j s, nth_error specs j = Some s -> is_storage s = false ->
               is_unique s = true ->
               map_contains skey (Project s (first r) (m_value r))
                            (idx st2 j) = false) ->
  (dead r = true -> m_second st2 = m_second st0) ->
  let h2 := set_value (mut (m_value r)) (set_dead false r) in
  let st3 := set_storage (write h2 (m_storage st2)) st2 in
  forall st' res,
    match AddSecs throws st3 h2 with
    | (st4, Threw) => (st4, Thrown)
    | (st4, Done false) =>
        match restore_old policy specs throws st4 h2 (m_value r)
                          (if c_tombstones then dead r else false) with
        | (st5, Threw) => (st5, Thrown)
        | (st5, Done _) => (st5, Returned false)
        end
    | (st4, Done true) =>
        (if c_tombstones && (if c_tombstones then dead r else false)
         then IncrementLive st4 else st4, Returned true)
    end = (st', res) ->
    match res with
    | Returned true =>
        wf heap st' /\ transl st' = transl st0
        /\ m_storage st' = m1 ++ h2 :: m2
        /\ m_live st' = (if c_tombstones && dead r
                         then size_wrap (m_live st0 + 1) else m_live st0)
        /\ (forall j, clean specs throws st2 h2 j)
    | Returned false =>
        wf heap st' /\ transl st' = transl st0
        /\ m_storage st' = m_storage st0
        /\ m_live st' = m_live st0
        /\ (dead r = true -> m_second st' = m_second st0)
        /\ exists j, rejecting specs throws st2 h2 j
    | Thrown => exists j, throwing specs throws j
    end.
Proof.
  intros C [S [Sec Lv]] E Oth NoT E2 T2 Lv2 Sec2 Free Dead h2 st3 st' res R.
  assert (W3 : m_storage st3 = m1 ++ h2 :: m2).
  { unfold st3. simpl. rewrite E2. apply write_split; auto. }
  assert (S3 : storage_ok heap st3).
  { eapply (storage_ok_replace heap st0 st3 m1 m2 r h2); eauto. }
  assert (Sec3 : secondaries_ok st3 (live m1 ++ live m2)).
  { eapply secondaries_ok_frame; [|exact Sec2]. reflexivity. }
  assert (Hh : In h2 (m_storage st3)).
  { rewrite W3. apply in_app_iff. right; left; reflexivity. }
  assert (Sub : forall x, In x (live m1 ++ live m2) -> In x (m1 ++ m2)).
  { intros x Hx. apply in_app_iff in Hx. apply in_app_iff.
    destruct Hx as [Hx|Hx]; apply live_in in Hx; tauto. }
  assert (HL : forall x, In x (live m1 ++ live m2) ->
                         In x (m_storage st3) /\ x <> h2).
  { intros x Hx. apply Sub in Hx. split.
    - rewrite W3. apply in_app_iff in Hx. apply in_app_iff.
      destruct Hx; [left|right; right]; auto.
    - intro X. subst x. apply (Oth h2 Hx). reflexivity. }
  destruct (AddSecs throws st3 h2) as [st4 o] eqn:EA.
  pose proof (AddSecs_wf throws _ st3 _ h2 C S3 Hh Sec3 HL st4 o EA) as G.
  destruct o as [[|]|].
  - (* rebuilt *)
    inversion R; subst st' res. clear R.
    destruct G as [[F1 [F2 [F3 F4]]] [Sec4 [I Cl]]].
    set (st' := if c_tombstones && (if c_tombstones then dead r else false)
                then IncrementLive st4 else st4).
    destruct (IncrementLive_fields st4) as [I1 [I2 [I3 I4]]].
    assert (A1 : m_storage st' = m1 ++ h2 :: m2).
    { unfold st'. destruct (c_tombstones && _);
        rewrite ?I1, F1, W3; reflexivity. }
    assert (A2 : m_second st' = m_second st4).
    { unfold st'. destruct (c_tombstones && _); rewrite ?I2; reflexivity. }
    assert (A3 : transl st' = transl st0).
    { unfold st'. destruct (c_tombstones && _);
        rewrite ?I3, F2; simpl; exact T2. }
    assert (A4 : m_live st' = (if c_tombstones && dead r
                               then size_wrap (m_live st0 + 1)
                               else m_live st0)).
    { unfold st'. destruct c_tombstones eqn:T; simpl.
      - destruct (dead r); simpl.
        + rewrite I4, F3. simpl. rewrite Lv2. reflexivity.
        + rewrite F3. simpl. exact Lv2.
      - rewrite F3. simpl. exact Lv2. }
    split; [|split; [exact A3|split; [exact A1|split; [exact A4|]]]].
    + split; [|split].
      * apply (storage_ok_ext heap st3 st');
          [rewrite A1, W3; reflexivity
          |rewrite A3; simpl; symmetry; exact T2 | exact S3].
      * eapply secondaries_ok_frame; [exact A2|].
        eapply secondaries_ok_perm; [|exact Sec4].
        rewrite A1. rewrite live_app. unfold live at 3. simpl.
        apply Permutation_middle.
      * intro T. rewrite A4, A1. rewrite T. simpl.
        rewrite (Lv T), E. rewrite !live_app. unfold live at 2 4.
        simpl. destruct (dead r); simpl.
        -- rewrite size_wrap_succ. f_equal. rewrite !length_app. simpl.
           unfold live. lia.
        -- f_equal. rewrite !length_app. reflexivity.
    + intro j. eapply clean_idx; [|apply Cl]. reflexivity.
  - (* rejected: back to the old payload *)
    destruct G as [-> [j [Rj _]]].
    assert (Rj2 : rejecting specs throws st2 h2 j)
      by (eapply rejecting_idx; [|exact Rj]; reflexivity).
    unfold restore_old in R.
    set (r' := if c_tombstones
               then set_dead (if c_tombstones then dead r else false)
                             (set_value (m_value r) h2)
               else set_value (m_value r) h2).
    assert (Er : r' = r).
    { unfold r', h2. destruct c_tombstones eqn:T.
      - apply restore_record.
      - apply restore_record_live. apply NoT. reflexivity. }
    set (st5 := set_storage (write r (m_storage st3)) st3).
    assert (W5 : m_storage st5 = m_storage st0).
    { change (m_storage st5) with (write r (m_storage st3)).
      rewrite W3, E. apply write_split; auto. }
    assert (S5 : storage_ok heap st5).
    { eapply storage_ok_ext; [exact W5| |exact S]. simpl. exact T2. }
    assert (Hr : In r (m_storage st5)).
    { rewrite W5, E. apply in_app_iff. right; left; reflexivity. }
    assert (HL5 : forall x, In x (live m1 ++ live m2) ->
                            In x (m_storage st5) /\ x <> r).
    { intros x Hx. apply Sub in Hx. split.
      - rewrite W5, E. apply in_app_iff in Hx. apply in_app_iff.
        destruct Hx; [left|right; right]; auto.
      - intro X. subst x. apply (Oth r Hx). reflexivity. }
    assert (Sec5 : secondaries_ok st5 (live m1 ++ live m2)).
    { eapply secondaries_ok_frame; [|exact Sec2]. reflexivity. }
    assert (Quiet : dead r = true ->
                    (st5, Returned false) = (st', res) ->
                    match res with
                    | Returned true => False
                    | Returned false =>
                        wf heap st' /\ transl st' = transl st0
                        /\ m_storage st' = m_storage st0
                        /\ m_live st' = m_live st0
                        /\ (dead r = true -> m_second st' = m_second st0)
                        /\ exists j, rejecting specs throws st2 h2 j
                    | Thrown => False
                    end).
    { intros D X. inversion X; subst st' res.
      split; [|split; [exact T2|split; [exact W5|split; [exact Lv2|split]]]].
      - split; [exact S5|split].
        + rewrite W5, E. rewrite live_app. unfold live at 2. simpl.
          rewrite D. exact Sec5.
        + eapply live_ok_same; [exact Lv| |exact Lv2]. rewrite W5.
          reflexivity.
      - intros _. simpl. apply Dead. exact D.
      - exists j. exact Rj2. }
    assert (Loud : dead r = false ->
                   match AddSecs throws st5 r with
                   | (s5, Threw) => (s5, Thrown)
                   | (s5, Done _) => (s5, Returned false)
                   end = (st', res) ->
                   match res with
                   | Returned true => False
                   | Returned false =>
                       wf heap st' /\ transl st' = transl st0
                       /\ m_storage st' = m_storage st0
                       /\ m_live st' = m_live st0
                       /\ (dead r = true -> m_second st' = m_second st0)
                       /\ exists j, rejecting specs throws st2 h2 j
                   | Thrown => exists j, throwing specs throws j
                   end).
    { intros D X.
      destruct (AddSecs throws st5 r) as [s5 o5] eqn:EA5.
      pose proof (AddSecs_wf throws _ st5 _ r C S5 Hr Sec5 HL5 s5 o5 EA5)
        as G5.
      destruct o5 as [[|]|].
      - inversion X; subst st' res.
        destruct G5 as [[F1 [F2 [F3 F4]]] [Sec6 _]].
        assert (B1 : m_storage s5 = m_storage st0)
          by (rewrite F1; exact W5).
        assert (B2 : transl s5 = transl st0)
          by (rewrite F2; simpl; exact T2).
        assert (B3 : m_live s5 = m_live st0)
          by (rewrite F3; simpl; exact Lv2).
        split; [|split; [exact B2|split; [exact B1|split; [exact B3|split]]]].
        + split; [|split].
          * apply (storage_ok_ext heap st0 s5); auto.
          * eapply secondaries_ok_perm; [|exact Sec6].
            rewrite B1, E. rewrite live_app. unfold live at 3. simpl.
            rewrite D. simpl. apply Permutation_middle.
          * eapply live_ok_same; [exact Lv| |exact B3].
            rewrite B1. reflexivity.
        + intro X'. congruence.
        + exists j. exact Rj2.
      - exfalso. destruct G5 as [_ [j5 [[s [Hs [St [_ [U M]]]]] _]]].
        change (idx st5 j5) with (idx st2 j5) in M.
        rewrite (Free D j5 s Hs St U) in M. discriminate.
      - inversion X; subst st' res.
        destruct G5 as [_ [j5 [Tj _]]]. exists j5. exact Tj. }
    destruct c_tombstones eqn:T.
    + destruct (dead r) eqn:D; cbn [negb] in R.
      * unfold r' in Er. rewrite Er in R.
        pose proof (Quiet eq_refl R) as Q.
        destruct res as [[|]|]; tauto.
      * unfold r' in Er. rewrite Er in R.
        pose proof (Loud eq_refl R) as Q.
        destruct res as [[|]|]; tauto.
    + unfold r' in Er. rewrite Er in R.
      pose proof (Loud (NoT eq_refl) R) as Q.
      destruct res as [[|]|]; tauto.
  - inversion R; subst st' res.
    destruct G as [_ [j [Tj _]]]. exists j. exact Tj.
Qed.

Lemma drop_prep (heap : nat) (st : T_MultiIndex) (m1 m2 : list t_pair)
      (r : t_pair) :
  config_ok -> wf heap st ->
  m_storage st = m1 ++ r :: m2 ->
  (forall x, In x (m1 ++ m2) -> addr x <> addr r) ->
  dead r = false ->
  let st1 := set_storage (write (set_dead false r) (m_storage st)) st in
  let st2 := DropSecs None st1 (set_dead false r) in
  m_storage st2 = m1 ++ set_dead false r :: m2
  /\ transl st2 = transl st /\ m_live st2 = m_live st
  /\ secondaries_ok st2 (live m1 ++ live m2)
  /\ (forall j s, nth_error specs j = Some s -> is_storage s = false ->
                  is_unique s = true ->
                  map_contains skey (Project s (first r) (m_value r))
                               (idx st2 j) = false).
Proof.
  intros C [S [Sec Lv]] E Oth D.
  assert (R : set_dead false r = r) by (rewrite <- D; apply set_dead_same).
  rewrite R. intros st1 st2.
  assert (W1 : m_storage st1 = m1 ++ r :: m2).
  { change (m_storage st1) with (write r (m_storage st)).
    rewrite E. apply write_split; auto. }
  assert (S1 : storage_ok heap st1).
  { apply (storage_ok_ext heap st st1); auto. rewrite W1, E. reflexivity. }
  assert (Sec1 : secondaries_ok st1 (live (m_storage st1))).
  { rewrite W1, <- E. eapply secondaries_ok_frame; [|exact Sec]. reflexivity. }
  destruct (DropSecs_wf None heap st1 m1 m2 r C S1 W1 D Sec1)
    as [[F1 [F2 [F3 F4]]] [Len Sd]].
  fold st2 in F1, F2, F3, F4, Len, Sd.
  split; [rewrite F1; exact W1|].
  split; [rewrite F2; reflexivity|].
  split; [rewrite F3; reflexivity|].
  split; [split; [exact Len|]|].
  - intros j s Hs St. apply (Sd j s Hs St).
  - intros j s Hs St U. apply (Sd j s Hs St). exact U.
Qed.

(** [UpdateCore] on a node of the primary, live or tombstoned.  [st2] is
    the container once the old entries are dropped. *)
Lemma UpdateCore_spec (throws : nat -> bool) (heap : nat) (st : T_MultiIndex)
      (a : nat) (r : t_pair) (mut : Payload -> Payload) :
  config_ok -> wf heap st ->
  deref (m_storage st) a = Some r ->
  exists m1 m2 st2,
    m_storage st = m1 ++ r :: m2
    /\ (forall x, In x (m1 ++ m2) -> addr x <> addr r)
    /\ secondaries_ok st2 (live m1 ++ live m2)
    /\ forall st' res,
        UpdateCore throws st (Some a) mut = (st', res) ->
        let h2 := set_value (mut (m_value r)) (set_dead false r) in
        match res with
        | Returned true =>
            wf heap st' /\ transl st' = transl st
            /\ m_storage st' = m1 ++ h2 :: m2
            /\ m_live st' = (if c_tombstones && dead r
                             then size_wrap (m_live st + 1) else m_live st)
            /\ (forall j, clean specs throws st2 h2 j)
        | Returned false =>
            wf heap st' /\ transl st' = transl st
            /\ m_storage st' = m_storage st
            /\ m_live st' = m_live st
            /\ (dead r = true -> m_second st' = m_second st)
            /\ exists j, rejecting specs throws st2 h2 j
        | Thrown => exists j, throwing specs throws j
        end.
Proof.
  intros C W Dr.
  assert (S := proj1 W). assert (Sec := proj1 (proj2 W)).
  assert (N : NoDup (map (@addr Payload) (m_storage st)))
    by (destruct S as [_ [_ [N _]]]; exact N).
  destruct (deref_split _ _ _ N Dr) as [m1 [m2 [E [A Oth]]]].
  rewrite <- A in Oth.
  assert (NoT : c_tombstones = false -> dead r = false).
  { intro T. destruct S as [_ [_ [_ [_ [_ X]]]]]. apply X; auto.
    rewrite E. apply in_app_iff. right; left; reflexivity. }
  pose (st1 := set_storage (write (set_dead false r) (m_storage st)) st).
  pose (st2 := if c_tombstones
               then (if negb (if c_tombstones then dead r else false)
                     then DropSecs None st1 (set_dead false r) else st1)
               else DropSecs None st1 (set_dead false r)).
  assert (Hh1 : (if c_tombstones then set_dead false r else r)
                = set_dead false r).
  { destruct c_tombstones eqn:T; [reflexivity|].
    pose proof (set_dead_same r) as X. rewrite (NoT eq_refl) in X.
    symmetry. exact X. }
  assert (W1 : m_storage st1 = m1 ++ set_dead false r :: m2).
  { change (m_storage st1) with (write (set_dead false r) (m_storage st)).
    rewrite E. apply write_split; auto. }
  assert (Dropped : dead r = false ->
            let s2 := DropSecs None st1 (set_dead false r) in
            m_storage s2 = m1 ++ set_dead false r :: m2
            /\ transl s2 = transl st /\ m_live s2 = m_live st
            /\ secondaries_ok s2 (live m1 ++ live m2)
            /\ (forall j s, nth_error specs j = Some s ->
                            is_storage s = false -> is_unique s = true ->
                            map_contains skey
                              (Project s (first r) (m_value r))
                              (idx s2 j) = false)).
  { intro D. apply (drop_prep heap st m1 m2 r C W E Oth D). }
  assert (Kept : dead r = true ->
                 secondaries_ok st1 (live m1 ++ live m2)).
  { intro D.
    assert (L0 : live (m_storage st) = live m1 ++ live m2).
    { rewrite E. rewrite live_app. unfold live at 2. simpl.
      rewrite D. reflexivity. }
    rewrite <- L0. eapply secondaries_ok_frame; [|exact Sec]. reflexivity. }
  assert (F2 : m_storage st2 = m1 ++ set_dead false r :: m2
               /\ transl st2 = transl st /\ m_live st2 = m_live st
               /\ secondaries_ok st2 (live m1 ++ live m2)
               /\ (dead r = false ->
                   forall j s, nth_error specs j = Some s ->
                               is_storage s = false -> is_unique s = true ->
                               map_contains skey
                                 (Project s (first r) (m_value r))
                                 (idx st2 j) = false)
               /\ (dead r = true -> m_second st2 = m_second st)).
  { unfold st2. destruct c_tombstones eqn:T.
    - destruct (dead r) eqn:D; cbn [negb].
      + split; [exact W1|]. split; [reflexivity|]. split; [reflexivity|].
        split; [apply Kept; reflexivity|]. split; [discriminate|].
        reflexivity.
      + destruct (Dropped eq_refl) as [B1 [B2 [B3 [B4 B5]]]].
        split; [exact B1|]. split; [exact B2|]. split; [exact B3|].
        split; [exact B4|]. split; [intros _; exact B5|discriminate].
    - destruct (Dropped (NoT eq_refl)) as [B1 [B2 [B3 [B4 B5]]]].
      split; [exact B1|]. split; [exact B2|]. split; [exact B3|].
      split; [exact B4|]. split; [intros _; exact B5|].
      rewrite (NoT eq_refl). discriminate. }
  destruct F2 as [B1 [B2 [B3 [B4 [B5 B6]]]]].
  exists m1, m2, st2.
  split; [exact E|]. split; [exact Oth|]. split; [exact B4|].
  intros st' res U h2.
  unfold UpdateCore in U. rewrite Dr in U. rewrite Hh1 in U.
  exact (UpdateCore_tail throws heap st st2 m1 m2 r mut C W E Oth NoT
                         B1 B2 B3 B4 B5 B6 st' res U).
Qed.

(** ** Iterators over a sorted primary *)

Lemma drop_while_all (f : t_pair -> bool) (p s : list t_pair) :
  (forall x, In x p -> f x = true) ->
  drop_while f (p ++ s) = drop_while f s.
Proof.
  induction p as [|x p IH]; simpl; intro H; [reflexivity|].
  rewrite (H x (or_introl eq_refl)). apply IH. intros; apply H; right; auto.
Qed.

Lemma drop_while_none (f : t_pair -> bool) (s : list t_pair) :
  (forall x, In x s -> f x = false) -> drop_while f s = s.
Proof.
  destruct s as [|x s]; simpl; intro H; [reflexivity|].
  rewrite (H x (or_introl eq_refl)). reflexivity.
Qed.

Lemma sorted_blocks (k : Z) (m : list t_pair) :
  map_sorted (@first Payload) m ->
  exists lo blk hi,
    m = lo ++ blk ++ hi
    /\ (forall x, In x lo -> (first x < k)%Z)
    /\ (forall x, In x blk -> first x = k)
    /\ (forall x, In x hi -> (k < first x)%Z).
Proof.
  unfold map_sorted. induction m as [|x m IH]; intro S.
  - exists [], [], []. repeat split; intros x []. 
  - inversion S as [|? ? Sm Fx]; subst.
    rewrite Forall_forall in Fx.
    destruct (IH Sm) as [lo [blk [hi [E [Hlo [Hblk Hhi]]]]]].
    destruct (Z.lt_trichotomy (first x) k) as [Lt|[Eq|Gt]].
    + exists (x :: lo), blk, hi. repeat split; auto.
      * simpl. rewrite E. reflexivity.
      * intros y [<-|Hy]; auto.
    + assert (lo = []) as ->.
      { destruct lo as [|z lo]; [reflexivity|]. exfalso.
        assert (first z < k)%Z by (apply Hlo; left; auto).
        assert (first x <= first z)%Z
          by (apply Fx; rewrite E; left; reflexivity).
        lia. }
      exists [], (x :: blk), hi. repeat split; auto.
      * simpl. simpl in E. rewrite E. reflexivity.
      * intros y [<-|Hy]; auto.
    + exists [], [], (x :: m).
      split; [reflexivity|]. split; [intros z []|]. split; [intros z []|].
      intros z [<-|Hz]; auto. specialize (Fx z Hz). lia.
Qed.

Lemma blocks_lower (k : Z) (lo blk hi : list t_pair) :
  (forall x, In x lo -> (first x < k)%Z) ->
  (forall x, In x blk -> first x = k) ->
  (forall x, In x hi -> (k < first x)%Z) ->
  drop_while (fun x => (first x <? k)%Z) (lo ++ blk ++ hi) = blk ++ hi.
Proof.
  intros Hlo Hblk Hhi. rewrite drop_while_all.
  - apply drop_while_none. intros x Hx. apply Z.ltb_ge.
    apply in_app_iff in Hx. destruct Hx as [Hx|Hx].
    + rewrite (Hblk x Hx). lia.
    + specialize (Hhi x Hx). lia.
  - intros x Hx. apply Z.ltb_lt. auto.
Qed.

Lemma blocks_upper (k : Z) (lo blk hi : list t_pair) :
  (forall x, In x lo -> (first x < k)%Z) ->
  (forall x, In x blk -> first x = k) ->
  (forall x, In x hi -> (k < first x)%Z) ->
  drop_while (fun x => (first x <=? k)%Z) (lo ++ blk ++ hi) = hi.
Proof.
  intros Hlo Hblk Hhi. rewrite app_assoc. rewrite drop_while_all.
  - apply drop_while_none. intros x Hx. apply Z.leb_gt. auto.
  - intros x Hx. apply Z.leb_le. apply in_app_iff in Hx.
    destruct Hx as [Hx|Hx].
    + specialize (Hlo x Hx). lia.
    + rewrite (Hblk x Hx). lia.
Qed.

Lemma blocks_with_key (k : Z) (lo blk hi : list t_pair) :
  (forall x, In x lo -> (first x < k)%Z) ->
  (forall x, In x blk -> first x = k) ->
  (forall x, In x hi -> (k < first x)%Z) ->
  with_key k (lo ++ blk ++ hi) = blk.
Proof.
  intros Hlo Hblk Hhi. unfold with_key. rewrite !filter_app.
  assert (filter (fun r => (first r =? k)%Z) lo = []) as ->.
  { induction lo as [|x lo IH]; [reflexivity|]. simpl.
    assert ((first x =? k)%Z = false) as ->.
    { apply Z.eqb_neq. specialize (Hlo x (or_introl eq_refl)). lia. }
    apply IH. intros; apply Hlo; right; auto. }
  assert (filter (fun r => (first r =? k)%Z) hi = []) as ->.
  { induction hi as [|x hi IH]; [reflexivity|]. simpl.
    assert ((first x =? k)%Z = false) as ->.
    { apply Z.eqb_neq. specialize (Hhi x (or_introl eq_refl)). lia. }
    apply IH. intros; apply Hhi; right; auto. }
  rewrite app_nil_r. simpl.
  induction blk as [|x blk IH]; [reflexivity|]. simpl.
  rewrite (Hblk x (or_introl eq_refl)), Z.eqb_refl. f_equal.
  apply IH. intros; apply Hblk; right; auto.
Qed.

Lemma SkipDead_from_end (s : list t_pair) :
  SkipDead_from s None = iter_of (drop_while (@dead Payload) s).
Proof.
  induction s as [|x s IH]; simpl; [reflexivity|].
  destruct (dead x); auto.
Qed.

Lemma seek_iter_of (p s : list t_pair) :
  NoDup (map (@addr Payload) (p ++ s)) -> seek (p ++ s) (iter_of s) = s.
Proof.
  intro N. destruct s as [|x s]; [reflexivity|].
  cbn [iter_of]. apply seek_split.
  intros y Hy A. rewrite map_app in N. simpl in N.
  apply NoDup_remove_2 in N. apply N. apply in_app_iff. left.
  rewrite <- A. apply in_map. exact Hy.
Qed.

Lemma iter_eqb_refl (it : t_iter) : iter_eqb it it = true.
Proof. destruct it; simpl; [apply Nat.eqb_refl|reflexivity]. Qed.

Lemma iter_eqb_eq (a b : t_iter) : iter_eqb a b = true <-> a = b.
Proof.
  destruct a, b; simpl; split; intro H; try discriminate; auto.
  - apply Nat.eqb_eq in H. subst. reflexivity.
  - inversion H. apply Nat.eqb_refl.
Qed.

(** The first live node of a suffix, or the position [e] behind it. *)
Lemma first_live_app (blk hi : list t_pair) :
  iter_of (drop_while (@dead Payload) (blk ++ hi))
  = match live blk with
    | t :: _ => Some (addr t)
    | [] => iter_of (drop_while (@dead Payload) hi)
    end.
Proof.
  induction blk as [|x blk IH]; simpl; [reflexivity|].
  unfold live in *. simpl. destruct (dead x); simpl; auto.
Qed.

Lemma live_head_split (blk : list t_pair) (t : t_pair) (ts : list t_pair) :
  live blk = t :: ts ->
  exists d rest, blk = d ++ t :: rest
                 /\ (forall x, In x d -> dead x = true)
                 /\ dead t = false /\ live rest = ts.
Proof.
  unfold live. induction blk as [|x blk IH]; simpl; intro H; [discriminate|].
  destruct (dead x) eqn:D; simpl in H.
  - destruct (IH H) as [d [rest [E [Hd [Dt Hr]]]]].
    exists (x :: d), rest. repeat split; auto.
    + simpl. rewrite E. reflexivity.
    + intros y [<-|Hy]; auto.
  - inversion H; subst. exists [], blk.
    split; [reflexivity|]. split; [intros y []|]. split; auto.
Qed.

Lemma iter_of_disjoint (p s : list t_pair) (t : t_pair) :
  NoDup (map (@addr Payload) (p ++ s)) -> In t p ->
  iter_eqb (Some (addr t)) (iter_of s) = false.
Proof.
  intros N Ht. destruct s as [|x s]; [reflexivity|]. simpl.
  apply Nat.eqb_neq. intro A.
  rewrite map_app in N. simpl in N. apply NoDup_remove_2 in N.
  apply N. apply in_app_iff. left. rewrite <- A. apply in_map. exact Ht.
Qed.

(** ** [equal_range] and [erase(key)] *)

Lemma equal_range_blocks (st : T_MultiIndex) (k : Z)
      (lo blk hi : list t_pair) :
  m_storage st = lo ++ blk ++ hi ->
  NoDup (map (@addr Payload) (m_storage st)) ->
  (forall x, In x lo -> (first x < k)%Z) ->
  (forall x, In x blk -> first x = k) ->
  (forall x, In x hi -> (k < first x)%Z) ->
  equal_range policy st k
  = if c_tombstones
    then (iter_of (drop_while (@dead Payload) (blk ++ hi)),
          iter_of (drop_while (@dead Payload) hi))
    else (iter_of (blk ++ hi), iter_of hi).
Proof.
  intros E N Hlo Hblk Hhi.
  unfold equal_range, storage_equal_range, lower_bound, upper_bound.
  rewrite E, blocks_lower, blocks_upper; auto.
  unfold ToIterator. destruct c_tombstones; [|reflexivity].
  unfold SkipDead. cbn [m_storage]. rewrite E. f_equal.
  - rewrite seek_iter_of by (rewrite <- E; exact N).
    apply SkipDead_from_end.
  - rewrite app_assoc. rewrite seek_iter_of.
    + apply SkipDead_from_end.
    + rewrite <- app_assoc, <- E. exact N.
Qed.

Lemma drop_while_suffix (f : t_pair -> bool) (s : list t_pair) :
  exists p, s = p ++ drop_while f s.
Proof.
  induction s as [|x s [p IH]]; simpl.
  - exists []. reflexivity.
  - destruct (f x).
    + exists (x :: p). simpl. rewrite <- IH. reflexivity.
    + exists []. reflexivity.
Qed.

Lemma erase_step (heap : nat) (st : T_MultiIndex)
      (lo d rest hi : list t_pair) (t : t_pair) :
  config_ok -> wf heap st ->
  m_storage st = lo ++ (d ++ t :: rest) ++ hi ->
  dead t = false ->
  wf heap (erase_one policy specs st t)
  /\ transl (erase_one policy specs st t) = transl st
  /\ m_storage (erase_one policy specs st t)
     = (if c_tombstones then lo ++ (d ++ set_dead true t :: rest) ++ hi
        else lo ++ (d ++ rest) ++ hi)
  /\ snd (erase st (Some (addr t)))
     = (if c_tombstones
        then iter_of (drop_while (@dead Payload) (rest ++ hi))
        else iter_of (rest ++ hi)).
Proof.
  intros C W E D.
  assert (N : NoDup (map (@addr Payload) (m_storage st)))
    by (destruct W as [[_ [_ [N _]]] _]; exact N).
  assert (E' : m_storage st = (lo ++ d) ++ t :: (rest ++ hi)).
  { rewrite E. rewrite <- !app_assoc. reflexivity. }
  assert (Ht : In t (m_storage st)).
  { rewrite E'. apply in_app_iff. right; left; reflexivity. }
  assert (Oth : forall x, In x ((lo ++ d) ++ (rest ++ hi)) ->
                          addr x <> addr t).
  { intros x Hx A. rewrite E' in N. rewrite map_app in N. simpl in N.
    apply NoDup_remove_2 in N. apply N. rewrite <- map_app.
    rewrite <- A. apply in_map. exact Hx. }
  destruct (erase_spec heap st (addr t) t C W (deref_in _ _ N Ht) D)
    as [W' [St [Tr It]]].
  unfold erase_one.
  split; [exact W'|]. split; [exact Tr|].
  assert (St' : m_storage (fst (erase st (Some (addr t))))
                = (if c_tombstones
                   then lo ++ (d ++ set_dead true t :: rest) ++ hi
                   else lo ++ (d ++ rest) ++ hi)).
  { rewrite St. destruct c_tombstones.
    - rewrite E'. rewrite write_split; auto.
      rewrite <- !app_assoc. reflexivity.
    - rewrite E'. rewrite erase_node_split.
      + rewrite <- !app_assoc. reflexivity.
      + intros x Hx. apply Oth. apply in_app_iff. left; exact Hx. }
  split; [exact St'|].
  assert (N' : NoDup (map (@addr Payload)
                            (m_storage (fst (erase st (Some (addr t)))))))
    by (destruct W' as [[_ [_ [N' _]]] _]; exact N').
  rewrite It. destruct c_tombstones eqn:T.
  - unfold iter_incr. rewrite T. unfold SkipDead, iter_next.
    rewrite St' in *.
    assert (R : lo ++ (d ++ set_dead true t :: rest) ++ hi
                = (lo ++ d) ++ set_dead true t :: (rest ++ hi))
      by (rewrite <- !app_assoc; reflexivity).
    rewrite R in *.
    change (Some (addr t)) with (Some (addr (set_dead true t))).
    rewrite seek_split.
    + cbn [tl].
      assert (R2 : (lo ++ d) ++ set_dead true t :: rest ++ hi
                   = ((lo ++ d) ++ [set_dead true t]) ++ (rest ++ hi))
        by (rewrite <- !app_assoc; reflexivity).
      rewrite R2 in *. rewrite seek_iter_of by exact N'.
      apply SkipDead_from_end.
    + intros x Hx. apply Oth. apply in_app_iff. left; exact Hx.
  - unfold iter_next. rewrite E'. rewrite seek_split.
    + reflexivity.
    + intros x Hx. apply Oth. apply in_app_iff. left; exact Hx.
Qed.

Lemma size_wrap_small (n : Z) :
  (0 <= n < size_max)%Z -> size_wrap n = n.
Proof. intro H. unfold size_wrap. apply Z.mod_small. exact H. Qed.

Lemma no_dead_prefix (heap : nat) (st : T_MultiIndex) (d : list t_pair) :
  storage_ok heap st -> c_tombstones = false ->
  (forall x, In x d -> In x (m_storage st)) ->
  (forall x, In x d -> dead x = true) -> d = [].
Proof.
  intros [_ [_ [_ [_ [_ A]]]]] T Sub D.
  destruct d as [|x d]; [reflexivity|]. exfalso.
  assert (dead x = false) by (apply (A T); apply Sub; left; reflexivity).
  assert (dead x = true) by (apply D; left; reflexivity).
  congruence.
Qed.

(** The [for (;;)] of [erase(key)] over a multi-key primary: it erases
    the live records of the key one after the other. *)
Lemma erase_key_loop_spec (heap : nat) (k : Z) (lo hi : list t_pair) :
  config_ok -> c_primary_is_unique = false ->
  (forall x, In x lo -> (first x < k)%Z) ->
  (forall x, In x hi -> (k < first x)%Z) ->
  forall ts st d t rest fuel removed,
    wf heap st ->
    m_storage st = lo ++ (d ++ t :: rest) ++ hi ->
    (forall x, In x (d ++ t :: rest) -> first x = k) ->
    (forall x, In x d -> dead x = true) ->
    dead t = false -> live rest = ts ->
    (length ts < fuel)%nat ->
    erase_key_loop policy specs fuel st (Some (addr t))
                   (if c_tombstones
                    then iter_of (drop_while (@dead Payload) hi)
                    else iter_of hi) removed
    = Some (fold_left (erase_one policy specs) (t :: ts) st,
            size_wrap (removed + 1 + Z.of_nat (length ts)))
    /\ wf heap (fold_left (erase_one policy specs) (t :: ts) st).
Proof.
  intros C U Hlo Hhi.
  induction ts as [|u ts IH];
    intros st d t rest fuel removed W E Hk Hd Dt Lr Fu.
  - destruct fuel as [|fuel]; [simpl in Fu; lia|].
    cbn [erase_key_loop]. rewrite U. cbn [negb].
    destruct (erase_step heap st lo d rest hi t C W E Dt)
      as [W' [Tr [St It]]].
    destruct (erase st (Some (addr t))) as [st' it'] eqn:Er.
    unfold erase_one in *. rewrite Er in *. cbn [fst snd] in *.
    assert (it' = (if c_tombstones
                   then iter_of (drop_while (@dead Payload) hi)
                   else iter_of hi)) as ->.
    { rewrite It. destruct c_tombstones eqn:T.
      - rewrite first_live_app. rewrite Lr. reflexivity.
      - assert (rest = []) as ->; [|reflexivity].
        destruct W as [S _].
        assert (live rest = rest).
        { apply live_all. intros x Hx. destruct S as [_ [_ [_ [_ [_ A]]]]].
          apply (A T). rewrite E. apply in_app_iff. right.
          apply in_app_iff. left. apply in_app_iff. right; right; exact Hx. }
        congruence. }
    rewrite iter_eqb_refl. cbn [fold_left]. rewrite Er. cbn [fst length].
    split; [|exact W']. f_equal. f_equal. f_equal. lia.
  - destruct fuel as [|fuel]; [simpl in Fu; lia|].
    cbn [erase_key_loop]. rewrite U. cbn [negb].
    destruct (erase_step heap st lo d rest hi t C W E Dt)
      as [W' [Tr [St It]]].
    destruct (erase st (Some (addr t))) as [st' it'] eqn:Er.
    unfold erase_one in W', Tr, St. rewrite Er in *. cbn [fst snd] in *.
    destruct (live_head_split rest u ts Lr) as [d2 [rest2 [Er2 [Hd2 [Du L2]]]]].
    assert (N' : NoDup (map (@addr Payload) (m_storage st')))
      by (destruct W' as [[_ [_ [N' _]]] _]; exact N').
    assert (D2 : c_tombstones = false -> d2 = []).
    { intro T. destruct W as [S _].
      apply (no_dead_prefix heap st d2 S T); auto.
      intros x Hx. rewrite E, Er2. apply in_app_iff. right.
      apply in_app_iff. left. apply in_app_iff. right; right.
      apply in_app_iff. left; exact Hx. }
    assert (it' = Some (addr u)) as ->.
    { rewrite It. destruct c_tombstones eqn:T.
      - rewrite first_live_app. rewrite Lr. reflexivity.
      - rewrite Er2, (D2 eq_refl). reflexivity. }
    set (d' := if c_tombstones then d ++ set_dead true t :: d2 else d ++ d2).
    assert (E' : m_storage st' = lo ++ (d' ++ u :: rest2) ++ hi).
    { rewrite St. unfold d'. rewrite Er2.
      destruct c_tombstones; list_eq. }
    assert (Ne : iter_eqb (Some (addr u))
                          (if c_tombstones
                           then iter_of (drop_while (@dead Payload) hi)
                           else iter_of hi) = false).
    { assert (X : forall s p, hi = p ++ s ->
                              iter_eqb (Some (addr u)) (iter_of s) = false).
      { intros s p Hs.
        apply (iter_of_disjoint ((lo ++ d' ++ u :: rest2) ++ p) s u).
        - rewrite <- app_assoc. rewrite <- Hs.
          replace (lo ++ (d' ++ u :: rest2) ++ hi)
            with ((lo ++ d' ++ u :: rest2) ++ hi) in E'
            by (rewrite <- !app_assoc; reflexivity).
          rewrite <- E'. exact N'.
        - apply in_app_iff. left. apply in_app_iff. right.
          apply in_app_iff. right; left; reflexivity. }
      destruct c_tombstones.
      - destruct (drop_while_suffix (@dead Payload) hi) as [p Hp].
        apply (X _ p Hp).
      - apply (X hi []). reflexivity. }
    rewrite Ne.
    assert (Hd' : forall y, In y d' -> first y = k).
    { intros y Hy. unfold d' in Hy. destruct c_tombstones.
      - apply in_app_iff in Hy. destruct Hy as [Hy|[<-|Hy]].
        + apply Hk. apply in_app_iff. left; exact Hy.
        + simpl. apply Hk. apply in_app_iff. right; left; reflexivity.
        + apply Hk. rewrite Er2. apply in_app_iff. right; right.
          apply in_app_iff. left; exact Hy.
      - apply in_app_iff in Hy. destruct Hy as [Hy|Hy].
        + apply Hk. apply in_app_iff. left; exact Hy.
        + apply Hk. rewrite Er2. apply in_app_iff. right; right.
          apply in_app_iff. left; exact Hy. }
    destruct (IH st' d' u rest2 fuel (size_wrap (removed + 1)) W' E')
      as [G1 G2]; auto.
    + intros x Hx. apply in_app_iff in Hx.
      destruct Hx as [Hx|Hx]; [apply Hd'; exact Hx|].
      apply Hk. rewrite Er2. apply in_app_iff. right; right.
      apply in_app_iff. right. exact Hx.
    + intros x Hx. unfold d' in Hx. destruct c_tombstones.
      * apply in_app_iff in Hx. destruct Hx as [Hx|[<-|Hx]]; auto.
      * apply in_app_iff in Hx. destruct Hx as [Hx|Hx]; auto.
    + simpl in Fu. lia.
    + rewrite G1. cbn [fold_left] in *.
      change (erase_one policy specs st t)
        with (fst (erase st (Some (addr t)))).
      rewrite Er. cbn [fst]. split; [|exact G2].
      f_equal. f_equal. unfold size_wrap.
      rewrite <- Z.add_assoc. rewrite Zplus_mod_idemp_l.
      f_equal. cbn [length]. lia.
Qed.

Lemma same_key_unique (k : Z) (d rest : list t_pair) (t : t_pair) :
  (forall x, In x (d ++ t :: rest) -> first x = k) ->
  NoDup (map (@first Payload) (d ++ t :: rest)) ->
  d = [] /\ rest = [].
Proof.
  intros Hk N. split.
  - destruct d as [|x d]; [reflexivity|]. exfalso.
    simpl in N. inversion N as [|? ? Nx _]; subst. apply Nx.
    rewrite (Hk x (or_introl eq_refl)).
    rewrite <- (Hk t) by (apply in_app_iff; right; left; reflexivity).
    apply in_map. apply in_app_iff. right; left; reflexivity.
  - destruct rest as [|x rest]; [reflexivity|]. exfalso.
    rewrite map_app in N. simpl in N. apply NoDup_remove_2 in N.
    apply N. apply in_app_iff. right. left.
    rewrite (Hk x), (Hk t); auto; apply in_app_iff; right;
      [left|right; left]; reflexivity.
Qed.

Lemma live_length_le (m : list t_pair) : (length (live m) <= length m)%nat.
Proof. unfold live. apply filter_length_le. Qed.

Lemma with_key_length_le (k : Z) (m : list t_pair) :
  (length (with_key k m) <= length m)%nat.
Proof. unfold with_key. apply filter_length_le. Qed.

Lemma erase_key_spec (heap : nat) (st : T_MultiIndex) (k : Z) :
  config_ok -> wf heap st ->
  erase_key st k
  = Some (fold_left (erase_one policy specs)
                    (live (with_key k (m_storage st))) st,
          size_wrap (Z.of_nat (length (live (with_key k (m_storage st))))))
  /\ wf heap (fold_left (erase_one policy specs)
                        (live (with_key k (m_storage st))) st).
Proof.
  intros C W.
  assert (S := proj1 W).
  assert (N : NoDup (map (@addr Payload) (m_storage st)))
    by (destruct S as [_ [_ [N _]]]; exact N).
  destruct (sorted_blocks k (m_storage st) (proj1 S))
    as [lo [blk [hi [E [Hlo [Hblk Hhi]]]]]].
  assert (Wk : with_key k (m_storage st) = blk)
    by (rewrite E; apply blocks_with_key; auto).
  assert (Len : (length (live blk) <= length (m_storage st))%nat).
  { rewrite <- Wk. etransitivity; [apply live_length_le|].
    apply with_key_length_le. }
  unfold erase_key.
  rewrite (equal_range_blocks st k lo blk hi E N Hlo Hblk Hhi).
  rewrite Wk.
  destruct (live blk) as [|t ts] eqn:Lb.
  - (* no live record under the key *)
    assert (X : (if c_tombstones
                 then (iter_of (drop_while (@dead Payload) (blk ++ hi)),
                       iter_of (drop_while (@dead Payload) hi))
                 else (iter_of (blk ++ hi), iter_of hi))
                = (if c_tombstones
                   then iter_of (drop_while (@dead Payload) hi)
                   else iter_of hi,
                   if c_tombstones
                   then iter_of (drop_while (@dead Payload) hi)
                   else iter_of hi)).
    { destruct c_tombstones eqn:T.
      - rewrite first_live_app, Lb. reflexivity.
      - assert (blk = []) as ->; [|reflexivity].
        rewrite <- Lb. symmetry. apply live_all.
        intros x Hx. destruct S as [_ [_ [_ [_ [_ A]]]]]. apply (A T).
        rewrite E. apply in_app_iff. right. apply in_app_iff. left; exact Hx. }
    rewrite X. rewrite iter_eqb_refl. split; [reflexivity|exact W].
  - destruct (live_head_split blk t ts Lb) as [d [rest [Eb [Hd [Dt Lr]]]]].
    assert (D0 : c_tombstones = false -> d = []).
    { intro T. apply (no_dead_prefix heap st d S T); auto.
      intros x Hx. rewrite E, Eb. apply in_app_iff. right.
      apply in_app_iff. left. apply in_app_iff. left; exact Hx. }
    assert (X : (if c_tombstones
                 then (iter_of (drop_while (@dead Payload) (blk ++ hi)),
                       iter_of (drop_while (@dead Payload) hi))
                 else (iter_of (blk ++ hi), iter_of hi))
                = (Some (addr t),
                   if c_tombstones
                   then iter_of (drop_while (@dead Payload) hi)
                   else iter_of hi)).
    { destruct c_tombstones eqn:T.
      - rewrite first_live_app, Lb. reflexivity.
      - rewrite Eb, (D0 eq_refl). reflexivity. }
    rewrite X.
    assert (Ne : iter_eqb (Some (addr t))
                          (if c_tombstones
                           then iter_of (drop_while (@dead Payload) hi)
                           else iter_of hi) = false).
    { assert (Y : forall s p, hi = p ++ s ->
                              iter_eqb (Some (addr t)) (iter_of s) = false).
      { intros s p Hs. apply (iter_of_disjoint ((lo ++ blk) ++ p) s t).
        - rewrite <- app_assoc. rewrite <- Hs.
          rewrite <- app_assoc. rewrite <- E. exact N.
        - apply in_app_iff. left. apply in_app_iff. right.
          rewrite Eb. apply in_app_iff. right; left; reflexivity. }
      destruct c_tombstones.
      - destruct (drop_while_suffix (@dead Payload) hi) as [p Hp].
        apply (Y _ p Hp).
      - apply (Y hi []). reflexivity. }
    rewrite Ne.
    rewrite Eb in E, Hblk.
    assert (Lts : (length ts < length (m_storage st))%nat)
      by (simpl in Len; lia).
    destruct c_primary_is_unique eqn:U.
    + (* a unique primary: one turn *)
      cbn [erase_key_loop]. rewrite U. cbn [negb].
      destruct S as [_ [Uq _]]. specialize (Uq U).
      rewrite E in Uq. rewrite !map_app in Uq.
      apply NoDup_app_remove_l in Uq. apply NoDup_app_remove_r in Uq.
      rewrite <- map_app in Uq.
      destruct (same_key_unique k d rest t Hblk Uq) as [-> ->].
      unfold live in Lr. simpl in Lr. subst ts.
      destruct (erase_step heap st lo [] [] hi t C W E Dt) as [W' _].
      destruct (erase st (Some (addr t))) as [st' it'] eqn:Er.
      cbn [fold_left]. unfold erase_one in *. rewrite Er in *.
      split; [reflexivity|exact W'].
    + destruct (erase_key_loop_spec heap k lo hi C U Hlo Hhi ts st d t rest
                  (Datatypes.S (length (m_storage st))) 0%Z W E Hblk Hd Dt Lr)
        as [G1 G2]; [cbn [length] in *; lia|].
      rewrite G1. split; [|exact G2].
      f_equal. f_equal. f_equal. cbn [length]. lia.
Qed.

(** ** Rebuilding a container record by record *)

Lemma emplace_live_filter (m : list t_pair) (acc : nat * T_MultiIndex) :
  (c_tombstones = false -> forall r, In r m -> dead r = false) ->
  fold_left (emplace_live policy specs) m acc
  = fold_left (emplace_record policy specs) (live m) acc.
Proof.
  revert acc. induction m as [|x m IH]; intros acc H; [reflexivity|].
  cbn [fold_left]. unfold live. cbn [filter]. fold (live m).
  assert (H' : c_tombstones = false -> forall r, In r m -> dead r = false)
    by (intros T r Hr; apply (H T); right; exact Hr).
  unfold emplace_live at 2. destruct acc as [heap tmp].
  destruct c_tombstones eqn:T.
  - destruct (dead x); cbn [negb]; rewrite IH by exact H'; reflexivity.
  - rewrite (H eq_refl x (or_introl eq_refl)). cbn [negb fold_left].
    rewrite IH by exact H'. reflexivity.
Qed.

Lemma sorted_live (m : list t_pair) :
  map_sorted (@first Payload) m -> map_sorted (@first Payload) (live m).
Proof.
  unfold map_sorted, live. induction m as [|x m IH]; simpl; intro S.
  - constructor.
  - inversion S as [|? ? Sm Fx]; subst.
    destruct (dead x); simpl; auto.
    constructor; auto.
    rewrite Forall_forall in *. intros y Hy. apply filter_In in Hy.
    apply Fx. tauto.
Qed.

Lemma sorted_app_le (P Q : list t_pair) (q : t_pair) :
  map_sorted (@first Payload) (P ++ q :: Q) ->
  forall x, In x P -> (first x <= first q)%Z.
Proof.
  unfold map_sorted. induction P as [|y P IH]; simpl; intros S x Hx;
    [contradiction|].
  inversion S as [|? ? Sm Fx]; subst.
  destruct Hx as [<-|Hx]; [|auto].
  rewrite Forall_forall in Fx. apply Fx.
  apply in_app_iff. right; left; reflexivity.
Qed.

Lemma NoDup_map_filter (B C : Type) (f : B -> C) (g : B -> bool)
      (l : list B) :
  NoDup (map f l) -> NoDup (map f (filter g l)).
Proof.
  induction l as [|x l IH]; simpl; intro N; [constructor|].
  inversion N as [|? ? Nx Nl]; subst.
  destruct (g x); simpl; auto.
  constructor; auto. intro H. apply Nx.
  apply in_map_iff in H. destruct H as [y [E Hy]].
  apply filter_In in Hy. rewrite <- E. apply in_map. tauto.
Qed.

Lemma map_first_key_payload (m : list t_pair) :
  map (@first Payload) m = map fst (map (@key_payload Payload) m).
Proof. rewrite map_map. reflexivity. Qed.

Lemma in_key_payload (m P : list t_pair) (r : t_pair) :
  map (@key_payload Payload) m = map (@key_payload Payload) P ->
  In r m -> exists p, In p P /\ first p = first r /\ m_value p = m_value r.
Proof.
  intros E Hr.
  assert (In (key_payload r) (map (@key_payload Payload) P))
    by (rewrite <- E; apply in_map; exact Hr).
  apply in_map_iff in H. destruct H as [p [Ep Hp]].
  exists p. unfold key_payload in Ep. inversion Ep. auto.
Qed.

Lemma rebuild_spec (heap0 : nat) (src : T_MultiIndex) :
  config_ok -> wf heap0 src ->
  forall Q P heap tmp,
    live (m_storage src) = P ++ Q ->
    wf heap tmp ->
    (forall r, In r (m_storage tmp) -> dead r = false) ->
    map (@key_payload Payload) (m_storage tmp)
    = map (@key_payload Payload) P ->
    wf (fst (fold_left (emplace_record policy specs) Q (heap, tmp)))
       (snd (fold_left (emplace_record policy specs) Q (heap, tmp)))
    /\ (forall r,
         In r (m_storage
                 (snd (fold_left (emplace_record policy specs) Q (heap, tmp))))
         -> dead r = false)
    /\ map (@key_payload Payload)
           (m_storage
              (snd (fold_left (emplace_record policy specs) Q (heap, tmp))))
       = map (@key_payload Payload) (P ++ Q).
Proof.
  intros C Wsrc.
  assert (Ssrc := proj1 Wsrc).
  assert (Secsrc := proj1 (proj2 Wsrc)).
  induction Q as [|q Q IH]; intros P heap tmp E W Dl K.
  - cbn [fold_left fst snd]. rewrite app_nil_r. auto.
  - cbn [fold_left].
    assert (SortL : map_sorted (@first Payload) (P ++ q :: Q)).
    { rewrite <- E. apply sorted_live. apply Ssrc. }
    assert (Keys : map (@first Payload) (m_storage tmp)
                   = map (@first Payload) P).
    { rewrite !map_first_key_payload. rewrite K. reflexivity. }
    assert (New : c_primary_is_unique = true ->
                  ~ In (first q) (map (@first Payload) (m_storage tmp))).
    { intro U. rewrite Keys.
      destruct Ssrc as [_ [Uq _]]. specialize (Uq U).
      apply (NoDup_map_filter _ _ _ (fun r => negb (dead r))) in Uq.
      fold (live (m_storage src)) in Uq. rewrite E in Uq.
      rewrite map_app in Uq. simpl in Uq.
      apply NoDup_remove_2 in Uq. intro X. apply Uq.
      apply in_app_iff. left; exact X. }
    destruct (emplace no_throw heap tmp (first q) (m_value q))
      as [[heap' tmp'] res] eqn:Em.
    assert (Eq : emplace_record policy specs (heap, tmp) q = (heap', tmp'))
      by (unfold emplace_record; cbn [fst snd]; rewrite Em; reflexivity).
    rewrite Eq. clear Eq.
    replace (P ++ q :: Q) with ((P ++ [q]) ++ Q) by list_eq.
    destruct (emplace_new no_throw heap tmp (first q) (m_value q) C W New
                          heap' tmp' res Em)
      as [-> [[_ [W' [St _]]]|[[_ [_ [j Bad]]]|[_ [_ [j Bad]]]]]].
    + (* the record went in *)
      set (h := mk_pair heap (first q) (m_value q) false
                        (if c_needs_transl_array then length (transl tmp)
                         else 0%nat)) in *.
      assert (St' : m_storage tmp' = m_storage tmp ++ [h]).
      { rewrite St. apply map_insert_last. intros x Hx.
        destruct (in_key_payload _ _ _ K Hx) as [p [Hp [Fp _]]].
        rewrite <- Fp. simpl. eapply sorted_app_le; eauto. }
      apply (IH (P ++ [q])).
      * rewrite <- app_assoc. exact E.
      * exact W'.
      * intros r Hr. rewrite St' in Hr. apply in_app_iff in Hr.
        destruct Hr as [Hr|[<-|[]]]; auto.
      * rewrite St'. rewrite !map_app. rewrite K. reflexivity.
    + (* no unique secondary can reject it *)
      exfalso. destruct Bad as [[s [Hs [St [_ [U M]]]]] _].
      apply map_contains_true in M. destruct M as [e [He Ke]].
      destruct W as [_ [[_ Sec] _]].
      destruct (Sec j s Hs St) as [Pe _].
      apply (Permutation_in _ Pe) in He. apply in_map_iff in He.
      destruct He as [r' [Er' Hr']]. subst e.
      apply live_in in Hr'. destruct Hr' as [Hr' _].
      destruct (in_key_payload _ _ _ K Hr') as [p [Hp [Fp Vp]]].
      destruct Secsrc as [_ Secs].
      destruct (Secs j s Hs St) as [Ps [_ Us]].
      specialize (Us U).
      apply (Permutation_NoDup (Permutation_map skey Ps)) in Us.
      rewrite map_map in Us. rewrite E in Us.
      rewrite map_app in Us. simpl in Us. apply NoDup_remove_2 in Us.
      apply Us. apply in_app_iff. left.
      apply in_map_iff. exists p. split; [|exact Hp].
      simpl in Ke. simpl. rewrite Fp, Vp. exact Ke.
    + exfalso. destruct Bad as [[s [_ [_ X]]] _]. discriminate.
Qed.

(** ** Empty container, [clear], [compact] *)

Lemma sec_ok_nil (s : T_Index Payload) : sec_ok s [] [].
Proof.
  split; [apply Permutation_refl|]. split; [constructor|].
  intros _. constructor.
Qed.

Lemma nth_map_nil (B : Type) (l : list B) (j : nat) :
  nth j (map (fun _ => @nil (Z * t_sec_value)) l) [] = [].
Proof.
  revert j. induction l as [|x l IH]; intros [|j]; simpl; auto.
Qed.

Lemma empty_wf (heap : nat) : wf heap (empty_mi specs).
Proof.
  split; [|split].
  - unfold storage_ok, empty_mi. simpl.
    split; [constructor|]. split; [intros _; constructor|].
    split; [constructor|]. split; [intros r []|].
    split; [intros _ r []|intros _ r []].
  - split.
    + unfold empty_mi. simpl. apply length_map.
    + intros j s Hs St. unfold idx, empty_mi. simpl.
      rewrite nth_map_nil. apply sec_ok_nil.
  - intros _. reflexivity.
Qed.

Lemma ClearSecondaries_spec (st : T_MultiIndex) :
  length (m_second st) = length specs ->
  frame st (ClearSecondaries specs st)
  /\ forall j s, nth_error specs j = Some s -> is_storage s = false ->
                 idx (ClearSecondaries specs st) j = [].
Proof.
  intro L.
  destruct (ForEach_pointwise (ClearSecondaries_step specs)
              (fun j m => match nth_error specs j with
                          | Some s => if negb (is_storage s) then [] else m
                          | None => m
                          end) (transl st))
    with (l := index_sequence) (st := st) as [st' [E [F I]]]; auto.
  - intros j s T Lj. unfold ClearSecondaries_step.
    destruct (nth_error specs j) as [sp|].
    + destruct (negb (is_storage sp)).
      * eexists. split; [reflexivity|]. split; [apply frame_set_idx|].
        split.
        -- rewrite idx_set_idx_same; auto.
        -- intros i Hi. apply idx_set_idx_other; auto.
      * exists s. repeat split; auto using frame_refl.
    + exists s. repeat split; auto using frame_refl.
  - apply seq_NoDup.
  - intros j Hj. eapply index_sequence_lt; eauto.
  - unfold ClearSecondaries. rewrite E. simpl. split; [exact F|].
    intros j s Hs St. rewrite I.
    assert (existsb (Nat.eqb j) index_sequence = true) as ->.
    { unfold index_sequence. rewrite existsb_seq. simpl.
      apply Nat.ltb_lt. apply nth_error_Some. congruence. }
    rewrite Hs, St. reflexivity.
Qed.

Lemma clear_wf (heap : nat) (st : T_MultiIndex) :
  length (m_second st) = length specs ->
  wf heap (clear policy specs st) /\ m_storage (clear policy specs st) = [].
Proof.
  intro L. unfold clear.
  destruct (ClearSecondaries_spec (set_storage [] st) L)
    as [[F1 [F2 [F3 F4]]] I].
  set (st1 := ClearSecondaries specs (set_storage [] st)) in *.
  assert (A1 : m_storage (SetLive policy 0 (PolicyClear policy st1)) = []).
  { unfold SetLive, PolicyClear.
    destruct c_tombstones, c_needs_transl_array; simpl; exact F1. }
  assert (A2 : m_second (SetLive policy 0 (PolicyClear policy st1))
               = m_second st1).
  { unfold SetLive, PolicyClear.
    destruct c_tombstones, c_needs_transl_array; reflexivity. }
  split; [|exact A1].
  split; [|split].
  - unfold storage_ok. rewrite A1. simpl.
    split; [constructor|]. split; [intros _; constructor|].
    split; [constructor|]. split; [intros r []|].
    split; [intros _ r []|intros _ r []].
  - rewrite A1. split.
    + rewrite A2, F4. exact L.
    + intros j s Hs St. unfold idx. rewrite A2.
      change (nth j (m_second st1) []) with (idx st1 j).
      rewrite (I j s Hs St). apply sec_ok_nil.
  - intro T. rewrite A1. unfold SetLive. rewrite T. reflexivity.
Qed.

Lemma rebuild_from_empty (heap0 heap : nat) (src tmp : T_MultiIndex) :
  config_ok -> wf heap0 src ->
  wf heap tmp -> m_storage tmp = [] ->
  wf (fst (fold_left (emplace_live policy specs) (m_storage src) (heap, tmp)))
     (snd (fold_left (emplace_live policy specs) (m_storage src) (heap, tmp)))
  /\ (forall r,
       In r (m_storage
               (snd (fold_left (emplace_live policy specs) (m_storage src)
                               (heap, tmp))))
       -> dead r = false)
  /\ map (@key_payload Payload)
         (m_storage
            (snd (fold_left (emplace_live policy specs) (m_storage src)
                            (heap, tmp))))
     = map (@key_payload Payload) (live (m_storage src)).
Proof.
  intros C Ws Wt Et.
  rewrite emplace_live_filter.
  - apply (rebuild_spec heap0 src C Ws (live (m_storage src)) [] heap tmp);
      auto.
    + intros r Hr. rewrite Et in Hr. contradiction.
    + rewrite Et. reflexivity.
  - destruct Ws as [[_ [_ [_ [_ [_ A]]]]] _]. exact A.
Qed.

(** ** [modify] and [replace] *)

Lemma modify_wf (throws : nat -> bool) (heap : nat) (st : T_MultiIndex)
      (it : t_iter) (fn : Payload -> Payload) (st' : T_MultiIndex) (b : bool) :
  config_ok -> wf heap st ->
  modify policy specs throws st it fn = (st', Returned b) ->
  wf heap st'.
Proof.
  intros C W E. unfold modify in E.
  destruct (iter_eqb it end_) eqn:Ie; [inversion E; subst; exact W|].
  unfold ToHandle_iter in E. rewrite Ie in E.
  destruct it as [a|]; [|discriminate].
  destruct (deref (m_storage st) a) as [r|] eqn:Dr.
  - destruct (UpdateCore_spec throws heap st a r fn C W Dr)
      as [m1 [m2 [st2 [_ [_ [_ G]]]]]].
    specialize (G st' (Returned b) E). cbv zeta in G.
    destruct b; apply G.
  - unfold UpdateCore in E. rewrite Dr in E. inversion E; subst. exact W.
Qed.

Lemma Replace_wf (is_same_v : bool) (throws : nat -> bool) (heap : nat)
      (st : T_MultiIndex) (h : t_handle) (v : Payload) (st' : T_MultiIndex)
      (b : bool) :
  config_ok -> wf heap st ->
  Replace operator_eq policy specs is_same_v throws st h v
  = (st', Returned b) ->
  wf heap st'.
Proof.
  intros C W E. unfold Replace in E.
  destruct h as [a|]; [|inversion E; subst; exact W].
  destruct (deref (m_storage st) a) as [r|] eqn:Dr;
    [|inversion E; subst; exact W].
  match type of E with
  | (if ?c then _ else _) = _ => destruct c
  end; [inversion E; subst; exact W|].
  destruct (UpdateCore_spec throws heap st a r (fun _ => v) C W Dr)
    as [m1 [m2 [st2 [_ [_ [_ G]]]]]].
  specialize (G st' (Returned b) E). cbv zeta in G.
  destruct b; apply G.
Qed.

Lemma replace_wf (is_same_v : bool) (throws : nat -> bool) (heap : nat)
      (st : T_MultiIndex) (it : t_iter) (v : Payload) (st' : T_MultiIndex)
      (b : bool) :
  config_ok -> wf heap st ->
  replace operator_eq policy specs is_same_v throws st it v
  = (st', Returned b) ->
  wf heap st'.
Proof.
  intros C W E. unfold replace in E.
  destruct (iter_eqb it end_); [inversion E; subst; exact W|].
  eapply Replace_wf; eauto.
Qed.

(** ** Erase through a secondary *)

Lemma no_storage_zero (l : list (T_Index Payload)) :
  fold_right (fun s n => ((if is_storage s then 1 else 0) + n)%nat) 0%nat l
  = 0%nat ->
  forall s, In s l -> is_storage s = false.
Proof.
  induction l as [|x l IH]; simpl; intros H s Hs; [contradiction|].
  destruct (is_storage x) eqn:X; [simpl in H; discriminate|].
  destruct Hs as [<-|Hs]; auto.
Qed.

Lemma stor_pos_from_one (l : list (T_Index Payload)) :
  forall off I s,
    fold_right (fun s n => ((if is_storage s then 1 else 0) + n)%nat) 0%nat l
    = 1%nat ->
    nth_error l I = Some s -> is_storage s = true ->
    stor_pos_from l off = Some (off + I)%nat.
Proof.
  induction l as [|x l IH]; intros off I s H Hs St.
  - destruct I; discriminate.
  - simpl in H. simpl. destruct (is_storage x) eqn:X.
    + destruct I as [|I]; [f_equal; lia|]. exfalso.
      simpl in Hs. apply nth_error_In in Hs.
      assert (is_storage s = false).
      { eapply no_storage_zero; [|exact Hs]. simpl in H. lia. }
      congruence.
    + destruct I as [|I].
      * simpl in Hs. inversion Hs; subst. congruence.
      * simpl in Hs. rewrite (IH (S off) I s H Hs St). f_equal. lia.
Qed.

Lemma storage_one (I : nat) (s : T_Index Payload) :
  config_ok -> nth_error specs I = Some s -> is_storage s = true ->
  I = c_prim_idx specs.
Proof.
  intros [P _] Hs St. unfold c_prim_idx, stor_pos_v.
  rewrite (stor_pos_from_one specs 0 I s P Hs St). reflexivity.
Qed.

Lemma ToHandle_entry (heap : nat) (st : T_MultiIndex) (r : t_pair) :
  config_ok -> storage_ok heap st -> In r (m_storage st) ->
  ToHandle policy st (GetSecondaryValue r) = Some (addr r).
Proof.
  intros [_ C] [_ [U [_ [_ [T _]]]]] Hr.
  unfold ToHandle, GetSecondaryValue.
  destruct policy eqn:P; try reflexivity.
  - apply (T eq_refl r Hr).
  - destruct (map_find (@first Payload) (first r) (m_storage st))
      as [r'|] eqn:F.
    + destruct (map_find_some _ _ _ F) as [Hr' K]. simpl. f_equal. f_equal.
      eapply (NoDup_map_inj _ _ (@first Payload)); eauto.
    + exfalso. apply map_find_none in F. apply F. apply in_map. exact Hr.
Qed.

Lemma resolve_entry (heap : nat) (st : T_MultiIndex) (r : t_pair) :
  config_ok -> storage_ok heap st -> In r (m_storage st) ->
  resolve policy st (GetSecondaryValue r) = Some r.
Proof.
  intros C S Hr. unfold resolve.
  rewrite (ToHandle_entry heap st r C S Hr).
  apply deref_in; auto. destruct S as [_ [_ [N _]]]. exact N.
Qed.

Lemma remove_nth_split (B : Type) (pre post : list B) (e : B) :
  remove_nth (length pre) (pre ++ e :: post) = pre ++ post.
Proof.
  induction pre as [|x pre IH]; simpl; [reflexivity|].
  rewrite IH. reflexivity.
Qed.

Lemma sec_ok_remove (s : T_Index Payload) (L1 L2 : list t_pair) (r : t_pair)
      (pre post : t_sec_map) :
  sec_ok s (L1 ++ r :: L2) (pre ++ sec_entry s r :: post) ->
  sec_ok s (L1 ++ L2) (pre ++ post).
Proof.
  intros [H1 [H2 H3]]. split; [|split].
  - rewrite map_app in *. simpl in H1.
    eapply Permutation_app_inv. exact H1.
  - eapply map_sorted_remove; eauto.
  - intro U. specialize (H3 U). rewrite map_app in *. simpl in H3.
    apply NoDup_remove_1 in H3. exact H3.
Qed.

Lemma EraseByHandle_spec (I : nat) (heap : nat) (st : T_MultiIndex)
      (r : t_pair) :
  config_ok -> wf heap st ->
  In r (m_storage st) -> dead r = false ->
  exists m1 m2,
    m_storage st = m1 ++ r :: m2
    /\ storage_ok heap (EraseByHandle policy specs (Some I) st (Some (addr r)))
    /\ live (m_storage
               (EraseByHandle policy specs (Some I) st (Some (addr r))))
       = live m1 ++ live m2
    /\ length (m_second
                 (EraseByHandle policy specs (Some I) st (Some (addr r))))
       = length specs
    /\ idx (EraseByHandle policy specs (Some I) st (Some (addr r))) I
       = idx st I
    /\ (forall j s, nth_error specs j = Some s -> is_storage s = false ->
                    j <> I ->
                    sec_ok s (live m1 ++ live m2)
                           (idx (EraseByHandle policy specs (Some I) st
                                               (Some (addr r))) j))
    /\ live_ok (EraseByHandle policy specs (Some I) st (Some (addr r))).
Proof.
  intros C [S [Sec Lv]] Hr D.
  assert (N : NoDup (map (@addr Payload) (m_storage st)))
    by (destruct S as [_ [_ [N _]]]; exact N).
  unfold EraseByHandle. rewrite (deref_in _ _ N Hr).
  assert (Split : exists m1 m2,
             m_storage st = m1 ++ r :: m2
             /\ (forall x, In x (m1 ++ m2) -> addr x <> addr r)
             /\ erase_in_range (@first Payload) (first r)
                               (fun x => (addr x =? addr r)%nat)
                               (m_storage st) = m1 ++ m2).
  { destruct (erase_in_range_found _ (@first Payload) (first r)
                (fun x => (addr x =? addr r)%nat) r (m_storage st)
                (proj1 S) Hr eq_refl (Nat.eqb_refl _))
      as [a [x [b [E [Px [_ R]]]]]].
    apply Nat.eqb_eq in Px.
    assert (x = r).
    { eapply NoDup_map_inj; eauto.
      rewrite E. apply in_app_iff. right; left; reflexivity. }
    subst x. exists a, b. split; [exact E|]. split; [|exact R].
    intros y Hy A. rewrite E in N. rewrite map_app in N. simpl in N.
    apply NoDup_remove_2 in N. apply N. rewrite <- map_app.
    rewrite <- A. apply in_map. exact Hy. }
  destruct Split as [m1 [m2 [E [Oth R]]]].
  exists m1, m2. split; [exact E|].
  destruct (DropSecs_wf (Some I) heap st m1 m2 r C S E D Sec)
    as [[F1 [F2 [F3 F4]]] [Len Sd]].
  set (st1 := DropSecs (Some I) st r) in *.
  assert (Ign : forall j, ignored (Some I) j = (j =? I)%nat)
    by reflexivity.
  assert (SdI : idx st1 I = idx st I).
  { destruct (nth_error specs I) as [s|] eqn:Hs.
    - destruct (is_storage s) eqn:St.
      + destruct (DropSecs_spec (Some I) st r (proj1 Sec)) as [_ X].
        fold st1 in X. rewrite X. unfold dropped. rewrite Hs, St.
        reflexivity.
      + specialize (Sd I s Hs St). rewrite Ign, Nat.eqb_refl in Sd.
        exact Sd.
    - destruct (DropSecs_spec (Some I) st r (proj1 Sec)) as [_ X].
      fold st1 in X. rewrite X. unfold dropped. rewrite Hs. reflexivity. }
  assert (SdJ : forall j s, nth_error specs j = Some s ->
                            is_storage s = false -> j <> I ->
                            sec_ok s (live m1 ++ live m2) (idx st1 j)).
  { intros j s Hs St Ne. specialize (Sd j s Hs St). rewrite Ign in Sd.
    apply Nat.eqb_neq in Ne. rewrite Ne in Sd. apply Sd. }
  destruct c_tombstones eqn:T.
  - destruct (DecrementLive_fields (mark true r st1)) as [D1 [D2 [D3 D4]]].
    unfold c_tombstones in *. rewrite T in D4.
    assert (W : m_storage (DecrementLive (mark true r st1))
                = m1 ++ set_dead true r :: m2).
    { rewrite D1. unfold mark. simpl. rewrite F1, E.
      apply write_split; auto. }
    split; [|split; [|split; [|split; [|split]]]].
    + eapply (storage_ok_replace heap st _ m1 m2 r (set_dead true r));
        eauto; try (intro X; congruence).
      rewrite D3. unfold mark. simpl. exact F2.
    + rewrite W. rewrite live_app. unfold live at 2. simpl. reflexivity.
    + rewrite D2. unfold mark. simpl. exact Len.
    + unfold idx. rewrite D2. exact SdI.
    + intros j s Hs St Ne. unfold idx. rewrite D2. apply (SdJ j s Hs St Ne).
    + eapply live_ok_decr; [exact Lv| |].
      * rewrite W, E. rewrite !live_app. unfold live at 2 4. simpl.
        rewrite D. simpl. rewrite !length_app. simpl. lia.
      * rewrite D4. unfold mark. simpl. rewrite F3.
        unfold c_tombstones. rewrite T. reflexivity.
  - set (st2 := set_storage
                  (erase_in_range (@first Payload) (first r)
                                  (fun x => (addr x =? addr r)%nat)
                                  (m_storage st1)) st1).
    destruct (DecrementLive_fields st2) as [D1 [D2 [D3 D4]]].
    assert (W : m_storage (DecrementLive st2) = m1 ++ m2).
    { rewrite D1. unfold st2. simpl. rewrite F1. exact R. }
    split; [|split; [|split; [|split; [|split]]]].
    + eapply (storage_ok_remove heap st _ m1 m2 r); eauto.
      rewrite D3. simpl. exact F2.
    + rewrite W. apply live_app.
    + rewrite D2. simpl. exact Len.
    + unfold idx. rewrite D2. exact SdI.
    + intros j s Hs St Ne. unfold idx. rewrite D2. apply (SdJ j s Hs St Ne).
    + intro X. unfold c_tombstones in *. congruence.
Qed.

Lemma erase_tag_loop_wf (heap : nat) (I : nat) (sI : T_Index Payload)
      (uniq : bool) (sk : Z) :
  config_ok -> nth_error specs I = Some sI -> is_storage sI = false ->
  forall fuel st view_it removed st' n,
    wf heap st ->
    erase_tag_loop policy specs fuel I uniq sk st view_it removed
    = Some (st', n) ->
    wf heap st'.
Proof.
  intros C HsI StI.
  induction fuel as [|fuel IH]; intros st view_it removed st' n W E;
    [discriminate|].
  cbn [erase_tag_loop] in E.
  destruct (nth_error (idx st I) view_it) as [e|] eqn:Ne; [|discriminate].
  assert (S := proj1 W). assert (Sec := proj1 (proj2 W)).
  destruct (proj2 Sec I sI HsI StI) as [Pe _].
  assert (He : In e (idx st I)) by (eapply nth_error_In; eauto).
  apply (Permutation_in _ Pe) in He. apply in_map_iff in He.
  destruct He as [r [Er Hr]]. apply live_in in Hr. destruct Hr as [Hr D].
  assert (Hh : ToHandle policy st (snd e) = Some (addr r)).
  { rewrite <- Er. simpl. eapply ToHandle_entry; eauto. }
  rewrite Hh in E.
  destruct (EraseByHandle_spec I heap st r C W Hr D)
    as [m1 [m2 [Em [S1 [L1 [Len1 [I1 [J1 Lv1]]]]]]]].
  set (st1 := EraseByHandle policy specs (Some I) st (Some (addr r))) in *.
  set (st2 := set_idx I (remove_nth view_it (idx st1 I)) st1) in *.
  assert (W2 : wf heap st2).
  { destruct (nth_error_split _ _ Ne) as [pre [post [Ei Lp]]].
    assert (R : remove_nth view_it (idx st1 I) = pre ++ post).
    { rewrite I1, Ei, <- Lp. apply remove_nth_split. }
    split; [|split].
    - apply (storage_ok_ext heap st1 st2); auto.
    - change (m_storage st2) with (m_storage st1). rewrite L1. split.
      + unfold st2, set_idx. simpl. rewrite list_set_length. exact Len1.
      + intros j s Hs St. unfold st2. rewrite idx_set_idx.
        * destruct (j =? I)%nat eqn:Ej.
          -- apply Nat.eqb_eq in Ej. subst j.
             rewrite HsI in Hs. inversion Hs; subst s.
             rewrite R. apply (sec_ok_remove sI (live m1) (live m2) r).
             rewrite Er, <- Ei.
             pose proof (proj2 Sec I sI HsI StI) as X.
             rewrite Em in X. rewrite live_app in X.
             unfold live at 2 in X. simpl in X. rewrite D in X. exact X.
          -- apply Nat.eqb_neq in Ej. apply (J1 j s Hs St Ej).
        * rewrite Len1. apply nth_error_Some. congruence.
    - eapply live_ok_same; [exact Lv1|reflexivity|reflexivity]. }
  destruct (negb uniq).
  - destruct (nth_error (idx st2 I) view_it) as [e'|].
    + destruct (negb (fst e' =? sk)%Z).
      * inversion E; subst. exact W2.
      * eapply IH; eauto.
    + inversion E; subst. exact W2.
  - inversion E; subst. exact W2.
Qed.

Lemma erase_tag_wf (heap : nat) (I : nat) (st : T_MultiIndex) (sk : Z)
      (st' : T_MultiIndex) (n : Z) :
  config_ok -> wf heap st ->
  erase_tag policy specs I st sk = Some (st', n) ->
  wf heap st'.
Proof.
  intros C W E. unfold erase_tag in E.
  destruct (nth_error specs I) as [s|] eqn:Hs; [|discriminate].
  destruct (negb (I =? c_prim_idx specs)%nat) eqn:P.
  - assert (St : is_storage s = false).
    { destruct (is_storage s) eqn:X; [|reflexivity].
      apply negb_true_iff in P. apply Nat.eqb_neq in P.
      exfalso. apply P. eapply storage_one; eauto. }
    destruct (position sk (idx st I)) as [pos|].
    + eapply erase_tag_loop_wf; eauto.
    + inversion E; subst. exact W.
  - destruct (erase_key_spec heap st sk C W) as [G1 G2].
    rewrite G1 in E. inversion E; subst. exact G2.
Qed.

(** ** Every reachable container is in order *)

Lemma step_wf (s s' : nat * T_MultiIndex) :
  config_ok -> wf (fst s) (snd s) ->
  step operator_eq policy specs s s' -> wf (fst s') (snd s').
Proof.
  intros C W St. destruct St; cbn [fst snd] in *.
  - eapply emplace_wf; eauto.
  - destruct H as [->|[a [r [-> [Dr D]]]]].
    + unfold erase in H0. simpl in H0. inversion H0; subst. exact W.
    + destruct (erase_spec heap st a r C W Dr D) as [W' _].
      rewrite H0 in W'. exact W'.
  - destruct (erase_key_spec heap st k C W) as [G1 G2].
    rewrite G1 in H. inversion H; subst. exact G2.
  - eapply erase_tag_wf; eauto.
  - eapply modify_wf; eauto.
  - eapply replace_wf; eauto.
  - apply clear_wf. apply W.
  - unfold compact.
    apply (rebuild_from_empty heap heap st (empty_mi specs) C W).
    + apply empty_wf.
    + reflexivity.
Qed.

Lemma reachable_wf (s : nat * T_MultiIndex) :
  config_ok -> reachable operator_eq policy specs s -> wf (fst s) (snd s).
Proof.
  intros C R. induction R.
  - apply empty_wf.
  - eapply step_wf; eauto.
Qed.

(** * The claims *)

Lemma perm_filter (B : Type) (f : B -> bool) (l l' : list B) :
  Permutation l l' -> Permutation (filter f l) (filter f l').
Proof.
  induction 1 as [|x l l' P IH|x y l|l l' l'' P1 IH1 P2 IH2]; simpl.
  - constructor.
  - destruct (f x); [apply perm_skip|]; exact IH.
  - destruct (f x), (f y); try apply Permutation_refl. apply perm_swap.
  - eapply Permutation_trans; eauto.
Qed.

Lemma filter_none (B : Type) (f : B -> bool) (l : list B) :
  (forall x, In x l -> f x = false) -> filter f l = [].
Proof.
  induction l as [|x l IH]; simpl; intro H; [reflexivity|].
  rewrite (H x (or_introl eq_refl)). apply IH. intros; apply H; right; auto.
Qed.

(** Secondary coherence, up to the first exception out of [UpdateCore].
    In every state reachable by calls of the interface of which no
    [modify] or [replace] lets an exception out, for every live record [r]
    and every secondary index [I], the [I]-th secondary map holds exactly
    one entry whose sub-key is the projection of [r] and whose stored
    reference (handle, ordinal or key, by policy) resolves to [r]; and
    every entry of a secondary resolves to a live record of the primary. *)
Theorem secondary_coherence (s : nat * T_MultiIndex) :
  config_ok ->
  reachable operator_eq policy specs s ->
  (forall r I sp,
      In r (m_storage (snd s)) -> dead r = false ->
      nth_error specs I = Some sp -> is_storage sp = false ->
      length (filter (refers policy (snd s) sp r) (idx (snd s) I)) = 1%nat)
  /\ (forall I sp e,
         nth_error specs I = Some sp -> is_storage sp = false ->
         In e (idx (snd s) I) ->
         exists r, resolve policy (snd s) (snd e) = Some r
                   /\ In r (m_storage (snd s)) /\ dead r = false).
Proof.
  intros C R. pose proof (reachable_wf s C R) as W.
  destruct s as [heap st]. cbn [fst snd] in *.
  assert (S := proj1 W). assert (Sec := proj2 (proj1 (proj2 W))).
  assert (N : NoDup (map (@addr Payload) (m_storage st)))
    by (destruct S as [_ [_ [N _]]]; exact N).
  split.
  - intros r I sp Hr D Hs St.
    destruct (Sec I sp Hs St) as [P _].
    rewrite (Permutation_length (perm_filter _ _ _ _ P)).
    assert (Hl : In r (live (m_storage st))) by (apply live_in; auto).
    destruct (in_split _ _ Hl) as [L1 [L2 EL]]. rewrite EL.
    assert (NL : NoDup (map (@addr Payload) (L1 ++ r :: L2))).
    { rewrite <- EL. apply NoDup_map_filter. exact N. }
    assert (Other : forall x, In x (L1 ++ L2) ->
                              refers policy st sp r (sec_entry sp x) = false).
    { intros x Hx.
      assert (Hx' : In x (m_storage st)).
      { assert (In x (live (m_storage st))).
        { rewrite EL. apply in_app_iff in Hx. apply in_app_iff.
          destruct Hx; [left|right; right]; auto. }
        apply live_in in H. tauto. }
      unfold refers. cbn [fst snd sec_entry].
      rewrite (ToHandle_entry heap st x C S Hx'). simpl.
      assert ((addr x =? addr r)%nat = false) as ->;
        [|apply andb_false_r].
      apply Nat.eqb_neq. intro A.
      rewrite map_app in NL. simpl in NL. apply NoDup_remove_2 in NL.
      apply NL. rewrite <- map_app. rewrite <- A. apply in_map. exact Hx. }
    assert (Self : refers policy st sp r (sec_entry sp r) = true).
    { unfold refers. cbn [fst snd sec_entry].
      rewrite (ToHandle_entry heap st r C S Hr). simpl.
      rewrite Z.eqb_refl, Nat.eqb_refl. reflexivity. }
    rewrite map_app, filter_app. cbn [map filter]. rewrite Self.
    rewrite !filter_none.
    + reflexivity.
    + intros e He. apply in_map_iff in He. destruct He as [x [<- Hx]].
      apply Other. apply in_app_iff. right; exact Hx.
    + intros e He. apply in_map_iff in He. destruct He as [x [<- Hx]].
      apply Other. apply in_app_iff. left; exact Hx.
  - intros I sp e Hs St He.
    destruct (Sec I sp Hs St) as [P _].
    apply (Permutation_in _ P) in He. apply in_map_iff in He.
    destruct He as [r [<- Hr]]. apply live_in in Hr. destruct Hr as [Hr D].
    exists r. split; [|split; auto].
    cbn [snd sec_entry]. eapply resolve_entry; eauto.
Qed.

Lemma traverse_live (st : T_MultiIndex) :
  c_tombstones = true ->
  NoDup (map (@addr Payload) (m_storage st)) ->
  forall s p fuel,
    m_storage st = p ++ s -> (length s < fuel)%nat ->
    traverse policy fuel st (iter_of (drop_while (@dead Payload) s))
    = map (@addr Payload) (live s).
Proof.
  intros T N. induction s as [|x s IH]; intros p fuel E F.
  - destruct fuel; reflexivity.
  - cbn [drop_while]. unfold live. cbn [filter]. fold (live s).
    destruct (dead x) eqn:D; cbn [negb].
    + apply (IH (p ++ [x])).
      * rewrite E. list_eq.
      * simpl in F. lia.
    + destruct fuel as [|fuel]; [simpl in F; lia|].
      cbn [iter_of traverse map]. f_equal.
      assert (I : iter_incr policy st (Some (addr x))
                  = iter_of (drop_while (@dead Payload) s)).
      { unfold iter_incr. rewrite T. unfold SkipDead, iter_next.
        rewrite E. rewrite seek_split.
        - cbn [tl].
          replace (p ++ x :: s) with ((p ++ [x]) ++ s) by list_eq.
          rewrite seek_iter_of.
          + apply SkipDead_from_end.
          + replace ((p ++ [x]) ++ s) with (p ++ x :: s) by list_eq.
            rewrite <- E. exact N.
        - intros y Hy A. rewrite E in N. rewrite map_app in N. simpl in N.
          apply NoDup_remove_2 in N. apply N. apply in_app_iff. left.
          rewrite <- A. apply in_map. exact Hy. }
      rewrite I. apply (IH (p ++ [x])).
      * rewrite E. list_eq.
      * simpl in F. lia.
Qed.

Lemma traverse_all (st : T_MultiIndex) :
  c_tombstones = false ->
  NoDup (map (@addr Payload) (m_storage st)) ->
  forall s p fuel,
    m_storage st = p ++ s -> (length s < fuel)%nat ->
    traverse policy fuel st (iter_of s) = map (@addr Payload) s.
Proof.
  intros T N. induction s as [|x s IH]; intros p fuel E F.
  - destruct fuel; reflexivity.
  - destruct fuel as [|fuel]; [simpl in F; lia|].
    cbn [iter_of traverse map]. f_equal.
    assert (I : iter_incr policy st (Some (addr x)) = iter_of s).
    { unfold iter_incr. rewrite T. unfold iter_next.
      rewrite E. rewrite seek_split; [reflexivity|].
      intros y Hy A. rewrite E in N. rewrite map_app in N. simpl in N.
      apply NoDup_remove_2 in N. apply N. apply in_app_iff. left.
      rewrite <- A. apply in_map. exact Hy. }
    rewrite I. apply (IH (p ++ [x])).
    + rewrite E. list_eq.
    + simpl in F. lia.
Qed.

Lemma visible_live (heap : nat) (st : T_MultiIndex) :
  wf heap st ->
  visible policy st = map (@addr Payload) (live (m_storage st)).
Proof.
  intros [S _].
  assert (N : NoDup (map (@addr Payload) (m_storage st)))
    by (destruct S as [_ [_ [N _]]]; exact N).
  unfold visible, begin_, ToIterator.
  destruct c_tombstones eqn:T.
  - unfold SkipDead.
    pose proof (seek_iter_of [] (m_storage st) N) as X.
    cbn [app] in X. rewrite X.
    rewrite SkipDead_from_end.
    apply (traverse_live st T N (m_storage st) []); [reflexivity|lia].
  - rewrite live_all.
    + apply (traverse_all st T N (m_storage st) []); [reflexivity|lia].
    + destruct S as [_ [_ [_ [_ [_ A]]]]]. apply A. exact T.
Qed.

(** Live count, up to the first exception out of [UpdateCore].  In every
    state reachable by calls of the interface of which no [modify] or
    [replace] lets an exception out, and whose primary holds fewer than
    [2^64] nodes: with tombstones, [size()] (the live counter) is the
    number of non-dead records of the primary, which are the records the
    walk from [begin()] to [end()] visits; without tombstones, [size()] is
    the size of the primary map. *)
Theorem live_count (s : nat * T_MultiIndex) :
  config_ok ->
  reachable operator_eq policy specs s ->
  (Z.of_nat (length (m_storage (snd s))) < size_max)%Z ->
  (c_tombstones = true ->
   size policy (snd s) = m_live (snd s)
   /\ size policy (snd s) = Z.of_nat (length (live (m_storage (snd s))))
   /\ visible policy (snd s)
      = map (@addr Payload) (live (m_storage (snd s)))
   /\ size policy (snd s) = Z.of_nat (length (visible policy (snd s))))
  /\ (c_tombstones = false ->
      size policy (snd s) = Z.of_nat (length (m_storage (snd s)))).
Proof.
  intros C R B. pose proof (reachable_wf s C R) as W.
  destruct s as [heap st]. cbn [fst snd] in *.
  split.
  - intro T.
    assert (Sz : size policy st = m_live st).
    { unfold size, GetLive. rewrite T. reflexivity. }
    assert (Lv : size policy st
                 = Z.of_nat (length (live (m_storage st)))).
    { rewrite Sz. destruct W as [_ [_ Lv]]. rewrite (Lv T).
      apply size_wrap_small. pose proof (live_length_le (m_storage st)).
      lia. }
    split; [exact Sz|]. split; [exact Lv|].
    split; [apply (visible_live heap st W)|].
    rewrite (visible_live heap st W), length_map. exact Lv.
  - intro T. unfold size. rewrite T. reflexivity.
Qed.

(** C3 -- Emplace rollback.  When [emplace(k, v)] inserts a new node in the
    primary (the key is new, or the primary is a multimap) and some unique
    secondary already holds the sub-key of the new record, or the insert
    into some secondary throws, the call allocates one node, fails at the
    first such secondary [j] (every secondary before [j] accepted its
    entry), and ends in exactly the pre-call state: it returns
    [(end(), false)] when secondary [j] rejected and rethrows when the
    insert into [j] threw. *)
Theorem emplace_rollback (throws : nat -> bool) (heap : nat)
        (st : T_MultiIndex) (k : Z) (v : Payload) :
  config_ok -> wf heap st ->
  (c_primary_is_unique = true ->
   ~ In k (map (@first Payload) (m_storage st))) ->
  (rejects_entry specs st k v \/ exists j, throwing specs throws j) ->
  exists res,
    emplace throws heap st k v = (S heap, st, res)
    /\ let h := mk_pair heap k v false
                        (if c_needs_transl_array then length (transl st)
                         else 0%nat) in
       ((res = Returned (end_, false)
         /\ exists j, rejecting specs throws st h j
                      /\ forall j', (j' < j)%nat ->
                                    clean specs throws st h j')
        \/ (res = Thrown
            /\ exists j, throwing specs throws j
                         /\ forall j', (j' < j)%nat ->
                                       clean specs throws st h j')).
Proof.
  intros C W New Fail.
  destruct (emplace throws heap st k v) as [[heap' st'] res] eqn:E.
  destruct (emplace_new throws heap st k v C W New heap' st' res E)
    as [Hh Cases].
  cbv zeta in Cases. subst heap'.
  destruct Cases as [[_ [_ [_ [_ Cl]]]] | [[R [S' X]] | [R [S' X]]]].
  - exfalso. destruct Fail as [[j [s [N [IS [U M]]]]] | [j [s [N [IS T]]]]].
    + destruct (Cl j s N IS) as [_ Cu]. cbn [first m_value] in Cu.
      rewrite (Cu U) in M. discriminate.
    + destruct (Cl j s N IS) as [Ct _]. rewrite Ct in T. discriminate.
  - subst st'. exists res. split; [reflexivity|]. left. split; assumption.
  - subst st'. exists res. split; [reflexivity|]. right. split; assumption.
Qed.

Lemma sorted_perm_eq (A : Type) (key : A -> Z) (l1 l2 : list A) :
  map_sorted key l1 -> map_sorted key l2 -> NoDup (map key l1) ->
  Permutation l1 l2 -> l1 = l2.
Proof.
  revert l2. induction l1 as [|a l1 IH]; intros l2 S1 S2 N P.
  - apply Permutation_nil in P. symmetry. exact P.
  - destruct l2 as [|b l2].
    + apply Permutation_sym, Permutation_nil in P. discriminate.
    + assert (Ia : In a (b :: l2))
        by (apply (Permutation_in a P); left; reflexivity).
      assert (Ib : In b (a :: l1))
        by (apply (Permutation_in b (Permutation_sym P)); left; reflexivity).
      inversion S1 as [|? ? S1' F1]; subst.
      inversion S2 as [|? ? S2' F2]; subst.
      assert (K : key a = key b).
      { destruct Ia as [->|Ia]; [reflexivity|].
        destruct Ib as [->|Ib]; [reflexivity|].
        rewrite Forall_forall in F1, F2.
        pose proof (F1 b Ib). pose proof (F2 a Ia). lia. }
      assert (E : a = b).
      { apply (NoDup_map_inj A Z key (a :: l1) a b N);
          [left; reflexivity|exact Ib|exact K]. }
      subst b. f_equal. apply IH; try assumption.
      * simpl in N. inversion N; assumption.
      * apply (Permutation_cons_inv P).
Qed.

Lemma restored_wf (heap : nat) (st st' : T_MultiIndex) (j : nat)
      (s : T_Index Payload) :
  wf heap st -> wf heap st' ->
  m_storage st' = m_storage st ->
  nth_error specs j = Some s -> is_storage s = false ->
  Permutation (idx st' j) (idx st j)
  /\ map_sorted skey (idx st' j)
  /\ (is_unique s = true -> idx st' j = idx st j).
Proof.
  intros W W' Es N IS.
  destruct W as [_ [[_ So] _]]. destruct W' as [_ [[_ So'] _]].
  destruct (So j s N IS) as [P [Sd U]].
  destruct (So' j s N IS) as [P' [Sd' U']].
  rewrite Es in P'.
  assert (Pm : Permutation (idx st' j) (idx st j)).
  { eapply Permutation_trans; [exact P'|]. apply Permutation_sym. exact P. }
  split; [exact Pm|]. split; [exact Sd'|].
  intro Un. apply (sorted_perm_eq _ _ _ _ Sd' Sd (U' Un) Pm).
Qed.

(** [UpdateCore] up to its first [AddSecs]: the node is marked live, the
    entries of a live record are dropped, and the rest of the call runs on
    the state [st2] so obtained. *)
Lemma UpdateCore_prep (throws : nat -> bool) (heap : nat) (st : T_MultiIndex)
      (a : nat) (r : t_pair) (mut : Payload -> Payload) :
  config_ok -> wf heap st ->
  deref (m_storage st) a = Some r ->
  exists m1 m2 st2,
    m_storage st = m1 ++ r :: m2
    /\ (forall x, In x (m1 ++ m2) -> addr x <> addr r)
    /\ (c_tombstones = false -> dead r = false)
    /\ m_storage st2 = m1 ++ set_dead false r :: m2
    /\ transl st2 = transl st /\ m_live st2 = m_live st
    /\ secondaries_ok st2 (live m1 ++ live m2)
    /\ (dead r = false ->
        forall j s, nth_error specs j = Some s -> is_storage s = false ->
          idx st2 j = drop_entry st s r (idx st j)
          /\ (is_unique s = true ->
              map_contains skey (Project s (first r) (m_value r))
                           (idx st2 j) = false))
    /\ UpdateCore throws st (Some a) mut
       = (let h2 := set_value (mut (m_value r)) (set_dead false r) in
          let st3 := set_storage (write h2 (m_storage st2)) st2 in
          match AddSecs throws st3 h2 with
          | (st4, Threw) => (st4, Thrown)
          | (st4, Done false) =>
              match restore_old policy specs throws st4 h2 (m_value r)
                                (if c_tombstones then dead r else false) with
              | (st5, Threw) => (st5, Thrown)
              | (st5, Done _) => (st5, Returned false)
              end
          | (st4, Done true) =>
              (if c_tombstones && (if c_tombstones then dead r else false)
               then IncrementLive st4 else st4, Returned true)
          end).
Proof.
  intros C W Dr.
  assert (S := proj1 W). assert (Sec := proj1 (proj2 W)).
  assert (N : NoDup (map (@addr Payload) (m_storage st)))
    by (destruct S as [_ [_ [N _]]]; exact N).
  destruct (deref_split _ _ _ N Dr) as [m1 [m2 [E [A Oth]]]].
  rewrite <- A in Oth.
  assert (NoT : c_tombstones = false -> dead r = false).
  { intro T. destruct S as [_ [_ [_ [_ [_ X]]]]]. apply X; auto.
    rewrite E. apply in_app_iff. right; left; reflexivity. }
  pose (st1 := set_storage (write (set_dead false r) (m_storage st)) st).
  pose (st2 := if c_tombstones
               then (if negb (if c_tombstones then dead r else false)
                     then DropSecs None st1 (set_dead false r) else st1)
               else DropSecs None st1 (set_dead false r)).
  assert (Hh1 : (if c_tombstones then set_dead false r else r)
                = set_dead false r).
  { destruct c_tombstones eqn:T; [reflexivity|].
    pose proof (set_dead_same r) as X. rewrite (NoT eq_refl) in X.
    symmetry. exact X. }
  assert (W1 : m_storage st1 = m1 ++ set_dead false r :: m2).
  { change (m_storage st1) with (write (set_dead false r) (m_storage st)).
    rewrite E. apply write_split; auto. }
  assert (Dropped : dead r = false ->
            let s2 := DropSecs None st1 (set_dead false r) in
            m_storage s2 = m1 ++ set_dead false r :: m2
            /\ transl s2 = transl st /\ m_live s2 = m_live st
            /\ secondaries_ok s2 (live m1 ++ live m2)
            /\ (forall j s, nth_error specs j = Some s ->
                            is_storage s = false ->
                  idx s2 j = drop_entry st s r (idx st j)
                  /\ (is_unique s = true ->
                      map_contains skey (Project s (first r) (m_value r))
                                   (idx s2 j) = false))).
  { intro D.
    destruct (drop_prep heap st m1 m2 r C W E Oth D)
      as [X1 [X2 [X3 [X4 X5]]]].
    intro s2. split; [exact X1|]. split; [exact X2|]. split; [exact X3|].
    split; [exact X4|]. intros j s Hs St. split; [|exact (X5 j s Hs St)].
    assert (R : set_dead false r = r)
      by (rewrite <- D; apply set_dead_same).
    assert (Len1 : length (m_second st1) = length specs)
      by (destruct Sec as [Len _]; exact Len).
    unfold s2. rewrite R.
    rewrite (proj2 (DropSecs_spec None st1 r Len1) j).
    unfold dropped. rewrite Hs, St. cbn [negb ignored andb].
    change (idx st1 j) with (idx st j).
    apply drop_entry_ext. reflexivity. }
  assert (Kept : dead r = true ->
                 secondaries_ok st1 (live m1 ++ live m2)).
  { intro D.
    assert (L0 : live (m_storage st) = live m1 ++ live m2).
    { rewrite E. rewrite live_app. unfold live at 2. simpl.
      rewrite D. reflexivity. }
    rewrite <- L0. eapply secondaries_ok_frame; [|exact Sec]. reflexivity. }
  assert (F2 : m_storage st2 = m1 ++ set_dead false r :: m2
               /\ transl st2 = transl st /\ m_live st2 = m_live st
               /\ secondaries_ok st2 (live m1 ++ live m2)
               /\ (dead r = false ->
                   forall j s, nth_error specs j = Some s ->
                               is_storage s = false ->
                     idx st2 j = drop_entry st s r (idx st j)
                     /\ (is_unique s = true ->
                         map_contains skey
                           (Project s (first r) (m_value r))
                           (idx st2 j) = false))).
  { unfold st2. destruct c_tombstones eqn:T.
    - destruct (dead r) eqn:D; cbn [negb].
      + split; [exact W1|]. split; [reflexivity|]. split; [reflexivity|].
        split; [apply Kept; reflexivity|discriminate].
      + destruct (Dropped eq_refl) as [B1 [B2 [B3 [B4 B5]]]].
        split; [exact B1|]. split; [exact B2|]. split; [exact B3|].
        split; [exact B4|]. intros _. exact B5.
    - destruct (Dropped (NoT eq_refl)) as [B1 [B2 [B3 [B4 B5]]]].
      split; [exact B1|]. split; [exact B2|]. split; [exact B3|].
      split; [exact B4|]. intros _. exact B5. }
  destruct F2 as [B1 [B2 [B3 [B4 B5]]]].
  exists m1, m2, st2.
  split; [exact E|]. split; [exact Oth|]. split; [exact NoT|].
  split; [exact B1|]. split; [exact B2|]. split; [exact B3|].
  split; [exact B4|]. split; [exact B5|].
  unfold UpdateCore. rewrite Dr. rewrite Hh1. reflexivity.
Qed.

(** The entry of a live record in a secondary, and the secondary without
    it: what [DropSecs] leaves. *)
Lemma drop_entry_split (heap : nat) (st : T_MultiIndex) (r : t_pair)
      (j : nat) (s : T_Index Payload) :
  config_ok -> wf heap st -> In r (m_storage st) -> dead r = false ->
  nth_error specs j = Some s -> is_storage s = false ->
  exists pre post,
    idx st j = pre ++ sec_entry s r :: post
    /\ drop_entry st s r (idx st j) = pre ++ post.
Proof.
  intros C [S [[_ Sec] _]] Ir D Hs St.
  destruct (Sec j s Hs St) as [P [So _]].
  assert (Ie : In (sec_entry s r) (idx st j)).
  { apply (Permutation_in _ (Permutation_sym P)). apply in_map.
    apply live_in. split; assumption. }
  assert (Self : MatchSecondary st (GetSecondaryValue r) r = true)
    by (apply (match_self heap st r S Ir)).
  destruct (erase_in_range_found _ skey (Project s (first r) (m_value r))
              (fun e => MatchSecondary st (snd e) r) (sec_entry s r)
              (idx st j) So Ie eq_refl Self)
    as [pre [x [post [Hm [Px [_ Hr]]]]]].
  assert (Hx : x = sec_entry s r).
  { assert (Ix : In x (idx st j))
      by (rewrite Hm; apply in_app_iff; right; left; reflexivity).
    apply (Permutation_in _ P) in Ix. apply in_map_iff in Ix.
    destruct Ix as [r' [Er Hr']]. subst x.
    unfold sec_entry in Px. cbn [snd] in Px.
    apply live_in in Hr'. destruct Hr' as [Ir' _].
    rewrite (match_inj heap st r r' C S Ir Ir' Px). reflexivity. }
  subst x. exists pre, post. split; [exact Hm|]. exact Hr.
Qed.

(** A rejected update of a live record, whatever the inserts do on other
    paths: every secondary is the old one with the entry of the record
    dropped and inserted again. *)
Lemma UpdateCore_rejected_live (throws : nat -> bool) (heap : nat)
      (st : T_MultiIndex) (a : nat) (r : t_pair) (mut : Payload -> Payload)
      (st' : T_MultiIndex) :
  config_ok -> wf heap st ->
  deref (m_storage st) a = Some r -> dead r = false ->
  UpdateCore throws st (Some a) mut = (st', Returned false) ->
  forall j s, nth_error specs j = Some s -> is_storage s = false ->
    idx st' j
    = map_insert skey (sec_entry s r) (drop_entry st s r (idx st j)).
Proof.
  intros C W Dr D E j s Hs St.
  assert (S := proj1 W).
  destruct (UpdateCore_prep throws heap st a r mut C W Dr)
    as [m1 [m2 [st2 [Es [Oth [NoT [B1 [B2 [B3 [B4 [B5 U]]]]]]]]]]].
  rewrite E in U. cbv zeta in U.
  set (h2 := set_value (mut (m_value r)) (set_dead false r)) in *.
  set (st3 := set_storage (write h2 (m_storage st2)) st2) in *.
  assert (W3 : m_storage st3 = m1 ++ h2 :: m2).
  { unfold st3. simpl. rewrite B1. apply write_split; auto. }
  assert (S3 : storage_ok heap st3).
  { eapply (storage_ok_replace heap st st3 m1 m2 r h2); eauto. }
  assert (Sec3 : secondaries_ok st3 (live m1 ++ live m2)).
  { eapply secondaries_ok_frame; [|exact B4]. reflexivity. }
  assert (Hh : In h2 (m_storage st3)).
  { rewrite W3. apply in_app_iff. right; left; reflexivity. }
  assert (Sub : forall x, In x (live m1 ++ live m2) -> In x (m1 ++ m2)).
  { intros x Hx. apply in_app_iff in Hx. apply in_app_iff.
    destruct Hx as [Hx|Hx]; apply live_in in Hx; tauto. }
  assert (HL : forall x, In x (live m1 ++ live m2) ->
                         In x (m_storage st3) /\ x <> h2).
  { intros x Hx. apply Sub in Hx. split.
    - rewrite W3. apply in_app_iff in Hx. apply in_app_iff.
      destruct Hx; [left|right; right]; auto.
    - intro X. subst x. apply (Oth h2 Hx). reflexivity. }
  destruct (AddSecs throws st3 h2) as [st4 o] eqn:EA.
  pose proof (AddSecs_wf throws _ st3 _ h2 C S3 Hh Sec3 HL st4 o EA) as G.
  destruct o as [[|]|]; [discriminate U| |discriminate U].
  destruct G as [-> _].
  unfold restore_old in U.
  assert (Er : set_value (m_value r) h2 = r)
    by (apply restore_record_live; exact D).
  assert (Ed : set_dead false r = r)
    by (rewrite <- D; apply set_dead_same).
  assert (U' : (st', Returned false)
               = match AddSecs throws
                         (set_storage (write r (m_storage st3)) st3) r with
                 | (st5, Threw) => (st5, Thrown)
                 | (st5, Done _) => (st5, Returned false)
                 end).
  { destruct c_tombstones eqn:T.
    - rewrite D in U. cbn [negb] in U. rewrite Er, Ed in U. exact U.
    - rewrite Er in U. exact U. }
  clear U.
  set (st5 := set_storage (write r (m_storage st3)) st3) in *.
  assert (W5 : m_storage st5 = m_storage st).
  { change (m_storage st5) with (write r (m_storage st3)).
    rewrite W3, Es. apply write_split; auto. }
  assert (S5 : storage_ok heap st5).
  { eapply storage_ok_ext; [exact W5| |exact S]. simpl. exact B2. }
  assert (Hr : In r (m_storage st5)).
  { rewrite W5, Es. apply in_app_iff. right; left; reflexivity. }
  assert (HL5 : forall x, In x (live m1 ++ live m2) ->
                          In x (m_storage st5) /\ x <> r).
  { intros x Hx. apply Sub in Hx. split.
    - rewrite W5, Es. apply in_app_iff in Hx. apply in_app_iff.
      destruct Hx; [left|right; right]; auto.
    - intro X. subst x. apply (Oth r Hx). reflexivity. }
  assert (Sec5 : secondaries_ok st5 (live m1 ++ live m2)).
  { eapply secondaries_ok_frame; [|exact B4]. reflexivity. }
  destruct (AddSecs throws st5 r) as [s5 o5] eqn:EA5.
  pose proof (AddSecs_wf throws _ st5 _ r C S5 Hr Sec5 HL5 s5 o5 EA5) as G5.
  destruct o5 as [[|]|]; [| |discriminate U'].
  - injection U' as ->.
    destruct G5 as [_ [_ [Ix _]]].
    rewrite Ix. rewrite (inserted_all r _ _ _ Hs St).
    change (idx st5 j) with (idx st2 j).
    rewrite (proj1 (B5 D j s Hs St)). reflexivity.
  - exfalso. destruct G5 as [_ [j5 [[s5' [Hs5 [St5 [_ [U5 M5]]]]] _]]].
    change (idx st5 j5) with (idx st2 j5) in M5.
    rewrite (proj2 (B5 D j5 s5' Hs5 St5) U5) in M5. discriminate M5.
Qed.

Lemma collides_live (heap : nat) (st : T_MultiIndex) (r : t_pair) :
  wf heap st -> In r (m_storage st) -> dead r = false ->
  ~ collides specs st r (m_value r).
Proof.
  intros W Ir Dr [j [s [r' [N [IS [U [Ir' [Dr' [Ad Pr]]]]]]]]].
  destruct W as [_ [[_ So] _]].
  destruct (So j s N IS) as [P [_ Nd]]. specialize (Nd U).
  assert (Nd' : NoDup (map (@fst Z t_sec_value)
                           (map (sec_entry s) (live (m_storage st))))).
  { eapply Permutation_NoDup; [|exact Nd]. apply Permutation_map. exact P. }
  rewrite map_map in Nd'.
  apply Ad. f_equal.
  apply (NoDup_map_inj _ _ _ _ r' r Nd').
  - apply live_in. split; assumption.
  - apply live_in. split; assumption.
  - exact Pr.
Qed.

Lemma UpdateCore_rejected (throws : nat -> bool) (heap : nat)
      (st : T_MultiIndex) (a : nat) (r : t_pair) (mut : Payload -> Payload) :
  config_ok -> wf heap st ->
  deref (m_storage st) a = Some r ->
  (forall j, throws j = false) ->
  collides specs st r (mut (m_value r)) ->
  exists st',
    UpdateCore throws st (Some a) mut = (st', Returned false)
    /\ wf heap st'
    /\ restored policy specs r st st'
    /\ (dead r = true -> m_second st' = m_second st).
Proof.
  intros C W Dr NT [j [s [r' [N [IS [U [Ir' [Dr' [Ad Pr]]]]]]]]].
  destruct (UpdateCore_spec throws heap st a r mut C W Dr)
    as [m1 [m2 [st2 [Es [Far [[_ So2] G]]]]]].
  destruct (UpdateCore throws st (Some a) mut) as [st' res] eqn:E.
  specialize (G st' res eq_refl). cbv zeta in G.
  destruct res as [[|]|].
  - exfalso. destruct G as [_ [_ [_ [_ Cl]]]].
    destruct (Cl j s N IS) as [_ Cu]. specialize (Cu U).
    cbn [first m_value set_value set_dead] in Cu.
    apply map_contains_false in Cu. apply Cu.
    destruct (So2 j s N IS) as [P _].
    assert (In (sec_entry s r') (idx st2 j)).
    { apply (Permutation_in _ (Permutation_sym P)). apply in_map.
      rewrite Es in Ir'. apply in_app_iff.
      apply in_app_iff in Ir'. destruct Ir' as [I1|[I1|I1]].
      - left. apply live_in. split; assumption.
      - subst r'. exfalso. apply Ad. reflexivity.
      - right. apply live_in. split; assumption. }
    rewrite <- Pr.
    change (Project s (first r') (m_value r'))
      with (fst (sec_entry s r')).
    apply in_map. assumption.
  - exists st'. split; [reflexivity|].
    destruct G as [W' [Et [Est [El [Dd _]]]]].
    split; [exact W'|]. split; [|exact Dd].
    split; [exact Est|]. split; [exact El|]. split; [exact Et|].
    split; [exact Dd|]. intros j0 s0 N0 IS0.
    destruct (restored_wf heap st st' j0 s0 W W' Est N0 IS0) as [P [Sd Un]].
    split; [exact P|]. split; [exact Sd|]. split; [exact Un|].
    intro D. destruct (deref_some _ _ _ Dr) as [Ir _].
    destruct (drop_entry_split heap st r j0 s0 C W Ir D N0 IS0)
      as [pre [post [H1 H2]]].
    exists pre, post. split; [exact H1|]. rewrite <- H2.
    apply (UpdateCore_rejected_live throws heap st a r mut st' C W Dr D E
                                    j0 s0 N0 IS0).
  - exfalso. destruct G as [j' [s' [_ [_ T]]]]. rewrite NT in T.
    discriminate.
Qed.

(** C4 -- Update atomicity on rejection.  Let [it] point to a record [r] of
    the primary, let no insert throw, and let the rebuilt record collide:
    under some unique secondary a live record other than [r] has the
    sub-key [r] would project to with the new payload.  Then
    [modify(it, fn)], and [replace(it, v)] for an argument of any type
    when the payload's [operator==] is sound, return [false]; the primary
    map afterwards is the one before the call, so the record has its old
    payload and its old dead flag; the live counter and the translation
    array are unchanged; every unique secondary is the list it was; when
    the record was dead the secondaries are untouched; and when it was
    live every secondary is the old one with the entry of the record
    taken out and inserted again at the upper bound of its sub-key, so
    that no other entry has moved. *)
Theorem update_rejection_atomic (throws : nat -> bool) (heap : nat)
        (st : T_MultiIndex) (a : nat) (r : t_pair) :
  config_ok -> wf heap st ->
  deref (m_storage st) a = Some r ->
  (forall j, throws j = false) ->
  (forall fn, collides specs st r (fn (m_value r)) ->
     exists st',
       modify policy specs throws st (Some a) fn = (st', Returned false)
       /\ deref (m_storage st') a = Some r
       /\ restored policy specs r st st'
       /\ (dead r = true -> m_second st' = m_second st))
  /\ (forall is_same_v v, sound_eq operator_eq -> collides specs st r v ->
        exists st',
          replace operator_eq policy specs is_same_v throws st (Some a) v
          = (st', Returned false)
          /\ deref (m_storage st') a = Some r
          /\ restored policy specs r st st'
          /\ (dead r = true -> m_second st' = m_second st)).
Proof.
  intros C W Dr NT. split.
  - intros fn Co.
    destruct (UpdateCore_rejected throws heap st a r fn C W Dr NT Co)
      as [st' [E [_ [R D]]]].
    exists st'. split; [exact E|]. split; [|split; assumption].
    destruct R as [Es _]. rewrite Es. exact Dr.
  - intros is_same_v v Se Co.
    destruct (UpdateCore_rejected throws heap st a r (fun _ => v)
                                  C W Dr NT Co)
      as [st' [E [_ [R D]]]].
    exists st'. split; [|split; [|split; assumption]].
    + unfold replace, Replace. cbn [iter_eqb end_ ToHandle_iter].
      rewrite Dr.
      destruct operator_eq as [eqb|] eqn:Oe; [|exact E].
      destruct is_same_v; [|exact E].
      destruct ((if c_tombstones then negb (dead r) else true)
                && eqb (m_value r) v) eqn:Sc; [|exact E].
      exfalso. apply andb_true_iff in Sc. destruct Sc as [Lv Eq].
      pose proof (Se eqb (m_value r) v eq_refl Eq) as Ev. subst v.
      destruct (deref_some _ _ _ Dr) as [Ir _].
      apply (collides_live heap st r W Ir); [|exact Co].
      destruct c_tombstones eqn:T.
      * destruct (dead r); [discriminate|reflexivity].
      * destruct W as [[_ [_ [_ [_ [_ A]]]]] _]. apply A; assumption.
    + destruct R as [Es _]. rewrite Es. exact Dr.
Qed.

Lemma find_skip (f : t_pair -> bool) (p s : list t_pair) :
  (forall x, In x p -> f x = false) -> find f (p ++ s) = find f s.
Proof.
  induction p as [|x p IH]; intro H; [reflexivity|].
  cbn [app find]. rewrite (H x (or_introl eq_refl)).
  apply IH. intros y Hy. apply H. right. exact Hy.
Qed.

Lemma find_absent (f : t_pair -> bool) (s : list t_pair) :
  (forall x, In x s -> f x = false) -> find f s = None.
Proof.
  intro H. destruct (find f s) as [x|] eqn:E; [|reflexivity].
  apply find_some in E. destruct E as [I T]. rewrite (H x I) in T.
  discriminate.
Qed.

Lemma first_live_blocks (k : Z) (lo blk hi : list t_pair) :
  (forall x, In x lo -> (first x < k)%Z) ->
  (forall x, In x blk -> first x = k) ->
  (forall x, In x hi -> (k < first x)%Z) ->
  first_live k (lo ++ blk ++ hi) = hd_error (live blk).
Proof.
  intros Lo Bk Hi. unfold first_live.
  rewrite find_skip.
  2:{ intros x Hx. apply Lo in Hx.
      replace (first x =? k)%Z with false; [reflexivity|].
      symmetry. apply Z.eqb_neq. lia. }
  induction blk as [|x blk IH].
  - cbn [app live filter hd_error]. apply find_absent.
    intros x Hx. apply Hi in Hx.
    replace (first x =? k)%Z with false; [reflexivity|].
    symmetry. apply Z.eqb_neq. lia.
  - cbn [app find]. rewrite (Bk x (or_introl eq_refl)), Z.eqb_refl.
    unfold live. cbn [filter andb]. fold (live blk).
    destruct (dead x); cbn [negb hd_error]; [|reflexivity].
    apply IH. intros y Hy. apply Bk. right. exact Hy.
Qed.

Lemma SkipDead_from_range (blk hi : list t_pair) :
  NoDup (map (@addr Payload) (blk ++ hi)) ->
  SkipDead_from (blk ++ hi) (iter_of hi)
  = match live blk with
    | t :: _ => Some (addr t)
    | [] => iter_of hi
    end.
Proof.
  induction blk as [|x blk IH]; intro N.
  - cbn [app live filter]. destruct hi as [|y hi]; [reflexivity|].
    cbn [SkipDead_from iter_of iter_eqb]. rewrite Nat.eqb_refl. reflexivity.
  - cbn [app SkipDead_from].
    rewrite (iter_of_disjoint (x :: blk) hi x N (or_introl eq_refl)).
    unfold live. cbn [filter]. fold (live blk).
    destruct (dead x); cbn [negb]; [|reflexivity].
    apply IH. simpl in N. inversion N; assumption.
Qed.

Lemma find_spec (heap : nat) (st : T_MultiIndex) (k : Z) :
  c_tombstones = true -> storage_ok heap st ->
  find_ policy specs st k
  = option_map (@addr Payload) (first_live k (m_storage st)).
Proof.
  intros T S.
  destruct S as [Sd [Un [N _]]].
  destruct (sorted_blocks k (m_storage st) Sd)
    as [lo [blk [hi [E [Lo [Bk Hi]]]]]].
  unfold find_, storage_equal_range, lower_bound, upper_bound.
  rewrite T, E.
  rewrite (blocks_lower k lo blk hi Lo Bk Hi).
  rewrite (blocks_upper k lo blk hi Lo Bk Hi).
  rewrite (first_live_blocks k lo blk hi Lo Bk Hi).
  rewrite <- E.
  destruct blk as [|x blk].
  - cbn [app live filter hd_error option_map]. rewrite iter_eqb_refl.
    reflexivity.
  - assert (N2 : NoDup (map (@addr Payload) ((x :: blk) ++ hi))).
    { rewrite E in N. rewrite map_app in N.
      apply NoDup_app_remove_l in N. exact N. }
    assert (N3 : NoDup (map (@addr Payload) ((lo ++ x :: blk) ++ hi))).
    { replace ((lo ++ x :: blk) ++ hi) with (lo ++ (x :: blk) ++ hi)
        by list_eq. rewrite <- E. exact N. }
    cbn [app iter_of].
    rewrite (iter_of_disjoint (x :: blk) hi x N2 (or_introl eq_refl)).
    assert (Sk : seek (m_storage st) (Some (addr x)) = x :: blk ++ hi).
    { rewrite E. apply (seek_iter_of lo ((x :: blk) ++ hi)).
      rewrite <- E. exact N. }
    unfold IsDead. rewrite Sk.
    unfold live. cbn [filter]. fold (live blk).
    destruct (dead x) eqn:Dx; cbn [negb].
    + destruct c_primary_is_unique eqn:U; cbn [negb].
      * assert (B : @nil t_pair = [] /\ blk = []).
        { apply (same_key_unique k [] blk x).
          - intros y Hy. apply Bk. exact Hy.
          - specialize (Un eq_refl). rewrite E in Un.
            rewrite map_app in Un. apply NoDup_app_remove_l in Un.
            rewrite map_app in Un. apply NoDup_app_remove_r in Un.
            exact Un. }
        destruct B as [_ ->]. reflexivity.
      * assert (R : SkipDead (m_storage st) (Some (addr x)) (iter_of hi)
                    = match live blk with
                      | t :: _ => Some (addr t)
                      | [] => iter_of hi
                      end).
        { unfold SkipDead. rewrite Sk.
          pose proof (SkipDead_from_range (x :: blk) hi N2) as R.
          cbn [app] in R. rewrite R.
          unfold live. cbn [filter]. rewrite Dx. reflexivity. }
        cbv zeta. rewrite !R. clear R.
        destruct (live blk) as [|t ts] eqn:Lb.
        -- rewrite iter_eqb_refl. reflexivity.
        -- destruct (live_head_split blk t ts Lb)
             as [d [rest [Eb [Dd [Dt _]]]]].
           assert (It : In t (x :: blk)).
           { right. rewrite Eb. apply in_app_iff. right. left. reflexivity. }
           rewrite (iter_of_disjoint (x :: blk) hi t N2 It).
           unfold SkipDead.
           assert (Sk2 : seek (m_storage st) (Some (addr t))
                         = t :: rest ++ hi).
           { rewrite E, Eb.
             replace (lo ++ (x :: d ++ t :: rest) ++ hi)
               with ((lo ++ x :: d) ++ (t :: rest ++ hi)) by list_eq.
             apply (seek_iter_of (lo ++ x :: d) (t :: rest ++ hi)).
             replace ((lo ++ x :: d) ++ t :: rest ++ hi)
               with (lo ++ (x :: d ++ t :: rest) ++ hi) by list_eq.
             rewrite <- Eb, <- E. exact N. }
           rewrite Sk2. cbn [SkipDead_from iter_eqb]. rewrite Dt.
           reflexivity.
    + unfold SkipDead. rewrite Sk. cbn [SkipDead_from iter_eqb].
      rewrite Dx. reflexivity.
Qed.

(** C5 -- Find under tombstones.  With tombstones enabled, [find(k)] is the
    first live record with key [k] in primary order, and [end()] when there
    is none.  So with a unique primary whose entry for [k] is dead it is
    [end()]; whenever every entry with key [k] is dead it is [end()]; and an
    iterator it returns points to a live record with key [k]. *)
Theorem find_tombstones (heap : nat) (st : T_MultiIndex) (k : Z) :
  c_tombstones = true -> storage_ok heap st ->
  find_ policy specs st k
  = option_map (@addr Payload) (first_live k (m_storage st))
  /\ (c_primary_is_unique = true ->
      forall r, map_find (@first Payload) k (m_storage st) = Some r ->
                dead r = true -> find_ policy specs st k = end_)
  /\ ((forall r, In r (m_storage st) -> first r = k -> dead r = true) ->
      find_ policy specs st k = end_)
  /\ (forall a, find_ policy specs st k = Some a ->
                exists r, In r (m_storage st) /\ addr r = a
                          /\ first r = k /\ dead r = false).
Proof.
  intros T S. pose proof (find_spec heap st k T S) as F.
  assert (AllDead : (forall r, In r (m_storage st) -> first r = k ->
                               dead r = true) ->
                    find_ policy specs st k = end_).
  { intro D. rewrite F. unfold first_live. rewrite find_absent; [reflexivity|].
    intros x Hx. destruct (first x =? k)%Z eqn:K; [|reflexivity].
    apply Z.eqb_eq in K. rewrite (D x Hx K). reflexivity. }
  split; [exact F|]. split; [|split; [exact AllDead|]].
  - intros U r Mf Dr. apply AllDead. intros r' Ir' K'.
    destruct (map_find_some k (m_storage st) r Mf) as [Ir K].
    destruct S as [_ [Un _]].
    assert (r' = r).
    { apply (NoDup_map_inj _ _ (@first Payload) (m_storage st) r' r (Un U));
        try assumption. congruence. }
    subst r'. exact Dr.
  - intros a Fa. rewrite F in Fa.
    destruct (first_live k (m_storage st)) as [r|] eqn:Fl; [|discriminate].
    cbn [option_map] in Fa. injection Fa as Fa.
    unfold first_live in Fl. apply find_some in Fl. destruct Fl as [Ir P].
    apply andb_true_iff in P. destruct P as [K D].
    exists r. split; [exact Ir|]. split; [exact Fa|].
    split; [apply Z.eqb_eq; exact K|].
    destruct (dead r); [discriminate|reflexivity].
Qed.

Lemma dead_live_lt (m : list t_pair) (r : t_pair) :
  In r m -> dead r = true -> (length (live m) < length m)%nat.
Proof.
  induction m as [|x m IH]; intros I D; [destruct I|].
  unfold live. cbn [filter length]. fold (live m).
  destruct I as [->|I].
  - rewrite D. cbn [negb]. pose proof (live_length_le m). lia.
  - specialize (IH I D). destruct (negb (dead x)); cbn [length]; lia.
Qed.

Lemma deref_write (heap : nat) (st st' : T_MultiIndex) (r h : t_pair) :
  storage_ok heap st -> storage_ok heap st' ->
  In r (m_storage st) -> addr h = addr r ->
  m_storage st' = write h (m_storage st) ->
  deref (m_storage st') (addr r) = Some h.
Proof.
  intros S S' I A E.
  destruct S as [_ [_ [N _]]]. destruct S' as [_ [_ [N' _]]].
  destruct (in_split_addr (m_storage st) r N I) as [m1 [m2 [Em F]]].
  rewrite Em in E. rewrite (write_split m1 m2 r h F A) in E.
  rewrite <- A. apply (deref_in _ _ N').
  rewrite E. apply in_app_iff. right. left. reflexivity.
Qed.

(** C6 -- Revival.  Tombstones on, unique primary, the record [r0] for key
    [k] dead, fewer than [2^64] nodes, no insert throwing.  [emplace(k, v)]
    allocates nothing and keeps the number of nodes of the primary.  When no
    unique secondary holds a sub-key of the new record, the node of [r0]
    becomes [r0] with the dead flag cleared and payload [v], each secondary
    gains the record's entry, the live counter and [size()] grow by one, and
    the call returns the iterator to the node with [true].  When some unique
    secondary rejects, the call returns [(end(), false)], the node carries
    the dead flag again, and the secondaries and [size()] are the ones
    before the call. *)
Theorem revival (throws : nat -> bool) (heap : nat) (st : T_MultiIndex)
        (k : Z) (v : Payload) (r0 : t_pair) :
  config_ok -> wf heap st ->
  c_primary_is_unique = true -> c_tombstones = true ->
  map_find (@first Payload) k (m_storage st) = Some r0 ->
  dead r0 = true ->
  (Z.of_nat (length (m_storage st)) < size_max)%Z ->
  (forall j, throws j = false) ->
  exists st' res,
    emplace throws heap st k v = (heap, st', res)
    /\ length (m_storage st') = length (m_storage st)
    /\ transl st' = transl st
    /\ let h := set_value v (set_dead false r0) in
       (~ rejects_entry specs st k v ->
        res = Returned (Some (addr r0), true)
        /\ m_storage st' = write h (m_storage st)
        /\ deref (m_storage st') (addr r0) = Some h
        /\ (forall j, idx st' j
                      = inserted policy specs (length specs) h j (idx st j))
        /\ m_live st' = (m_live st + 1)%Z
        /\ size policy st' = (size policy st + 1)%Z)
       /\ (rejects_entry specs st k v ->
           res = Returned (end_, false)
           /\ m_storage st' = write (set_dead true h) (m_storage st)
           /\ deref (m_storage st') (addr r0) = Some (set_dead true h)
           /\ m_second st' = m_second st
           /\ size policy st' = size policy st).
Proof.
  intros C W U T Mf D B NT.
  destruct (emplace throws heap st k v) as [[heap' st'] res] eqn:E.
  destruct (emplace_revive throws heap st k v r0 C W U T Mf D heap' st' res E)
    as [Hh [W' [Et Cases]]].
  cbv zeta in Cases. subst heap'.
  destruct (map_find_some k (m_storage st) r0 Mf) as [Ir K].
  exists st', res. split; [reflexivity|].
  assert (Len : length (m_storage st') = length (m_storage st)).
  { destruct Cases as [[_ [Es _]] | [_ [Es _]]]; rewrite Es; unfold write;
      apply length_map. }
  split; [exact Len|]. split; [exact Et|]. cbv zeta.
  assert (Sz : forall s : T_MultiIndex, size policy s = m_live s).
  { intro s. unfold size, GetLive. rewrite T. reflexivity. }
  destruct Cases as [[R [Es [Ix [Lv Cl]]]] | [Out [Es [E2 Lv]]]].
  - split.
    + intros _. split; [exact R|]. split; [exact Es|].
      split.
      { apply (deref_write heap st st' r0 _ (proj1 W) (proj1 W') Ir);
          [reflexivity|exact Es]. }
      split; [exact Ix|].
      assert (L1 : m_live st' = (m_live st + 1)%Z).
      { rewrite Lv. destruct W as [_ [_ Lo]]. rewrite (Lo T).
        pose proof (dead_live_lt (m_storage st) r0 Ir D).
        pose proof (live_length_le (m_storage st)).
        rewrite (size_wrap_small (Z.of_nat (length (live (m_storage st)))))
          by lia.
        apply size_wrap_small. lia. }
      split; [exact L1|]. rewrite !Sz. exact L1.
    + intros [j [s [N [IS [Un M]]]]]. exfalso.
      destruct (Cl j s N IS) as [_ Cu]. specialize (Cu Un).
      cbn [first m_value set_value set_dead] in Cu. rewrite K in Cu.
      rewrite Cu in M. discriminate.
  - destruct Out as [[R [j [[s [N [IS [_ [Un M]]]]] _]]]
                    | [_ [j [[s [_ [_ Th]]] _]]]].
    2:{ rewrite NT in Th. discriminate. }
    split.
    + intro NR. exfalso. apply NR. exists j, s.
      cbn [first m_value set_value set_dead] in M. rewrite K in M.
      split; [exact N|]. split; [exact IS|]. split; [exact Un|exact M].
    + intros _. split; [exact R|]. split; [exact Es|].
      split.
      { apply (deref_write heap st st' r0 _ (proj1 W) (proj1 W') Ir);
          [reflexivity|exact Es]. }
      split; [exact E2|]. rewrite !Sz. exact Lv.
Qed.

Lemma lookup_entries (heap : nat) (st : T_MultiIndex) (sp : T_Index Payload)
      (sk : Z) (L : list t_pair) :
  config_ok -> storage_ok heap st ->
  (forall r, In r L -> In r (m_storage st)) ->
  map (fun e => option_map (@key_payload Payload) (resolve policy st (snd e)))
      (filter (fun e => (fst e =? sk)%Z) (map (sec_entry sp) L))
  = map Some
        (filter (fun kp => (Project sp (fst kp) (snd kp) =? sk)%Z)
                (map (@key_payload Payload) L)).
Proof.
  intros C S. induction L as [|r L IH]; intro Sub; [reflexivity|].
  assert (IH' := IH (fun y Hy => Sub y (or_intror Hy))). clear IH.
  cbn [map]. cbn [filter].
  change (fst (sec_entry sp r)) with (Project sp (first r) (m_value r)).
  change (fst (key_payload r)) with (first r).
  change (snd (key_payload r)) with (m_value r).
  destruct (Project sp (first r) (m_value r) =? sk)%Z; [|exact IH'].
  cbn [map]. rewrite IH'.
  change (snd (sec_entry sp r)) with (GetSecondaryValue r).
  rewrite (resolve_entry heap st r C S (Sub r (or_introl eq_refl))).
  reflexivity.
Qed.

Lemma lookup_sec_content (heap : nat) (st : T_MultiIndex) (I : nat)
      (sp : T_Index Payload) (sk : Z) :
  config_ok -> wf heap st ->
  nth_error specs I = Some sp -> is_storage sp = false ->
  Permutation (lookup_sec policy st I sk)
              (map Some
                   (filter (fun kp => (Project sp (fst kp) (snd kp) =? sk)%Z)
                           (content (m_storage st)))).
Proof.
  intros C [S [[_ So] _]] N IS.
  destruct (So I sp N IS) as [P _].
  unfold lookup_sec, content.
  rewrite <- (lookup_entries heap st sp sk (live (m_storage st)) C S).
  - apply Permutation_map. apply perm_filter. exact P.
  - intros r Hr. apply live_in in Hr. apply Hr.
Qed.

Lemma rebuild_size (heap0 heap : nat) (src dst : T_MultiIndex) :
  wf heap0 src -> wf heap dst ->
  (forall r, In r (m_storage dst) -> dead r = false) ->
  map (@key_payload Payload) (m_storage dst)
  = map (@key_payload Payload) (live (m_storage src)) ->
  (Z.of_nat (length (m_storage src)) < size_max)%Z ->
  length (m_storage dst) = length (live (m_storage src))
  /\ size policy dst = Z.of_nat (length (m_storage dst))
  /\ size policy dst = size policy src.
Proof.
  intros W W' Nd Ec B.
  assert (Len : length (m_storage dst) = length (live (m_storage src))).
  { rewrite <- (length_map (@key_payload Payload) (m_storage dst)), Ec.
    apply length_map. }
  split; [exact Len|].
  pose proof (live_length_le (m_storage src)) as Le.
  unfold size, GetLive. destruct c_tombstones eqn:T.
  - destruct W as [_ [_ Lo]]. destruct W' as [_ [_ Lo']].
    rewrite (Lo T), (Lo' T). rewrite (live_all _ Nd), Len.
    split; [|reflexivity]. apply size_wrap_small. lia.
  - split; [reflexivity|]. rewrite Len. rewrite live_all; [reflexivity|].
    destruct W as [[_ [_ [_ [_ [_ A]]]]] _]. apply A. exact T.
Qed.

(** C7 -- Compact.  With tombstones or the translation array in use, on a
    well-formed container of fewer than [2^64] nodes [compact()] gives a
    well-formed container without dead records whose live content (keys
    and payloads, in primary order) is the content before the call, whose
    lookups under every secondary and sub-key find the same records, whose
    [size()] is the one before, and whose primary has exactly [size()]
    nodes. *)
Theorem compact_preserves (heap : nat) (st : T_MultiIndex) :
  config_ok -> wf heap st ->
  (c_tombstones || c_needs_transl_array) = true ->
  (Z.of_nat (length (m_storage st)) < size_max)%Z ->
  wf (fst (compact policy specs heap st)) (snd (compact policy specs heap st))
  /\ (forall r, In r (m_storage (snd (compact policy specs heap st))) ->
                dead r = false)
  /\ content (m_storage (snd (compact policy specs heap st)))
     = content (m_storage st)
  /\ (forall I sp sk, nth_error specs I = Some sp -> is_storage sp = false ->
        Permutation (lookup_sec policy (snd (compact policy specs heap st))
                                I sk)
                    (lookup_sec policy st I sk))
  /\ size policy (snd (compact policy specs heap st)) = size policy st
  /\ Z.of_nat (length (m_storage (snd (compact policy specs heap st))))
     = size policy (snd (compact policy specs heap st)).
Proof.
  intros C W _ B. unfold compact.
  destruct (rebuild_from_empty heap heap st (empty_mi specs) C W
                               (empty_wf heap) eq_refl) as [W' [Nd Ec]].
  set (F := fold_left (emplace_live policy specs) (m_storage st)
                      (heap, empty_mi specs)) in *.
  assert (Ct : content (m_storage (snd F)) = content (m_storage st)).
  { unfold content. rewrite (live_all _ Nd). exact Ec. }
  destruct (rebuild_size heap (fst F) st (snd F) W W' Nd Ec B)
    as [_ [Sz Se]].
  split; [exact W'|]. split; [exact Nd|]. split; [exact Ct|].
  split; [|split; [exact Se|symmetry; exact Sz]].
  intros I sp sk N IS.
  eapply Permutation_trans.
  - apply (lookup_sec_content (fst F) (snd F) I sp sk C W' N IS).
  - rewrite Ct. apply Permutation_sym.
    apply (lookup_sec_content heap st I sp sk C W N IS).
Qed.

Lemma filter_keep (B : Type) (f : B -> bool) (l : list B) :
  (forall x, In x l -> f x = true) -> filter f l = l.
Proof.
  induction l as [|x l IH]; intro H; [reflexivity|].
  cbn [filter]. rewrite (H x (or_introl eq_refl)). f_equal.
  apply IH. intros y Hy. apply H. right. exact Hy.
Qed.

Lemma filter_twice (B : Type) (f g : B -> bool) (l : list B) :
  filter g (filter f l) = filter (fun x => f x && g x) l.
Proof.
  induction l as [|x l IH]; [reflexivity|].
  cbn [filter]. destruct (f x); cbn [filter andb]; rewrite IH; reflexivity.
Qed.

Lemma erase_one_live (heap : nat) (st : T_MultiIndex) (t : t_pair) :
  config_ok -> wf heap st -> In t (m_storage st) -> dead t = false ->
  wf heap (erase_one policy specs st t)
  /\ live (m_storage (erase_one policy specs st t))
     = filter (fun x => negb (addr x =? addr t)%nat) (live (m_storage st))
  /\ (forall x, In x (m_storage st) -> addr x <> addr t ->
                In x (m_storage (erase_one policy specs st t))).
Proof.
  intros C W It Dt.
  assert (N : NoDup (map (@addr Payload) (m_storage st)))
    by (destruct W as [[_ [_ [N _]]] _]; exact N).
  pose proof (deref_in (m_storage st) t N It) as Dr.
  destruct (erase_spec heap st (addr t) t C W Dr Dt) as [W' [Es _]].
  split; [exact W'|].
  destruct (in_split_addr (m_storage st) t N It) as [m1 [m2 [Em F]]].
  assert (Keep : forall l, (forall x, In x l -> In x (m1 ++ m2)) ->
                           filter (fun x => negb (addr x =? addr t)%nat)
                                  (live l) = live l).
  { intros l Hl. apply filter_keep. intros x Hx. apply live_in in Hx.
    apply negb_true_iff. apply Nat.eqb_neq. apply F. apply Hl. apply Hx. }
  assert (Lv : live (m_storage st) = live m1 ++ t :: live m2).
  { rewrite Em, live_app. unfold live at 2. cbn [filter]. rewrite Dt.
    reflexivity. }
  assert (Fl : filter (fun x => negb (addr x =? addr t)%nat)
                      (live (m_storage st)) = live m1 ++ live m2).
  { rewrite Lv, filter_app. cbn [filter]. rewrite Nat.eqb_refl. cbn [negb].
    rewrite !Keep; [reflexivity| |];
      intros x Hx; apply in_app_iff; [right|left]; exact Hx. }
  unfold erase_one. rewrite Es, Fl, Em.
  destruct c_tombstones.
  - rewrite (write_split m1 m2 t (set_dead true t) F eq_refl).
    split.
    + rewrite live_app. unfold live at 2. cbn [filter]. reflexivity.
    + intros x Hx Ax. apply in_app_iff in Hx. apply in_app_iff.
      destruct Hx as [Hx|[Hx|Hx]]; [left; exact Hx| |right; right; exact Hx].
      subst x. exfalso. apply Ax. reflexivity.
  - rewrite erase_node_split
      by (intros x Hx; apply F; apply in_app_iff; left; exact Hx).
    split.
    + apply live_app.
    + intros x Hx Ax. apply in_app_iff in Hx. apply in_app_iff.
      destruct Hx as [Hx|[Hx|Hx]]; [left; exact Hx| |right; exact Hx].
      subst x. exfalso. apply Ax. reflexivity.
Qed.

Lemma erase_fold_live (heap : nat) (ts : list t_pair) :
  config_ok ->
  forall st,
    wf heap st -> NoDup (map (@addr Payload) ts) ->
    (forall t, In t ts -> In t (m_storage st) /\ dead t = false) ->
    live (m_storage (fold_left (erase_one policy specs) ts st))
    = filter (fun x => negb (existsb (fun t => (addr x =? addr t)%nat) ts))
             (live (m_storage st)).
Proof.
  intro C. induction ts as [|t ts IH]; intros st W N H.
  - cbn [fold_left existsb negb]. symmetry. apply filter_keep. reflexivity.
  - cbn [fold_left].
    destruct (H t (or_introl eq_refl)) as [It Dt].
    destruct (erase_one_live heap st t C W It Dt) as [W1 [L1 In1]].
    simpl in N. inversion N as [|? ? Nt N']; subst.
    rewrite IH; [| exact W1 | exact N' |].
    + rewrite L1, filter_twice. apply filter_ext. intro x.
      cbn [existsb]. rewrite negb_orb. reflexivity.
    + intros t' Ht'. destruct (H t' (or_intror Ht')) as [I' D'].
      split; [|exact D']. apply In1; [exact I'|].
      intro A. apply Nt. rewrite <- A. apply in_map. exact Ht'.
Qed.

Lemma erase_key_content (heap : nat) (st : T_MultiIndex) (k : Z) :
  config_ok -> wf heap st ->
  live (m_storage (fold_left (erase_one policy specs)
                             (live (with_key k (m_storage st))) st))
  = filter (fun x => negb (first x =? k)%Z) (live (m_storage st)).
Proof.
  intros C W.
  assert (N : NoDup (map (@addr Payload) (m_storage st)))
    by (destruct W as [[_ [_ [N _]]] _]; exact N).
  assert (Tg : forall t, In t (live (with_key k (m_storage st))) <->
                         In t (m_storage st) /\ first t = k
                         /\ dead t = false).
  { intro t. rewrite live_in. unfold with_key. rewrite filter_In.
    rewrite Z.eqb_eq. tauto. }
  rewrite (erase_fold_live heap _ C st W).
  - apply filter_ext_in. intros x Hx. apply live_in in Hx.
    destruct Hx as [Ix Dx]. f_equal.
    destruct (first x =? k)%Z eqn:K.
    + apply existsb_exists. exists x. split; [|apply Nat.eqb_refl].
      apply Tg. apply Z.eqb_eq in K. tauto.
    + destruct (existsb _ _) eqn:Ex; [|reflexivity].
      apply existsb_exists in Ex. destruct Ex as [t [Ht A]].
      apply Nat.eqb_eq in A. apply Tg in Ht. destruct Ht as [It [Kt _]].
      assert (x = t)
        by (apply (NoDup_map_inj _ _ (@addr Payload) (m_storage st) x t N);
            assumption).
      subst t. apply Z.eqb_neq in K. contradiction.
  - unfold live, with_key.
    apply NoDup_map_filter. apply NoDup_map_filter. exact N.
  - intros t Ht. apply Tg in Ht. tauto.
Qed.

Lemma map_filter_key (k : Z) (L : list t_pair) :
  map (@key_payload Payload) (filter (fun x => negb (first x =? k)%Z) L)
  = filter (fun kp => negb (fst kp =? k)%Z) (map (@key_payload Payload) L).
Proof.
  induction L as [|x L IH]; [reflexivity|].
  cbn [map filter]. change (fst (key_payload x)) with (first x).
  destruct (first x =? k)%Z; cbn [negb map]; rewrite IH; reflexivity.
Qed.

Lemma live_with_key (k : Z) (m : list t_pair) :
  live (with_key k m) = filter (fun x => (first x =? k)%Z) (live m).
Proof.
  unfold live, with_key. rewrite !filter_twice. apply filter_ext.
  intro x. apply andb_comm.
Qed.

(** C9 -- Erase by primary key.  On a well-formed container of fewer than
    [2^64] nodes, [erase(k)] returns; the state it leaves is the one got
    by calling [erase(it)] on each live record with key [k], in primary
    order; the value it returns is the number of these records; afterwards
    the live content is the old one without the records with key [k], and
    [size()] has dropped by the value returned.  When no live record has
    key [k] it returns 0 and the container is the one before the call. *)
Theorem erase_by_key (heap : nat) (st : T_MultiIndex) (k : Z) :
  config_ok -> wf heap st ->
  (Z.of_nat (length (m_storage st)) < size_max)%Z ->
  exists st',
    st' = fold_left (erase_one policy specs)
                    (live (with_key k (m_storage st))) st
    /\ erase_key st k
       = Some (st', Z.of_nat (length (live (with_key k (m_storage st)))))
    /\ wf heap st'
    /\ content (m_storage st')
       = filter (fun kp => negb (fst kp =? k)%Z) (content (m_storage st))
    /\ size policy st'
       = (size policy st
          - Z.of_nat (length (live (with_key k (m_storage st)))))%Z
    /\ ((forall r, In r (m_storage st) -> first r = k -> dead r = true) ->
        erase_key st k = Some (st, 0%Z)).
Proof.
  intros C W B.
  destruct (erase_key_spec heap st k C W) as [E W'].
  pose proof (erase_key_content heap st k C W) as Lv.
  set (ts := live (with_key k (m_storage st))) in *.
  set (st' := fold_left (erase_one policy specs) ts st) in *.
  pose proof (live_length_le (with_key k (m_storage st))) as L1.
  pose proof (with_key_length_le k (m_storage st)) as L2.
  fold ts in L1.
  assert (Sw : size_wrap (Z.of_nat (length ts)) = Z.of_nat (length ts))
    by (apply size_wrap_small; lia).
  exists st'. split; [reflexivity|].
  split; [rewrite E, Sw; reflexivity|]. split; [exact W'|].
  split; [unfold content; rewrite Lv; apply map_filter_key|].
  assert (Cnt : (length (live (m_storage st'))
                 + length ts = length (live (m_storage st)))%nat).
  { rewrite Lv. unfold ts. rewrite live_with_key.
    rewrite Nat.add_comm. apply filter_length. }
  pose proof (live_length_le (m_storage st)) as L3.
  split.
  - unfold size, GetLive. destruct c_tombstones eqn:T.
    + destruct W as [_ [_ Lo]]. destruct W' as [_ [_ Lo']].
      rewrite (Lo T), (Lo' T). rewrite !size_wrap_small by lia. lia.
    + assert (A : forall h (s : T_MultiIndex), wf h s ->
                                               live (m_storage s) = m_storage s).
      { intros h s [[_ [_ [_ [_ [_ A]]]]] _]. apply live_all. apply A.
        exact T. }
      rewrite (A heap st' W'), (A heap st W) in Cnt. lia.
  - intro D. assert (Em : ts = []).
    { unfold ts, live, with_key. rewrite filter_twice. apply filter_none.
      intros x Hx. destruct (first x =? k)%Z eqn:K; [|reflexivity].
      apply Z.eqb_eq in K. rewrite (D x Hx K). reflexivity. }
    rewrite E. fold ts. unfold st'. rewrite Em. reflexivity.
Qed.

Lemma rejecting_collides (throws : nat -> bool) (st st2 : T_MultiIndex)
      (m1 m2 : list t_pair) (r h2 : t_pair) (j : nat) :
  m_storage st = m1 ++ r :: m2 ->
  (forall x, In x (m1 ++ m2) -> addr x <> addr r) ->
  secondaries_ok st2 (live m1 ++ live m2) ->
  first h2 = first r ->
  rejecting specs throws st2 h2 j ->
  collides specs st r (m_value h2).
Proof.
  intros Es F [_ So] Fh [s [N [IS [_ [U M]]]]].
  apply map_contains_true in M. destruct M as [e [Ie Ke]].
  destruct (So j s N IS) as [P _].
  apply (Permutation_in _ P) in Ie. apply in_map_iff in Ie.
  destruct Ie as [r' [Er' Ir']]. subst e.
  exists j, s, r'. split; [exact N|]. split; [exact IS|]. split; [exact U|].
  assert (Ir : In r' (m1 ++ m2) /\ dead r' = false).
  { apply in_app_iff in Ir'. destruct Ir' as [I|I]; apply live_in in I;
      destruct I as [I D]; (split; [apply in_app_iff|exact D]);
      [left|right]; exact I. }
  destruct Ir as [Ir Dr'].
  split.
  { rewrite Es. apply in_app_iff. apply in_app_iff in Ir.
    destruct Ir as [I|I]; [left; exact I|right; right; exact I]. }
  split; [exact Dr'|]. split; [apply F; exact Ir|].
  cbn [sec_entry fst] in Ke. rewrite Ke, Fh. reflexivity.
Qed.

(** An accepted update of a live record: every secondary is the old one
    with the entry of the record dropped and the entry of the rebuilt
    record inserted. *)
Lemma UpdateCore_accepted_live (throws : nat -> bool) (heap : nat)
      (st : T_MultiIndex) (a : nat) (r : t_pair) (mut : Payload -> Payload)
      (st' : T_MultiIndex) :
  config_ok -> wf heap st ->
  deref (m_storage st) a = Some r -> dead r = false ->
  UpdateCore throws st (Some a) mut = (st', Returned true) ->
  forall j s, nth_error specs j = Some s -> is_storage s = false ->
    idx st' j
    = map_insert skey (sec_entry s (set_value (mut (m_value r)) r))
                 (drop_entry st s r (idx st j)).
Proof.
  intros C W Dr D E j s Hs St.
  assert (S := proj1 W).
  destruct (UpdateCore_prep throws heap st a r mut C W Dr)
    as [m1 [m2 [st2 [Es [Oth [NoT [B1 [B2 [B3 [B4 [B5 U]]]]]]]]]]].
  rewrite E in U. cbv zeta in U.
  assert (Ed : set_dead false r = r)
    by (rewrite <- D; apply set_dead_same).
  rewrite Ed in U, B1.
  set (h2 := set_value (mut (m_value r)) r) in *.
  set (st3 := set_storage (write h2 (m_storage st2)) st2) in *.
  assert (W3 : m_storage st3 = m1 ++ h2 :: m2).
  { unfold st3. simpl. rewrite B1. apply write_split; auto. }
  assert (S3 : storage_ok heap st3).
  { eapply (storage_ok_replace heap st st3 m1 m2 r h2); eauto. }
  assert (Sec3 : secondaries_ok st3 (live m1 ++ live m2)).
  { eapply secondaries_ok_frame; [|exact B4]. reflexivity. }
  assert (Hh : In h2 (m_storage st3)).
  { rewrite W3. apply in_app_iff. right; left; reflexivity. }
  assert (HL : forall x, In x (live m1 ++ live m2) ->
                         In x (m_storage st3) /\ x <> h2).
  { intros x Hx.
    assert (Hx' : In x (m1 ++ m2)).
    { apply in_app_iff in Hx. apply in_app_iff.
      destruct Hx as [Hx|Hx]; apply live_in in Hx; tauto. }
    split.
    - rewrite W3. apply in_app_iff in Hx'. apply in_app_iff.
      destruct Hx'; [left|right; right]; auto.
    - intro X. subst x. apply (Oth h2 Hx'). reflexivity. }
  destruct (AddSecs throws st3 h2) as [st4 o] eqn:EA.
  pose proof (AddSecs_wf throws _ st3 _ h2 C S3 Hh Sec3 HL st4 o EA) as G.
  destruct o as [[|]|]; [| |discriminate U].
  - destruct G as [_ [_ [Ix _]]].
    assert (X : st' = st4).
    { rewrite D in U. destruct c_tombstones; cbn [andb] in U;
        injection U as ->; reflexivity. }
    subst st'. rewrite Ix. rewrite (inserted_all h2 _ _ _ Hs St).
    change (idx st3 j) with (idx st2 j).
    rewrite (proj1 (B5 D j s Hs St)). reflexivity.
  - exfalso.
    destruct (restore_old policy specs throws st4 h2 (m_value r)
                          (if c_tombstones then dead r else false))
      as [st5 [b5|]]; discriminate U.
Qed.

Lemma set_value_same (r : t_pair) : set_value (m_value r) r = r.
Proof. destruct r; reflexivity. Qed.

(** Writing its own payload over a live record: [UpdateCore] returns
    [true] and has taken the entries of the record out and inserted them
    again. *)
Lemma UpdateCore_same (throws : nat -> bool) (heap : nat)
      (st : T_MultiIndex) (a : nat) (r : t_pair) :
  config_ok -> wf heap st ->
  deref (m_storage st) a = Some r -> dead r = false ->
  (forall j, throws j = false) ->
  exists st',
    UpdateCore throws st (Some a) (fun _ => m_value r) = (st', Returned true)
    /\ wf heap st'
    /\ restored policy specs r st st'.
Proof.
  intros C W Dr D NT.
  destruct (deref_some _ _ _ Dr) as [Ir Ar].
  destruct (UpdateCore_spec throws heap st a r (fun _ => m_value r) C W Dr)
    as [m1 [m2 [st2 [Es [F [So2 G]]]]]].
  destruct (UpdateCore throws st (Some a) (fun _ => m_value r))
    as [st' res] eqn:E.
  specialize (G st' res eq_refl). cbv zeta in G.
  assert (Ed : set_dead false r = r)
    by (rewrite <- D; apply set_dead_same).
  rewrite Ed, set_value_same in G.
  destruct res as [[|]|].
  - destruct G as [W' [Et [Es' [Lv _]]]].
    exists st'. split; [reflexivity|]. split; [exact W'|].
    assert (Est : m_storage st' = m_storage st)
      by (rewrite Es', Es; reflexivity).
    split; [exact Est|]. split.
    { rewrite Lv, D, andb_false_r. reflexivity. }
    split; [exact Et|]. split; [rewrite D; discriminate|].
    intros j s N IS.
    destruct (restored_wf heap st st' j s W W' Est N IS) as [P [Sd Un]].
    split; [exact P|]. split; [exact Sd|]. split; [exact Un|].
    intros _.
    destruct (drop_entry_split heap st r j s C W Ir D N IS)
      as [pre [post [H1 H2]]].
    exists pre, post. split; [exact H1|]. rewrite <- H2.
    rewrite (UpdateCore_accepted_live throws heap st a r
               (fun _ => m_value r) st' C W Dr D E j s N IS).
    rewrite set_value_same. reflexivity.
  - exfalso. destruct G as [_ [_ [_ [_ [_ [j Rj]]]]]].
    apply (collides_live heap st r W Ir D).
    apply (rejecting_collides throws st st2 m1 m2 r r j Es F So2 eq_refl Rj).
  - exfalso. destruct G as [j [s [_ [_ T]]]]. rewrite NT in T. discriminate.
Qed.

(** C8 -- Replace no-op.  When the payload type has [operator==], [it]
    points to a record that is live, and [operator==] holds between its
    payload and [v]: for an argument of the payload's own type
    [replace(it, v)] returns [true] and the container afterwards is the
    container before the call: primary map, every secondary, translation
    array and live counter.  For an argument of another type the test is
    not compiled in: on a well-formed container, with a sound
    [operator==] and no throwing insert, [replace(it, v)] returns [true]
    as well, the primary map, the live counter, the translation array and
    every unique secondary are the ones before the call, and every
    secondary is the old one with the entry of the record taken out and
    inserted again at the upper bound of its sub-key. *)
Theorem replace_noop (throws : nat -> bool) (heap : nat)
        (st : T_MultiIndex) (a : nat) (r : t_pair) (v : Payload)
        (eqb : Payload -> Payload -> bool) :
  operator_eq = Some eqb ->
  deref (m_storage st) a = Some r ->
  (c_tombstones = true -> dead r = false) ->
  eqb (m_value r) v = true ->
  replace operator_eq policy specs true throws st (Some a) v
  = (st, Returned true)
  /\ (config_ok -> wf heap st -> sound_eq operator_eq ->
      (forall j, throws j = false) ->
      exists st',
        replace operator_eq policy specs false throws st (Some a) v
        = (st', Returned true)
        /\ wf heap st'
        /\ restored policy specs r st st').
Proof.
  intros Oe Dr Lv Eq. split.
  - unfold replace, Replace. cbn [iter_eqb end_ ToHandle_iter].
    rewrite Dr, Oe, Eq.
    destruct c_tombstones; [rewrite (Lv eq_refl)|]; reflexivity.
  - intros C W Se NT.
    assert (V : m_value r = v) by (apply (Se eqb); assumption).
    assert (D : dead r = false).
    { destruct c_tombstones eqn:T; [apply Lv; reflexivity|].
      destruct (deref_some _ _ _ Dr) as [Ir _].
      destruct W as [[_ [_ [_ [_ [_ X]]]]] _]. apply (X T r Ir). }
    destruct (UpdateCore_same throws heap st a r C W Dr D NT)
      as [st' [E [W' Rs]]].
    exists st'. split; [|split; assumption].
    unfold replace, Replace. cbn [iter_eqb end_ ToHandle_iter].
    rewrite Dr, Oe, <- V. exact E.
Qed.

(** C10 -- Copy skips tombstones.  Under a policy with [invalidates = true],
    copy construction from [rhs] and copy assignment of [rhs] to any
    container emplace the live records of [rhs] only: the result is
    well-formed, holds no dead record, its primary has exactly
    [rhs.size()] nodes, which is also its own [size()], and its content is
    the live content of [rhs] -- whatever tombstones [rhs] holds. *)
Theorem copy_skips_tombstones (heap : nat) (this rhs : T_MultiIndex) :
  config_ok -> c_invalidates policy = true ->
  wf heap rhs -> wf heap this ->
  (Z.of_nat (length (m_storage rhs)) < size_max)%Z ->
  (wf (fst (copy_construct policy specs heap rhs))
      (snd (copy_construct policy specs heap rhs))
   /\ (forall r, In r (m_storage (snd (copy_construct policy specs heap rhs)))
                 -> dead r = false)
   /\ Z.of_nat (length (m_storage (snd (copy_construct policy specs heap rhs))))
      = size policy rhs
   /\ size policy (snd (copy_construct policy specs heap rhs))
      = size policy rhs
   /\ content (m_storage (snd (copy_construct policy specs heap rhs)))
      = content (m_storage rhs))
  /\ (wf (fst (CopyAssignCore policy specs heap this rhs))
         (snd (CopyAssignCore policy specs heap this rhs))
      /\ (forall r,
            In r (m_storage (snd (CopyAssignCore policy specs heap this rhs)))
            -> dead r = false)
      /\ Z.of_nat
           (length (m_storage (snd (CopyAssignCore policy specs heap this rhs))))
         = size policy rhs
      /\ size policy (snd (CopyAssignCore policy specs heap this rhs))
         = size policy rhs
      /\ content (m_storage (snd (CopyAssignCore policy specs heap this rhs)))
         = content (m_storage rhs)).
Proof.
  intros C Inv W Wt B.
  assert (Main : forall tmp, wf heap tmp -> m_storage tmp = [] ->
            let F := fold_left (emplace_live policy specs) (m_storage rhs)
                               (heap, tmp) in
            wf (fst F) (snd F)
            /\ (forall r, In r (m_storage (snd F)) -> dead r = false)
            /\ Z.of_nat (length (m_storage (snd F))) = size policy rhs
            /\ size policy (snd F) = size policy rhs
            /\ content (m_storage (snd F)) = content (m_storage rhs)).
  { intros tmp Wtmp Etmp F.
    destruct (rebuild_from_empty heap heap rhs tmp C W Wtmp Etmp)
      as [W' [Nd Ec]]. fold F in W', Nd, Ec.
    destruct (rebuild_size heap (fst F) rhs (snd F) W W' Nd Ec B)
      as [_ [Sz Se]].
    split; [exact W'|]. split; [exact Nd|].
    split; [rewrite <- Sz; exact Se|]. split; [exact Se|].
    unfold content. rewrite (live_all _ Nd). exact Ec. }
  split.
  - unfold copy_construct. apply (Main (empty_mi specs) (empty_wf heap)).
    reflexivity.
  - unfold CopyAssignCore. rewrite Inv.
    assert (Ln : length (m_second this) = length specs)
      by (destruct Wt as [_ [[Ln _] _]]; exact Ln).
    destruct (clear_wf heap this Ln) as [Wc Ec].
    apply (Main (clear policy specs this) Wc Ec).
Qed.

(** * Building reachable states *)

Lemma reachable_emplace (s : nat * T_MultiIndex) (throws : nat -> bool)
      (k : Z) (v : Payload) :
  reachable operator_eq policy specs s ->
  reachable operator_eq policy specs
            (fst (emplace throws (fst s) (snd s) k v)).
Proof.
  intro R. destruct s as [heap st]. cbn [fst snd].
  destruct (emplace throws heap st k v) as [[heap' st'] res] eqn:E.
  cbn [fst]. eapply reach_step; [exact R|].
  eapply step_emplace. exact E.
Qed.

Lemma reachable_erase_key (s : nat * T_MultiIndex) (k : Z) :
  reachable operator_eq policy specs s ->
  reachable operator_eq policy specs
            (match erase_key (snd s) k with
             | Some (st', _) => (fst s, st')
             | None => s
             end).
Proof.
  intro R. destruct s as [heap st]. cbn [fst snd].
  destruct (erase_key st k) as [[st' n]|] eqn:E; [|exact R].
  eapply reach_step; [exact R|].
  eapply step_erase_key. exact E.
Qed.

(** * Further properties of the container *)

Lemma rejecting_rejects (throws : nat -> bool) (st : T_MultiIndex)
      (h : t_pair) (j : nat) :
  rejecting specs throws st h j ->
  rejects_entry specs st (first h) (m_value h).
Proof.
  intros [s [N [IS [_ [U M]]]]]. exists j, s.
  split; [exact N|]. split; [exact IS|]. split; [exact U|exact M].
Qed.

Lemma size_live (heap : nat) (st : T_MultiIndex) :
  wf heap st ->
  (Z.of_nat (length (m_storage st)) < size_max)%Z ->
  size policy st = Z.of_nat (length (live (m_storage st))).
Proof.
  intros W B. unfold size, GetLive. destruct c_tombstones eqn:T.
  - destruct W as [_ [_ Lo]]. rewrite (Lo T). apply size_wrap_small.
    pose proof (live_length_le (m_storage st)). lia.
  - rewrite live_all; [reflexivity|].
    destruct W as [[_ [_ [_ [_ [_ A]]]]] _]. apply A. exact T.
Qed.

(** X1 -- Emplace of a new record.  On a well-formed container, when the
    primary takes the key (it is new, or the primary is a multimap), no
    unique secondary holds a sub-key of the record and no insert throws,
    [emplace(k, v)] allocates one node, returns the iterator to it with
    [true], leaves a well-formed container whose primary is the old one
    with the live record [(k, v)] inserted in key order, whose content is
    the old content plus [(k, v)], and whose [size()] has grown by one. *)
Theorem emplace_accepts (throws : nat -> bool) (heap : nat)
        (st : T_MultiIndex) (k : Z) (v : Payload) :
  config_ok -> wf heap st ->
  (c_primary_is_unique = true ->
   ~ In k (map (@first Payload) (m_storage st))) ->
  ~ rejects_entry specs st k v ->
  (forall j, throws j = false) ->
  (Z.of_nat (length (m_storage st)) + 1 < size_max)%Z ->
  exists st' h,
    emplace throws heap st k v = (S heap, st', Returned (Some heap, true))
    /\ wf (S heap) st'
    /\ addr h = heap /\ first h = k /\ m_value h = v /\ dead h = false
    /\ m_storage st' = map_insert (@first Payload) h (m_storage st)
    /\ deref (m_storage st') heap = Some h
    /\ Permutation (content (m_storage st')) ((k, v) :: content (m_storage st))
    /\ size policy st' = (size policy st + 1)%Z.
Proof.
  intros C W New NR NT B.
  destruct (emplace throws heap st k v) as [[heap' st'] res] eqn:E.
  destruct (emplace_new throws heap st k v C W New heap' st' res E)
    as [Hh Cases].
  cbv zeta in Cases. subst heap'.
  set (h := mk_pair heap k v false
                    (if c_needs_transl_array then length (transl st)
                     else 0%nat)) in *.
  destruct Cases as [[R [W' [Es [_ _]]]] | [[_ [_ [j [Rj _]]]]
                                           | [_ [_ [j [[s [_ [_ T]]] _]]]]]].
  - exists st', h. rewrite R.
    split; [reflexivity|]. split; [exact W'|].
    split; [reflexivity|]. split; [reflexivity|].
    split; [reflexivity|]. split; [reflexivity|].
    split; [exact Es|].
    assert (Ih : In h (m_storage st')).
    { rewrite Es. apply map_insert_in. left. reflexivity. }
    assert (Lp : Permutation (live (m_storage st'))
                             (h :: live (m_storage st))).
    { rewrite Es. apply live_insert_perm. reflexivity. }
    split.
    { destruct W' as [[_ [_ [N' _]]] _].
      apply (deref_in (m_storage st') h N' Ih). }
    split.
    { unfold content.
      change ((k, v) :: map (@key_payload Payload) (live (m_storage st)))
        with (map (@key_payload Payload) (h :: live (m_storage st))).
      apply Permutation_map. exact Lp. }
    assert (Ln : length (m_storage st') = S (length (m_storage st))).
    { rewrite Es.
      apply (Permutation_length
               (map_insert_perm _ (@first Payload) h (m_storage st))). }
    rewrite (size_live (S heap) st' W') by lia.
    rewrite (size_live heap st W) by lia.
    rewrite (Permutation_length Lp). cbn [length]. lia.
  - exfalso. apply NR. apply (rejecting_rejects throws st h j Rj).
  - rewrite NT in T. discriminate.
Qed.

Lemma iter_incr_split (st : T_MultiIndex) (m1 m2 : list t_pair)
      (r : t_pair) :
  NoDup (map (@addr Payload) (m_storage st)) ->
  m_storage st = m1 ++ r :: m2 ->
  iter_incr policy st (Some (addr r))
  = if c_tombstones then iter_of (drop_while (@dead Payload) m2)
    else iter_of m2.
Proof.
  intros N E.
  assert (F : forall x, In x m1 -> addr x <> addr r).
  { intros x Hx A. rewrite E, map_app in N. simpl in N.
    apply NoDup_remove_2 in N. apply N. apply in_app_iff. left.
    rewrite <- A. apply in_map. exact Hx. }
  unfold iter_incr, iter_next. rewrite E, (seek_split m1 m2 r F).
  cbn [tl]. destruct c_tombstones; [|reflexivity].
  unfold SkipDead.
  replace (m1 ++ r :: m2) with ((m1 ++ [r]) ++ m2) by list_eq.
  rewrite seek_iter_of.
  - apply SkipDead_from_end.
  - replace ((m1 ++ [r]) ++ m2) with (m1 ++ r :: m2) by list_eq.
    rewrite <- E. exact N.
Qed.

(** X2 -- Erase through an iterator.  On a well-formed container of fewer
    than [2^64] nodes, [erase(it)] at a live record leaves a well-formed
    container, returns the iterator [++it] would have given before the
    call, removes exactly that record from the live records and from what
    the walk from [begin()] visits, and lowers [size()] by one;
    [erase(end())] returns [end()] and changes nothing. *)
Theorem erase_iterator (heap : nat) (st : T_MultiIndex) (a : nat)
        (r : t_pair) :
  config_ok -> wf heap st ->
  deref (m_storage st) a = Some r -> dead r = false ->
  (Z.of_nat (length (m_storage st)) < size_max)%Z ->
  wf heap (fst (erase st (Some a)))
  /\ snd (erase st (Some a)) = iter_incr policy st (Some a)
  /\ live (m_storage (fst (erase st (Some a))))
     = filter (fun x => negb (addr x =? a)%nat) (live (m_storage st))
  /\ visible policy (fst (erase st (Some a)))
     = filter (fun x => negb (x =? a)%nat) (visible policy st)
  /\ size policy (fst (erase st (Some a))) = (size policy st - 1)%Z
  /\ erase st end_ = (st, end_).
Proof.
  intros C W Dr Dd B.
  destruct (deref_some _ _ _ Dr) as [Ir Ar]. subst a.
  assert (N : NoDup (map (@addr Payload) (m_storage st)))
    by (destruct W as [[_ [_ [N _]]] _]; exact N).
  destruct (in_split_addr (m_storage st) r N Ir) as [m1 [m2 [Em F]]].
  destruct (erase_step heap st m1 [] [] m2 r C W Em Dd)
    as [W' [_ [Es It]]].
  destruct (erase_one_live heap st r C W Ir Dd) as [_ [Lv _]].
  unfold erase_one in W', Es, Lv.
  split; [exact W'|].
  split.
  { rewrite It, (iter_incr_split st m1 m2 r N Em). reflexivity. }
  split; [exact Lv|].
  split.
  { rewrite (visible_live heap _ W'), (visible_live heap st W), Lv.
    clear. induction (live (m_storage st)) as [|x l IH]; [reflexivity|].
    cbn [filter map]. destruct (addr x =? addr r)%nat; cbn [negb map];
      rewrite IH; reflexivity. }
  split; [|reflexivity].
  assert (Ln : (length (m_storage (fst (erase st (Some (addr r)))))
                <= length (m_storage st))%nat).
  { rewrite Es, Em. destruct c_tombstones; rewrite !length_app;
      cbn [length app]; rewrite ?length_app; cbn [length]; lia. }
  rewrite (size_live heap _ W') by lia.
  rewrite (size_live heap st W) by lia.
  rewrite Lv.
  assert (Lr : live (m_storage st) = live m1 ++ r :: live m2).
  { rewrite Em, live_app. unfold live at 2. cbn [filter]. rewrite Dd.
    reflexivity. }
  pose proof (filter_length (fun x => negb (addr x =? addr r)%nat)
                            (live (m_storage st))) as FL.
  assert (One : length (filter (fun x => negb (negb (addr x =? addr r)%nat))
                               (live (m_storage st))) = 1%nat).
  { rewrite Lr, filter_app. cbn [filter]. rewrite Nat.eqb_refl. cbn [negb].
    rewrite !filter_none; [reflexivity| |];
      intros x Hx; apply live_in in Hx; destruct Hx as [Hx _];
      rewrite negb_involutive; apply Nat.eqb_neq; apply F;
      apply in_app_iff; [right|left]; exact Hx. }
  lia.
Qed.

Lemma clear_transl (st : T_MultiIndex) :
  length (m_second st) = length specs ->
  transl (clear policy specs st)
  = (if c_needs_transl_array then [] else transl st)
  /\ m_live (clear policy specs st)
     = (if c_tombstones then 0%Z else m_live st).
Proof.
  intro L. unfold clear, SetLive, PolicyClear.
  destruct (ClearSecondaries_spec (set_storage [] st) L) as [[_ [Ft [Fl _]]] _].
  destruct c_tombstones, c_needs_transl_array; cbn; auto.
Qed.

(** X3 -- Clear.  [clear()] on a well-formed container leaves a
    well-formed container with an empty primary and [size() = 0]:
    [begin()] is [end()], [find] and [contains] fail for every key, every
    secondary map is empty and so is the translation array when the policy
    has one. *)
Theorem clear_empties (heap : nat) (st : T_MultiIndex) :
  wf heap st ->
  wf heap (clear policy specs st)
  /\ m_storage (clear policy specs st) = []
  /\ size policy (clear policy specs st) = 0%Z
  /\ begin_ policy (clear policy specs st) = end_
  /\ (forall k, find_ policy specs (clear policy specs st) k = end_
                /\ contains policy specs (clear policy specs st) k = false)
  /\ (forall I sp, nth_error specs I = Some sp -> is_storage sp = false ->
                   idx (clear policy specs st) I = [])
  /\ (c_needs_transl_array = true -> transl (clear policy specs st) = []).
Proof.
  intros W.
  assert (Ln : length (m_second st) = length specs)
    by (destruct W as [_ [[Ln _] _]]; exact Ln).
  destruct (clear_wf heap st Ln) as [Wc Ec].
  destruct (clear_transl st Ln) as [Et El].
  split; [exact Wc|]. split; [exact Ec|].
  split.
  { unfold size, GetLive. rewrite Ec, El. destruct c_tombstones; reflexivity. }
  split.
  { unfold begin_, ToIterator, SkipDead. rewrite Ec.
    destruct c_tombstones; reflexivity. }
  assert (Fk : forall k, find_ policy specs (clear policy specs st) k = end_).
  { intro k. unfold find_, storage_equal_range, lower_bound, upper_bound.
    rewrite Ec. cbn. destruct c_tombstones; reflexivity. }
  split.
  { intro k. split; [apply Fk|]. unfold contains. rewrite Fk. reflexivity. }
  split.
  { intros I sp N IS. destruct Wc as [_ [[_ So] _]].
    destruct (So I sp N IS) as [P _]. rewrite Ec in P. cbn in P.
    apply Permutation_sym, Permutation_nil in P. exact P. }
  intro T. rewrite Et, T. reflexivity.
Qed.

Lemma deref_other (m1 m2 : list t_pair) (r r' : t_pair) (a : nat) :
  addr r' = addr r -> a <> addr r ->
  deref (m1 ++ r' :: m2) a = deref (m1 ++ r :: m2) a.
Proof.
  intros A Na. unfold deref. induction m1 as [|x m1 IH].
  - cbn [app find]. rewrite A.
    destruct (addr r =? a)%nat eqn:Q; [|reflexivity].
    apply Nat.eqb_eq in Q. exfalso. apply Na. symmetry. exact Q.
  - cbn [app find]. destruct (addr x =? a)%nat; [reflexivity|exact IH].
Qed.

Lemma UpdateCore_accepted (throws : nat -> bool) (heap : nat)
        (st : T_MultiIndex) (a : nat) (r : t_pair)
        (fn : Payload -> Payload) :
  config_ok -> wf heap st ->
  deref (m_storage st) a = Some r ->
  (forall j, throws j = false) ->
  ~ collides specs st r (fn (m_value r)) ->
  (Z.of_nat (length (m_storage st)) < size_max)%Z ->
  exists st',
    UpdateCore throws st (Some a) fn = (st', Returned true)
    /\ wf heap st'
    /\ deref (m_storage st') a
       = Some (set_value (fn (m_value r)) (set_dead false r))
    /\ (forall a', a' <> a ->
                   deref (m_storage st') a' = deref (m_storage st) a')
    /\ size policy st'
       = (if dead r then size policy st + 1 else size policy st)%Z.
Proof.
  intros C W Dr NT NC B.
  destruct (deref_some _ _ _ Dr) as [Ir Ar].
  destruct (UpdateCore_spec throws heap st a r fn C W Dr)
    as [m1 [m2 [st2 [Es [F [So2 G]]]]]].
  destruct (UpdateCore throws st (Some a) fn) as [st' res] eqn:E.
  specialize (G st' res eq_refl). cbv zeta in G.
  set (h2 := set_value (fn (m_value r)) (set_dead false r)) in *.
  destruct res as [[|]|].
  - destruct G as [W' [_ [Es' [Lv _]]]].
    exists st'. split; [reflexivity|]. split; [exact W'|].
    assert (N' : NoDup (map (@addr Payload) (m_storage st')))
      by (destruct W' as [[_ [_ [N' _]]] _]; exact N').
    split.
    { rewrite <- Ar. change (addr r) with (addr h2).
      apply (deref_in _ _ N'). rewrite Es'. apply in_app_iff.
      right. left. reflexivity. }
    split.
    { intros a' Na. rewrite Es', Es. apply deref_other; [reflexivity|].
      rewrite Ar. exact Na. }
    assert (Ln : length (m_storage st') = length (m_storage st)).
    { rewrite Es', Es, !length_app. reflexivity. }
    rewrite (size_live heap st' W') by lia.
    rewrite (size_live heap st W) by lia.
    assert (L1 : length (live (m_storage st'))
                 = S (length (live m1) + length (live m2))).
    { rewrite Es', live_app, length_app. unfold live at 2, h2.
      cbn [filter dead set_value set_dead negb length]. fold (live m2).
      lia. }
    assert (L2 : length (live (m_storage st))
                 = ((if dead r then 0 else 1)
                    + (length (live m1) + length (live m2)))%nat).
    { rewrite Es, live_app, length_app. unfold live at 2. cbn [filter].
      fold (live m2). destruct (dead r); cbn [negb length]; lia. }
    rewrite L1, L2. destruct (dead r); lia.
  - exfalso. destruct G as [_ [_ [_ [_ [_ [j Rj]]]]]].
    apply NC.
    apply (rejecting_collides throws st st2 m1 m2 r h2 j Es F So2 eq_refl Rj).
  - exfalso. destruct G as [j [s [_ [_ T]]]]. rewrite NT in T. discriminate.
Qed.

(** X4 -- Modify accepted.  On a well-formed container of fewer than
    [2^64] nodes, when no insert throws and under no unique secondary a
    live record other than the target has the sub-key of the rebuilt
    record, [modify(it, fn)] returns [true]; afterwards the container is
    well-formed, the node of the target holds [fn] of its old payload and
    is live, every other node reads as before, and [size()] is the one
    before, or one more when the target was a tombstone. *)
Theorem modify_accepts (throws : nat -> bool) (heap : nat)
        (st : T_MultiIndex) (a : nat) (r : t_pair)
        (fn : Payload -> Payload) :
  config_ok -> wf heap st ->
  deref (m_storage st) a = Some r ->
  (forall j, throws j = false) ->
  ~ collides specs st r (fn (m_value r)) ->
  (Z.of_nat (length (m_storage st)) < size_max)%Z ->
  exists st',
    modify policy specs throws st (Some a) fn = (st', Returned true)
    /\ wf heap st'
    /\ deref (m_storage st') a
       = Some (set_value (fn (m_value r)) (set_dead false r))
    /\ (forall a', a' <> a ->
                   deref (m_storage st') a' = deref (m_storage st) a')
    /\ size policy st'
       = (if dead r then size policy st + 1 else size policy st)%Z.
Proof.
  intros C W Dr NT NC B.
  destruct (UpdateCore_accepted throws heap st a r fn C W Dr NT NC B)
    as [st' [E G]].
  exists st'. split; [|exact G].
  unfold modify. cbn [iter_eqb end_ ToHandle_iter]. exact E.
Qed.

(** X5 -- Stored reference round trip.  In every reachable state and for
    each of the four policies, what [GetSecondaryValue] stores for a node
    of the primary (its handle, its ordinal in the translation array, or
    its key) is turned back by [ToHandle] into the handle of that same
    node, and [MatchSecondary] accepts it for that node and for no other
    node. *)
Theorem stored_reference_round_trip (s : nat * T_MultiIndex) :
  config_ok -> reachable operator_eq policy specs s ->
  forall r, In r (m_storage (snd s)) ->
    ToHandle policy (snd s) (GetSecondaryValue r) = Some (addr r)
    /\ resolve policy (snd s) (GetSecondaryValue r) = Some r
    /\ MatchSecondary (snd s) (GetSecondaryValue r) r = true
    /\ (forall r', In r' (m_storage (snd s)) -> r' <> r ->
                   MatchSecondary (snd s) (GetSecondaryValue r) r' = false).
Proof.
  intros C R r Ir. pose proof (reachable_wf s C R) as [S _].
  split; [apply (ToHandle_entry (fst s) (snd s) r C S Ir)|].
  split; [apply (resolve_entry (fst s) (snd s) r C S Ir)|].
  split; [apply (match_self (fst s) (snd s) r S Ir)|].
  intros r' Ir' Ne.
  apply (match_other (fst s) (snd s) r' r C S Ir' Ir).
  intro E. apply Ne. symmetry. exact E.
Qed.

(** X6 -- Translation array.  In every reachable state under a policy with
    a translation array, the slot recorded in a node of the primary is a
    valid index of the array, the array holds the address of that node
    there, and two different nodes never share a slot. *)
Theorem translation_invariant (s : nat * T_MultiIndex) :
  config_ok -> reachable operator_eq policy specs s ->
  c_needs_transl_array = true ->
  forall r, In r (m_storage (snd s)) ->
    (trans_idx r < length (transl (snd s)))%nat
    /\ nth_error (transl (snd s)) (trans_idx r) = Some (addr r)
    /\ (forall r', In r' (m_storage (snd s)) ->
                   trans_idx r' = trans_idx r -> r' = r).
Proof.
  intros C R T r Ir. pose proof (reachable_wf s C R) as [S _].
  destruct S as [_ [_ [N [_ [Tr _]]]]].
  pose proof (Tr T r Ir) as Sr.
  split; [apply nth_error_Some; rewrite Sr; discriminate|].
  split; [exact Sr|].
  intros r' Ir' E. pose proof (Tr T r' Ir') as Sr'.
  rewrite E, Sr in Sr'. injection Sr' as A.
  apply (NoDup_map_inj _ _ (@addr Payload) (m_storage (snd s)) r' r N);
    [exact Ir'|exact Ir|symmetry; exact A].
Qed.

(** X7 -- Uniqueness.  In every state reachable from the empty container
    by [emplace] (any outcome, a throwing insert included), [erase] at a
    live record, by key or by sub-key, [clear], [compact], and by [modify]
    and [replace] calls that return -- a [modify] or [replace] that lets
    an exception out is not among the steps -- the nodes of the primary
    have pairwise different addresses and come in key order; a unique
    primary holds no two nodes, live or dead, with one key; and under a
    unique secondary no two live records project to one sub-key. *)
Theorem uniqueness_invariant (s : nat * T_MultiIndex) :
  config_ok -> reachable operator_eq policy specs s ->
  NoDup (map (@addr Payload) (m_storage (snd s)))
  /\ map_sorted (@first Payload) (m_storage (snd s))
  /\ (c_primary_is_unique = true ->
      forall r r', In r (m_storage (snd s)) -> In r' (m_storage (snd s)) ->
                   first r = first r' -> r = r')
  /\ (forall I sp r r',
         nth_error specs I = Some sp -> is_storage sp = false ->
         is_unique sp = true ->
         In r (m_storage (snd s)) -> dead r = false ->
         In r' (m_storage (snd s)) -> dead r' = false ->
         Project sp (first r) (m_value r) = Project sp (first r') (m_value r')
         -> r = r').
Proof.
  intros C R. pose proof (reachable_wf s C R) as W.
  destruct W as [[Sd [Un [N _]]] [[_ So] _]].
  split; [exact N|]. split; [exact Sd|]. split.
  - intros U r r' Ir Ir' K.
    apply (NoDup_map_inj _ _ (@first Payload) (m_storage (snd s)) r r' (Un U));
      assumption.
  - intros I sp r r' Ns IS U Ir Dr Ir' Dr' P.
    destruct (So I sp Ns IS) as [Pm [_ Nd]]. specialize (Nd U).
    assert (Nd' : NoDup (map (@fst Z t_sec_value)
                             (map (sec_entry sp) (live (m_storage (snd s)))))).
    { eapply Permutation_NoDup; [|exact Nd]. apply Permutation_map. exact Pm. }
    rewrite map_map in Nd'.
    apply (NoDup_map_inj _ _ _ _ r r' Nd').
    + apply live_in. split; assumption.
    + apply live_in. split; assumption.
    + exact P.
Qed.

Lemma emplace_new_fields (throws : nat -> bool) (heap : nat)
      (st : T_MultiIndex) (k : Z) (v : Payload) :
  config_ok -> wf heap st ->
  (c_primary_is_unique = true ->
   ~ In k (map (@first Payload) (m_storage st))) ->
  forall heap' st' it,
    emplace throws heap st k v = (heap', st', Returned (it, true)) ->
    transl st' = (if c_needs_transl_array then transl st ++ [heap]
                  else transl st)
    /\ m_live st' = (if c_tombstones then size_wrap (m_live st + 1)
                     else m_live st)
    /\ length (m_second st') = length (m_second st).
Proof.
  intros C [S [Sec Lv]] New heap' st' it E.
  unfold emplace in E.
  assert (X1 : (if c_primary_is_unique && c_tombstones
                then map_find (@first Payload) k (m_storage st)
                else None) = None).
  { destruct c_primary_is_unique eqn:U; simpl; [|reflexivity].
    destruct c_tombstones; [|reflexivity].
    apply map_find_none. auto. }
  rewrite X1 in E.
  assert (X2 : c_primary_is_unique
               && map_contains (@first Payload) k (m_storage st) = false).
  { destruct c_primary_is_unique eqn:U; simpl; [|reflexivity].
    apply map_contains_false. auto. }
  rewrite X2 in E.
  set (h := mk_pair heap k v false
                    (if c_needs_transl_array then length (transl st)
                     else 0%nat)).
  set (st2 := mk_mi (map_insert (@first Payload) h (m_storage st))
                    (m_second st)
                    (if c_needs_transl_array then transl st ++ [heap]
                     else transl st) (m_live st)).
  assert (Fresh : forall x, In x (m_storage st) -> addr x <> heap).
  { intros x Hx. destruct S as [_ [_ [_ [H _]]]]. specialize (H x Hx). lia. }
  assert (E2 : OnEmplaceSuccess
                 (set_storage (map_insert (@first Payload)
                                          (mk_pair heap k v false 0)
                                          (m_storage st)) st)
                 (mk_pair heap k v false 0) = (st2, h)).
  { unfold OnEmplaceSuccess, st2, h.
    destruct c_needs_transl_array; [|reflexivity].
    cbn [m_storage set_storage transl]. rewrite write_insert; auto. }
  rewrite E2 in E.
  assert (S2 : storage_ok (Datatypes.S heap) st2).
  { apply (storage_ok_insert heap st st2 h); auto.
    unfold st2, h. simpl. destruct c_needs_transl_array; auto. }
  assert (Hh : In h (m_storage st2)).
  { unfold st2. simpl. apply map_insert_in. left; reflexivity. }
  assert (Sec2 : secondaries_ok st2 (live (m_storage st))).
  { eapply secondaries_ok_frame; [|exact Sec]. reflexivity. }
  assert (HL : forall r, In r (live (m_storage st)) ->
                         In r (m_storage st2) /\ r <> h).
  { intros r Hr. apply live_in in Hr. destruct Hr as [Hr _]. split.
    - unfold st2. simpl. apply map_insert_in. right; exact Hr.
    - intro X. subst r. apply (Fresh h Hr). reflexivity. }
  destruct (AddSecs throws st2 h) as [st3 o] eqn:EA.
  pose proof (AddSecs_wf throws _ st2 _ h C S2 Hh Sec2 HL st3 o EA) as G.
  destruct o as [[|]|]; inversion E; subst heap' st'.
  destruct G as [[F1 [F2 [F3 F4]]] _].
  destruct (IncrementLive_fields st3) as [I1 [I2 [I3 I4]]].
  rewrite I3, I4, I2, F2, F3, F4. unfold st2. cbn. auto.
Qed.

(** X8 -- Emplace then erase.  Without tombstones and without a
    translation array, erasing the record an [emplace] has just inserted
    gives back the container the [emplace] started from: primary, every
    secondary and counter. *)
Theorem emplace_erase_round_trip (throws : nat -> bool) (heap : nat)
        (st : T_MultiIndex) (k : Z) (v : Payload)
        (heap' : nat) (st' : T_MultiIndex) (it : t_iter) :
  config_ok -> wf heap st ->
  c_tombstones = false -> c_needs_transl_array = false ->
  emplace throws heap st k v = (heap', st', Returned (it, true)) ->
  fst (erase st' it) = st.
Proof.
  intros C W T Tr E.
  assert (New : c_primary_is_unique = true ->
                ~ In k (map (@first Payload) (m_storage st))).
  { intros U. apply map_contains_false.
    destruct (map_contains (@first Payload) k (m_storage st)) eqn:Mc;
      [|reflexivity].
    exfalso. unfold emplace in E. rewrite T, andb_false_r, U, Mc in E.
    cbn [andb] in E. inversion E. }
  destruct (emplace_new_fields throws heap st k v C W New heap' st' it E)
    as [Et [El Ell]].
  rewrite Tr in Et. rewrite T in El.
  destruct (emplace_new throws heap st k v C W New heap' st' _ E)
    as [Hh Cases].
  cbv zeta in Cases. rewrite Tr in Cases.
  set (h := mk_pair heap k v false 0) in *.
  destruct Cases as [[R [W' [Es [Ix _]]]] | [[R _] | [R _]]];
    try discriminate R.
  injection R as ->.
  assert (S' : storage_ok heap' st') by (destruct W' as [S' _]; subst; exact S').
  assert (Ih : In h (m_storage st')).
  { rewrite Es. apply map_insert_in. left. reflexivity. }
  assert (Dh : deref (m_storage st') heap = Some h).
  { destruct S' as [_ [_ [N' _]]]. apply (deref_in (m_storage st') h N' Ih). }
  assert (Fresh : forall x, In x (m_storage st) -> addr x <> addr h).
  { intros x Hx. destruct W as [[_ [_ [_ [H _]]]] _]. specialize (H x Hx).
    cbn [addr h]. lia. }
  assert (Ln' : length (m_second st') = length specs).
  { destruct W' as [_ [[L _] _]]. exact L. }
  destruct (DropSecs_spec None st' h Ln') as [[F1 [F2 [F3 F4]]] Id].
  unfold erase. cbn [iter_eqb end_]. rewrite Dh, T. cbn [fst].
  apply state_ext.
  - destruct (DecrementLive_fields
                (set_storage (erase_node heap (m_storage (DropSecs None st' h)))
                             (DropSecs None st' h))) as [D1 [D2 [D3 D4]]].
    rewrite T in D4.
    split; [|split; [|split]].
    + rewrite D1. cbn [m_storage set_storage]. rewrite F1, Es.
      apply (erase_node_insert (m_storage st) h Fresh).
    + rewrite D3. cbn [transl set_storage]. rewrite F2. exact Et.
    + rewrite D4. cbn [m_live set_storage]. rewrite F3. exact El.
    + rewrite D2. cbn [m_second set_storage]. rewrite F4. exact Ell.
  - intro j. unfold idx at 1.
    destruct (DecrementLive_fields
                (set_storage (erase_node heap (m_storage (DropSecs None st' h)))
                             (DropSecs None st' h))) as [_ [D2 _]].
    rewrite D2. cbn [m_second set_storage].
    change (nth j (m_second (DropSecs None st' h)) [])
      with (idx (DropSecs None st' h) j).
    rewrite Id, Ix. unfold dropped, inserted.
    destruct (nth_error specs j) as [s|] eqn:N; [|reflexivity].
    assert (Lt : (j <? length specs)%nat = true).
    { apply Nat.ltb_lt. apply nth_error_Some. rewrite N. discriminate. }
    rewrite Lt. cbn [andb ignored negb].
    destruct (is_storage s) eqn:IS; cbn [negb andb]; [reflexivity|].
    apply drop_inserted.
    + intros e He. destruct W as [S [[_ So] _]].
      destruct (So j s N IS) as [P _].
      apply (Permutation_in _ P) in He. apply in_map_iff in He.
      destruct He as [r' [<- Ir']]. apply live_in in Ir'.
      destruct Ir' as [Ir' _]. cbn [sec_entry snd].
      apply (match_other heap' st' h r' C S').
      * exact Ih.
      * rewrite Es. apply map_insert_in. right. exact Ir'.
      * intro X. apply (Fresh r' Ir'). rewrite X. reflexivity.
    + apply (match_self heap' st' h S' Ih).
Qed.

Lemma find_live (heap : nat) (st : T_MultiIndex) (k : Z) :
  storage_ok heap st ->
  find_ policy specs st k
  = option_map (@addr Payload) (first_live k (m_storage st)).
Proof.
  intro S. destruct c_tombstones eqn:T; [apply (find_spec heap st k T S)|].
  destruct S as [Sd [Un [N [_ [_ Al]]]]].
  destruct (sorted_blocks k (m_storage st) Sd)
    as [lo [blk [hi [E [Lo [Bk Hi]]]]]].
  unfold find_, storage_equal_range, lower_bound, upper_bound.
  rewrite T, E.
  rewrite (blocks_lower k lo blk hi Lo Bk Hi).
  rewrite (blocks_upper k lo blk hi Lo Bk Hi).
  rewrite (first_live_blocks k lo blk hi Lo Bk Hi).
  destruct blk as [|x blk].
  - cbn [app live filter hd_error option_map]. rewrite iter_eqb_refl.
    reflexivity.
  - assert (N2 : NoDup (map (@addr Payload) ((x :: blk) ++ hi))).
    { rewrite E in N. rewrite map_app in N.
      apply NoDup_app_remove_l in N. exact N. }
    cbn [app iter_of].
    rewrite (iter_of_disjoint (x :: blk) hi x N2 (or_introl eq_refl)).
    unfold live. cbn [filter].
    rewrite (Al T x); [reflexivity|].
    rewrite E. apply in_app_iff. right. left. reflexivity.
Qed.

Lemma first_live_iff (k : Z) (m : list t_pair) :
  first_live k m <> None
  <-> exists r, In r m /\ first r = k /\ dead r = false.
Proof.
  unfold first_live. split.
  - destruct (find _ m) as [r|] eqn:F; [intros _|intro X; contradiction].
    apply find_some in F. destruct F as [Ir P].
    apply andb_true_iff in P. destruct P as [K D].
    exists r. split; [exact Ir|]. split; [apply Z.eqb_eq; exact K|].
    destruct (dead r); [discriminate|reflexivity].
  - intros [r [Ir [K D]]] F.
    pose proof (find_none _ _ F r Ir) as X. cbn beta in X.
    rewrite K, Z.eqb_refl, D in X. discriminate.
Qed.

(** X9 -- Lookup by primary key.  For every policy, with or without
    tombstones, on a primary that is sorted with pairwise different node
    addresses: [find(k)] is the first live record with key [k] in primary
    order and [end()] when there is none, and [contains(k)] holds exactly
    when some live record has key [k]. *)
Theorem find_contains (heap : nat) (st : T_MultiIndex) (k : Z) :
  storage_ok heap st ->
  find_ policy specs st k
  = option_map (@addr Payload) (first_live k (m_storage st))
  /\ (contains policy specs st k = true
      <-> exists r, In r (m_storage st) /\ first r = k /\ dead r = false)
  /\ (~ In k (map (@first Payload) (m_storage st)) ->
      find_ policy specs st k = end_).
Proof.
  intro S. pose proof (find_live heap st k S) as F.
  split; [exact F|]. split.
  - rewrite <- first_live_iff. unfold contains. rewrite F.
    destruct (first_live k (m_storage st)); cbn; split; intro X;
      try discriminate; try reflexivity; contradiction.
  - intro A. rewrite F.
    destruct (first_live k (m_storage st)) as [r|] eqn:Fl; [|reflexivity].
    exfalso. apply A.
    assert (X : first_live k (m_storage st) <> None) by (rewrite Fl; discriminate).
    apply first_live_iff in X. destruct X as [r' [Ir' [K _]]].
    rewrite <- K. apply in_map. exact Ir'.
Qed.

Lemma first_live_unique (heap : nat) (st : T_MultiIndex) (r : t_pair) :
  storage_ok heap st -> c_primary_is_unique = true ->
  In r (m_storage st) -> dead r = false ->
  first_live (first r) (m_storage st) = Some r.
Proof.
  intros S U Ir Dr. destruct S as [_ [Un _]]. specialize (Un U).
  destruct (first_live (first r) (m_storage st)) as [r'|] eqn:F.
  - unfold first_live in F. apply find_some in F. destruct F as [Ir' P].
    apply andb_true_iff in P. destruct P as [K _]. apply Z.eqb_eq in K.
    f_equal.
    apply (NoDup_map_inj _ _ (@first Payload) (m_storage st) r' r Un);
      assumption.
  - exfalso.
    assert (X : first_live (first r) (m_storage st) <> None).
    { apply first_live_iff. exists r. auto. }
    contradiction.
Qed.

Lemma try_emplace_eq (throws : nat -> bool) (heap : nat)
        (st : T_MultiIndex) (k : Z) (v : Payload) :
  storage_ok heap st ->
  try_emplace policy specs throws heap st k v
  = emplace throws heap st k v.
Proof.
  intro S. unfold try_emplace.
  destruct c_primary_is_unique eqn:U; cbn [andb]; [|reflexivity].
  rewrite (find_live heap st k S).
  destruct (first_live k (m_storage st)) as [r|] eqn:F;
    cbn [option_map iter_eqb end_ negb]; [|reflexivity].
  assert (X : first_live k (m_storage st) <> None)
    by (rewrite F; discriminate).
  unfold first_live in F. apply find_some in F. destruct F as [Ir P].
  apply andb_true_iff in P. destruct P as [K D]. apply Z.eqb_eq in K.
  assert (Dr : dead r = false) by (destruct (dead r); [discriminate|reflexivity]).
  destruct (map_find (@first Payload) k (m_storage st)) as [r0|] eqn:Mf.
  - destruct (map_find_some k (m_storage st) r0 Mf) as [Ir0 K0].
    assert (r0 = r).
    { destruct S as [_ [Un _]].
      apply (NoDup_map_inj _ _ (@first Payload) (m_storage st) r0 r (Un U));
        try assumption. congruence. }
    subst r0.
    rewrite (emplace_present throws heap st k v r U Mf (fun _ => Dr)).
    rewrite ToIterator_live; [reflexivity| |exact Ir|exact Dr].
    destruct S as [_ [_ [N _]]]. exact N.
  - exfalso. apply map_find_none in Mf. apply Mf. rewrite <- K.
    apply in_map. exact Ir.
Qed.

(** X10 -- [try_emplace] is [emplace].  On a primary that is sorted with
    pairwise different node addresses (and keys, when unique),
    [try_emplace(k, v)] returns what [emplace(k, v)] returns and leaves
    the container [emplace(k, v)] leaves, whatever the secondary inserts
    do. *)
Theorem try_emplace_emplace (throws : nat -> bool) (heap : nat)
        (st : T_MultiIndex) (k : Z) (v : Payload) :
  storage_ok heap st ->
  try_emplace policy specs throws heap st k v
  = emplace throws heap st k v.
Proof.
  intro S. apply (try_emplace_eq throws heap st k v S).
Qed.

Lemma begin_visible (st : T_MultiIndex) :
  begin_ policy st = end_ <-> visible policy st = [].
Proof.
  unfold visible. cbn [traverse].
  destruct (begin_ policy st); split; intro X; try discriminate; reflexivity.
Qed.

(** X11 -- Empty.  On a well-formed container of fewer than [2^64] nodes,
    [empty()] holds exactly when [begin()] is [end()], which is exactly
    when the primary holds no live record. *)
Theorem empty_begin_end (heap : nat) (st : T_MultiIndex) :
  wf heap st ->
  (Z.of_nat (length (m_storage st)) < size_max)%Z ->
  (empty policy st = true <-> begin_ policy st = end_)
  /\ (empty policy st = true <-> live (m_storage st) = []).
Proof.
  intros W B.
  assert (E : empty policy st = true <-> live (m_storage st) = []).
  { unfold empty. rewrite (size_live heap st W B), Z.eqb_eq.
    destruct (live (m_storage st)); cbn [length]; split; intro X;
      try reflexivity; try discriminate; lia. }
  split; [|exact E].
  rewrite E, begin_visible, (visible_live heap st W).
  destruct (live (m_storage st)); cbn [map]; split; intro X;
    try reflexivity; discriminate.
Qed.

Lemma count_live_range (blk hi : list t_pair) :
  NoDup (map (@addr Payload) (blk ++ hi)) ->
  forall n, (0 <= n)%Z ->
            (n + Z.of_nat (length (live blk)) < size_max)%Z ->
            count_live (blk ++ hi) (iter_of hi) n
            = (n + Z.of_nat (length (live blk)))%Z.
Proof.
  induction blk as [|x blk IH]; intros N n Pn Bn.
  - cbn [app live filter length]. rewrite Z.add_0_r.
    destruct hi as [|y hi]; [reflexivity|].
    cbn [count_live iter_of iter_eqb]. rewrite Nat.eqb_refl. reflexivity.
  - cbn [app count_live].
    rewrite (iter_of_disjoint (x :: blk) hi x N (or_introl eq_refl)).
    assert (N' : NoDup (map (@addr Payload) (blk ++ hi)))
      by (simpl in N; inversion N; assumption).
    unfold live in *. cbn [filter] in *.
    destruct (dead x); cbn [negb] in *.
    + apply IH; assumption.
    + cbn [length] in *. rewrite size_wrap_small by lia.
      rewrite IH by (try assumption; lia). lia.
Qed.

Lemma distance_range (blk hi : list t_pair) :
  NoDup (map (@addr Payload) (blk ++ hi)) ->
  distance (blk ++ hi) (iter_of hi) = length blk.
Proof.
  induction blk as [|x blk IH]; intro N.
  - cbn [app length]. destruct hi as [|y hi]; [reflexivity|].
    cbn [distance iter_of iter_eqb]. rewrite Nat.eqb_refl. reflexivity.
  - cbn [app distance length].
    rewrite (iter_of_disjoint (x :: blk) hi x N (or_introl eq_refl)).
    f_equal. apply IH. simpl in N. inversion N; assumption.
Qed.

Lemma count_spec (heap : nat) (st : T_MultiIndex) (k : Z) :
  storage_ok heap st ->
  (Z.of_nat (length (m_storage st)) < size_max)%Z ->
  count policy specs st k
  = Z.of_nat (length (live (with_key k (m_storage st)))).
Proof.
  intros S B. pose proof (find_live heap st k S) as F.
  destruct S as [Sd [Un [N [_ [_ Al]]]]].
  destruct (sorted_blocks k (m_storage st) Sd)
    as [lo [blk [hi [E [Lo [Bk Hi]]]]]].
  assert (N2 : NoDup (map (@addr Payload) (blk ++ hi))).
  { rewrite E in N. rewrite map_app in N.
    apply NoDup_app_remove_l in N. exact N. }
  assert (Lb : (length blk <= length (m_storage st))%nat).
  { rewrite E, !length_app. lia. }
  pose proof (live_length_le blk) as Ll.
  assert (FL : first_live k (m_storage st) = hd_error (live blk))
    by (rewrite E; apply (first_live_blocks k lo blk hi Lo Bk Hi)).
  assert (WK : with_key k (m_storage st) = blk)
    by (rewrite E; apply (blocks_with_key k lo blk hi Lo Bk Hi)).
  assert (LB : drop_while (fun x => (first x <? k)%Z) (m_storage st)
               = blk ++ hi)
    by (rewrite E; apply (blocks_lower k lo blk hi Lo Bk Hi)).
  assert (UB : drop_while (fun x => (first x <=? k)%Z) (m_storage st) = hi)
    by (rewrite E; apply (blocks_upper k lo blk hi Lo Bk Hi)).
  unfold count. rewrite F, FL, WK. clear F.
  destruct c_primary_is_unique eqn:U; cbn [negb].
  - destruct blk as [|x blk]; [reflexivity|].
    assert (B1 : @nil t_pair = [] /\ blk = []).
    { apply (same_key_unique k [] blk x).
      - intros y Hy. apply Bk. exact Hy.
      - specialize (Un eq_refl). rewrite E in Un.
        rewrite map_app in Un. apply NoDup_app_remove_l in Un.
        rewrite map_app in Un. apply NoDup_app_remove_r in Un.
        exact Un. }
    destruct B1 as [_ ->]. unfold live. cbn [filter].
    destruct (dead x); reflexivity.
  - unfold storage_equal_range, lower_bound, upper_bound.
    rewrite LB, UB.
    assert (Sk : seek (m_storage st) (iter_of (blk ++ hi)) = blk ++ hi).
    { rewrite E. apply (seek_iter_of lo (blk ++ hi)). rewrite <- E. exact N. }
    rewrite Sk.
    destruct c_tombstones eqn:T.
    + rewrite (count_live_range blk hi N2 0%Z); lia.
    + rewrite (distance_range blk hi N2).
      rewrite live_all.
      * apply size_wrap_small. lia.
      * intros r Hr. apply (Al eq_refl). rewrite E. apply in_app_iff.
        right. apply in_app_iff. left. exact Hr.
Qed.

(** X12 -- Count.  On a well-formed container of fewer than [2^64] nodes,
    [count(k)] is the number of live records with key [k] -- tombstones
    are not counted -- and it is the number [erase(k)] returns. *)
Theorem count_live_records (heap : nat) (st : T_MultiIndex) (k : Z) :
  config_ok -> wf heap st ->
  (Z.of_nat (length (m_storage st)) < size_max)%Z ->
  count policy specs st k
  = Z.of_nat (length (live (with_key k (m_storage st))))
  /\ exists st', erase_key st k = Some (st', count policy specs st k).
Proof.
  intros C W B. pose proof (count_spec heap st k (proj1 W) B) as Cs.
  split; [exact Cs|].
  destruct (erase_key_spec heap st k C W) as [E _].
  eexists. rewrite E, Cs. f_equal. f_equal.
  apply size_wrap_small.
  pose proof (live_length_le (with_key k (m_storage st))).
  pose proof (with_key_length_le k (m_storage st)). lia.
Qed.

Lemma iter_incr_live (heap : nat) (st : T_MultiIndex) (m1 m2 : list t_pair)
      (r : t_pair) :
  storage_ok heap st ->
  m_storage st = m1 ++ r :: m2 ->
  iter_incr policy st (Some (addr r))
  = iter_of (drop_while (@dead Payload) m2).
Proof.
  intros [_ [_ [N [_ [_ Al]]]]] E.
  rewrite (iter_incr_split st m1 m2 r N E).
  destruct c_tombstones; [reflexivity|].
  rewrite drop_while_none; [reflexivity|].
  intros x Hx. apply (Al eq_refl). rewrite E. apply in_app_iff.
  right. right. exact Hx.
Qed.

Lemma walk_range (heap : nat) (st : T_MultiIndex) (hi : list t_pair) :
  storage_ok heap st ->
  forall blk p fuel,
    m_storage st = p ++ blk ++ hi -> (length blk < fuel)%nat ->
    walk policy fuel st (iter_of (drop_while (@dead Payload) (blk ++ hi)))
         (iter_of (drop_while (@dead Payload) hi))
    = map (@addr Payload) (live blk).
Proof.
  intro S. induction blk as [|x blk IH]; intros p fuel E F.
  - destruct fuel; [reflexivity|]. cbn [app walk]. rewrite iter_eqb_refl.
    reflexivity.
  - cbn [app drop_while]. unfold live. cbn [filter]. fold (live blk).
    destruct (dead x) eqn:D; cbn [negb].
    + apply (IH (p ++ [x])); [rewrite E; list_eq|simpl in F; lia].
    + destruct fuel as [|fuel]; [simpl in F; lia|].
      cbn [iter_of walk map].
      destruct (drop_while_suffix (@dead Payload) hi) as [q Eq].
      assert (N : NoDup (map (@addr Payload)
                             ((x :: blk ++ q)
                                ++ drop_while (@dead Payload) hi))).
      { destruct S as [_ [_ [N _]]]. rewrite E, map_app in N.
        apply NoDup_app_remove_l in N.
        replace ((x :: blk ++ q) ++ drop_while (@dead Payload) hi)
          with ((x :: blk) ++ (q ++ drop_while (@dead Payload) hi))
          by list_eq.
        rewrite <- Eq. exact N. }
      rewrite (iter_of_disjoint (x :: blk ++ q) _ x N (or_introl eq_refl)).
      f_equal.
      rewrite (iter_incr_live heap st p (blk ++ hi) x S E).
      apply (IH (p ++ [x])); [rewrite E; list_eq|simpl in F; lia].
Qed.

Lemma equal_range_live (heap : nat) (st : T_MultiIndex) (k : Z)
      (lo blk hi : list t_pair) :
  storage_ok heap st ->
  m_storage st = lo ++ blk ++ hi ->
  (forall x, In x lo -> (first x < k)%Z) ->
  (forall x, In x blk -> first x = k) ->
  (forall x, In x hi -> (k < first x)%Z) ->
  equal_range policy st k
  = (iter_of (drop_while (@dead Payload) (blk ++ hi)),
     iter_of (drop_while (@dead Payload) hi)).
Proof.
  intros S E Lo Bk Hi.
  assert (N : NoDup (map (@addr Payload) (m_storage st)))
    by (destruct S as [_ [_ [N _]]]; exact N).
  rewrite (equal_range_blocks st k lo blk hi E N Lo Bk Hi).
  destruct c_tombstones eqn:T; [reflexivity|].
  destruct S as [_ [_ [_ [_ [_ Al]]]]].
  rewrite !drop_while_none; [reflexivity| |];
    intros x Hx; apply (Al T); rewrite E; apply in_app_iff; right;
    [apply in_app_iff; right; exact Hx|exact Hx].
Qed.

(** X13 -- Equal range of a primary key.  On a primary that is sorted
    with pairwise different node addresses, walking [equal_range(k)] from
    its first to its second iterator visits exactly the live records with
    key [k], in primary order, and the two iterators are equal exactly
    when no live record has key [k]: an absent key gives the empty
    range. *)
Theorem equal_range_walk (heap : nat) (st : T_MultiIndex) (k : Z) :
  storage_ok heap st ->
  walk policy (S (length (m_storage st))) st
       (fst (equal_range policy st k)) (snd (equal_range policy st k))
  = map (@addr Payload) (live (with_key k (m_storage st)))
  /\ (fst (equal_range policy st k) = snd (equal_range policy st k)
      <-> live (with_key k (m_storage st)) = []).
Proof.
  intro S.
  destruct (sorted_blocks k (m_storage st) (proj1 S))
    as [lo [blk [hi [E [Lo [Bk Hi]]]]]].
  rewrite (equal_range_live heap st k lo blk hi S E Lo Bk Hi).
  assert (WK : with_key k (m_storage st) = blk)
    by (rewrite E; apply (blocks_with_key k lo blk hi Lo Bk Hi)).
  rewrite WK. cbn [fst snd]. split.
  - apply (walk_range heap st hi S blk lo); [exact E|].
    rewrite E, !length_app. lia.
  - rewrite first_live_app.
    destruct (live blk) as [|t ts] eqn:Lb.
    + split; reflexivity.
    + split; [|discriminate]. intro X. exfalso.
      destruct (drop_while_suffix (@dead Payload) hi) as [q Eq].
      assert (It : In t blk).
      { assert (I : In t (live blk)) by (rewrite Lb; left; reflexivity).
        apply live_in in I. apply I. }
      assert (N : NoDup (map (@addr Payload)
                             ((blk ++ q) ++ drop_while (@dead Payload) hi))).
      { destruct S as [_ [_ [N _]]]. rewrite E, map_app in N.
        apply NoDup_app_remove_l in N.
        replace ((blk ++ q) ++ drop_while (@dead Payload) hi)
          with (blk ++ (q ++ drop_while (@dead Payload) hi)) by list_eq.
        rewrite <- Eq. exact N. }
      pose proof (iter_of_disjoint (blk ++ q) _ t N
                                   (proj2 (in_app_iff _ _ _) (or_introl It)))
        as Dj.
      rewrite X, iter_eqb_refl in Dj. discriminate.
Qed.

Lemma rejects_blocked (heap : nat) (st : T_MultiIndex) (k : Z) (v : Payload) :
  wf heap st ->
  (forall r', In r' (m_storage st) -> dead r' = false -> first r' <> k) ->
  rejects_entry specs st k v -> blocked specs st k v.
Proof.
  intros [_ [[_ So] _]] Nk [j [s [N [IS [U M]]]]].
  apply map_contains_true in M. destruct M as [e [Ie Ke]].
  destruct (So j s N IS) as [P _].
  apply (Permutation_in _ P) in Ie. apply in_map_iff in Ie.
  destruct Ie as [r' [<- Ir']]. apply live_in in Ir'.
  destruct Ir' as [Ir' Dr'].
  exists j, s, r'. split; [exact N|]. split; [exact IS|]. split; [exact U|].
  split; [exact Ir'|]. split; [exact Dr'|].
  split; [apply Nk; assumption|exact Ke].
Qed.

Lemma collides_blocked (heap : nat) (st : T_MultiIndex) (r : t_pair)
      (v : Payload) :
  wf heap st -> c_primary_is_unique = true -> In r (m_storage st) ->
  collides specs st r v -> blocked specs st (first r) v.
Proof.
  intros [[_ [Un _]] _] U Ir [j [s [r' [N [IS [Uq [Ir' [Dr' [Ad P]]]]]]]]].
  exists j, s, r'. split; [exact N|]. split; [exact IS|]. split; [exact Uq|].
  split; [exact Ir'|]. split; [exact Dr'|]. split; [|exact P].
  intro K. apply Ad. f_equal.
  apply (NoDup_map_inj _ _ (@first Payload) (m_storage st) r' r (Un U));
    assumption.
Qed.

Lemma find_unique_live (heap : nat) (st : T_MultiIndex) (r : t_pair) :
  storage_ok heap st -> c_primary_is_unique = true ->
  In r (m_storage st) -> dead r = false ->
  find_ policy specs st (first r) = Some (addr r).
Proof.
  intros S U Ir Dr. rewrite (find_live heap st (first r) S).
  rewrite (first_live_unique heap st r S U Ir Dr). reflexivity.
Qed.

Lemma insert_or_assign_spec (throws : nat -> bool) (heap : nat)
      (st : T_MultiIndex) (k : Z) (v : Payload) :
  config_ok -> wf heap st -> c_primary_is_unique = true ->
  (forall j, throws j = false) ->
  ~ blocked specs st k v ->
  (Z.of_nat (length (m_storage st)) + 1 < size_max)%Z ->
  exists heap' st' r,
    insert_or_assign policy specs throws heap st k v
    = (heap', st', Returned (Some (addr r), negb (contains policy specs st k)))
    /\ wf heap' st'
    /\ In r (m_storage st')
    /\ first r = k /\ m_value r = v /\ dead r = false.
Proof.
  intros C W U NT NB B.
  pose proof (find_live heap st k (proj1 W)) as F.
  unfold insert_or_assign, contains. rewrite F.
  destruct (first_live k (m_storage st)) as [r0|] eqn:Fl;
    cbn [option_map iter_eqb end_ negb ToHandle_iter].
  - (* the key is live: assign *)
    unfold first_live in Fl. apply find_some in Fl. destruct Fl as [Ir P].
    apply andb_true_iff in P. destruct P as [K D]. apply Z.eqb_eq in K.
    assert (Dr : dead r0 = false)
      by (destruct (dead r0); [discriminate|reflexivity]).
    assert (N : NoDup (map (@addr Payload) (m_storage st)))
      by (destruct W as [[_ [_ [N _]]] _]; exact N).
    pose proof (deref_in (m_storage st) r0 N Ir) as Dq.
    assert (NC : ~ collides specs st r0 ((fun _ => v) (m_value r0))).
    { intro Co. apply NB. rewrite <- K.
      apply (collides_blocked heap st r0 v W U Ir Co). }
    assert (B' : (Z.of_nat (length (m_storage st)) < size_max)%Z) by lia.
    destruct (UpdateCore_accepted throws heap st (addr r0) r0 (fun _ => v)
                                  C W Dq NT NC B')
      as [st' [E [W' [D' _]]]].
    rewrite E.
    exists heap, st', (set_value v (set_dead false r0)).
    split; [reflexivity|]. split; [exact W'|].
    destruct (deref_some _ _ _ D') as [I' _].
    split; [exact I'|]. split; [exact K|]. split; reflexivity.
  - (* no live record with the key: emplace *)
    assert (NoLive : forall r', In r' (m_storage st) -> dead r' = false ->
                                first r' <> k).
    { intros r' Ir' Dr' K.
      assert (X : first_live k (m_storage st) <> None).
      { apply first_live_iff. exists r'. auto. }
      contradiction. }
    assert (NR : ~ rejects_entry specs st k v).
    { intro R. apply NB. apply (rejects_blocked heap st k v W NoLive R). }
    destruct (emplace throws heap st k v) as [[heap' st'] res] eqn:E.
    destruct (map_find (@first Payload) k (m_storage st)) as [r0|] eqn:Mf.
    + (* a tombstone holds the key: revival *)
      destruct (map_find_some k (m_storage st) r0 Mf) as [Ir0 K0].
      assert (D0 : dead r0 = true).
      { destruct (dead r0) eqn:D; [reflexivity|].
        exfalso. apply (NoLive r0 Ir0 D K0). }
      assert (T : c_tombstones = true).
      { destruct c_tombstones eqn:T; [reflexivity|].
        destruct W as [[_ [_ [_ [_ [_ Al]]]]] _].
        rewrite (Al T r0 Ir0) in D0. discriminate. }
      destruct (emplace_revive throws heap st k v r0 C W U T Mf D0
                               heap' st' res E)
        as [Hh [W' [_ Cases]]].
      cbv zeta in Cases. subst heap'.
      set (h := set_value v (set_dead false r0)) in *.
      destruct Cases as [[R [Es _]] | [[[_ [j [Rj _]]]
                                       | [_ [j [[s [_ [_ Th]]] _]]]] _]].
      * exists heap, st', h. rewrite R.
        split; [reflexivity|]. split; [exact W'|].
        pose proof (deref_write heap st st' r0 h (proj1 W) (proj1 W') Ir0
                                eq_refl Es) as Dw.
        destruct (deref_some _ _ _ Dw) as [I' _].
        split; [exact I'|]. split; [exact K0|]. split; reflexivity.
      * exfalso. apply NR.
        pose proof (rejecting_rejects throws st h j Rj) as X.
        cbn [h first m_value set_value set_dead] in X. rewrite K0 in X.
        exact X.
      * rewrite NT in Th. discriminate.
    + (* the key is new *)
      assert (New : c_primary_is_unique = true ->
                    ~ In k (map (@first Payload) (m_storage st))).
      { intros _. apply map_find_none. exact Mf. }
      destruct (emplace_new throws heap st k v C W New heap' st' res E)
        as [Hh Cases].
      cbv zeta in Cases. subst heap'.
      set (h := mk_pair heap k v false
                        (if c_needs_transl_array then length (transl st)
                         else 0%nat)) in *.
      destruct Cases as [[R [W' [Es _]]] | [[_ [_ [j [Rj _]]]]
                                           | [_ [_ [j [[s [_ [_ Th]]] _]]]]]].
      * exists (S heap), st', h. rewrite R.
        split; [reflexivity|]. split; [exact W'|].
        split; [rewrite Es; apply map_insert_in; left; reflexivity|].
        split; [reflexivity|]. split; reflexivity.
      * exfalso. apply NR. apply (rejecting_rejects throws st h j Rj).
      * rewrite NT in Th. discriminate.
Qed.

(** X14 -- Insert or assign.  On a well-formed container with a unique
    primary, when no insert throws and no live record with another key
    has, under a unique secondary, a sub-key of the record [(k, v)]:
    [insert_or_assign(k, v)] returns the iterator to a live record with
    key [k] and payload [v], which is what [find(k)] gives afterwards,
    with [true] exactly when no live record had key [k] before; the
    container stays well-formed. *)
Theorem insert_or_assign_stores (throws : nat -> bool) (heap : nat)
        (st : T_MultiIndex) (k : Z) (v : Payload) :
  config_ok -> wf heap st -> c_primary_is_unique = true ->
  (forall j, throws j = false) ->
  ~ blocked specs st k v ->
  (Z.of_nat (length (m_storage st)) + 1 < size_max)%Z ->
  exists heap' st' r,
    insert_or_assign policy specs throws heap st k v
    = (heap', st', Returned (Some (addr r), negb (contains policy specs st k)))
    /\ wf heap' st'
    /\ find_ policy specs st' k = Some (addr r)
    /\ deref (m_storage st') (addr r) = Some r
    /\ first r = k /\ m_value r = v /\ dead r = false.
Proof.
  intros C W U NT NB B.
  destruct (insert_or_assign_spec throws heap st k v C W U NT NB B)
    as [heap' [st' [r [E [W' [Ir [K [V D]]]]]]]].
  exists heap', st', r. split; [exact E|]. split; [exact W'|].
  split; [rewrite <- K; apply (find_unique_live heap' st' r (proj1 W') U Ir D)|].
  split; [|auto].
  destruct W' as [[_ [_ [N _]]] _]. apply (deref_in _ _ N Ir).
Qed.

(** * Secondary views *)

Lemma position_some (k : Z) (m : t_sec_map) (p : nat) :
  position k m = Some p ->
  exists pre e post,
    m = pre ++ e :: post /\ length pre = p /\ fst e = k
    /\ forall x, In x pre -> fst x <> k.
Proof.
  revert p. induction m as [|x m IH]; intros p E; [discriminate|].
  cbn [position] in E. destruct (fst x =? k)%Z eqn:K.
  - injection E as <-. exists [], x, m. apply Z.eqb_eq in K.
    split; [reflexivity|]. split; [reflexivity|]. split; [exact K|].
    intros y [].
  - destruct (position k m) as [q|]; [|discriminate].
    cbn [option_map] in E. injection E as <-.
    destruct (IH q eq_refl) as [pre [e [post [Em [Lp [Ke Np]]]]]].
    exists (x :: pre), e, post. split; [rewrite Em; reflexivity|].
    split; [cbn [length]; rewrite Lp; reflexivity|]. split; [exact Ke|].
    intros y [<-|Hy]; [apply Z.eqb_neq; exact K|apply Np; exact Hy].
Qed.

Lemma position_none (k : Z) (m : t_sec_map) :
  position k m = None <-> forall e, In e m -> fst e <> k.
Proof.
  induction m as [|x m IH]; cbn [position].
  - split; [intros _ e []|reflexivity].
  - destruct (fst x =? k)%Z eqn:K.
    + split; [discriminate|]. intro H. exfalso.
      apply (H x (or_introl eq_refl)). apply Z.eqb_eq. exact K.
    + destruct (position k m) as [q|]; cbn [option_map].
      * split; [discriminate|]. intro H. exfalso.
        assert (X : Some q = None)
          by (apply IH; intros e He; apply H; right; exact He).
        discriminate X.
      * split; [|reflexivity]. intros _ e [<-|He].
        -- apply Z.eqb_neq. exact K.
        -- apply (proj1 IH eq_refl). exact He.
Qed.

Lemma filter_sec_entries (sp : T_Index Payload) (sk : Z) (L : list t_pair) :
  filter (fun e => (skey e =? sk)%Z) (map (sec_entry sp) L)
  = map (sec_entry sp)
        (filter (fun r => (Project sp (first r) (m_value r) =? sk)%Z) L).
Proof.
  induction L as [|r L IH]; [reflexivity|].
  cbn [map filter].
  change (skey (sec_entry sp r)) with (Project sp (first r) (m_value r)).
  destruct (Project sp (first r) (m_value r) =? sk)%Z; cbn [map];
    rewrite IH; reflexivity.
Qed.

Lemma view_entries (heap : nat) (st : T_MultiIndex) (I : nat)
      (sp : T_Index Payload) (sk : Z) :
  wf heap st -> nth_error specs I = Some sp -> is_storage sp = false ->
  Permutation (filter (fun e => (skey e =? sk)%Z) (idx st I))
              (map (sec_entry sp) (with_subkey sp sk (m_storage st))).
Proof.
  intros [_ [[_ So] _]] N IS. destruct (So I sp N IS) as [P _].
  unfold with_subkey. rewrite <- filter_sec_entries.
  apply perm_filter. exact P.
Qed.

Lemma filter_key_le_one (B : Type) (f : B -> Z) (k : Z) (l : list B) :
  NoDup (map f l) ->
  (length (filter (fun e => (f e =? k)%Z) l) <= 1)%nat.
Proof.
  induction l as [|x l IH]; intro N; [cbn; lia|].
  simpl in N. inversion N as [|? ? Nx N']; subst.
  cbn [filter]. destruct (f x =? k)%Z eqn:K; [|apply IH; exact N'].
  cbn [length]. rewrite filter_none; [cbn; lia|].
  intros y Hy. apply Z.eqb_neq. intro E. apply Nx.
  apply Z.eqb_eq in K. rewrite K, <- E. apply in_map. exact Hy.
Qed.

(** X15 -- Size of a secondary view.  On a well-formed container of fewer
    than [2^64] nodes every secondary map holds exactly [size()] entries:
    [get<Tag>().size()] is [size()], tombstones in the primary
    notwithstanding. *)
Theorem view_size_is_size (heap : nat) (st : T_MultiIndex) (I : nat)
        (sp : T_Index Payload) :
  wf heap st ->
  (Z.of_nat (length (m_storage st)) < size_max)%Z ->
  nth_error specs I = Some sp -> is_storage sp = false ->
  view_size st I = size policy st
  /\ length (idx st I) = length (live (m_storage st)).
Proof.
  intros W B N IS.
  assert (L : length (idx st I) = length (live (m_storage st))).
  { destruct W as [_ [[_ So] _]]. destruct (So I sp N IS) as [P _].
    rewrite (Permutation_length P). apply length_map. }
  split; [|exact L].
  unfold view_size. rewrite L, (size_live heap st W B).
  apply size_wrap_small. pose proof (live_length_le (m_storage st)). lia.
Qed.

(** X16 -- Lookup through a secondary view.  On a well-formed container
    of fewer than [2^64] nodes and for a secondary with projection [p]:
    [find(sk)] of the view is [end()] exactly when no live record
    projects to [sk]; an iterator it returns reads as [sk] paired with the
    handle of a live record that projects to [sk]; [count(sk)] is the
    number of live records that project to [sk], at most one when the
    secondary is unique; and [contains(sk)] holds exactly when that number
    is not zero. *)
Theorem view_lookup (heap : nat) (st : T_MultiIndex) (I : nat)
        (sp : T_Index Payload) (sk : Z) :
  config_ok -> wf heap st ->
  (Z.of_nat (length (m_storage st)) < size_max)%Z ->
  nth_error specs I = Some sp -> is_storage sp = false ->
  (view_find st I sk = None <-> with_subkey sp sk (m_storage st) = [])
  /\ (forall p, view_find st I sk = Some p ->
        exists r, view_deref policy st I p = Some (sk, Some (addr r))
                  /\ In r (m_storage st) /\ dead r = false
                  /\ Project sp (first r) (m_value r) = sk)
  /\ view_count st I sk
     = Z.of_nat (length (with_subkey sp sk (m_storage st)))
  /\ (is_unique sp = true -> (view_count st I sk <= 1)%Z)
  /\ (view_contains st I sk = true
      <-> with_subkey sp sk (m_storage st) <> []).
Proof.
  intros C W B N IS.
  pose proof (view_entries heap st I sp sk W N IS) as Pe.
  assert (So : sec_ok sp (live (m_storage st)) (idx st I))
    by (destruct W as [_ [[_ So] _]]; apply (So I sp N IS)).
  destruct So as [P [_ Nd]].
  assert (Lw : (length (with_subkey sp sk (m_storage st))
                <= length (m_storage st))%nat).
  { unfold with_subkey.
    pose proof (filter_length_le
                  (fun r => (Project sp (first r) (m_value r) =? sk)%Z)
                  (live (m_storage st))).
    pose proof (live_length_le (m_storage st)). lia. }
  assert (Cn : view_count st I sk
               = Z.of_nat (length (with_subkey sp sk (m_storage st)))).
  { unfold view_count. rewrite (Permutation_length Pe), length_map.
    apply size_wrap_small. lia. }
  assert (Fn : view_find st I sk = None
               <-> with_subkey sp sk (m_storage st) = []).
  { unfold view_find. rewrite position_none. split.
    - intro H. destruct (with_subkey sp sk (m_storage st)) as [|r l] eqn:Ew;
        [reflexivity|]. exfalso.
      assert (Ir : In (sec_entry sp r)
                      (filter (fun e => (skey e =? sk)%Z) (idx st I))).
      { apply (Permutation_in _ (Permutation_sym Pe)). left. reflexivity. }
      apply filter_In in Ir. destruct Ir as [Ir K]. apply Z.eqb_eq in K.
      apply (H _ Ir K).
    - intros Ew e He K.
      assert (Ie : In e (filter (fun e => (skey e =? sk)%Z) (idx st I))).
      { apply filter_In. split; [exact He|apply Z.eqb_eq; exact K]. }
      apply (Permutation_in _ Pe) in Ie. rewrite Ew in Ie. destruct Ie. }
  split; [exact Fn|]. split; [|split; [exact Cn|split]].
  - intros p Fp. unfold view_find in Fp.
    destruct (position_some sk (idx st I) p Fp)
      as [pre [e [post [Em [Lp [Ke _]]]]]].
    assert (Ne : nth_error (idx st I) p = Some e).
    { rewrite Em, <- Lp, nth_error_app2, Nat.sub_diag; [reflexivity|lia]. }
    assert (Ie : In e (idx st I)) by (apply (nth_error_In _ _ Ne)).
    apply (Permutation_in _ P) in Ie. apply in_map_iff in Ie.
    destruct Ie as [r [Er Ir]]. apply live_in in Ir. destruct Ir as [Ir Dr].
    exists r. unfold view_deref. rewrite Ne. cbn [option_map].
    rewrite Ke, <- Er. cbn [sec_entry snd].
    rewrite (ToHandle_entry heap st r C (proj1 W) Ir).
    split; [reflexivity|]. split; [exact Ir|]. split; [exact Dr|].
    rewrite <- Ke, <- Er. reflexivity.
  - intro U. unfold view_count.
    pose proof (filter_key_le_one _ skey sk (idx st I) (Nd U)) as Le.
    rewrite size_wrap_small; [lia|].
    pose proof (Permutation_length Pe) as Lp. rewrite length_map in Lp. lia.
  - unfold view_contains.
    destruct (view_find st I sk) eqn:Fv.
    + split; [|reflexivity]. intros _ Ew.
      apply Fn in Ew. discriminate.
    + split; [discriminate|]. intro X. exfalso. apply X.
      apply Fn. reflexivity.
Qed.

Lemma live_remove_split (m1 m2 : list t_pair) (r : t_pair) :
  NoDup (map (@addr Payload) (m1 ++ r :: m2)) -> dead r = false ->
  filter (fun x => negb (addr x =? addr r)%nat) (live (m1 ++ r :: m2))
  = live m1 ++ live m2.
Proof.
  intros N D.
  assert (F : forall x, In x (m1 ++ m2) -> addr x <> addr r).
  { intros x Hx A. rewrite map_app in N. simpl in N.
    apply NoDup_remove_2 in N. apply N. rewrite <- map_app, <- A.
    apply in_map. exact Hx. }
  rewrite live_app. unfold live at 2. cbn [filter]. rewrite D. cbn [negb].
  fold (live m2). rewrite filter_app. cbn [filter].
  rewrite Nat.eqb_refl. cbn [negb].
  rewrite !filter_keep; [reflexivity| |];
    intros x Hx; apply live_in in Hx; destruct Hx as [Hx _];
    apply negb_true_iff, Nat.eqb_neq, F, in_app_iff; [right|left]; exact Hx.
Qed.

Lemma erase_tag_step (heap : nat) (I : nat) (sI : T_Index Payload)
      (st : T_MultiIndex) (pre post : t_sec_map) (e : Z * t_sec_value) :
  config_ok -> nth_error specs I = Some sI -> is_storage sI = false ->
  wf heap st -> idx st I = pre ++ e :: post ->
  exists r,
    In r (m_storage st) /\ dead r = false /\ sec_entry sI r = e
    /\ ToHandle policy st (snd e) = Some (addr r)
    /\ wf heap (set_idx I (remove_nth (length pre)
                                       (idx (EraseByHandle policy specs (Some I)
                                                           st (Some (addr r)))
                                            I))
                        (EraseByHandle policy specs (Some I) st
                                       (Some (addr r))))
    /\ idx (set_idx I (remove_nth (length pre)
                                  (idx (EraseByHandle policy specs (Some I)
                                                      st (Some (addr r)))
                                       I))
                    (EraseByHandle policy specs (Some I) st (Some (addr r))))
           I
       = pre ++ post
    /\ live (m_storage
               (set_idx I (remove_nth (length pre)
                                      (idx (EraseByHandle policy specs (Some I)
                                                          st (Some (addr r)))
                                           I))
                        (EraseByHandle policy specs (Some I) st
                                       (Some (addr r)))))
       = filter (fun x => negb (addr x =? addr r)%nat) (live (m_storage st)).
Proof.
  intros C HsI StI W Ei.
  assert (S := proj1 W). assert (Sec := proj1 (proj2 W)).
  destruct (proj2 Sec I sI HsI StI) as [Pe _].
  assert (He : In e (idx st I)).
  { rewrite Ei. apply in_app_iff. right. left. reflexivity. }
  apply (Permutation_in _ Pe) in He. apply in_map_iff in He.
  destruct He as [r [Er Hr]]. apply live_in in Hr. destruct Hr as [Hr D].
  exists r. split; [exact Hr|]. split; [exact D|]. split; [exact Er|].
  split.
  { rewrite <- Er. cbn [sec_entry snd]. apply (ToHandle_entry heap st r C S Hr). }
  destruct (EraseByHandle_spec I heap st r C W Hr D)
    as [m1 [m2 [Em [S1 [L1 [Len1 [I1 [J1 Lv1]]]]]]]].
  set (st1 := EraseByHandle policy specs (Some I) st (Some (addr r))) in *.
  set (st2 := set_idx I (remove_nth (length pre) (idx st1 I)) st1) in *.
  assert (R : remove_nth (length pre) (idx st1 I) = pre ++ post).
  { rewrite I1, Ei. apply remove_nth_split. }
  assert (Li : (I < length (m_second st1))%nat).
  { rewrite Len1. apply nth_error_Some. rewrite HsI. discriminate. }
  assert (Ix : idx st2 I = pre ++ post).
  { unfold st2. rewrite (idx_set_idx st1 I I _ Li), Nat.eqb_refl. exact R. }
  split; [|split; [exact Ix|]].
  - split; [|split].
    + apply (storage_ok_ext heap st1 st2); auto.
    + change (m_storage st2) with (m_storage st1). rewrite L1. split.
      * unfold st2, set_idx. simpl. rewrite list_set_length. exact Len1.
      * intros j s Hs St.
        destruct (j =? I)%nat eqn:Ej.
        -- apply Nat.eqb_eq in Ej. subst j.
           rewrite HsI in Hs. inversion Hs; subst s.
           rewrite Ix. apply (sec_ok_remove sI (live m1) (live m2) r).
           rewrite Er, <- Ei.
           pose proof (proj2 Sec I sI HsI StI) as X.
           rewrite Em in X. rewrite live_app in X.
           unfold live at 2 in X. simpl in X. rewrite D in X. exact X.
        -- unfold st2. rewrite (idx_set_idx st1 I j _ Li), Ej.
           apply Nat.eqb_neq in Ej. apply (J1 j s Hs St Ej).
    + eapply live_ok_same; [exact Lv1|reflexivity|reflexivity].
  - change (m_storage st2) with (m_storage st1). rewrite L1, Em.
    symmetry. apply live_remove_split; [|exact D].
    rewrite <- Em. destruct S as [_ [_ [N _]]]. exact N.
Qed.

(** X17 -- Erase through a secondary view.  On a well-formed container,
    [erase<Tag>(view_it)] at an entry of a secondary leaves a well-formed
    container: the entry is gone from that secondary, the record the entry
    referred to -- and no other -- is gone from the live records, and the
    iterator returned is the one of the entry that followed, or [end()]. *)
Theorem erase_view_removes (heap : nat) (I : nat) (sI : T_Index Payload)
        (st : T_MultiIndex) (p : nat) (e : Z * t_sec_value) :
  config_ok -> nth_error specs I = Some sI -> is_storage sI = false ->
  wf heap st -> nth_error (idx st I) p = Some e ->
  exists r,
    resolve policy st (snd e) = Some r /\ dead r = false
    /\ sec_entry sI r = e
    /\ wf heap (fst (erase_view policy specs I st (Some p)))
    /\ idx (fst (erase_view policy specs I st (Some p))) I
       = remove_nth p (idx st I)
    /\ live (m_storage (fst (erase_view policy specs I st (Some p))))
       = filter (fun x => negb (addr x =? addr r)%nat) (live (m_storage st))
    /\ snd (erase_view policy specs I st (Some p))
       = (if (S p <? length (idx st I))%nat then Some p else None).
Proof.
  intros C HsI StI W Ne.
  destruct (nth_error_split _ _ Ne) as [pre [post [Ei Lp]]].
  destruct (erase_tag_step heap I sI st pre post e C HsI StI W Ei)
    as [r [Ir [D [Er [Th [W2 [Ix Lv]]]]]]].
  exists r.
  split.
  { unfold resolve. rewrite Th. apply deref_in; [|exact Ir].
    destruct W as [[_ [_ [N _]]] _]. exact N. }
  split; [exact D|]. split; [exact Er|].
  unfold erase_view. rewrite Ne, Th. cbv zeta. cbn [fst snd].
  rewrite <- Lp.
  split; [exact W2|]. split.
  { rewrite Ix, Ei. symmetry. apply remove_nth_split. }
  split; [exact Lv|].
  destruct (EraseByHandle_spec I heap st r C W Ir D)
    as [_ [_ [_ [_ [_ [_ [I1 _]]]]]]].
  rewrite I1, Ei, remove_nth_split, !length_app. cbn [length].
  destruct (length pre <? length pre + length post)%nat eqn:A;
    destruct (S (length pre) <? length pre + S (length post))%nat eqn:A';
    try reflexivity;
    [apply Nat.ltb_lt in A; apply Nat.ltb_ge in A'
    |apply Nat.ltb_ge in A; apply Nat.ltb_lt in A']; lia.
Qed.

Lemma size_live_bound (heap : nat) (st : T_MultiIndex) :
  wf heap st ->
  (Z.of_nat (length (live (m_storage st))) < size_max)%Z ->
  size policy st = Z.of_nat (length (live (m_storage st))).
Proof.
  intros W B. unfold size, GetLive. destruct c_tombstones eqn:T.
  - destruct W as [_ [_ Lo]]. rewrite (Lo T). apply size_wrap_small. lia.
  - rewrite live_all; [reflexivity|].
    destruct W as [[_ [_ [_ [_ [_ A]]]]] _]. apply A. exact T.
Qed.

Lemma sec_blocks (k : Z) (m : t_sec_map) :
  map_sorted skey m ->
  exists lo blk hi,
    m = lo ++ blk ++ hi
    /\ (forall x, In x lo -> (skey x < k)%Z)
    /\ (forall x, In x blk -> skey x = k)
    /\ (forall x, In x hi -> (k < skey x)%Z).
Proof.
  unfold map_sorted. induction m as [|x m IH]; intro S.
  - exists [], [], []. split; [reflexivity|].
    split; [intros x []|]. split; intros x [].
  - inversion S as [|? ? Sm Fx]; subst.
    rewrite Forall_forall in Fx.
    destruct (IH Sm) as [lo [blk [hi [E [Hlo [Hblk Hhi]]]]]].
    destruct (Z.lt_trichotomy (skey x) k) as [Lt|[Eq|Gt]].
    + exists (x :: lo), blk, hi.
      split; [simpl; rewrite E; reflexivity|].
      split; [intros y [<-|Hy]; auto|]. split; assumption.
    + assert (lo = []) as ->.
      { destruct lo as [|z lo]; [reflexivity|]. exfalso.
        assert (skey z < k)%Z by (apply Hlo; left; auto).
        assert (skey x <= skey z)%Z
          by (apply Fx; rewrite E; left; reflexivity).
        lia. }
      exists [], (x :: blk), hi.
      split; [simpl; simpl in E; rewrite E; reflexivity|].
      split; [intros z []|].
      split; [intros y [<-|Hy]; auto|assumption].
    + exists [], [], (x :: m).
      split; [reflexivity|]. split; [intros z []|]. split; [intros z []|].
      intros z [<-|Hz]; auto. specialize (Fx z Hz). lia.
Qed.

Lemma position_blocks (k : Z) (lo blk hi : t_sec_map) :
  (forall x, In x lo -> (skey x < k)%Z) ->
  (forall x, In x blk -> skey x = k) ->
  (forall x, In x hi -> (k < skey x)%Z) ->
  position k (lo ++ blk ++ hi)
  = match blk with [] => None | _ :: _ => Some (length lo) end.
Proof.
  intros Lo Bk Hi. induction lo as [|x lo IH].
  - cbn [app length]. destruct blk as [|b blk].
    + cbn [app]. apply position_none. intros e He K.
      specialize (Hi e He). lia.
    + cbn [app position]. rewrite (Bk b (or_introl eq_refl)), Z.eqb_refl.
      reflexivity.
  - cbn [app position length].
    assert (K : (skey x =? k)%Z = false).
    { apply Z.eqb_neq. specialize (Lo x (or_introl eq_refl)). lia. }
    rewrite K, IH by (intros y Hy; apply Lo; right; exact Hy).
    destruct blk; reflexivity.
Qed.

Lemma filter_blocks (k : Z) (lo blk hi : t_sec_map) :
  (forall x, In x lo -> (skey x < k)%Z) ->
  (forall x, In x blk -> skey x = k) ->
  (forall x, In x hi -> (k < skey x)%Z) ->
  filter (fun e => (skey e =? k)%Z) (lo ++ blk ++ hi) = blk.
Proof.
  intros Lo Bk Hi. rewrite !filter_app.
  rewrite (filter_none _ _ lo), (filter_none _ _ hi), (filter_keep _ _ blk).
  - apply app_nil_r.
  - intros x Hx. apply Z.eqb_eq. apply Bk. exact Hx.
  - intros x Hx. apply Z.eqb_neq. specialize (Hi x Hx). lia.
  - intros x Hx. apply Z.eqb_neq. specialize (Lo x Hx). lia.
Qed.

Lemma filter_absorb (B : Type) (f g : B -> bool) (l : list B) :
  (forall x, In x l -> g x = false -> f x = false) ->
  filter f (filter g l) = filter f l.
Proof.
  induction l as [|x l IH]; intro H; [reflexivity|].
  cbn [filter].
  assert (IH' := IH (fun y Hy => H y (or_intror Hy))).
  destruct (g x) eqn:G; cbn [filter]; rewrite IH'; [reflexivity|].
  rewrite (H x (or_introl eq_refl) G). reflexivity.
Qed.

Lemma erase_tag_loop_spec (heap : nat) (I : nat) (sI : T_Index Payload)
      (sk : Z) :
  config_ok -> nth_error specs I = Some sI -> is_storage sI = false ->
  forall run st pre post fuel removed,
    wf heap st -> idx st I = pre ++ run ++ post -> run <> [] ->
    (forall e, In e run -> skey e = sk) ->
    (forall e, In e post -> skey e <> sk) ->
    (is_unique sI = true -> length run = 1%nat) ->
    (length run <= fuel)%nat ->
    exists st',
      erase_tag_loop policy specs fuel I (is_unique sI) sk st (length pre)
                     removed
      = Some (st', size_wrap (removed + Z.of_nat (length run)))
      /\ wf heap st'
      /\ idx st' I = pre ++ post
      /\ filter (fun r => negb (Project sI (first r) (m_value r) =? sk)%Z)
                (live (m_storage st'))
         = filter (fun r => negb (Project sI (first r) (m_value r) =? sk)%Z)
                  (live (m_storage st)).
Proof.
  intros C HsI StI.
  induction run as [|e run IH]; intros st pre post fuel removed W Ei Ne Rk Pk
                                       Un Fu;
    [contradiction|].
  destruct fuel as [|fuel]; [simpl in Fu; lia|].
  cbn [app] in Ei.
  destruct (erase_tag_step heap I sI st pre (run ++ post) e C HsI StI W Ei)
    as [r [Ir [D [Er [Th [W2 [Ix Lv]]]]]]].
  set (st2 := set_idx I (remove_nth (length pre)
                                    (idx (EraseByHandle policy specs (Some I)
                                                        st (Some (addr r)))
                                         I))
                      (EraseByHandle policy specs (Some I) st
                                     (Some (addr r)))) in *.
  assert (Nth : nth_error (idx st I) (length pre) = Some e).
  { rewrite Ei, nth_error_app2, Nat.sub_diag; [reflexivity|lia]. }
  assert (Keep : filter (fun r => negb (Project sI (first r) (m_value r)
                                        =? sk)%Z)
                        (live (m_storage st2))
                 = filter (fun r => negb (Project sI (first r) (m_value r)
                                          =? sk)%Z)
                          (live (m_storage st))).
  { rewrite Lv. apply filter_absorb. intros x Hx G.
    apply negb_false_iff, Nat.eqb_eq in G.
    apply live_in in Hx. destruct Hx as [Hx _].
    assert (x = r).
    { destruct W as [[_ [_ [N _]]] _].
      apply (NoDup_map_inj _ _ (@addr Payload) (m_storage st) x r N);
        assumption. }
    subst x. apply negb_false_iff, Z.eqb_eq.
    rewrite <- (Rk e (or_introl eq_refl)), <- Er. reflexivity. }
  cbn [erase_tag_loop]. rewrite Nth, Th. fold st2.
  destruct (is_unique sI) eqn:U; cbn [negb].
  - specialize (Un eq_refl). destruct run as [|e' run]; [|simpl in Un; lia].
    exists st2. cbn [length app] in *. split; [reflexivity|].
    split; [exact W2|]. split; [exact Ix|exact Keep].
  - destruct run as [|e' run].
    + cbn [app] in Ix.
      assert (Done : match nth_error (idx st2 I) (length pre) with
                     | Some e' => negb (skey e' =? sk)%Z = true
                     | None => True
                     end).
      { rewrite Ix. destruct post as [|q post].
        - rewrite app_nil_r.
          replace (nth_error pre (length pre)) with (@None (Z * t_sec_value));
            [exact Logic.I|].
          symmetry. apply nth_error_None. lia.
        - rewrite nth_error_app2, Nat.sub_diag by lia. cbn [nth_error].
          apply negb_true_iff, Z.eqb_neq. apply Pk. left. reflexivity. }
      exists st2. cbn [length]. split.
      * destruct (nth_error (idx st2 I) (length pre)) as [q|];
          [rewrite Done|]; reflexivity.
      * split; [exact W2|]. split; [exact Ix|exact Keep].
    + assert (Nx : nth_error (idx st2 I) (length pre) = Some e').
      { rewrite Ix. cbn [app].
        rewrite nth_error_app2, Nat.sub_diag; [reflexivity|lia]. }
      rewrite Nx.
      assert (Ke : (skey e' =? sk)%Z = true).
      { apply Z.eqb_eq. apply Rk. right. left. reflexivity. }
      rewrite Ke. cbn [negb].
      destruct (IH st2 pre post fuel (size_wrap (removed + 1)) W2 Ix)
        as [st' [E [W' [Ix' Kp']]]].
      * discriminate.
      * intros q Hq. apply Rk. right. exact Hq.
      * exact Pk.
      * discriminate.
      * simpl in Fu. simpl. lia.
      * exists st'. split.
        -- rewrite E. f_equal. f_equal. unfold size_wrap.
           rewrite Zplus_mod_idemp_l. f_equal.
           cbn [length]. lia.
        -- split; [exact W'|]. split; [exact Ix'|].
           rewrite Kp'. exact Keep.
Qed.

Lemma storage_exists (l : list (T_Index Payload)) :
  fold_right (fun s n => ((if is_storage s then 1 else 0) + n)%nat) 0%nat l
  <> 0%nat ->
  exists I s, nth_error l I = Some s /\ is_storage s = true.
Proof.
  induction l as [|x l IH]; intro H; [contradiction H; reflexivity|].
  cbn [fold_right] in H. destruct (is_storage x) eqn:Sx.
  - exists 0%nat, x. split; [reflexivity|exact Sx].
  - destruct (IH H) as [I [s [N S]]]. exists (Datatypes.S I), s.
    split; assumption.
Qed.

Lemma secondary_not_primary (I : nat) (sI : T_Index Payload) :
  config_ok -> nth_error specs I = Some sI -> is_storage sI = false ->
  (I =? c_prim_idx specs)%nat = false.
Proof.
  intros C N IS. apply Nat.eqb_neq. intro E.
  destruct (storage_exists specs) as [J [s [Nj Sj]]].
  { destruct C as [P _]. unfold primary_count in P. rewrite P. discriminate. }
  pose proof (storage_one J s C Nj Sj) as Ej.
  rewrite <- E in Ej. subst J. rewrite N in Nj. injection Nj as <-.
  rewrite IS in Sj. discriminate.
Qed.

(** X18 -- Erase by secondary key.  On a well-formed container of fewer
    than [2^64] nodes, [erase<Tag>(sk)] on a secondary returns; it returns
    the number of live records that project to [sk]; afterwards the
    container is well-formed, its live records are the old ones that do
    not project to [sk], in the old order, the secondary holds no entry
    under [sk], and [size()] has dropped by the number returned.  When no
    live record projects to [sk] it returns 0 and changes nothing. *)
Theorem erase_by_subkey (heap : nat) (I : nat) (sI : T_Index Payload)
        (st : T_MultiIndex) (sk : Z) :
  config_ok -> wf heap st ->
  (Z.of_nat (length (m_storage st)) < size_max)%Z ->
  nth_error specs I = Some sI -> is_storage sI = false ->
  exists st',
    erase_tag policy specs I st sk
    = Some (st', Z.of_nat (length (with_subkey sI sk (m_storage st))))
    /\ wf heap st'
    /\ live (m_storage st')
       = filter (fun r => negb (Project sI (first r) (m_value r) =? sk)%Z)
                (live (m_storage st))
    /\ view_find st' I sk = None
    /\ size policy st'
       = (size policy st
          - Z.of_nat (length (with_subkey sI sk (m_storage st))))%Z
    /\ (with_subkey sI sk (m_storage st) = [] -> st' = st).
Proof.
  intros C W B HsI StI.
  assert (So : sec_ok sI (live (m_storage st)) (idx st I))
    by (destruct W as [_ [[_ So] _]]; apply (So I sI HsI StI)).
  destruct So as [P [Sd Nd]].
  destruct (sec_blocks sk (idx st I) Sd) as [lo [blk [hi [E [Lo [Bk Hi]]]]]].
  pose proof (view_entries heap st I sI sk W HsI StI) as Pe.
  rewrite E, (filter_blocks sk lo blk hi Lo Bk Hi) in Pe.
  assert (Lb : length blk = length (with_subkey sI sk (m_storage st))).
  { rewrite (Permutation_length Pe). apply length_map. }
  pose proof (live_length_le (m_storage st)) as Ll.
  assert (Lw : (length (with_subkey sI sk (m_storage st))
                <= length (live (m_storage st)))%nat).
  { unfold with_subkey. apply filter_length_le. }
  assert (Split : forall L : list t_pair,
             (length (filter (fun r => negb (Project sI (first r) (m_value r)
                                             =? sk)%Z) L)
              + length (filter (fun r => (Project sI (first r) (m_value r)
                                          =? sk)%Z) L)
              = length L)%nat).
  { intro L. rewrite Nat.add_comm.
    apply (filter_length
             (fun r => (Project sI (first r) (m_value r) =? sk)%Z) L). }
  unfold erase_tag. rewrite HsI, (secondary_not_primary I sI C HsI StI).
  cbn [negb].
  assert (Ps : position sk (idx st I)
               = match blk with [] => None | _ :: _ => Some (length lo) end)
    by (rewrite E; apply (position_blocks sk lo blk hi Lo Bk Hi)).
  rewrite Ps. clear Ps.
  destruct blk as [|b blk].
  - (* no entry under the sub-key *)
    assert (Ew : with_subkey sI sk (m_storage st) = []).
    { destruct (with_subkey sI sk (m_storage st)); [reflexivity|].
      cbn [length] in Lb. discriminate. }
    assert (Fl : filter (fun r => negb (Project sI (first r) (m_value r)
                                        =? sk)%Z) (live (m_storage st))
                 = live (m_storage st)).
    { apply filter_keep. intros x Hx. apply negb_true_iff.
      destruct (Project sI (first x) (m_value x) =? sk)%Z eqn:K;
        [|reflexivity].
      exfalso.
      assert (In x (with_subkey sI sk (m_storage st)))
        by (apply filter_In; split; assumption).
      rewrite Ew in H. destruct H. }
    exists st. rewrite Ew. cbn [length].
    split; [reflexivity|]. split; [exact W|]. split; [symmetry; exact Fl|].
    split.
    { unfold view_find. rewrite E.
      apply (position_blocks sk lo [] hi Lo Bk Hi). }
    split; [lia|reflexivity].
  - destruct (erase_tag_loop_spec heap I sI sk C HsI StI (b :: blk) st lo hi
                                  (S (length (idx st I))) 0%Z W E)
      as [st' [El [W' [Ix Kp]]]].
    + discriminate.
    + exact Bk.
    + intros e He K. specialize (Hi e He). lia.
    + intro U.
      pose proof (filter_key_le_one _ skey sk (idx st I) (Nd U)) as Le.
      rewrite E, (filter_blocks sk lo (b :: blk) hi Lo Bk Hi) in Le.
      cbn [length] in *. lia.
    + rewrite E, !length_app. lia.
    + assert (So' : sec_ok sI (live (m_storage st')) (idx st' I))
        by (destruct W' as [_ [[_ So'] _]]; apply (So' I sI HsI StI)).
      destruct So' as [P' _].
      assert (Fl : filter (fun r => negb (Project sI (first r) (m_value r)
                                          =? sk)%Z) (live (m_storage st'))
                   = live (m_storage st')).
      { apply filter_keep. intros x Hx. apply negb_true_iff, Z.eqb_neq.
        assert (Ie : In (sec_entry sI x) (idx st' I)).
        { apply (Permutation_in _ (Permutation_sym P')). apply in_map.
          exact Hx. }
        rewrite Ix in Ie. apply in_app_iff in Ie.
        change (Project sI (first x) (m_value x)) with (skey (sec_entry sI x)).
        destruct Ie as [Ie|Ie]; [specialize (Lo _ Ie)|specialize (Hi _ Ie)];
          lia. }
      assert (Lv : live (m_storage st')
                   = filter (fun r => negb (Project sI (first r) (m_value r)
                                            =? sk)%Z) (live (m_storage st)))
        by (rewrite <- Fl; exact Kp).
      exists st'. split.
      { rewrite El. f_equal. f_equal. rewrite Z.add_0_l, Lb.
        apply size_wrap_small. lia. }
      split; [exact W'|]. split; [exact Lv|].
      split.
      { unfold view_find. rewrite Ix.
        pose proof (position_blocks sk lo [] hi Lo) as X. cbn [app] in X.
        apply X; [intros x []|exact Hi]. }
      split.
      { pose proof (Split (live (m_storage st))) as Sp.
        fold (with_subkey sI sk (m_storage st)) in Sp. rewrite <- Lv in Sp.
        rewrite (size_live_bound heap st' W') by lia.
        rewrite (size_live heap st W B). lia. }
      intro Ew. rewrite Ew in Lb. cbn [length] in Lb. discriminate.
Qed.

(** * Copies under the policies that do not invalidate *)

Lemma clone_spec (m : list t_pair) :
  forall heap,
    fst (clone_nodes heap m) = (heap + length m)%nat
    /\ map (@key_payload Payload) (snd (clone_nodes heap m))
       = map (@key_payload Payload) m
    /\ map (@dead Payload) (snd (clone_nodes heap m)) = map (@dead Payload) m
    /\ map (@addr Payload) (snd (clone_nodes heap m)) = seq heap (length m).
Proof.
  induction m as [|x m IH]; intro heap.
  - cbn. rewrite Nat.add_0_r. auto.
  - cbn [clone_nodes]. destruct (IH (S heap)) as [F [K [D A]]].
    destruct (clone_nodes (S heap) m) as [heap' c]. cbn [fst snd] in *.
    cbn [map length seq]. rewrite K, D, A, F.
    split; [lia|]. auto.
Qed.

Lemma map_sorted_keys (B D : Type) (f : B -> Z) (g : D -> Z)
      (l : list B) (l' : list D) :
  map f l = map g l' -> map_sorted f l -> map_sorted g l'.
Proof.
  unfold map_sorted. revert l'. induction l as [|x l IH]; intros l' E S.
  - destruct l'; [constructor|discriminate].
  - destruct l' as [|y l']; [discriminate|].
    cbn [map] in E. injection E as Exy El.
    inversion S as [|? ? Sl Fx]; subst. constructor; [apply IH; assumption|].
    rewrite Forall_forall in *. intros b Hb.
    assert (Ib : In (g b) (map f l)) by (rewrite El; apply in_map; exact Hb).
    apply in_map_iff in Ib. destruct Ib as [a [Ea Ia]].
    rewrite <- Exy, <- Ea. apply Fx. exact Ia.
Qed.

Lemma key_payload_first (l l' : list t_pair) :
  map (@key_payload Payload) l = map (@key_payload Payload) l' ->
  map (@first Payload) l = map (@first Payload) l'.
Proof.
  intro E. rewrite !map_first_key_payload, E. reflexivity.
Qed.

Lemma key_payload_proj (s : T_Index Payload) (l l' : list t_pair) :
  map (@key_payload Payload) l = map (@key_payload Payload) l' ->
  map (fun r => Project s (first r) (m_value r)) l
  = map (fun r => Project s (first r) (m_value r)) l'.
Proof.
  intro E.
  assert (X : forall m : list t_pair,
             map (fun r => Project s (first r) (m_value r)) m
             = map (fun kp => Project s (fst kp) (snd kp))
                   (map (@key_payload Payload) m)).
  { intro m. rewrite map_map. reflexivity. }
  rewrite !X, E. reflexivity.
Qed.

Lemma clone_storage_ok (heap : nat) (rhs st : T_MultiIndex) :
  c_tombstones = false -> c_needs_transl_array = false ->
  storage_ok heap rhs ->
  m_storage st = snd (clone_nodes heap (m_storage rhs)) ->
  storage_ok (fst (clone_nodes heap (m_storage rhs))) st.
Proof.
  intros T Tr [Sd [Un [_ [_ [_ Al]]]]] Es.
  destruct (clone_spec (m_storage rhs) heap) as [F [K [D A]]].
  rewrite <- Es in K, D, A. rewrite F.
  pose proof (key_payload_first _ _ K) as Kf.
  split.
  { apply (map_sorted_keys _ _ (@first Payload) (@first Payload)
                           (m_storage rhs) (m_storage st));
      [symmetry; exact Kf|exact Sd]. }
  split; [intro U; rewrite Kf; apply (Un U)|].
  split; [rewrite A; apply seq_NoDup|].
  split.
  { intros r Hr. assert (Ia : In (addr r) (map (@addr Payload) (m_storage st)))
      by (apply in_map; exact Hr).
    rewrite A in Ia. apply in_seq in Ia. lia. }
  split; [intro X; rewrite Tr in X; discriminate|].
  intros _ r Hr.
  assert (Id : In (dead r) (map (@dead Payload) (m_storage st)))
    by (apply in_map; exact Hr).
  rewrite D in Id. apply in_map_iff in Id. destruct Id as [r0 [E0 I0]].
  rewrite <- E0. apply (Al T r0 I0).
Qed.

Lemma AddSecs_fold (heap : nat) (nodes : list t_pair) :
  config_ok ->
  (forall j s, nth_error specs j = Some s -> is_storage s = false ->
               is_unique s = true ->
               NoDup (map (fun r => Project s (first r) (m_value r)) nodes)) ->
  forall todo done st,
    storage_ok heap st -> m_storage st = nodes ->
    nodes = rev done ++ todo ->
    secondaries_ok st done ->
    storage_ok heap
               (fold_left (fun st pr => fst (AddSecs no_throw st pr)) todo st)
    /\ frame st (fold_left (fun st pr => fst (AddSecs no_throw st pr)) todo st)
    /\ secondaries_ok
         (fold_left (fun st pr => fst (AddSecs no_throw st pr)) todo st)
         (rev todo ++ done).
Proof.
  intros C Nd. induction todo as [|h todo IH]; intros done st S Es En So.
  - cbn [fold_left rev app]. split; [exact S|]. split; [apply frame_refl|].
    exact So.
  - cbn [fold_left].
    assert (Nn : NoDup nodes).
    { destruct S as [_ [_ [N _]]]. rewrite Es in N.
      apply NoDup_map_inv in N. exact N. }
    assert (Hh : In h (m_storage st)).
    { rewrite Es, En. apply in_app_iff. right. left. reflexivity. }
    assert (HL : forall r, In r done -> In r (m_storage st) /\ r <> h).
    { intros r Hr. split.
      - rewrite Es, En. apply in_app_iff. left. apply in_rev in Hr. exact Hr.
      - intro X. subst r. rewrite En in Nn. apply NoDup_remove_2 in Nn.
        apply Nn. apply in_app_iff. left. apply in_rev in Hr. exact Hr. }
    destruct (AddSecs no_throw st h) as [st1 o] eqn:EA.
    pose proof (AddSecs_wf no_throw heap st done h C S Hh So HL st1 o EA) as G.
    cbn [fst].
    destruct o as [[|]|].
    + destruct G as [F [So1 _]]. destruct F as [F1 [F2 [F3 F4]]].
      assert (S1 : storage_ok heap st1)
        by (apply (storage_ok_ext heap st st1 F1 F2 S)).
      destruct (IH (h :: done) st1 S1) as [S' [F' So']].
      * rewrite F1. exact Es.
      * rewrite En. cbn [rev]. list_eq.
      * exact So1.
      * split; [exact S'|]. split.
        -- apply (frame_trans st st1 _); [|exact F'].
           split; [exact F1|]. split; [exact F2|]. split; assumption.
        -- cbn [rev]. replace ((rev todo ++ [h]) ++ done)
             with (rev todo ++ h :: done) by list_eq. exact So'.
    + exfalso. destruct G as [_ [j [[s [N [IS [_ [U M]]]]] _]]].
      apply map_contains_true in M. destruct M as [e [Ie Ke]].
      destruct So as [_ So]. destruct (So j s N IS) as [P _].
      apply (Permutation_in _ P) in Ie. apply in_map_iff in Ie.
      destruct Ie as [r' [<- Ir']].
      destruct (HL r' Ir') as [Ir Ne]. apply Ne.
      apply (NoDup_map_inj _ _ _ nodes r' h (Nd j s N IS U)).
      * rewrite <- Es. exact Ir.
      * rewrite <- Es. exact Hh.
      * exact Ke.
    + exfalso. destruct G as [_ [j [[s [_ [_ T]]] _]]]. discriminate T.
Qed.

Lemma stable_copy_main (heap : nat) (rhs st0 : T_MultiIndex) :
  config_ok -> c_tombstones = false -> c_needs_transl_array = false ->
  wf heap rhs ->
  m_storage st0 = snd (clone_nodes heap (m_storage rhs)) ->
  secondaries_ok st0 [] ->
  wf (fst (clone_nodes heap (m_storage rhs)))
     (fold_left (fun st pr => fst (AddSecs no_throw st pr))
                (snd (clone_nodes heap (m_storage rhs))) st0)
  /\ m_storage (fold_left (fun st pr => fst (AddSecs no_throw st pr))
                          (snd (clone_nodes heap (m_storage rhs))) st0)
     = snd (clone_nodes heap (m_storage rhs)).
Proof.
  intros C T Tr W Es So0.
  set (nodes := snd (clone_nodes heap (m_storage rhs))) in *.
  set (heap' := fst (clone_nodes heap (m_storage rhs))) in *.
  destruct (clone_spec (m_storage rhs) heap) as [_ [K [D _]]].
  fold nodes in K, D.
  assert (S0 : storage_ok heap' st0)
    by (apply (clone_storage_ok heap rhs st0 T Tr (proj1 W) Es)).
  assert (AllR : forall r, In r (m_storage rhs) -> dead r = false)
    by (destruct W as [[_ [_ [_ [_ [_ A]]]]] _]; apply A; exact T).
  assert (AllN : forall r, In r nodes -> dead r = false).
  { destruct S0 as [_ [_ [_ [_ [_ A]]]]]. rewrite <- Es. apply A. exact T. }
  assert (Nd : forall j s, nth_error specs j = Some s -> is_storage s = false ->
                 is_unique s = true ->
                 NoDup (map (fun r => Project s (first r) (m_value r)) nodes)).
  { intros j s N IS U. rewrite (key_payload_proj s nodes (m_storage rhs) K).
    destruct W as [_ [[_ So] _]]. destruct (So j s N IS) as [P [_ Nu]].
    specialize (Nu U).
    assert (X : NoDup (map (@fst Z t_sec_value)
                           (map (sec_entry s) (live (m_storage rhs))))).
    { eapply Permutation_NoDup; [|exact Nu]. apply Permutation_map. exact P. }
    rewrite map_map, (live_all _ AllR) in X. exact X. }
  destruct (AddSecs_fold heap' nodes C Nd nodes [] st0 S0 Es eq_refl So0)
    as [S' [[F1 [F2 [F3 F4]]] So']].
  split; [|rewrite F1; exact Es].
  split; [exact S'|]. split.
  - rewrite F1, Es, (live_all _ AllN).
    apply (secondaries_ok_perm _ (rev nodes ++ []) nodes); [|exact So'].
    rewrite app_nil_r. apply Permutation_sym, Permutation_rev.
  - intro X. rewrite T in X. discriminate.
Qed.

(** X19 -- Copy under a policy that does not invalidate.  Under [S_NoInv]
    and [S_KeyLookupPolicy], copy construction from [rhs] and copy
    assignment of [rhs], when no insert throws, give a well-formed
    container on nodes of its own that holds the keys and payloads of
    [rhs] in the same order, with the secondaries rebuilt for them, and
    the same [size()]. *)
Theorem copy_stable (heap : nat) (this rhs : T_MultiIndex) :
  config_ok -> c_invalidates policy = false ->
  wf heap rhs -> wf heap this ->
  (wf (fst (copy_construct_stable policy specs heap rhs))
      (snd (copy_construct_stable policy specs heap rhs))
   /\ content (m_storage (snd (copy_construct_stable policy specs heap rhs)))
      = content (m_storage rhs)
   /\ size policy (snd (copy_construct_stable policy specs heap rhs))
      = size policy rhs
   /\ (forall r, In r (m_storage
                         (snd (copy_construct_stable policy specs heap rhs)))
                 -> (heap <= addr r)%nat))
  /\ (wf (fst (CopyAssignCore policy specs heap this rhs))
         (snd (CopyAssignCore policy specs heap this rhs))
      /\ content (m_storage (snd (CopyAssignCore policy specs heap this rhs)))
         = content (m_storage rhs)
      /\ size policy (snd (CopyAssignCore policy specs heap this rhs))
         = size policy rhs
      /\ (forall r, In r (m_storage
                            (snd (CopyAssignCore policy specs heap this rhs)))
                    -> (heap <= addr r)%nat)).
Proof.
  intros C Inv W Wt.
  assert (T : c_tombstones = false)
    by (unfold c_tombstones; destruct policy; try discriminate; reflexivity).
  assert (Tr : c_needs_transl_array = false)
    by (unfold c_needs_transl_array; destruct policy; try discriminate;
        reflexivity).
  destruct (clone_spec (m_storage rhs) heap) as [_ [K [_ A]]].
  assert (AllR : forall r, In r (m_storage rhs) -> dead r = false)
    by (destruct W as [[_ [_ [_ [_ [_ Al]]]]] _]; apply Al; exact T).
  assert (Main : forall st0,
             m_storage st0 = snd (clone_nodes heap (m_storage rhs)) ->
             secondaries_ok st0 [] ->
             let F := fold_left (fun st pr => fst (AddSecs no_throw st pr))
                                (snd (clone_nodes heap (m_storage rhs))) st0 in
             wf (fst (clone_nodes heap (m_storage rhs))) F
             /\ content (m_storage F) = content (m_storage rhs)
             /\ size policy F = size policy rhs
             /\ (forall r, In r (m_storage F) -> (heap <= addr r)%nat)).
  { intros st0 Es So0 F.
    destruct (stable_copy_main heap rhs st0 C T Tr W Es So0) as [W' Em].
    fold F in W', Em.
    assert (AllN : forall r, In r (m_storage F) -> dead r = false)
      by (destruct W' as [[_ [_ [_ [_ [_ Al]]]]] _]; apply Al; exact T).
    split; [exact W'|]. split.
    { unfold content. rewrite (live_all _ AllN), (live_all _ AllR), Em.
      exact K. }
    split.
    { unfold size. rewrite T, Em.
      rewrite <- (length_map (@key_payload Payload)
                             (snd (clone_nodes heap (m_storage rhs)))), K.
      rewrite length_map. reflexivity. }
    intros r Hr. rewrite Em in Hr.
    assert (Ia : In (addr r) (seq heap (length (m_storage rhs))))
      by (rewrite <- A; apply in_map; exact Hr).
    apply in_seq in Ia. lia. }
  split.
  - unfold copy_construct_stable.
    destruct (clone_nodes heap (m_storage rhs)) as [heap' nodes] eqn:Ec.
    cbn [fst snd] in *. apply Main; [reflexivity|].
    split; [cbn; apply length_map|].
    intros j s N IS. unfold idx. cbn [m_second]. rewrite nth_map_nil.
    apply sec_ok_nil.
  - unfold CopyAssignCore. rewrite Inv.
    destruct (clone_nodes heap (m_storage rhs)) as [heap' nodes] eqn:Ec.
    cbn [fst snd] in *.
    assert (Ln : length (m_second this) = length specs)
      by (destruct Wt as [_ [[Ln _] _]]; exact Ln).
    destruct (ClearSecondaries_spec
                (mk_mi nodes (m_second this) (transl rhs) (m_live rhs)) Ln)
      as [[F1 [_ [_ F4]]] Ix].
    apply Main; [exact F1|].
    split; [rewrite F4; exact Ln|].
    intros j s N IS. rewrite (Ix j s N IS). apply sec_ok_nil.
Qed.

(** * The edit proxy *)

Lemma Revive_emplace (throws : nat -> bool) (heap : nat) (st : T_MultiIndex)
      (k : Z) (v : Payload) (r : t_pair)
      (heap' : nat) (st' : T_MultiIndex) (it : t_iter) (b : bool) :
  c_primary_is_unique = true -> c_tombstones = true ->
  map_find (@first Payload) k (m_storage st) = Some r -> dead r = true ->
  emplace throws heap st k v = (heap', st', Returned (it, b)) ->
  Revive policy specs throws st r v = (st', Returned b).
Proof.
  intros U T Mf D E. unfold emplace in E. rewrite U, T in E.
  cbn [andb] in E. rewrite Mf, D in E. unfold Revive.
  destruct (AddSecs throws
                    (set_storage (write (set_value v (set_dead false r))
                                        (m_storage st)) st)
                    (set_value v (set_dead false r))) as [st2 [[|]|]];
    inversion E; reflexivity.
Qed.

Lemma edit_commit_spec (throws : nat -> bool) (heap : nat)
      (st : T_MultiIndex) (k : Z) (dflt : Payload)
      (edit : Payload -> Payload) :
  config_ok -> wf heap st -> c_primary_is_unique = true ->
  sound_eq operator_eq ->
  (forall j, throws j = false) ->
  ~ blocked specs st k (edit (buffered st k dflt)) ->
  (Z.of_nat (length (m_storage st)) + 1 < size_max)%Z ->
  exists heap' st' r,
    edit_commit operator_eq policy specs throws heap st k dflt edit
    = (heap', st', Returned true)
    /\ wf heap' st'
    /\ In r (m_storage st')
    /\ first r = k /\ m_value r = edit (buffered st k dflt)
    /\ dead r = false.
Proof.
  intros C W U Se NT NB B. unfold edit_commit. cbv zeta.
  set (buf := edit (buffered st k dflt)) in *.
  assert (N : NoDup (map (@addr Payload) (m_storage st)))
    by (destruct W as [[_ [_ [N _]]] _]; exact N).
  assert (B' : (Z.of_nat (length (m_storage st)) < size_max)%Z) by lia.
  destruct (map_find (@first Payload) k (m_storage st)) as [r0|] eqn:Mf.
  - destruct (map_find_some k (m_storage st) r0 Mf) as [Ir0 K0].
    pose proof (deref_in (m_storage st) r0 N Ir0) as Dq.
    destruct (dead r0) eqn:D0.
    + (* a tombstone: Revive *)
      assert (T : c_tombstones = true).
      { destruct c_tombstones eqn:T; [reflexivity|].
        destruct W as [[_ [_ [_ [_ [_ Al]]]]] _].
        rewrite (Al T r0 Ir0) in D0. discriminate. }
      rewrite T. cbn [negb].
      assert (NoLive : forall r', In r' (m_storage st) -> dead r' = false ->
                                  first r' <> k).
      { intros r' Ir' Dr' K.
        assert (r' = r0).
        { destruct W as [[_ [Un _]] _].
          apply (NoDup_map_inj _ _ (@first Payload) (m_storage st) r' r0
                               (Un U)); try assumption. congruence. }
        subst r'. rewrite D0 in Dr'. discriminate. }
      assert (NR : ~ rejects_entry specs st k buf).
      { intro R. apply NB. apply (rejects_blocked heap st k buf W NoLive R). }
      destruct (emplace throws heap st k buf) as [[heap' st'] res] eqn:E.
      destruct (emplace_revive throws heap st k buf r0 C W U T Mf D0
                               heap' st' res E)
        as [Hh [W' [_ Cases]]].
      cbv zeta in Cases. subst heap'.
      set (h := set_value buf (set_dead false r0)) in *.
      destruct Cases as [[R [Es _]] | [[[_ [j [Rj _]]]
                                       | [_ [j [[s [_ [_ Th]]] _]]]] _]].
      * rewrite R in E.
        rewrite (Revive_emplace throws heap st k buf r0 heap st' _ true
                                U T Mf D0 E).
        exists heap, st', h. split; [reflexivity|]. split; [exact W'|].
        pose proof (deref_write heap st st' r0 h (proj1 W) (proj1 W') Ir0
                                eq_refl Es) as Dw.
        destruct (deref_some _ _ _ Dw) as [I' _].
        split; [exact I'|]. split; [exact K0|]. split; reflexivity.
      * exfalso. apply NR.
        pose proof (rejecting_rejects throws st h j Rj) as X.
        cbn [h first m_value set_value set_dead] in X. rewrite K0 in X.
        exact X.
      * rewrite NT in Th. discriminate.
    + (* a live record: Replace *)
      assert (Rp : exists st',
                 Replace operator_eq policy specs true throws st
                         (Some (addr r0)) buf = (st', Returned true)
                 /\ wf heap st'
                 /\ exists r, In r (m_storage st') /\ first r = k
                              /\ m_value r = buf /\ dead r = false).
      { unfold Replace. rewrite Dq.
        destruct (match operator_eq with
                  | Some eqb =>
                      if true
                      then (if c_tombstones then negb (dead r0) else true)
                           && eqb (m_value r0) buf
                      else false
                  | None => false
                  end) eqn:Sc.
        - exists st. split; [reflexivity|]. split; [exact W|].
          exists r0. split; [exact Ir0|]. split; [exact K0|].
          split; [|exact D0].
          destruct operator_eq as [eqb|] eqn:Oe; [|discriminate].
          apply andb_true_iff in Sc. destruct Sc as [_ Eq].
          apply (Se eqb _ _ eq_refl Eq).
        - assert (NC : ~ collides specs st r0 ((fun _ => buf) (m_value r0))).
          { intro Co. apply NB. rewrite <- K0.
            apply (collides_blocked heap st r0 buf W U Ir0 Co). }
          destruct (UpdateCore_accepted throws heap st (addr r0) r0
                                        (fun _ => buf) C W Dq NT NC B')
            as [st' [E [W' [D' _]]]].
          exists st'. split; [exact E|]. split; [exact W'|].
          exists (set_value buf (set_dead false r0)).
          destruct (deref_some _ _ _ D') as [I' _].
          split; [exact I'|]. split; [exact K0|]. split; reflexivity. }
      destruct Rp as [st' [E [W' [r [Ir [K [V D]]]]]]].
      exists heap, st', r.
      split.
      { destruct c_tombstones; cbn [negb]; rewrite E; reflexivity. }
      split; [exact W'|]. auto.
  - (* a new key: emplace *)
    assert (New : c_primary_is_unique = true ->
                  ~ In k (map (@first Payload) (m_storage st))).
    { intros _. apply map_find_none. exact Mf. }
    assert (NoLive : forall r', In r' (m_storage st) -> dead r' = false ->
                                first r' <> k).
    { intros r' Ir' _ K. apply (New U). rewrite <- K. apply in_map.
      exact Ir'. }
    assert (NR : ~ rejects_entry specs st k buf).
    { intro R. apply NB. apply (rejects_blocked heap st k buf W NoLive R). }
    destruct (emplace throws heap st k buf) as [[heap' st'] res] eqn:E.
    destruct (emplace_new throws heap st k buf C W New heap' st' res E)
      as [Hh Cases].
    cbv zeta in Cases. subst heap'.
    set (h := mk_pair heap k buf false
                      (if c_needs_transl_array then length (transl st)
                       else 0%nat)) in *.
    destruct Cases as [[R [W' [Es _]]] | [[_ [_ [j [Rj _]]]]
                                         | [_ [_ [j [[s [_ [_ Th]]] _]]]]]].
    + exists (S heap), st', h. rewrite R.
      split; [reflexivity|]. split; [exact W'|].
      split; [rewrite Es; apply map_insert_in; left; reflexivity|].
      split; [reflexivity|]. split; reflexivity.
    + exfalso. apply NR. apply (rejecting_rejects throws st h j Rj).
    + rewrite NT in Th. discriminate.
Qed.

(** X20 -- Edit through [operator[]].  On a well-formed container with a
    unique primary, a sound [operator==], no throwing insert, and an
    edited payload that no live record with another key blocks under a
    unique secondary: [mi[k]], an edit of the buffered payload and
    [commit()] return [true]; afterwards the container is well-formed and
    [find(k)] is a live record with key [k] whose payload is the edit of
    what the proxy had buffered -- the payload of the node with key [k],
    tombstone included, or the value-initialised payload when the key was
    new. *)
Theorem edit_commit_stores (throws : nat -> bool) (heap : nat)
        (st : T_MultiIndex) (k : Z) (dflt : Payload)
        (edit : Payload -> Payload) :
  config_ok -> wf heap st -> c_primary_is_unique = true ->
  sound_eq operator_eq ->
  (forall j, throws j = false) ->
  ~ blocked specs st k (edit (buffered st k dflt)) ->
  (Z.of_nat (length (m_storage st)) + 1 < size_max)%Z ->
  exists heap' st' r,
    edit_commit operator_eq policy specs throws heap st k dflt edit
    = (heap', st', Returned true)
    /\ wf heap' st'
    /\ find_ policy specs st' k = Some (addr r)
    /\ deref (m_storage st') (addr r) = Some r
    /\ first r = k /\ m_value r = edit (buffered st k dflt)
    /\ dead r = false.
Proof.
  intros C W U Se NT NB B.
  destruct (edit_commit_spec throws heap st k dflt edit C W U Se NT NB B)
    as [heap' [st' [r [E [W' [Ir [K [V D]]]]]]]].
  exists heap', st', r. split; [exact E|]. split; [exact W'|].
  split; [rewrite <- K; apply (find_unique_live heap' st' r (proj1 W') U Ir D)|].
  split; [|auto].
  destruct W' as [[_ [_ [N _]]] _]. apply (deref_in _ _ N Ir).
Qed.

(** * Operations in sequence *)

(** X21 -- Erase by key, then look up.  On a well-formed container of
    fewer than [2^64] nodes, after [erase(k)] the container holds no live
    record with key [k]: [find(k)] is [end()], [contains(k)] is false,
    [count(k)] is 0, and a second [erase(k)] returns 0 and changes
    nothing; the records with other keys are untouched. *)
Theorem erase_key_then_lookup (heap : nat) (st st' : T_MultiIndex)
        (k : Z) (n : Z) :
  config_ok -> wf heap st ->
  (Z.of_nat (length (m_storage st)) < size_max)%Z ->
  erase_key st k = Some (st', n) ->
  find_ policy specs st' k = end_
  /\ contains policy specs st' k = false
  /\ erase_key st' k = Some (st', 0%Z)
  /\ (forall k', k' <> k ->
        with_key k' (live (m_storage st')) = with_key k' (live (m_storage st))).
Proof.
  intros C W B E.
  destruct (erase_key_spec heap st k C W) as [Es W'].
  rewrite Es in E. injection E as E _. rewrite E in W'.
  pose proof (erase_key_content heap st k C W) as Lv. rewrite E in Lv.
  assert (NoK : forall r, In r (m_storage st') -> first r = k ->
                          dead r = true).
  { intros r Ir K. destruct (dead r) eqn:D; [reflexivity|]. exfalso.
    assert (Il : In r (live (m_storage st'))) by (apply live_in; auto).
    rewrite Lv in Il. apply filter_In in Il. destruct Il as [_ X].
    rewrite K, Z.eqb_refl in X. discriminate. }
  assert (Fl : first_live k (m_storage st') = None).
  { unfold first_live. apply find_absent. intros x Hx.
    destruct (first x =? k)%Z eqn:K; [|reflexivity].
    apply Z.eqb_eq in K. rewrite (NoK x Hx K). reflexivity. }
  assert (Fk : find_ policy specs st' k = end_).
  { rewrite (find_live heap st' k (proj1 W')), Fl. reflexivity. }
  split; [exact Fk|]. split; [unfold contains; rewrite Fk; reflexivity|].
  split.
  - destruct (erase_key_spec heap st' k C W') as [Es' _]. rewrite Es'.
    assert (Em : live (with_key k (m_storage st')) = []).
    { unfold live, with_key. rewrite filter_twice. apply filter_none.
      intros x Hx. destruct (first x =? k)%Z eqn:K; [|reflexivity].
      apply Z.eqb_eq in K. rewrite (NoK x Hx K). reflexivity. }
    rewrite Em. reflexivity.
  - intros k' Nk. rewrite Lv. unfold with_key. rewrite filter_twice.
    apply filter_ext. intro x.
    destruct (first x =? k')%Z eqn:K'; [|apply andb_false_r].
    rewrite andb_true_r. apply negb_true_iff, Z.eqb_neq.
    apply Z.eqb_eq in K'. congruence.
Qed.

(** X22 -- Emplace, then look up.  After an [emplace(k, v)] that returned
    [true] on a well-formed container, [contains(k)] holds and [find(k)]
    is a live record with key [k] -- the new node itself when the primary
    is unique -- and every secondary finds a record under the sub-key the
    new record projects to. *)
Theorem emplace_then_lookup (throws : nat -> bool) (heap : nat)
        (st : T_MultiIndex) (k : Z) (v : Payload)
        (heap' : nat) (st' : T_MultiIndex) (it : t_iter) :
  config_ok -> wf heap st ->
  emplace throws heap st k v = (heap', st', Returned (it, true)) ->
  contains policy specs st' k = true
  /\ (exists r, find_ policy specs st' k = Some (addr r)
                /\ In r (m_storage st') /\ first r = k /\ dead r = false)
  /\ (c_primary_is_unique = true ->
      find_ policy specs st' k = it
      /\ exists r, resolve policy st' (GetSecondaryValue r) = Some r
                   /\ it = Some (addr r) /\ first r = k /\ m_value r = v)
  /\ (forall I sp, nth_error specs I = Some sp -> is_storage sp = false ->
                   view_contains st' I (Project sp k v) = true).
Proof.
  intros C W E.
  pose proof (emplace_wf throws heap st k v C W heap' st' _ E) as W'.
  (* the record the call has written *)
  assert (Rec : exists r, In r (m_storage st') /\ first r = k
                          /\ m_value r = v /\ dead r = false
                          /\ it = Some (addr r)).
  { destruct (if c_primary_is_unique && c_tombstones
              then map_find (@first Payload) k (m_storage st) else None)
      as [r0|] eqn:Rv.
    - destruct c_primary_is_unique eqn:U; [|discriminate].
      destruct c_tombstones eqn:T; [|discriminate]. cbn [andb] in Rv.
      destruct (dead r0) eqn:D0.
      + destruct (map_find_some k _ r0 Rv) as [Ir0 K0].
        destruct (emplace_revive throws heap st k v r0 C W U T Rv D0
                                 heap' st' _ E) as [Hh [_ [_ Cases]]].
        cbv zeta in Cases. subst heap'.
        destruct Cases as [[R [Es _]] | [[[R _] | [R _]] _]];
          try discriminate R.
        injection R as ->.
        exists (set_value v (set_dead false r0)).
        pose proof (deref_write heap st st' r0
                                (set_value v (set_dead false r0))
                                (proj1 W) (proj1 W') Ir0 eq_refl Es) as Dw.
        destruct (deref_some _ _ _ Dw) as [I' _].
        split; [exact I'|]. split; [exact K0|]. repeat split.
      + exfalso.
        rewrite (emplace_present throws heap st k v r0 U Rv (fun _ => D0))
          in E. inversion E.
    - assert (New : c_primary_is_unique = true ->
                    ~ In k (map (@first Payload) (m_storage st))).
      { intros U. apply map_contains_false.
        destruct (map_contains (@first Payload) k (m_storage st)) eqn:Mc;
          [|reflexivity].
        exfalso. unfold emplace in E. rewrite Rv, U, Mc in E.
        cbn [andb] in E. inversion E. }
      destruct (emplace_new throws heap st k v C W New heap' st' _ E)
        as [_ Cases].
      cbv zeta in Cases.
      destruct Cases as [[R [_ [Es _]]] | [[R _] | [R _]]];
        try discriminate R.
      injection R as ->.
      eexists. split; [rewrite Es; apply map_insert_in; left; reflexivity|].
      repeat split. }
  destruct Rec as [r [Ir [K [V [D Eit]]]]].
  assert (Ex : exists r, In r (m_storage st') /\ first r = k
                         /\ dead r = false) by (exists r; auto).
  assert (Fl : first_live k (m_storage st') <> None)
    by (apply first_live_iff; exact Ex).
  pose proof (find_live heap' st' k (proj1 W')) as F.
  split.
  { unfold contains. rewrite F.
    destruct (first_live k (m_storage st')); [reflexivity|contradiction]. }
  split.
  { destruct (first_live k (m_storage st')) as [r1|] eqn:E1;
      [|contradiction].
    unfold first_live in E1. apply find_some in E1. destruct E1 as [I1 P1].
    apply andb_true_iff in P1. destruct P1 as [K1 D1].
    exists r1. split; [exact F|]. split; [exact I1|].
    split; [apply Z.eqb_eq; exact K1|].
    destruct (dead r1); [discriminate|reflexivity]. }
  split.
  { intro U. split.
    - rewrite Eit, <- K.
      apply (find_unique_live heap' st' r (proj1 W') U Ir D).
    - exists r. split; [apply (resolve_entry heap' st' r C (proj1 W') Ir)|].
      auto. }
  intros I sp N IS. unfold view_contains, view_find.
  destruct (position (Project sp k v) (idx st' I)) eqn:P; [reflexivity|].
  exfalso. rewrite position_none in P.
  destruct W' as [_ [[_ So] _]]. destruct (So I sp N IS) as [Pm _].
  apply (P (sec_entry sp r)).
  - apply (Permutation_in _ (Permutation_sym Pm)). apply in_map.
    apply live_in. auto.
  - cbn [sec_entry fst]. rewrite K, V. reflexivity.
Qed.

(** X23 -- Modify through a secondary view.  On a well-formed container,
    [modify<Tag>(view_it, fn)] at an entry of a secondary is
    [modify(it, fn)] at the primary iterator of the live record the entry
    refers to: the same container and the same result, also when an insert
    throws. *)
Theorem modify_view_modify (throws : nat -> bool) (heap : nat)
        (st : T_MultiIndex) (I : nat) (sI : T_Index Payload) (p : nat)
        (e : Z * t_sec_value) (fn : Payload -> Payload) :
  config_ok -> wf heap st ->
  nth_error specs I = Some sI -> is_storage sI = false ->
  nth_error (idx st I) p = Some e ->
  exists r,
    resolve policy st (snd e) = Some r /\ dead r = false
    /\ sec_entry sI r = e
    /\ modify_view policy specs throws I st (Some p) fn
       = modify policy specs throws st (Some (addr r)) fn.
Proof.
  intros C W N IS Ne.
  assert (Ie : In e (idx st I)) by (apply (nth_error_In _ _ Ne)).
  destruct W as [S [[_ So] _]]. destruct (So I sI N IS) as [P _].
  apply (Permutation_in _ P) in Ie. apply in_map_iff in Ie.
  destruct Ie as [r [Er Ir]]. apply live_in in Ir. destruct Ir as [Ir D].
  exists r.
  assert (Th : ToHandle policy st (snd e) = Some (addr r)).
  { rewrite <- Er. cbn [sec_entry snd].
    apply (ToHandle_entry heap st r C S Ir). }
  split.
  { unfold resolve. rewrite Th. apply deref_in; [|exact Ir].
    destruct S as [_ [_ [Nd _]]]. exact Nd. }
  split; [exact D|]. split; [exact Er|].
  unfold modify_view, modify. rewrite Ne, Th. reflexivity.
Qed.

(** * The invariant over the wider interface *)

Lemma wf_coherent (heap : nat) (st : T_MultiIndex) :
  config_ok -> wf heap st ->
  (forall r I sp,
      In r (m_storage st) -> dead r = false ->
      nth_error specs I = Some sp -> is_storage sp = false ->
      length (filter (refers policy st sp r) (idx st I)) = 1%nat)
  /\ (forall I sp e,
         nth_error specs I = Some sp -> is_storage sp = false ->
         In e (idx st I) ->
         exists r, resolve policy st (snd e) = Some r
                   /\ In r (m_storage st) /\ dead r = false).
Proof.
  intros C W.
  assert (S := proj1 W). assert (Sec := proj2 (proj1 (proj2 W))).
  assert (N : NoDup (map (@addr Payload) (m_storage st)))
    by (destruct S as [_ [_ [N _]]]; exact N).
  split.
  - intros r I sp Hr D Hs St.
    destruct (Sec I sp Hs St) as [P _].
    rewrite (Permutation_length (perm_filter _ _ _ _ P)).
    assert (Hl : In r (live (m_storage st))) by (apply live_in; auto).
    destruct (in_split _ _ Hl) as [L1 [L2 EL]]. rewrite EL.
    assert (NL : NoDup (map (@addr Payload) (L1 ++ r :: L2))).
    { rewrite <- EL. apply NoDup_map_filter. exact N. }
    assert (Self : refers policy st sp r (sec_entry sp r) = true).
    { unfold refers. cbn [fst snd sec_entry].
      rewrite (ToHandle_entry heap st r C S Hr). cbn [iter_eqb].
      rewrite Z.eqb_refl, Nat.eqb_refl. reflexivity. }
    assert (Other : forall x, In x (L1 ++ L2) ->
                              refers policy st sp r (sec_entry sp x) = false).
    { intros x Hx.
      assert (Hx' : In x (m_storage st)).
      { assert (Ix : In x (live (m_storage st))).
        { rewrite EL. apply in_app_iff in Hx. apply in_app_iff.
          destruct Hx as [Hx|Hx]; [left|right; right]; exact Hx. }
        apply live_in in Ix. apply Ix. }
      unfold refers. cbn [fst snd sec_entry].
      rewrite (ToHandle_entry heap st x C S Hx'). cbn [iter_eqb].
      replace (addr x =? addr r)%nat with false; [apply andb_false_r|].
      symmetry. apply Nat.eqb_neq. intro A.
      rewrite map_app in NL. cbn [map] in NL. apply NoDup_remove_2 in NL.
      apply NL. rewrite <- map_app, <- A. apply in_map. exact Hx. }
    rewrite map_app, filter_app. cbn [map filter]. rewrite Self.
    rewrite !filter_none; [reflexivity| |];
      intros e He; apply in_map_iff in He; destruct He as [x [<- Hx]];
      apply Other; apply in_app_iff; [right|left]; exact Hx.
  - intros I sp e Hs St He.
    destruct (Sec I sp Hs St) as [P _].
    apply (Permutation_in _ P) in He. apply in_map_iff in He.
    destruct He as [r [<- Hr]]. apply live_in in Hr. destruct Hr as [Hr D].
    exists r. split; [|split; assumption].
    cbn [snd sec_entry]. apply (resolve_entry heap st r C S Hr).
Qed.

Lemma UpdateCore_wf (throws : nat -> bool) (heap : nat) (st : T_MultiIndex)
      (h : t_handle) (fn : Payload -> Payload) (st' : T_MultiIndex)
      (b : bool) :
  config_ok -> wf heap st ->
  UpdateCore throws st h fn = (st', Returned b) -> wf heap st'.
Proof.
  intros C W E. destruct h as [a|].
  - apply (modify_wf throws heap st (Some a) fn st' b C W).
    unfold modify. cbn [iter_eqb end_ ToHandle_iter]. exact E.
  - cbn in E. inversion E; subst. exact W.
Qed.

Lemma Revive_wf (throws : nat -> bool) (heap : nat) (st : T_MultiIndex)
      (k : Z) (v : Payload) (r : t_pair) (st' : T_MultiIndex) (b : bool) :
  config_ok -> wf heap st ->
  c_primary_is_unique = true -> c_tombstones = true ->
  map_find (@first Payload) k (m_storage st) = Some r -> dead r = true ->
  Revive policy specs throws st r v = (st', Returned b) -> wf heap st'.
Proof.
  intros C W U T Mf D E.
  assert (X : exists it, emplace throws heap st k v
                         = (heap, st', Returned (it, b))).
  { unfold emplace. rewrite U, T. cbn [andb]. rewrite Mf, D.
    unfold Revive in E.
    destruct (AddSecs throws
                      (set_storage (write (set_value v (set_dead false r))
                                          (m_storage st)) st)
                      (set_value v (set_dead false r))) as [st2 [[|]|]];
      inversion E; subst; eexists; reflexivity. }
  destruct X as [it X].
  apply (emplace_wf throws heap st k v C W heap st' _ X).
Qed.

Lemma step_wide_wf (s s' : nat * T_MultiIndex) :
  config_ok -> wf (fst s) (snd s) ->
  step_wide operator_eq policy specs s s' -> wf (fst s') (snd s').
Proof.
  intros C W St.
  destruct St as [s s' H
                 | throws heap st k v heap' st' res H
                 | throws heap st k v heap' st' r U H
                 | throws heap st k dflt edit heap' st' b U H
                 | heap st I sp view_it N IS
                 | throws heap st I sp view_it fn st' b N IS H];
    cbn [fst snd] in *.
  - apply (step_wf s s' C W H).
  - rewrite (try_emplace_eq throws heap st k v (proj1 W)) in H.
    apply (emplace_wf throws heap st k v C W heap' st' res H).
  - unfold insert_or_assign in H.
    destruct (negb (iter_eqb (find_ policy specs st k) end_)).
    + destruct (UpdateCore throws st
                           (ToHandle_iter (find_ policy specs st k))
                           (fun _ => v)) as [st1 [b|]] eqn:E;
        inversion H; subst.
      apply (UpdateCore_wf throws heap' st _ _ st' b C W E).
    + apply (emplace_wf throws heap st k v C W heap' st' _ H).
  - unfold edit_commit in H. cbv zeta in H.
    destruct (map_find (@first Payload) k (m_storage st)) as [r0|] eqn:Mf.
    + assert (Rw : forall st1 res,
                 Replace operator_eq policy specs true throws st
                         (Some (addr r0)) (edit (buffered st k dflt))
                 = (st1, res) ->
                 (heap, st1, res) = (heap', st', Returned b) ->
                 wf heap' st').
      { intros st1 res E X. inversion X; subst.
        apply (Replace_wf true throws heap' st _ _ st' b C W E). }
      destruct c_tombstones eqn:T.
      * destruct (dead r0) eqn:D0; cbn [negb] in H.
        -- destruct (Revive policy specs throws st r0
                            (edit (buffered st k dflt))) as [st1 res] eqn:E.
           inversion H; subst.
           apply (Revive_wf throws heap' st k _ r0 st' b C W U T Mf D0 E).
        -- destruct (Replace operator_eq policy specs true throws st
                             (Some (addr r0)) (edit (buffered st k dflt)))
             as [st1 res] eqn:E.
           apply (Rw st1 res eq_refl H).
      * destruct (Replace operator_eq policy specs true throws st
                          (Some (addr r0)) (edit (buffered st k dflt)))
          as [st1 res] eqn:E.
        apply (Rw st1 res eq_refl H).
    + destruct (emplace throws heap st k (edit (buffered st k dflt)))
        as [[heap1 st1] [[it b1]|]] eqn:E; inversion H; subst.
      apply (emplace_wf throws heap st k _ C W heap' st' _ E).
  - unfold erase_view. destruct view_it as [p|]; [|exact W].
    destruct (nth_error (idx st I) p) as [e|] eqn:Ne; [|exact W].
    destruct (nth_error_split _ _ Ne) as [pre [post [Ei Lp]]].
    destruct (erase_tag_step heap I sp st pre post e C N IS W Ei)
      as [r [_ [_ [_ [Th [W2 _]]]]]].
    cbv zeta. cbn [fst]. rewrite Th, <- Lp. exact W2.
  - unfold modify_view in H. destruct view_it as [p|];
      [|inversion H; subst; exact W].
    destruct (nth_error (idx st I) p) as [e|];
      [|inversion H; subst; exact W].
    apply (UpdateCore_wf throws heap st _ fn st' b C W H).
Qed.

Lemma reachable_wide_wf (s : nat * T_MultiIndex) :
  config_ok -> reachable_wide operator_eq policy specs s ->
  wf (fst s) (snd s).
Proof.
  intros C R. induction R.
  - apply empty_wf.
  - apply (step_wide_wf s s' C IHR H).
  - cbn [fst snd] in IHR. unfold copy_construct.
    apply (rebuild_from_empty heap heap rhs (empty_mi specs) C IHR
                              (empty_wf heap) eq_refl).
  - cbn [fst snd] in IHR.
    assert (T : c_tombstones = false)
      by (unfold c_tombstones; destruct policy; try discriminate; reflexivity).
    assert (Tr : c_needs_transl_array = false)
      by (unfold c_needs_transl_array; destruct policy; try discriminate;
          reflexivity).
    unfold copy_construct_stable.
    pose proof (stable_copy_main
                  heap rhs
                  (mk_mi (snd (clone_nodes heap (m_storage rhs)))
                         (map (fun _ => []) specs) (transl rhs) (m_live rhs))
                  C T Tr IHR eq_refl) as M.
    destruct (clone_nodes heap (m_storage rhs)) as [heap' nodes].
    cbn [fst snd] in *. apply M.
    split; [cbn; apply length_map|].
    intros j s N IS. unfold idx. cbn [m_second]. rewrite nth_map_nil.
    apply sec_ok_nil.
Qed.

(** X24 -- The invariants up to the first exception out of an update.
    In every state reachable from the empty container by [emplace] and
    [try_emplace] (any outcome, a throwing insert included), [erase] at a
    live record, by key, by sub-key or through the view of a secondary,
    [clear], [compact], copy construction with no insert throwing, and by
    calls of [modify], [replace], [insert_or_assign], [commit] of the edit
    proxy and [modify] through a view that return -- a call of these five
    that lets an exception out is not among the steps: every live record
    has exactly one entry referring to it under its projection in every
    secondary, every secondary entry resolves to a live record, and for
    fewer than [2^64] nodes [size()] is the number of live records, which
    are the records the walk from [begin()] visits. *)
Theorem wide_interface_invariant (s : nat * T_MultiIndex) :
  config_ok -> reachable_wide operator_eq policy specs s ->
  (Z.of_nat (length (m_storage (snd s))) < size_max)%Z ->
  (forall r I sp,
      In r (m_storage (snd s)) -> dead r = false ->
      nth_error specs I = Some sp -> is_storage sp = false ->
      length (filter (refers policy (snd s) sp r) (idx (snd s) I)) = 1%nat)
  /\ (forall I sp e,
         nth_error specs I = Some sp -> is_storage sp = false ->
         In e (idx (snd s) I) ->
         exists r, resolve policy (snd s) (snd e) = Some r
                   /\ In r (m_storage (snd s)) /\ dead r = false)
  /\ size policy (snd s) = Z.of_nat (length (live (m_storage (snd s))))
  /\ visible policy (snd s) = map (@addr Payload) (live (m_storage (snd s))).
Proof.
  intros C R B. pose proof (reachable_wide_wf s C R) as W.
  destruct (wf_coherent (fst s) (snd s) C W) as [C1 C2].
  split; [exact C1|]. split; [exact C2|].
  split; [apply (size_live (fst s) (snd s) W B)|].
  apply (visible_live (fst s) (snd s) W).
Qed.

(** ** Further edge cases of the modifiers *)

Lemma unique_key_record (heap : nat) (st : T_MultiIndex) (r : t_pair) :
  storage_ok heap st -> c_primary_is_unique = true ->
  In r (m_storage st) ->
  map_find (@first Payload) (first r) (m_storage st) = Some r.
Proof.
  intros S U Ir.
  destruct (map_find (@first Payload) (first r) (m_storage st))
    as [r0|] eqn:Mf.
  - destruct (map_find_some _ _ _ Mf) as [Ir0 K0]. f_equal.
    destruct S as [_ [Un _]].
    apply (NoDup_map_inj _ _ (@first Payload) (m_storage st) r0 r (Un U));
      assumption.
  - exfalso. apply map_find_none in Mf. apply Mf. apply in_map. exact Ir.
Qed.

(** X25 -- Emplace of a key that is there.  With a unique primary,
    [emplace(k, v)] and [try_emplace(k, v)] for a key that a live record
    holds return the iterator to that record with [false] and change
    nothing: no node is allocated, the payload of the record is not
    overwritten and no secondary insert is attempted, so nothing can
    throw. *)
Theorem emplace_existing_key (throws : nat -> bool) (heap : nat)
        (st : T_MultiIndex) (k : Z) (v : Payload) (r : t_pair) :
  storage_ok heap st -> c_primary_is_unique = true ->
  In r (m_storage st) -> first r = k -> dead r = false ->
  emplace throws heap st k v = (heap, st, Returned (Some (addr r), false))
  /\ try_emplace policy specs throws heap st k v
     = (heap, st, Returned (Some (addr r), false)).
Proof.
  intros S U Ir K D. subst k.
  assert (E : emplace throws heap st (first r) v
              = (heap, st, Returned (Some (addr r), false))).
  { rewrite (emplace_present throws heap st (first r) v r U
                             (unique_key_record heap st r S U Ir)
                             (fun _ => D)).
    rewrite ToIterator_live; [reflexivity| |exact Ir|exact D].
    destruct S as [_ [_ [N _]]]. exact N. }
  split; [exact E|]. rewrite (try_emplace_eq throws heap st (first r) v S).
  exact E.
Qed.

(** X26 -- Insert or assign, rejected.  With a unique primary, when a live
    record holds [k], no insert throws, and under a unique secondary
    another live record has a sub-key of [(k, v)],
    [insert_or_assign(k, v)] returns the iterator to the record with
    [false] -- what it returns when the assignment went through.  The
    record keeps its old payload; the primary map, the live counter, the
    translation array and every unique secondary are the ones before the
    call; every secondary is the old one with the entry of the record
    taken out and inserted again at the upper bound of its sub-key, so
    that in a multimap secondary this one entry may have moved behind the
    others of its sub-key; the container is well-formed. *)
Theorem insert_or_assign_rejected (throws : nat -> bool) (heap : nat)
        (st : T_MultiIndex) (k : Z) (v : Payload) (r : t_pair) :
  config_ok -> wf heap st -> c_primary_is_unique = true ->
  In r (m_storage st) -> first r = k -> dead r = false ->
  (forall j, throws j = false) ->
  collides specs st r v ->
  exists st',
    insert_or_assign policy specs throws heap st k v
    = (heap, st', Returned (Some (addr r), false))
    /\ wf heap st'
    /\ restored policy specs r st st'
    /\ deref (m_storage st') (addr r) = Some r
    /\ find_ policy specs st' k = Some (addr r).
Proof.
  intros C W U Ir K D NT Co. subst k.
  assert (S := proj1 W).
  assert (N : NoDup (map (@addr Payload) (m_storage st)))
    by (destruct S as [_ [_ [N _]]]; exact N).
  assert (Dr : deref (m_storage st) (addr r) = Some r)
    by (apply deref_in; assumption).
  destruct (UpdateCore_rejected throws heap st (addr r) r (fun _ => v)
                                C W Dr NT Co)
    as [st' [E [W' [Rs _]]]].
  exists st'. unfold insert_or_assign.
  rewrite (find_unique_live heap st r S U Ir D).
  cbn [iter_eqb end_ negb ToHandle_iter]. rewrite E.
  split; [reflexivity|]. split; [exact W'|]. split; [exact Rs|].
  destruct Rs as [Es _].
  split; [rewrite Es; exact Dr|].
  apply (find_unique_live heap st' r (proj1 W') U); [|exact D].
  rewrite Es. exact Ir.
Qed.

Lemma set_same (r : t_pair) (v : Payload) :
  m_value r = v -> dead r = false ->
  set_value v (set_dead false r) = r.
Proof. destruct r; simpl; intros -> ->; reflexivity. Qed.

(** X27 -- Replace accepted.  On a well-formed container of fewer than
    [2^64] nodes, with a sound [operator==], for an argument of any type,
    when no insert throws and under no unique secondary a live record
    other than the target has a sub-key of the record with the payload
    [v], [replace(it, v)] returns [true]; afterwards the container is well-formed, the node of the
    target holds [v] and is live -- a tombstone is revived, also when it
    already held [v] -- every other node reads as before, and [size()] is
    the one before, or one more when the target was a tombstone. *)
Theorem replace_accepts (is_same_v : bool) (throws : nat -> bool)
        (heap : nat) (st : T_MultiIndex) (a : nat) (r : t_pair)
        (v : Payload) :
  config_ok -> wf heap st ->
  deref (m_storage st) a = Some r ->
  sound_eq operator_eq ->
  (forall j, throws j = false) ->
  ~ collides specs st r v ->
  (Z.of_nat (length (m_storage st)) < size_max)%Z ->
  exists st',
    replace operator_eq policy specs is_same_v throws st (Some a) v
    = (st', Returned true)
    /\ wf heap st'
    /\ deref (m_storage st') a = Some (set_value v (set_dead false r))
    /\ (forall a', a' <> a ->
                   deref (m_storage st') a' = deref (m_storage st) a')
    /\ size policy st'
       = (if dead r then size policy st + 1 else size policy st)%Z.
Proof.
  intros C W Dr So NT NC B.
  destruct (UpdateCore_accepted throws heap st a r (fun _ => v)
                                C W Dr NT NC B)
    as [st' [E G]].
  unfold replace, Replace. cbn [iter_eqb end_ ToHandle_iter]. rewrite Dr.
  destruct (match operator_eq with
            | Some eqb =>
                if is_same_v
                then (if c_tombstones then negb (dead r) else true)
                     && eqb (m_value r) v
                else false
            | None => false
            end) eqn:Un.
  - destruct operator_eq as [eqb|] eqn:Oe; [|discriminate Un].
    destruct is_same_v; [|discriminate Un].
    apply andb_true_iff in Un. destruct Un as [Lv Eq].
    assert (V : m_value r = v) by (apply (So eqb); [reflexivity|exact Eq]).
    assert (D : dead r = false).
    { destruct c_tombstones eqn:T.
      - destruct (dead r); [discriminate Lv|reflexivity].
      - destruct (deref_some _ _ _ Dr) as [Ir _].
        destruct W as [[_ [_ [_ [_ [_ X]]]]] _]. apply (X T r Ir). }
    exists st. split; [reflexivity|]. split; [exact W|].
    split; [rewrite (set_same r v V D); exact Dr|].
    split; [reflexivity|]. rewrite D. reflexivity.
  - exists st'. split; [exact E|exact G].
Qed.

Lemma sorted_walk (f : Z * t_sec_value -> Z * t_handle)
      (m : list (Z * t_sec_value)) :
  (forall e, fst (f e) = fst e) ->
  map_sorted skey m -> map_sorted (@fst Z t_handle) (map f m).
Proof.
  intros F S. unfold map_sorted in *.
  induction S as [|x l S IH A]; cbn [map]; constructor.
  - exact IH.
  - apply Forall_forall. intros y Hy. apply in_map_iff in Hy.
    destruct Hy as [e [<- He]]. rewrite !F.
    rewrite Forall_forall in A. apply A. exact He.
Qed.

(** X28 -- Walking the view of a secondary.  On a well-formed container
    the walk over the view of a secondary, from its [begin()] to its
    [end()], reads sub-keys in non-decreasing order -- pairwise different
    when the secondary is unique -- and visits every live record exactly
    once, under the sub-key its projection gives, and no tombstone: what
    it reads is a rearrangement of the live records of the primary. *)
Theorem view_walk_live (heap : nat) (st : T_MultiIndex) (I : nat)
        (sp : T_Index Payload) :
  config_ok -> wf heap st ->
  nth_error specs I = Some sp -> is_storage sp = false ->
  map_sorted (@fst Z t_handle) (view_walk policy st I)
  /\ Permutation (view_walk policy st I)
                 (map (fun r => (Project sp (first r) (m_value r),
                                 Some (addr r)))
                      (live (m_storage st)))
  /\ (is_unique sp = true ->
      NoDup (map (@fst Z t_handle) (view_walk policy st I)))
  /\ (forall p, nth_error (view_walk policy st I) p
                = view_deref policy st I p).
Proof.
  intros C [S [[_ Sec] _]] Hs St.
  destruct (Sec I sp Hs St) as [P [So Un]].
  split; [|split; [|split]].
  - unfold view_walk. apply sorted_walk; [reflexivity|exact So].
  - unfold view_walk.
    eapply Permutation_trans; [apply Permutation_map; exact P|].
    rewrite map_map.
    assert (X : map (fun x => (fst (sec_entry sp x),
                               ToHandle policy st (snd (sec_entry sp x))))
                    (live (m_storage st))
                = map (fun r => (Project sp (first r) (m_value r),
                                 Some (addr r)))
                      (live (m_storage st))).
    { apply map_ext_in. intros x Hx. apply live_in in Hx.
      destruct Hx as [Hx _]. unfold sec_entry. cbn [fst snd].
      rewrite (ToHandle_entry heap st x C S Hx). reflexivity. }
    rewrite X. apply Permutation_refl.
  - intro U. unfold view_walk. rewrite map_map. cbn [fst].
    apply (Un U).
  - intro p. unfold view_walk, view_deref. apply nth_error_map.
Qed.

(** ** An insert that throws inside [UpdateCore] *)

(** X29 -- Modify when an insert throws.  On a well-formed container,
    when under no unique secondary a live record other than the target
    has the sub-key of the rebuilt record and the insert into some
    secondary throws, [modify(it, fn)] lets the exception out and leaves
    the target in the primary, live and with the payload [fn] made, but
    with no entry in any secondary: every secondary holds the entries of
    the other live records only, the live counter is the one before the
    call, and the container is neither the one before the call nor a
    well-formed one. *)
Theorem modify_insert_throws (throws : nat -> bool) (heap : nat)
        (st : T_MultiIndex) (a : nat) (r : t_pair)
        (fn : Payload -> Payload) :
  config_ok -> wf heap st ->
  deref (m_storage st) a = Some r ->
  ~ collides specs st r (fn (m_value r)) ->
  (exists j, throwing specs throws j) ->
  exists st',
    modify policy specs throws st (Some a) fn = (st', Thrown)
    /\ deref (m_storage st') a
       = Some (set_value (fn (m_value r)) (set_dead false r))
    /\ (forall a', a' <> a ->
                   deref (m_storage st') a' = deref (m_storage st) a')
    /\ m_live st' = m_live st
    /\ (forall I sp, nth_error specs I = Some sp -> is_storage sp = false ->
          Permutation (idx st' I)
                      (map (sec_entry sp)
                           (filter (fun x => negb (addr x =? a)%nat)
                                   (live (m_storage st)))))
    /\ ~ wf heap st'.
Proof.
  intros C W Dr NC [j0 Tj].
  assert (S := proj1 W).
  destruct (deref_some _ _ _ Dr) as [Ir Ar].
  destruct (UpdateCore_prep throws heap st a r fn C W Dr)
    as [m1 [m2 [st2 [E [Oth [NoT [B1 [B2 [B3 [B4 [_ U]]]]]]]]]]].
  cbv zeta in U.
  set (h2 := set_value (fn (m_value r)) (set_dead false r)) in *.
  set (st3 := set_storage (write h2 (m_storage st2)) st2) in *.
  assert (W3 : m_storage st3 = m1 ++ h2 :: m2).
  { unfold st3. simpl. rewrite B1. apply write_split; auto. }
  assert (S3 : storage_ok heap st3).
  { eapply (storage_ok_replace heap st st3 m1 m2 r h2); eauto. }
  assert (Sec3 : secondaries_ok st3 (live m1 ++ live m2)).
  { eapply secondaries_ok_frame; [|exact B4]. reflexivity. }
  assert (Hh : In h2 (m_storage st3)).
  { rewrite W3. apply in_app_iff. right; left; reflexivity. }
  assert (Sub : forall x, In x (live m1 ++ live m2) -> In x (m1 ++ m2)).
  { intros x Hx. apply in_app_iff in Hx. apply in_app_iff.
    destruct Hx as [Hx|Hx]; apply live_in in Hx; tauto. }
  assert (HL : forall x, In x (live m1 ++ live m2) ->
                         In x (m_storage st3) /\ x <> h2).
  { intros x Hx. apply Sub in Hx. split.
    - rewrite W3. apply in_app_iff in Hx. apply in_app_iff.
      destruct Hx; [left|right; right]; auto.
    - intro X. subst x. apply (Oth h2 Hx). reflexivity. }
  destruct (AddSecs throws st3 h2) as [st4 o] eqn:EA.
  pose proof (AddSecs_wf throws _ st3 _ h2 C S3 Hh Sec3 HL st4 o EA) as G.
  destruct o as [[|]|].
  - exfalso. destruct G as [_ [_ [_ Cl]]].
    destruct Tj as [s [Hs [St T]]].
    destruct (Cl j0 s Hs St) as [X _]. rewrite X in T. discriminate T.
  - exfalso. destruct G as [_ [j [Rj _]]]. apply NC.
    apply (rejecting_collides throws st st3 m1 m2 r h2 j E Oth Sec3
                              eq_refl Rj).
  - destruct G as [-> _].
    exists st3. unfold modify. cbn [iter_eqb end_ ToHandle_iter].
    split; [exact U|].
    assert (N3 : NoDup (map (@addr Payload) (m_storage st3)))
      by (destruct S3 as [_ [_ [N3 _]]]; exact N3).
    split.
    { rewrite <- Ar. change (addr r) with (addr h2).
      apply (deref_in _ _ N3). exact Hh. }
    split.
    { intros a' Na. rewrite W3, E. apply deref_other; [reflexivity|].
      rewrite Ar. exact Na. }
    split; [exact B3|].
    assert (N : NoDup (map (@addr Payload) (m1 ++ r :: m2)))
      by (rewrite <- E; destruct S as [_ [_ [N _]]]; exact N).
    assert (FL : Permutation
                   (filter (fun x => negb (addr x =? a)%nat)
                           (live (m_storage st)))
                   (live m1 ++ live m2)).
    { rewrite E, <- Ar, live_app. rewrite filter_app.
      assert (K : forall m : list t_pair,
                     (forall x, In x m -> addr x <> addr r) ->
                            filter (fun x => negb (addr x =? addr r)%nat)
                                   (live m) = live m).
      { intros m Hm. apply filter_keep. intros x Hx.
        apply live_in in Hx. destruct Hx as [Hx _].
        apply negb_true_iff. apply Nat.eqb_neq. apply Hm. exact Hx. }
      rewrite (K m1) by (intros x Hx; apply Oth; apply in_app_iff; auto).
      unfold live at 2. cbn [filter]. fold (live m2).
      destruct (negb (dead r)); cbn [filter];
        rewrite ?Nat.eqb_refl; cbn [negb];
        rewrite (K m2) by (intros x Hx; apply Oth; apply in_app_iff; auto);
        apply Permutation_refl. }
    split.
    { intros I sp Hs St.
      destruct Sec3 as [_ Sec3]. destruct (Sec3 I sp Hs St) as [P _].
      eapply Permutation_trans; [exact P|].
      apply Permutation_map. apply Permutation_sym. exact FL. }
    intros [_ [[_ Sec'] _]].
    destruct Tj as [s [Hs [St _]]].
    destruct (Sec' j0 s Hs St) as [P' _].
    destruct Sec3 as [_ Sec3]. destruct (Sec3 j0 s Hs St) as [P _].
    apply Permutation_length in P. apply Permutation_length in P'.
    rewrite P' in P. rewrite !length_map in P.
    rewrite W3, live_app, !length_app in P. unfold live at 2, h2 in P.
    cbn [filter dead set_value set_dead negb length] in P.
    fold (live m2) in P. lia.
Qed.

End Facts.

(** * The claims on the instantiation *)

Lemma demo_config_ok : config_ok demo_policy demo_specs.
Proof. split; [reflexivity|discriminate]. Qed.

Lemma demo_s3_reachable : reachable demo_eq demo_policy demo_specs demo_s3.
Proof.
  unfold demo_s3, demo_put.
  do 3 apply reachable_emplace. apply reach_init.
Qed.

Lemma demo_s3e_reachable : reachable demo_eq demo_policy demo_specs demo_s3e.
Proof.
  unfold demo_s3e, demo_del.
  apply reachable_erase_key. exact demo_s3_reachable.
Qed.

Lemma demo_s3_wf : wf demo_policy demo_specs (fst demo_s3) (snd demo_s3).
Proof.
  exact (reachable_wf Z demo_eq demo_policy demo_specs demo_s3
                      demo_config_ok demo_s3_reachable).
Qed.

Lemma demo_s3e_wf : wf demo_policy demo_specs (fst demo_s3e) (snd demo_s3e).
Proof.
  exact (reachable_wf Z demo_eq demo_policy demo_specs demo_s3e
                      demo_config_ok demo_s3e_reachable).
Qed.

Lemma secondary_coherence_witness :
  (forall r I sp,
      In r (m_storage (snd demo_s3e)) -> dead r = false ->
      nth_error demo_specs I = Some sp -> is_storage sp = false ->
      length (filter (refers demo_policy (snd demo_s3e) sp r)
                     (idx (snd demo_s3e) I)) = 1%nat)
  /\ (forall I sp e,
         nth_error demo_specs I = Some sp -> is_storage sp = false ->
         In e (idx (snd demo_s3e) I) ->
         exists r, resolve demo_policy (snd demo_s3e) (snd e) = Some r
                   /\ In r (m_storage (snd demo_s3e)) /\ dead r = false).
Proof.
  apply (secondary_coherence Z demo_eq demo_policy demo_specs demo_s3e).
  - split; [reflexivity|discriminate].
  - exact demo_s3e_reachable.
Defined.

Lemma live_count_witness :
  size demo_policy (snd demo_s3e) = 2%Z
  /\ visible demo_policy (snd demo_s3e) = [0%nat; 2%nat]
  /\ length (m_storage (snd demo_s3e)) = 3%nat.
Proof.
  destruct (live_count Z demo_eq demo_policy demo_specs demo_s3e) as [T _].
  - split; [reflexivity|discriminate].
  - exact demo_s3e_reachable.
  - reflexivity.
  - destruct (T eq_refl) as [_ [Sz [Vs _]]].
    split; [rewrite Sz; reflexivity|].
    split; [rewrite Vs; reflexivity|reflexivity].
Defined.

Lemma emplace_rollback_witness :
  emplace demo_policy demo_specs no_throw (fst demo_s3) (snd demo_s3)
          5%Z 100%Z
  = (S (fst demo_s3), snd demo_s3, Returned (end_, false))
  /\ emplace demo_policy demo_specs (fun j => Nat.eqb j 1)
             (fst demo_s3) (snd demo_s3) 5%Z 500%Z
     = (S (fst demo_s3), snd demo_s3, Thrown).
Proof.
  split.
  - destruct (emplace_rollback Z demo_policy demo_specs no_throw
                               (fst demo_s3) (snd demo_s3) 5%Z 100%Z)
      as [res [E [[R _] | [_ [j [[s [_ [_ T]]] _]]]]]].
    + split; [reflexivity|discriminate].
    + exact demo_s3_wf.
    + intros _ H. simpl in H. intuition discriminate.
    + left. exists 2%nat, (mk_index false true (fun _ p => p)).
      repeat split; reflexivity.
    + rewrite E, R. reflexivity.
    + discriminate T.
  - destruct (emplace_rollback Z demo_policy demo_specs
                               (fun j => Nat.eqb j 1)
                               (fst demo_s3) (snd demo_s3) 5%Z 500%Z)
      as [res [E [[R [j [[s [N [IS [T [U M]]]]] _]]] | [R _]]]].
    + split; [reflexivity|discriminate].
    + exact demo_s3_wf.
    + intros _ H. simpl in H. intuition discriminate.
    + right. exists 1%nat, (mk_index false false (fun _ p => (p mod 10)%Z)).
      repeat split; reflexivity.
    + exfalso. unfold demo_specs in N.
      destruct j as [|[|[|j]]]; cbn [nth_error] in N.
      * injection N as <-. discriminate IS.
      * discriminate T.
      * injection N as <-. vm_compute in M. discriminate M.
      * destruct j; discriminate N.
    + rewrite E, R. reflexivity.
Defined.

Lemma demo_sound_eq : sound_eq demo_eq.
Proof.
  intros eqb x y H E. injection H as <-. apply Z.eqb_eq. exact E.
Qed.

Lemma demo_collides : collides demo_specs (snd demo_s3) demo_r0 121%Z.
Proof.
  exists 2%nat, (mk_index false true (fun _ p => p)),
         (mk_pair 2 2%Z 121%Z false 0).
  split; [reflexivity|]. split; [reflexivity|]. split; [reflexivity|].
  split; [right; right; left; reflexivity|].
  split; [reflexivity|]. split; [discriminate|reflexivity].
Qed.

(** Rejected, [modify] puts the entry of the record back at the end of the
    run of its sub-key: in the multimap secondary the entries of the nodes
    0 and 1, both under sub-key 0, have changed places. *)
Lemma modify_rejection_reorders :
  reachable demo_eq demo_policy demo_specs demo_s3
  /\ deref (m_storage (snd demo_s3)) 0 = Some demo_r0
  /\ collides demo_specs (snd demo_s3) demo_r0 121%Z
  /\ exists st',
      modify demo_policy demo_specs no_throw (snd demo_s3) (Some 0%nat)
             (fun _ => 121%Z)
      = (st', Returned false)
      /\ idx (snd demo_s3) 1
         = [(0%Z, SvHandle 0); (0%Z, SvHandle 1); (1%Z, SvHandle 2)]
      /\ idx st' 1
         = [(0%Z, SvHandle 1); (0%Z, SvHandle 0); (1%Z, SvHandle 2)]
      /\ m_second st' <> m_second (snd demo_s3).
Proof.
  split; [exact demo_s3_reachable|]. split; [reflexivity|].
  split; [exact demo_collides|].
  eexists. split; [vm_compute; reflexivity|].
  split; [reflexivity|]. split; [reflexivity|].
  vm_compute. discriminate.
Qed.

Lemma update_rejection_atomic_witness :
  (exists st',
      modify demo_policy demo_specs no_throw (snd demo_s3) (Some 0%nat)
             (fun _ => 121%Z)
      = (st', Returned false)
      /\ deref (m_storage st') 0 = Some demo_r0
      /\ restored demo_policy demo_specs demo_r0 (snd demo_s3) st')
  /\ (exists st',
         replace demo_eq demo_policy demo_specs true no_throw (snd demo_s3)
                 (Some 0%nat) 121%Z
         = (st', Returned false)
         /\ deref (m_storage st') 0 = Some demo_r0
         /\ restored demo_policy demo_specs demo_r0 (snd demo_s3) st').
Proof.
  destruct (update_rejection_atomic Z demo_eq demo_policy demo_specs no_throw
                                    (fst demo_s3) (snd demo_s3) 0 demo_r0)
    as [M R].
  - split; [reflexivity|discriminate].
  - exact demo_s3_wf.
  - reflexivity.
  - reflexivity.
  - split.
    + destruct (M (fun _ => 121%Z) demo_collides) as [st' [E [D [Rs _]]]].
      exists st'. split; [exact E|]. split; [exact D|exact Rs].
    + destruct (R true 121%Z demo_sound_eq demo_collides)
        as [st' [E [D [Rs _]]]].
      exists st'. split; [exact E|]. split; [exact D|exact Rs].
Defined.

Lemma find_tombstones_witness :
  find_ demo_policy demo_specs (snd demo_s3e) 1%Z = end_
  /\ find_ demo_policy demo_specs (snd demo_s3e) 2%Z = Some 2%nat.
Proof.
  split.
  - rewrite (proj1 (find_tombstones Z demo_policy demo_specs (fst demo_s3e)
                                    (snd demo_s3e) 1%Z eq_refl
                                    (proj1 demo_s3e_wf))).
    reflexivity.
  - rewrite (proj1 (find_tombstones Z demo_policy demo_specs (fst demo_s3e)
                                    (snd demo_s3e) 2%Z eq_refl
                                    (proj1 demo_s3e_wf))).
    reflexivity.
Defined.

Lemma revival_witness :
  (exists st',
      emplace demo_policy demo_specs no_throw (fst demo_s3e) (snd demo_s3e)
              1%Z 77%Z
      = (fst demo_s3e, st', Returned (Some 1%nat, true))
      /\ length (m_storage st') = 3%nat
      /\ deref (m_storage st') 1 = Some (mk_pair 1 1%Z 77%Z false 0)
      /\ size demo_policy st' = 3%Z)
  /\ (exists st',
         emplace demo_policy demo_specs no_throw (fst demo_s3e) (snd demo_s3e)
                 1%Z 100%Z
         = (fst demo_s3e, st', Returned (end_, false))
         /\ length (m_storage st') = 3%nat
         /\ deref (m_storage st') 1 = Some (mk_pair 1 1%Z 100%Z true 0)
         /\ m_second st' = m_second (snd demo_s3e)
         /\ size demo_policy st' = 2%Z).
Proof.
  split.
  - destruct (revival Z demo_policy demo_specs no_throw (fst demo_s3e)
                      (snd demo_s3e) 1%Z 77%Z demo_r1)
      as [st' [res [E [Ln [_ [Ok _]]]]]].
    + split; [reflexivity|discriminate].
    + exact demo_s3e_wf.
    + reflexivity.
    + reflexivity.
    + reflexivity.
    + reflexivity.
    + reflexivity.
    + reflexivity.
    + destruct Ok as [R [_ [D [_ [_ Sz]]]]].
      * intros [j [s [N [IS [U M]]]]]. unfold demo_specs in N.
        destruct j as [|[|[|j]]]; cbn [nth_error] in N.
        -- injection N as <-. discriminate IS.
        -- injection N as <-. discriminate U.
        -- injection N as <-. vm_compute in M. discriminate M.
        -- destruct j; discriminate N.
      * exists st'. rewrite E, R. split; [reflexivity|].
        split; [exact Ln|]. split; [exact D|]. rewrite Sz. reflexivity.
  - destruct (revival Z demo_policy demo_specs no_throw (fst demo_s3e)
                      (snd demo_s3e) 1%Z 100%Z demo_r1)
      as [st' [res [E [Ln [_ [_ Rej]]]]]].
    + split; [reflexivity|discriminate].
    + exact demo_s3e_wf.
    + reflexivity.
    + reflexivity.
    + reflexivity.
    + reflexivity.
    + reflexivity.
    + reflexivity.
    + destruct Rej as [R [_ [D [Sc Sz]]]].
      * exists 2%nat, (mk_index false true (fun _ p => p)).
        repeat split; reflexivity.
      * exists st'. rewrite E, R. split; [reflexivity|].
        split; [exact Ln|]. split; [exact D|]. split; [exact Sc|].
        rewrite Sz. reflexivity.
Defined.

Lemma compact_preserves_witness :
  content (m_storage (snd (compact demo_policy demo_specs (fst demo_s3e)
                                   (snd demo_s3e))))
  = [(0%Z, 100%Z); (2%Z, 121%Z)]
  /\ Z.of_nat (length (m_storage (snd (compact demo_policy demo_specs
                                               (fst demo_s3e)
                                               (snd demo_s3e)))))
     = 2%Z
  /\ length (m_storage (snd demo_s3e)) = 3%nat.
Proof.
  destruct (compact_preserves Z demo_policy demo_specs (fst demo_s3e)
                              (snd demo_s3e))
    as [_ [_ [Ct [_ [Se Ph]]]]].
  - split; [reflexivity|discriminate].
  - exact demo_s3e_wf.
  - reflexivity.
  - reflexivity.
  - split; [rewrite Ct; reflexivity|].
    split; [rewrite Ph, Se; reflexivity|reflexivity].
Defined.

Lemma replace_noop_witness :
  replace demo_eq demo_policy demo_specs true no_throw (snd demo_s3)
          (Some 0%nat) 100%Z
  = (snd demo_s3, Returned true)
  /\ exists st',
      replace demo_eq demo_policy demo_specs false no_throw (snd demo_s3)
              (Some 0%nat) 100%Z
      = (st', Returned true)
      /\ restored demo_policy demo_specs demo_r0 (snd demo_s3) st'.
Proof.
  destruct (replace_noop Z demo_eq demo_policy demo_specs no_throw
                         (fst demo_s3) (snd demo_s3) 0 demo_r0 100%Z Z.eqb)
    as [A B]; try reflexivity.
  split; [exact A|].
  destruct (B demo_config_ok demo_s3_wf demo_sound_eq (fun _ => eq_refl))
    as [st' [E [_ R]]].
  exists st'. split; [exact E|exact R].
Defined.

(** Handed an argument of another type than the payload's, [replace] with
    the value the live record already holds is no no-op: it returns
    [true], but in the multimap secondary the entries of the nodes 0 and
    1, both under sub-key 0, have changed places. *)
Lemma replace_other_type_reorders :
  reachable demo_eq demo_policy demo_specs demo_s3
  /\ deref (m_storage (snd demo_s3)) 0 = Some demo_r0
  /\ dead demo_r0 = false
  /\ (m_value demo_r0 =? 100)%Z = true
  /\ exists st',
      replace demo_eq demo_policy demo_specs false no_throw (snd demo_s3)
              (Some 0%nat) 100%Z
      = (st', Returned true)
      /\ idx (snd demo_s3) 1
         = [(0%Z, SvHandle 0); (0%Z, SvHandle 1); (1%Z, SvHandle 2)]
      /\ idx st' 1
         = [(0%Z, SvHandle 1); (0%Z, SvHandle 0); (1%Z, SvHandle 2)]
      /\ st' <> snd demo_s3.
Proof.
  split; [exact demo_s3_reachable|]. split; [reflexivity|].
  split; [reflexivity|]. split; [reflexivity|].
  eexists. split; [vm_compute; reflexivity|].
  split; [reflexivity|]. split; [reflexivity|].
  vm_compute. discriminate.
Qed.

(** C1 -- Secondary coherence, broken.  A [modify] whose insert into the
    unique secondary throws, on the reachable container of [demo_s3]:
    [UpdateCore] has no handler around [AddSecs], so the exception leaves
    the record of key 0 live, with the new payload, and neither secondary
    holds an entry that refers to it. *)
Lemma modify_throw_breaks_coherence :
  reachable demo_eq demo_policy demo_specs demo_s3
  /\ exists st',
      modify demo_policy demo_specs (fun j => Nat.eqb j 2) (snd demo_s3)
             (Some 0%nat) (fun _ => 105%Z)
      = (st', Thrown)
      /\ deref (m_storage st') 0 = Some (mk_pair 0 0%Z 105%Z false 0)
      /\ length (filter (refers demo_policy st'
                                 (mk_index false false
                                           (fun _ p => (p mod 10)%Z))
                                 (mk_pair 0 0%Z 105%Z false 0))
                        (idx st' 1))
         = 0%nat
      /\ length (filter (refers demo_policy st'
                                 (mk_index false true (fun _ p => p))
                                 (mk_pair 0 0%Z 105%Z false 0))
                        (idx st' 2))
         = 0%nat
      /\ idx st' 1 = [(0%Z, SvHandle 1); (1%Z, SvHandle 2)]
      /\ idx st' 2 = [(110%Z, SvHandle 1); (121%Z, SvHandle 2)].
Proof.
  split; [exact demo_s3_reachable|].
  eexists. split; [vm_compute; reflexivity|].
  repeat split; reflexivity.
Qed.

(** C2 -- Live count, broken.  On the reachable container of [demo_s3e],
    whose record of key 1 is a tombstone: a [modify] of that record, and
    as well [mi[1]] with an edit and [commit()], whose insert into the
    unique secondary throws.  [UpdateCore] and [Revive] clear the dead
    flag before [AddSecs] and count the record only after it; neither has
    a handler around it.  The exception leaves the record live and the
    counter as it was: [size()] is 2 where the primary holds three live
    records and the walk from [begin()] visits three. *)
Lemma throw_breaks_live_count :
  reachable demo_eq demo_policy demo_specs demo_s3e
  /\ c_tombstones demo_policy = true
  /\ deref (m_storage (snd demo_s3e)) 1 = Some demo_r1
  /\ (exists st',
        modify demo_policy demo_specs (fun j => Nat.eqb j 2) (snd demo_s3e)
               (Some 1%nat) (fun _ => 115%Z)
        = (st', Thrown)
        /\ size demo_policy st' = 2%Z
        /\ length (live (m_storage st')) = 3%nat
        /\ visible demo_policy st' = [0%nat; 1%nat; 2%nat])
  /\ (exists heap' st',
        edit_commit demo_eq demo_policy demo_specs (fun j => Nat.eqb j 2)
                    (fst demo_s3e) (snd demo_s3e) 1%Z 0%Z
                    (fun p => (p + 5)%Z)
        = (heap', st', Thrown)
        /\ size demo_policy st' = 2%Z
        /\ length (live (m_storage st')) = 3%nat
        /\ visible demo_policy st' = [0%nat; 1%nat; 2%nat]).
Proof.
  split; [exact demo_s3e_reachable|]. split; [reflexivity|].
  split; [reflexivity|]. split.
  - eexists. split; [vm_compute; reflexivity|].
    repeat split; reflexivity.
  - do 2 eexists. split; [vm_compute; reflexivity|].
    repeat split; reflexivity.
Qed.

Lemma erase_by_key_witness :
  erase_key demo_policy demo_specs (snd demo_s3) 1%Z
  = Some (snd demo_s3e, 1%Z)
  /\ erase_key demo_policy demo_specs (snd demo_s3e) 1%Z
     = Some (snd demo_s3e, 0%Z).
Proof.
  split.
  - destruct (erase_by_key Z demo_policy demo_specs (fst demo_s3)
                           (snd demo_s3) 1%Z)
      as [st' [Es [E _]]].
    + split; [reflexivity|discriminate].
    + exact demo_s3_wf.
    + reflexivity.
    + rewrite E, Es. reflexivity.
  - destruct (erase_by_key Z demo_policy demo_specs (fst demo_s3e)
                           (snd demo_s3e) 1%Z)
      as [st' [_ [_ [_ [_ [_ Z0]]]]]].
    + split; [reflexivity|discriminate].
    + exact demo_s3e_wf.
    + reflexivity.
    + apply Z0. intros r H K. vm_compute in H.
      destruct H as [<-|[<-|[<-|[]]]]; try reflexivity; discriminate K.
Defined.

Lemma copy_skips_tombstones_witness :
  length (m_storage (snd (copy_construct demo_policy demo_specs
                                         (fst demo_s3e) (snd demo_s3e))))
  = 2%nat
  /\ length (m_storage (snd (CopyAssignCore demo_policy demo_specs
                                            (fst demo_s3e) (snd demo_s3)
                                            (snd demo_s3e))))
     = 2%nat
  /\ length (m_storage (snd demo_s3e)) = 3%nat.
Proof.
  destruct (copy_skips_tombstones Z demo_policy demo_specs (fst demo_s3e)
                                  (snd demo_s3) (snd demo_s3e))
    as [[_ [_ [P1 _]]] [_ [_ [P2 _]]]].
  - split; [reflexivity|discriminate].
  - reflexivity.
  - exact demo_s3e_wf.
  - exact demo_s3_wf.
  - reflexivity.
  - split; [apply Nat2Z.inj; rewrite P1; reflexivity|].
    split; [apply Nat2Z.inj; rewrite P2; reflexivity|reflexivity].
Defined.

(** * The further properties on the instantiation *)

Lemma demo_fill_config_ok (p : Policy) : config_ok p demo_specs.
Proof. split; [reflexivity|intros _; reflexivity]. Qed.

Lemma demo_fill_reachable (p : Policy) :
  reachable demo_eq p demo_specs (demo_fill p).
Proof.
  unfold demo_fill. do 3 apply reachable_emplace. apply reach_init.
Qed.

Lemma demo_fill_wf (p : Policy) :
  wf p demo_specs (fst (demo_fill p)) (snd (demo_fill p)).
Proof.
  exact (reachable_wf Z demo_eq p demo_specs (demo_fill p)
                      (demo_fill_config_ok p) (demo_fill_reachable p)).
Qed.

Lemma demo_no_throw : forall j, no_throw j = false.
Proof. reflexivity. Qed.

(** No unique secondary of [demo_s3] or [demo_s3e] holds a payload that
    none of their records has. *)
Lemma demo_fresh (st : T_MultiIndex Z) (k v : Z) :
  map_contains (@fst Z t_sec_value) v (idx st 2) = false ->
  ~ rejects_entry demo_specs st k v.
Proof.
  intros F [j [s [N [IS [U M]]]]]. unfold demo_specs in N.
  destruct j as [|[|[|j]]]; cbn [nth_error] in N.
  - injection N as <-. discriminate IS.
  - injection N as <-. discriminate U.
  - injection N as <-.
    change (map_contains (@fst Z t_sec_value) v (idx st 2) = true) in M.
    rewrite F in M. discriminate M.
  - destruct j; discriminate N.
Qed.

Lemma demo_unblocked (st : T_MultiIndex Z) (k v : Z) :
  forallb (fun r => negb (m_value r =? v)%Z) (m_storage st) = true ->
  ~ blocked demo_specs st k v.
Proof.
  intros F [j [s [r' [N [IS [U [Hi [_ [_ P]]]]]]]]]. unfold demo_specs in N.
  destruct j as [|[|[|j]]]; cbn [nth_error] in N.
  - injection N as <-. discriminate IS.
  - injection N as <-. discriminate U.
  - injection N as <-. change (m_value r' = v) in P.
    rewrite forallb_forall in F. specialize (F r' Hi). rewrite P in F.
    rewrite Z.eqb_refl in F. discriminate F.
  - destruct j; discriminate N.
Qed.

Lemma demo_no_collision (st : T_MultiIndex Z) (r : t_pair Z) (v : Z) :
  forallb (fun r' => dead r' || (addr r' =? addr r)%nat
                     || negb (m_value r' =? v)%Z)
          (m_storage st) = true ->
  ~ collides demo_specs st r v.
Proof.
  intros F [j [s [r' [N [IS [U [Hi [D [A P]]]]]]]]]. unfold demo_specs in N.
  destruct j as [|[|[|j]]]; cbn [nth_error] in N.
  - injection N as <-. discriminate IS.
  - injection N as <-. discriminate U.
  - injection N as <-. change (m_value r' = v) in P.
    rewrite forallb_forall in F. specialize (F r' Hi). rewrite D, P in F.
    rewrite Z.eqb_refl in F. apply Nat.eqb_neq in A. rewrite A in F.
    discriminate F.
  - destruct j; discriminate N.
Qed.

Lemma reachable_is_wide (s : nat * T_MultiIndex Z) :
  reachable demo_eq demo_policy demo_specs s ->
  reachable_wide demo_eq demo_policy demo_specs s.
Proof.
  induction 1 as [heap|s s' _ IH St].
  - apply wide_init.
  - eapply wide_next; [exact IH|]. apply wide_step. exact St.
Qed.

Lemma demo_w_reachable : reachable_wide demo_eq demo_policy demo_specs demo_w.
Proof.
  eapply wide_next; [apply reachable_is_wide; exact demo_s3e_reachable|].
  destruct demo_s3e as [heap st] eqn:E.
  assert (X : demo_w = fst (insert_or_assign demo_policy demo_specs no_throw
                                       heap st 1%Z 77%Z)).
  { unfold demo_w. rewrite E. reflexivity. }
  rewrite X.
  destruct (insert_or_assign demo_policy demo_specs no_throw heap st 1%Z 77%Z)
    as [[heap' st'] [r|]] eqn:I.
  - cbn [fst]. eapply wide_insert_or_assign; [reflexivity|exact I].
  - exfalso. revert I. injection E as <- <-. vm_compute. discriminate.
Qed.

Lemma emplace_accepts_witness :
  exists st',
    emplace demo_policy demo_specs no_throw (fst demo_s3) (snd demo_s3)
            5%Z 505%Z
    = (4%nat, st', Returned (Some 3%nat, true))
    /\ size demo_policy st' = 4%Z.
Proof.
  destruct (emplace_accepts Z demo_policy demo_specs no_throw (fst demo_s3)
                            (snd demo_s3) 5%Z 505%Z)
    as [st' [h [E [_ [_ [_ [_ [_ [_ [_ [_ Sz]]]]]]]]]]].
  - exact demo_config_ok.
  - exact demo_s3_wf.
  - intros _ H. simpl in H. intuition discriminate.
  - apply demo_fresh. reflexivity.
  - exact demo_no_throw.
  - reflexivity.
  - exists st'. split; [exact E|]. rewrite Sz. reflexivity.
Defined.

Lemma erase_iterator_witness :
  snd (erase demo_policy demo_specs (snd demo_s3) (Some 1%nat)) = Some 2%nat
  /\ visible demo_policy
             (fst (erase demo_policy demo_specs (snd demo_s3) (Some 1%nat)))
     = [0%nat; 2%nat]
  /\ size demo_policy
          (fst (erase demo_policy demo_specs (snd demo_s3) (Some 1%nat)))
     = 2%Z.
Proof.
  destruct (erase_iterator Z demo_policy demo_specs (fst demo_s3)
                           (snd demo_s3) 1 (mk_pair 1 1%Z 110%Z false 0))
    as [_ [It [_ [Vs [Sz _]]]]].
  - exact demo_config_ok.
  - exact demo_s3_wf.
  - reflexivity.
  - reflexivity.
  - reflexivity.
  - rewrite It, Vs, Sz. repeat split; reflexivity.
Defined.

Lemma clear_empties_witness :
  size demo_policy (clear demo_policy demo_specs (snd demo_s3)) = 0%Z
  /\ begin_ demo_policy (clear demo_policy demo_specs (snd demo_s3)) = end_.
Proof.
  destruct (clear_empties Z demo_policy demo_specs (fst demo_s3)
                          (snd demo_s3) demo_s3_wf)
    as [_ [_ [Sz [B _]]]].
  split; assumption.
Defined.

Lemma modify_accepts_witness :
  exists st',
    modify demo_policy demo_specs no_throw (snd demo_s3) (Some 0%nat)
           (fun _ => 105%Z)
    = (st', Returned true)
    /\ deref (m_storage st') 0 = Some (mk_pair 0 0%Z 105%Z false 0).
Proof.
  destruct (modify_accepts Z demo_policy demo_specs no_throw (fst demo_s3)
                           (snd demo_s3) 0 demo_r0 (fun _ => 105%Z))
    as [st' [E [_ [D _]]]].
  - exact demo_config_ok.
  - exact demo_s3_wf.
  - reflexivity.
  - exact demo_no_throw.
  - apply demo_no_collision. reflexivity.
  - reflexivity.
  - exists st'. split; [exact E|exact D].
Defined.

Lemma stored_reference_round_trip_witness :
  ToHandle demo_policy (snd demo_s3e) (GetSecondaryValue demo_policy demo_r1)
  = Some 1%nat
  /\ resolve demo_policy (snd demo_s3e)
             (GetSecondaryValue demo_policy demo_r1)
     = Some demo_r1.
Proof.
  destruct (stored_reference_round_trip Z demo_eq demo_policy demo_specs
                                        demo_s3e demo_config_ok
                                        demo_s3e_reachable demo_r1)
    as [H [R _]].
  - right; left; reflexivity.
  - split; [exact H|exact R].
Defined.

Lemma translation_invariant_witness :
  nth_error (transl (snd demo_t3)) 2 = Some 2%nat.
Proof.
  destruct (translation_invariant Z demo_eq (S_TranslationArrayPolicyFull true)
                                  demo_specs demo_t3
                                  (demo_fill_config_ok _)
                                  (demo_fill_reachable _) eq_refl
                                  (mk_pair 2 2%Z 121%Z false 2))
    as [_ [H _]].
  - right; right; left; reflexivity.
  - exact H.
Defined.

Lemma uniqueness_invariant_witness :
  NoDup (map (@addr Z) (m_storage (snd demo_s3e)))
  /\ map_sorted (@first Z) (m_storage (snd demo_s3e)).
Proof.
  destruct (uniqueness_invariant Z demo_eq demo_policy demo_specs demo_s3e
                                 demo_config_ok demo_s3e_reachable)
    as [N [S _]].
  split; assumption.
Defined.

Lemma emplace_erase_round_trip_witness :
  fst (erase S_NoInv demo_specs
             (snd (fst (emplace S_NoInv demo_specs no_throw (fst demo_n3)
                                (snd demo_n3) 5%Z 505%Z)))
             (Some 3%nat))
  = snd demo_n3.
Proof.
  apply (emplace_erase_round_trip Z S_NoInv demo_specs no_throw
                                  (fst demo_n3) (snd demo_n3) 5%Z 505%Z
                                  4%nat).
  - apply demo_fill_config_ok.
  - apply demo_fill_wf.
  - reflexivity.
  - reflexivity.
  - reflexivity.
Defined.

Lemma find_contains_witness :
  find_ demo_policy demo_specs (snd demo_s3e) 2%Z = Some 2%nat
  /\ find_ demo_policy demo_specs (snd demo_s3e) 7%Z = end_.
Proof.
  destruct (find_contains Z demo_policy demo_specs (fst demo_s3e)
                          (snd demo_s3e) 2%Z (proj1 demo_s3e_wf))
    as [F _].
  destruct (find_contains Z demo_policy demo_specs (fst demo_s3e)
                          (snd demo_s3e) 7%Z (proj1 demo_s3e_wf))
    as [_ [_ A]].
  split; [rewrite F; reflexivity|].
  apply A. intro H. simpl in H. intuition discriminate.
Defined.

Lemma try_emplace_emplace_witness :
  try_emplace demo_policy demo_specs no_throw (fst demo_s3) (snd demo_s3)
              5%Z 505%Z
  = emplace demo_policy demo_specs no_throw (fst demo_s3) (snd demo_s3)
            5%Z 505%Z.
Proof.
  apply (try_emplace_emplace Z demo_policy demo_specs no_throw (fst demo_s3)
                             (snd demo_s3) 5%Z 505%Z).
  exact (proj1 demo_s3_wf).
Defined.

Lemma empty_begin_end_witness :
  (empty demo_policy (snd demo_s3e) = true
   <-> begin_ demo_policy (snd demo_s3e) = end_)
  /\ (empty demo_policy (snd demo_s3e) = true
      <-> live (m_storage (snd demo_s3e)) = []).
Proof.
  apply (empty_begin_end Z demo_policy demo_specs (fst demo_s3e)
                         (snd demo_s3e)).
  - exact demo_s3e_wf.
  - reflexivity.
Defined.

Lemma count_live_records_witness :
  count demo_policy demo_specs (snd demo_s3e) 1%Z = 0%Z
  /\ count demo_policy demo_specs (snd demo_s3e) 2%Z = 1%Z.
Proof.
  split.
  - rewrite (proj1 (count_live_records Z demo_policy demo_specs
                                       (fst demo_s3e) (snd demo_s3e) 1%Z
                                       demo_config_ok demo_s3e_wf eq_refl)).
    reflexivity.
  - rewrite (proj1 (count_live_records Z demo_policy demo_specs
                                       (fst demo_s3e) (snd demo_s3e) 2%Z
                                       demo_config_ok demo_s3e_wf eq_refl)).
    reflexivity.
Defined.

Lemma equal_range_walk_witness :
  walk demo_policy 4 (snd demo_s3e)
       (fst (equal_range demo_policy (snd demo_s3e) 2%Z))
       (snd (equal_range demo_policy (snd demo_s3e) 2%Z))
  = [2%nat]
  /\ fst (equal_range demo_policy (snd demo_s3e) 1%Z)
     = snd (equal_range demo_policy (snd demo_s3e) 1%Z).
Proof.
  split.
  - exact (proj1 (equal_range_walk Z demo_policy demo_specs (fst demo_s3e)
                                   (snd demo_s3e) 2%Z (proj1 demo_s3e_wf))).
  - apply (proj2 (equal_range_walk Z demo_policy demo_specs (fst demo_s3e)
                                   (snd demo_s3e) 1%Z (proj1 demo_s3e_wf))).
    reflexivity.
Defined.

Lemma insert_or_assign_stores_witness :
  exists heap' st' r,
    insert_or_assign demo_policy demo_specs no_throw (fst demo_s3e)
                     (snd demo_s3e) 1%Z 77%Z
    = (heap', st', Returned (Some (addr r), true))
    /\ find_ demo_policy demo_specs st' 1%Z = Some (addr r)
    /\ m_value r = 77%Z /\ dead r = false.
Proof.
  destruct (insert_or_assign_stores Z demo_policy demo_specs no_throw
                                    (fst demo_s3e) (snd demo_s3e) 1%Z 77%Z)
    as [heap' [st' [r [E [_ [F [_ [_ [V D]]]]]]]]].
  - exact demo_config_ok.
  - exact demo_s3e_wf.
  - reflexivity.
  - exact demo_no_throw.
  - apply demo_unblocked. reflexivity.
  - reflexivity.
  - exists heap', st', r. split; [exact E|]. split; [exact F|].
    split; [exact V|exact D].
Defined.

Lemma view_size_is_size_witness :
  view_size (snd demo_s3e) 1 = 2%Z
  /\ length (idx (snd demo_s3e) 1) = 2%nat
  /\ length (m_storage (snd demo_s3e)) = 3%nat.
Proof.
  destruct (view_size_is_size Z demo_policy demo_specs (fst demo_s3e)
                              (snd demo_s3e) 1 demo_mod)
    as [Sz Ln].
  - exact demo_s3e_wf.
  - reflexivity.
  - reflexivity.
  - reflexivity.
  - split; [rewrite Sz; reflexivity|].
    split; [rewrite Ln; reflexivity|reflexivity].
Defined.

Lemma view_lookup_witness :
  view_count (snd demo_s3) 1 0%Z = 2%Z
  /\ (view_find (snd demo_s3) 1 7%Z = None
      <-> with_subkey demo_mod 7%Z (m_storage (snd demo_s3)) = []).
Proof.
  destruct (view_lookup Z demo_policy demo_specs (fst demo_s3) (snd demo_s3)
                        1 demo_mod 0%Z)
    as [_ [_ [C _]]].
  - exact demo_config_ok.
  - exact demo_s3_wf.
  - reflexivity.
  - reflexivity.
  - reflexivity.
  - destruct (view_lookup Z demo_policy demo_specs (fst demo_s3)
                          (snd demo_s3) 1 demo_mod 7%Z)
      as [F _].
    + exact demo_config_ok.
    + exact demo_s3_wf.
    + reflexivity.
    + reflexivity.
    + reflexivity.
    + split; [rewrite C; reflexivity|exact F].
Defined.

Lemma erase_view_removes_witness :
  idx (fst (erase_view demo_policy demo_specs 1 (snd demo_s3) (Some 0%nat))) 1
  = [(0%Z, SvHandle 1); (1%Z, SvHandle 2)]
  /\ snd (erase_view demo_policy demo_specs 1 (snd demo_s3) (Some 0%nat))
     = Some 0%nat.
Proof.
  destruct (erase_view_removes Z demo_policy demo_specs (fst demo_s3) 1
                               demo_mod (snd demo_s3) 0
                               (0%Z, SvHandle 0))
    as [r [_ [_ [_ [_ [Ix [_ It]]]]]]].
  - exact demo_config_ok.
  - reflexivity.
  - reflexivity.
  - exact demo_s3_wf.
  - reflexivity.
  - rewrite Ix, It. split; reflexivity.
Defined.

Lemma erase_by_subkey_witness :
  exists st',
    erase_tag demo_policy demo_specs 1 (snd demo_s3) 0%Z = Some (st', 2%Z)
    /\ size demo_policy st' = 1%Z
    /\ view_find st' 1 0%Z = None.
Proof.
  destruct (erase_by_subkey Z demo_policy demo_specs (fst demo_s3) 1
                            demo_mod (snd demo_s3) 0%Z)
    as [st' [E [_ [_ [F [Sz _]]]]]].
  - exact demo_config_ok.
  - exact demo_s3_wf.
  - reflexivity.
  - reflexivity.
  - reflexivity.
  - exists st'. split; [exact E|]. split; [rewrite Sz; reflexivity|exact F].
Defined.

Lemma copy_stable_witness :
  content (m_storage (snd (copy_construct_stable S_NoInv demo_specs
                                                 (fst demo_n3)
                                                 (snd demo_n3))))
  = [(0%Z, 100%Z); (1%Z, 110%Z); (2%Z, 121%Z)]
  /\ size S_NoInv (snd (CopyAssignCore S_NoInv demo_specs (fst demo_n3)
                                       (snd demo_n3) (snd demo_n3)))
     = 3%Z.
Proof.
  destruct (copy_stable Z S_NoInv demo_specs (fst demo_n3) (snd demo_n3)
                        (snd demo_n3))
    as [[_ [Ct _]] [_ [_ [Sz _]]]].
  - apply demo_fill_config_ok.
  - reflexivity.
  - apply demo_fill_wf.
  - apply demo_fill_wf.
  - split; [rewrite Ct; reflexivity|rewrite Sz; reflexivity].
Defined.

Lemma edit_commit_stores_witness :
  exists heap' st' r,
    edit_commit demo_eq demo_policy demo_specs no_throw (fst demo_s3e)
                (snd demo_s3e) 1%Z 0%Z (fun p => (p + 1)%Z)
    = (heap', st', Returned true)
    /\ find_ demo_policy demo_specs st' 1%Z = Some (addr r)
    /\ deref (m_storage st') (addr r) = Some r
    /\ m_value r = 111%Z.
Proof.
  destruct (edit_commit_stores Z demo_eq demo_policy demo_specs no_throw
                               (fst demo_s3e) (snd demo_s3e) 1%Z 0%Z
                               (fun p => (p + 1)%Z))
    as [heap' [st' [r [E [_ [F [D [_ [V _]]]]]]]]].
  - exact demo_config_ok.
  - exact demo_s3e_wf.
  - reflexivity.
  - exact demo_sound_eq.
  - exact demo_no_throw.
  - apply demo_unblocked. reflexivity.
  - reflexivity.
  - exists heap', st', r. split; [exact E|]. split; [exact F|].
    split; [exact D|exact V].
Defined.

Lemma erase_key_then_lookup_witness :
  find_ demo_policy demo_specs (snd demo_s3e) 1%Z = end_
  /\ contains demo_policy demo_specs (snd demo_s3e) 1%Z = false
  /\ erase_key demo_policy demo_specs (snd demo_s3e) 1%Z
     = Some (snd demo_s3e, 0%Z).
Proof.
  destruct (erase_key_then_lookup Z demo_policy demo_specs (fst demo_s3)
                                  (snd demo_s3) (snd demo_s3e) 1%Z 1%Z)
    as [F [Ct [E _]]].
  - exact demo_config_ok.
  - exact demo_s3_wf.
  - reflexivity.
  - reflexivity.
  - split; [exact F|]. split; [exact Ct|exact E].
Defined.

Lemma emplace_then_lookup_witness :
  contains demo_policy demo_specs
           (snd (fst (emplace demo_policy demo_specs no_throw (fst demo_s3)
                              (snd demo_s3) 5%Z 505%Z)))
           5%Z
  = true
  /\ find_ demo_policy demo_specs
           (snd (fst (emplace demo_policy demo_specs no_throw (fst demo_s3)
                              (snd demo_s3) 5%Z 505%Z)))
           5%Z
     = Some 3%nat.
Proof.
  destruct (emplace_then_lookup Z demo_policy demo_specs no_throw
                                (fst demo_s3) (snd demo_s3) 5%Z 505%Z
                                4%nat
                                (snd (fst (emplace demo_policy demo_specs
                                                   no_throw (fst demo_s3)
                                                   (snd demo_s3) 5%Z 505%Z)))
                                (Some 3%nat))
    as [Ct [_ [U _]]].
  - exact demo_config_ok.
  - exact demo_s3_wf.
  - reflexivity.
  - split; [exact Ct|]. exact (proj1 (U eq_refl)).
Defined.

Lemma modify_view_modify_witness :
  modify_view demo_policy demo_specs no_throw 1 (snd demo_s3) (Some 0%nat)
              (fun _ => 105%Z)
  = modify demo_policy demo_specs no_throw (snd demo_s3) (Some 0%nat)
           (fun _ => 105%Z).
Proof.
  destruct (modify_view_modify Z demo_policy demo_specs no_throw
                               (fst demo_s3) (snd demo_s3) 1 demo_mod 0
                               (0%Z, SvHandle 0) (fun _ => 105%Z))
    as [r [Rs [_ [_ E]]]].
  - exact demo_config_ok.
  - exact demo_s3_wf.
  - reflexivity.
  - reflexivity.
  - reflexivity.
  - vm_compute in Rs. injection Rs as <-. exact E.
Defined.

Lemma wide_interface_invariant_witness :
  size demo_policy (snd demo_w) = 3%Z
  /\ visible demo_policy (snd demo_w) = [0%nat; 1%nat; 2%nat].
Proof.
  destruct (wide_interface_invariant Z demo_eq demo_policy demo_specs demo_w)
    as [_ [_ [Sz Vs]]].
  - exact demo_config_ok.
  - exact demo_w_reachable.
  - reflexivity.
  - split; [rewrite Sz; reflexivity|rewrite Vs; reflexivity].
Defined.

Lemma emplace_existing_key_witness :
  emplace demo_policy demo_specs (fun _ => true) (fst demo_s3) (snd demo_s3)
          0%Z 999%Z
  = (fst demo_s3, snd demo_s3, Returned (Some 0%nat, false)).
Proof.
  apply (emplace_existing_key Z demo_policy demo_specs (fun _ => true)
                              (fst demo_s3) (snd demo_s3) 0%Z 999%Z demo_r0).
  - exact (proj1 demo_s3_wf).
  - reflexivity.
  - left. reflexivity.
  - reflexivity.
  - reflexivity.
Defined.

Lemma insert_or_assign_rejected_witness :
  exists st',
    insert_or_assign demo_policy demo_specs no_throw (fst demo_s3)
                     (snd demo_s3) 0%Z 121%Z
    = (fst demo_s3, st', Returned (Some 0%nat, false))
    /\ deref (m_storage st') 0 = Some demo_r0.
Proof.
  destruct (insert_or_assign_rejected Z demo_policy demo_specs no_throw
                                      (fst demo_s3) (snd demo_s3) 0%Z 121%Z
                                      demo_r0)
    as [st' [E [_ [_ [D _]]]]].
  - exact demo_config_ok.
  - exact demo_s3_wf.
  - reflexivity.
  - left. reflexivity.
  - reflexivity.
  - reflexivity.
  - exact demo_no_throw.
  - exact demo_collides.
  - exists st'. split; [exact E|exact D].
Defined.

Lemma replace_accepts_witness :
  exists st',
    replace demo_eq demo_policy demo_specs true no_throw (snd demo_s3e)
            (Some 1%nat) 110%Z
    = (st', Returned true)
    /\ deref (m_storage st') 1 = Some (mk_pair 1 1%Z 110%Z false 0)
    /\ size demo_policy st' = 3%Z.
Proof.
  destruct (replace_accepts Z demo_eq demo_policy demo_specs true no_throw
                            (fst demo_s3e) (snd demo_s3e) 1 demo_r1 110%Z)
    as [st' [E [_ [D [_ Sz]]]]].
  - exact demo_config_ok.
  - exact demo_s3e_wf.
  - reflexivity.
  - exact demo_sound_eq.
  - exact demo_no_throw.
  - apply demo_no_collision. reflexivity.
  - reflexivity.
  - exists st'. split; [exact E|]. split; [exact D|]. rewrite Sz.
    reflexivity.
Defined.

Lemma view_walk_live_witness :
  map_sorted (@fst Z t_handle) (view_walk demo_policy (snd demo_s3e) 1)
  /\ Permutation (view_walk demo_policy (snd demo_s3e) 1)
                 [(0%Z, Some 0%nat); (1%Z, Some 2%nat)].
Proof.
  destruct (view_walk_live Z demo_policy demo_specs (fst demo_s3e)
                           (snd demo_s3e) 1 demo_mod)
    as [So [P _]].
  - exact demo_config_ok.
  - exact demo_s3e_wf.
  - reflexivity.
  - reflexivity.
  - split; [exact So|exact P].
Defined.

Lemma modify_insert_throws_witness :
  exists st',
    modify demo_policy demo_specs (fun j => Nat.eqb j 2) (snd demo_s3)
           (Some 0%nat) (fun _ => 105%Z)
    = (st', Thrown)
    /\ deref (m_storage st') 0 = Some (mk_pair 0 0%Z 105%Z false 0)
    /\ idx st' 2 = [(110%Z, SvHandle 1); (121%Z, SvHandle 2)]
    /\ ~ wf demo_policy demo_specs (fst demo_s3) st'.
Proof.
  destruct (modify_insert_throws Z demo_policy demo_specs
                                 (fun j => Nat.eqb j 2) (fst demo_s3)
                                 (snd demo_s3) 0 demo_r0 (fun _ => 105%Z))
    as [st' [E [D [_ [_ [_ NW]]]]]].
  - exact demo_config_ok.
  - exact demo_s3_wf.
  - reflexivity.
  - apply demo_no_collision. reflexivity.
  - exists 2%nat, demo_id. repeat split; reflexivity.
  - exists st'. split; [exact E|]. split; [exact D|]. split; [|exact NW].
    revert E. vm_compute. intro E. injection E as <-. reflexivity.
Defined.
